(** * MR-MPI out-of-core MapReduce: the KeyValue container and the driver

    A shallow embedding of [src/new/keyvalue.cpp] (the paged key/value
    container) and of [src/new/mapreduce.cpp] (the driver's operators), with
    the properties stated about them.

    - [CInt]      : C integer conversions, the [ROUNDUP] macro, [roundup].
    - [KeyValue]  : the container at byte level: page memory, spill file,
                    page descriptors, [add], [complete], [request_page].
    - [MapReduce] : the driver: the operator state machine, task assignment
                    of [map], sorting, and the return values. *)

From Stdlib Require Import String.
From Stdlib Require Import ZArith List Lia Bool Permutation Sorted.
Import ListNotations.
Local Open Scope Z_scope.

(** ** Results of fallible code

    [error->one] and [error->all] print the message and abort the run; an
    operation that reaches one yields [Fatal] with that message and nothing
    after it is executed. *)

Inductive result (A : Type) : Type :=
| Ok (a : A)
| Fatal (msg : string).
Arguments Ok {A} a.
Arguments Fatal {A} msg.

Definition bind {A B : Type} (r : result A) (k : A -> result B) : result B :=
  match r with
  | Ok a => k a
  | Fatal m => Fatal m
  end.

Notation "x <- r ;; k" := (bind r (fun x => k))
  (at level 61, r at next level, right associativity).

Definition is_ok {A : Type} (r : result A) : bool :=
  match r with Ok _ => true | Fatal _ => false end.

(** ** C integers *)

Module CInt.

(** [#define INTMAX 0x7FFFFFFF] *)
Definition INTMAX : Z := 2147483647.

(** Conversion of a value to [int] (32 bits, two's complement). *)
Definition int_of (z : Z) : Z := (z + 2 ^ 31) mod 2 ^ 32 - 2 ^ 31.

(** Conversion of a value to [uint64_t] (also [size_t], and a pointer cast
    to an integer). *)
Definition u64 (z : Z) : Z := z mod 2 ^ 64.

(** [ROUNDUP(A,B)], defined as [((uint64_t) A + B) & ~B] cast back to a pointer.
    [A] is an address, [B] an [int] holding an alignment minus one; [~B] is
    computed on [int] and widened (sign-extended) to 64 bits by the [&]. *)
Definition ROUNDUP (A B : Z) : Z := Z.land (u64 (A + B)) (u64 (Z.lnot B)).

(** [uint64_t KeyValue::roundup(uint64_t n, int nalign)] *)
Definition roundup (n nalign : Z) : Z :=
  if n mod nalign =? 0 then n else u64 ((n / nalign + 1) * nalign).

(** [#define MAX(A,B) ((A) > (B)) ? (A) : (B)] *)
Definition MAX (A B : Z) : Z := if A >? B then A else B.

End CInt.

(** ** Byte memory

    Memory and files are maps from a byte position to a byte (a [Z] in
    [0,256) for the bytes this code writes itself).  A pointer argument of
    the caller is the content behind it: position [i] is [ptr[i]]. *)

Definition bytes := Z -> Z.

(** [memcpy(dst, src, n)] into memory [m]; [n] is a [size_t]. *)
Definition memcpy (m : bytes) (dst : Z) (src : bytes) (n : Z) : bytes :=
  fun a => if (dst <=? a) && (a <? dst + n) then src (a - dst) else m a.

(** Storing the [int] [v] at address [p] (little-endian). *)
Definition store_int (m : bytes) (p v : Z) : bytes :=
  fun a =>
    if (p <=? a) && (a <? p + 4)
    then (v mod 2 ^ 32) / 2 ^ (8 * (a - p)) mod 256
    else m a.

(** Loading the [int] at address [p]. *)
Definition load_int (m : bytes) (p : Z) : Z :=
  CInt.int_of (m p + 2 ^ 8 * m (p + 1) + 2 ^ 16 * m (p + 2) + 2 ^ 24 * m (p + 3)).

(** The bytes [p[0..n-1]] as a list. *)
Definition read_bytes (m : bytes) (p : Z) (n : Z) : list Z :=
  map (fun i => m (p + Z.of_nat i)) (seq 0 (Z.to_nat n)).

(** [a[i] = x] on an array held as a list: a position past the end is taken
    to be freshly (re)allocated, so the array grows by that element. *)
Fixpoint array_set {A : Type} (a : list A) (i : nat) (x : A) : list A :=
  match a, i with
  | [], _ => [x]
  | _ :: t, O => x :: t
  | h :: t, S j => h :: array_set t j x
  end.

(** * The KeyValue container ([src/new/keyvalue.cpp]) *)

Module KeyValue.
Import CInt.

(** [#define ALIGNFILE 512] and [#define PAGECHUNK 16] *)
Definition ALIGNFILE : Z := 512.
Definition PAGECHUNK : Z := 16.

(** [struct Page]: the descriptor of one page.  The class declaration that
    goes with this revision of keyvalue.cpp is not among the sources
    ([src/new/keyvalue.h] declares an earlier layout with a 7-argument
    constructor); the widths are the ones keyvalue.cpp fixes itself:
    [request_page] returns the [int] [nkey] and hands out [keysize],
    [valuesize] and [alignsize] through [uint64_t &], [create_page] computes
    [exactsize] on [uint64_t], [roundup] returns [uint64_t]. *)
Record Page : Type := mkPage {
  p_nkey : Z;          (* # of KV pairs *)
  p_keysize : Z;       (* exact size of keys *)
  p_valuesize : Z;     (* exact size of values *)
  p_exactsize : Z;     (* exact size of all data in page *)
  p_alignsize : Z;     (* rounded-up exactsize with alignment *)
  p_filesize : Z;      (* rounded-up alignsize for file I/O *)
  p_fileoffset : Z     (* summed filesize of all previous pages *)
}.

(** [class KeyValue].  [page] is the address of the in-memory page and
    [heap] the memory it points into; [disk] is the content of the spill
    file [filename], [fp] tells whether the file is open ([fp != NULL]).
    [rsize] and [wsize] are the static I/O counters. *)
Record t : Type := mk {
  nkv : Z; ksize : Z; vsize : Z; tsize : Z;
  kalign : Z; valign : Z; talign : Z;
  kalignm1 : Z; valignm1 : Z; talignm1 : Z;
  twolenbytes : Z;
  nkey : Z; keysize : Z; valuesize : Z; alignsize : Z;
  page : Z; pagesize : Z;
  pages : list Page; npage : Z; maxpage : Z;
  fileflag : bool; fp : bool;
  heap : bytes; disk : bytes;
  rsize : Z; wsize : Z
}.

(** Field updates (the assignments the methods make). *)
Definition set_totals (kv : t) (a b c d : Z) : t :=
  mk a b c d (kalign kv) (valign kv) (talign kv) (kalignm1 kv) (valignm1 kv)
     (talignm1 kv) (twolenbytes kv) (nkey kv) (keysize kv) (valuesize kv)
     (alignsize kv) (page kv) (pagesize kv) (pages kv) (npage kv) (maxpage kv)
     (fileflag kv) (fp kv) (heap kv) (disk kv) (rsize kv) (wsize kv).

Definition set_cursor (kv : t) (n ks vs al : Z) : t :=
  mk (nkv kv) (ksize kv) (vsize kv) (tsize kv) (kalign kv) (valign kv)
     (talign kv) (kalignm1 kv) (valignm1 kv) (talignm1 kv) (twolenbytes kv)
     n ks vs al (page kv) (pagesize kv) (pages kv) (npage kv) (maxpage kv)
     (fileflag kv) (fp kv) (heap kv) (disk kv) (rsize kv) (wsize kv).

Definition set_pages (kv : t) (ps : list Page) (np mp : Z) : t :=
  mk (nkv kv) (ksize kv) (vsize kv) (tsize kv) (kalign kv) (valign kv)
     (talign kv) (kalignm1 kv) (valignm1 kv) (talignm1 kv) (twolenbytes kv)
     (nkey kv) (keysize kv) (valuesize kv) (alignsize kv) (page kv)
     (pagesize kv) ps np mp
     (fileflag kv) (fp kv) (heap kv) (disk kv) (rsize kv) (wsize kv).

Definition set_file (kv : t) (ff f : bool) (d : bytes) (rs ws : Z) : t :=
  mk (nkv kv) (ksize kv) (vsize kv) (tsize kv) (kalign kv) (valign kv)
     (talign kv) (kalignm1 kv) (valignm1 kv) (talignm1 kv) (twolenbytes kv)
     (nkey kv) (keysize kv) (valuesize kv) (alignsize kv) (page kv)
     (pagesize kv) (pages kv) (npage kv) (maxpage kv)
     ff f (heap kv) d rs ws.

Definition set_heap (kv : t) (h : bytes) : t :=
  mk (nkv kv) (ksize kv) (vsize kv) (tsize kv) (kalign kv) (valign kv)
     (talign kv) (kalignm1 kv) (valignm1 kv) (talignm1 kv) (twolenbytes kv)
     (nkey kv) (keysize kv) (valuesize kv) (alignsize kv) (page kv)
     (pagesize kv) (pages kv) (npage kv) (maxpage kv)
     (fileflag kv) (fp kv) h (disk kv) (rsize kv) (wsize kv).

(** [pages[i]]; reading past the allocated array is not done by this code,
    the default stands for it. *)
Definition page_at (kv : t) (i : Z) : Page :=
  nth (Z.to_nat i) (pages kv) (mkPage 0 0 0 0 0 0 0).

(** [void KeyValue::init_page()] *)
Definition init_page (kv : t) : t := set_cursor kv 0 0 0 0.

(** [KeyValue::KeyValue(comm, memblock, memsize, memkalign, memvalign,
    memfile)].  [mem] is the memory behind [memblock]; the file does not
    exist yet. *)
Definition new (memblock : Z) (mem : bytes) (memsize : Z)
    (memkalign memvalign : Z) : t :=
  let talign0 := MAX memkalign memvalign in
  let talign1 := MAX talign0 4 in
  init_page
    (mk 0 0 0 0 memkalign memvalign talign1
        (memkalign - 1) (memvalign - 1) (talign1 - 1)
        (2 * 4)
        0 0 0 0 memblock memsize [] 0 0 false false mem (fun _ => 0) 0 0).

(** [void KeyValue::create_page()].  [descriptor] is the entry it writes
    into [pages[npage]] for the in-memory page. *)
Definition descriptor (kv : t) : Page :=
  mkPage (nkey kv) (keysize kv) (valuesize kv)
         (u64 (u64 (u64 (nkey kv) * twolenbytes kv) + keysize kv
               + valuesize kv))
         (alignsize kv)
         (roundup (alignsize kv) ALIGNFILE)
         (if npage kv =? 0 then 0
          else u64 (p_fileoffset (page_at kv (npage kv - 1))
                    + p_filesize (page_at kv (npage kv - 1)))).

Definition create_page (kv : t) : t :=
  let maxpage' :=
    if npage kv =? maxpage kv then int_of (maxpage kv + PAGECHUNK)
    else maxpage kv in
  set_pages kv (array_set (pages kv) (Z.to_nat (npage kv)) (descriptor kv))
            (npage kv) maxpage'.

(** [void KeyValue::write_page()]: opens the file with mode [wb] if it is
    closed (opening is taken to succeed; that mode empties the file), seeks
    to the page's offset and writes [filesize] bytes of the in-memory page. *)
Definition write_page (kv : t) : t :=
  let pg := page_at kv (npage kv) in
  let d0 := if fp kv then disk kv else (fun _ => 0) in
  let d := memcpy d0 (p_fileoffset pg)
                  (fun i => heap kv (page kv + i)) (p_filesize pg) in
  set_file kv (if fp kv then fileflag kv else true) true d (rsize kv)
           (u64 (wsize kv + p_filesize pg)).

(** [void KeyValue::read_page(int ipage, int writeflag)]: opens the file if
    it is closed, seeks and reads [filesize] bytes into the in-memory page. *)
Definition read_page (kv : t) (ipage : Z) (writeflag : Z) : t :=
  let pg := page_at kv ipage in
  let h := memcpy (heap kv) (page kv)
                  (fun i => disk kv (p_fileoffset pg + i)) (p_filesize pg) in
  set_heap (set_file kv (fileflag kv) true (disk kv)
                     (u64 (rsize kv + p_filesize pg)) (wsize kv)) h.

(** [npage++] *)
Definition incr_npage (kv : t) : t :=
  set_pages kv (pages kv) (int_of (npage kv + 1)) (maxpage kv).

(** The pointers [add] computes for a pair placed at address [iptr]. *)
Definition kptr_of (kv : t) (iptr : Z) : Z :=
  ROUNDUP (iptr + twolenbytes kv) (kalignm1 kv).
Definition vptr_of (kv : t) (iptr keybytes : Z) : Z :=
  ROUNDUP (kptr_of kv iptr + keybytes) (valignm1 kv).
Definition nptr_of (kv : t) (iptr keybytes valuebytes : Z) : Z :=
  ROUNDUP (vptr_of kv iptr keybytes + valuebytes) (talignm1 kv).

(** The parts of [KeyValue::add(char *key, int keybytes, char *value, int
    valuebytes)].  [kvbytes_of]: the [int] [kvbytes = nptr - iptr] for a
    pair placed at the end of the in-memory page.  [page_full]: the test
    for a full page (page size exceeded, or INTMAX pairs).  [flush]: the
    four calls that write the in-memory page out and start a new one.
    [store]: the two lengths and the two byte ranges written at [iptr], and
    the counters advanced. *)
Definition kvbytes_of (kv : t) (keybytes valuebytes : Z) : Z :=
  let iptr := page kv + alignsize kv in
  int_of (nptr_of kv iptr keybytes valuebytes - iptr).

Definition page_full (kv : t) (kvbytes : Z) : bool :=
  (u64 (alignsize kv + kvbytes) >? pagesize kv) || (nkey kv =? INTMAX).

Definition flush (kv : t) : t :=
  init_page (incr_npage (write_page (create_page kv))).

Definition store (kv : t) (key : bytes) (keybytes : Z)
    (value : bytes) (valuebytes : Z) : t :=
  let iptr := page kv + alignsize kv in
  let kptr := kptr_of kv iptr in
  let vptr := vptr_of kv iptr keybytes in
  let h1 := store_int (heap kv) iptr keybytes in
  let h2 := store_int h1 (iptr + 4) valuebytes in
  let h3 := memcpy h2 kptr key (u64 keybytes) in
  let h4 := memcpy h3 vptr value (u64 valuebytes) in
  set_cursor (set_heap kv h4)
    (int_of (nkey kv + 1))
    (u64 (keysize kv + keybytes))
    (u64 (valuesize kv + valuebytes))
    (u64 (alignsize kv + kvbytes_of kv keybytes valuebytes)).

(** [void KeyValue::add(char *key, int keybytes, char *value, int
    valuebytes)].  The method calls itself once after a flush; [fuel] bounds
    the nesting of calls (two levels are all it ever uses, see
    [add_never_exhausts]). *)
Fixpoint add_rec (fuel : nat) (kv : t) (key : bytes) (keybytes : Z)
    (value : bytes) (valuebytes : Z) : result t :=
  match fuel with
  | O => Fatal "add: call nesting exceeded"
  | S fuel' =>
    let kvbytes := kvbytes_of kv keybytes valuebytes in
    if kvbytes <? 0 then Fatal "Single key/value pair exceeds int size"
    else if page_full kv kvbytes then
      if alignsize kv =? 0 then
        Fatal "Single key/value pair exceeds page size"
      else add_rec fuel' (flush kv) key keybytes value valuebytes
    else Ok (store kv key keybytes value valuebytes)
  end.

Definition add (kv : t) (key : bytes) (keybytes : Z)
    (value : bytes) (valuebytes : Z) : result t :=
  add_rec 2 kv key keybytes value valuebytes.

(** The sum the loop of [complete] takes over the page descriptors. *)
Fixpoint sum_pages (f : Page -> Z) (ps : list Page) (acc : Z) : Z :=
  match ps with
  | [] => acc
  | p :: ps' => sum_pages f ps' (u64 (acc + f p))
  end.

(** [void KeyValue::complete()] *)
Definition complete (kv : t) : t :=
  let kv1 := create_page kv in
  let kv2 :=
    if fileflag kv1
    then let w := write_page kv1 in
         set_file w (fileflag w) false (disk w) (rsize w) (wsize w)
    else kv1 in
  let kv3 := init_page (incr_npage kv2) in
  let ps := firstn (Z.to_nat (npage kv3)) (pages kv3) in
  set_totals kv3 (sum_pages p_nkey ps 0) (sum_pages p_keysize ps 0)
             (sum_pages p_valuesize ps 0) (sum_pages p_exactsize ps 0).

(** [int KeyValue::request_info(char **ptr)]: the page count and [page]. *)
Definition request_info (kv : t) : Z * Z := (npage kv, page kv).

(** [int KeyValue::request_page(int ipage, uint64_t &keysize_page,
    uint64_t &valuesize_page, uint64_t &alignsize_page)]: the container
    after the call and the four values it hands out, [nkey] first. *)
Definition request_page (kv : t) (ipage : Z) : t * (Z * Z * Z * Z) :=
  let kv1 := if fileflag kv then read_page kv ipage 0 else kv in
  let kv2 :=
    if (ipage =? npage kv1 - 1) && fileflag kv1
    then set_file kv1 (fileflag kv1) false (disk kv1) (rsize kv1) (wsize kv1)
    else kv1 in
  let pg := page_at kv2 ipage in
  (kv2, (p_nkey pg, p_keysize pg, p_valuesize pg, p_alignsize pg)).

(** ** Page iteration by a consumer

    Every consumer in mapreduce.cpp walks a KeyValue the same way (for
    instance [MapReduce::map(MapReduce *mr, ...)], lines 1306-1328):
    [request_info], then for each page [request_page] and a scan of [nkey]
    records from [page], decoding the two lengths and rounding the pointer
    up as [add] did.  A [view] is what the consumer holds for one record:
    where it starts, the key and value pointers and lengths, and the memory
    they point into at that moment. *)
Record view : Type := mkView {
  v_start : Z;
  v_key : Z; v_keybytes : Z;
  v_value : Z; v_valuebytes : Z;
  v_mem : bytes
}.

Fixpoint scan_page (kv : t) (ptr : Z) (n : nat) : list view :=
  match n with
  | O => []
  | S n' =>
    let keybytes := load_int (heap kv) ptr in
    let valuebytes := load_int (heap kv) (ptr + 4) in
    let key := ROUNDUP (ptr + twolenbytes kv) (kalignm1 kv) in
    let value := ROUNDUP (key + keybytes) (valignm1 kv) in
    let next := ROUNDUP (value + valuebytes) (talignm1 kv) in
    mkView ptr key keybytes value valuebytes (heap kv)
      :: scan_page kv next n'
  end.

Fixpoint iterate_from (kv : t) (ipage : Z) (n : nat) : t * list (list view) :=
  match n with
  | O => (kv, [])
  | S n' =>
    let '(kv1, (nk, _, _, _)) := request_page kv ipage in
    let vs := scan_page kv1 (page kv1) (Z.to_nat nk) in
    let '(kv2, rest) := iterate_from kv1 (ipage + 1) n' in
    (kv2, vs :: rest)
  end.

(** The full iteration: one list of views per page, in page order. *)
Definition iterate (kv : t) : t * list (list view) :=
  iterate_from kv 0 (Z.to_nat (fst (request_info kv))).

(** A pair as the caller passes it to [add]. *)
Record pair : Type := mkPair {
  a_key : bytes; a_keybytes : Z;
  a_value : bytes; a_valuebytes : Z
}.

(** A sequence of [add] calls. *)
Fixpoint add_all (kv : t) (l : list pair) : result t :=
  match l with
  | [] => Ok kv
  | p :: l' =>
    kv' <- add kv (a_key p) (a_keybytes p) (a_value p) (a_valuebytes p) ;;
    add_all kv' l'
  end.

(** The bytes a view's key and value pointers designate. *)
Definition view_key (v : view) : list Z :=
  read_bytes (v_mem v) (v_key v) (v_keybytes v).
Definition view_value (v : view) : list Z :=
  read_bytes (v_mem v) (v_value v) (v_valuebytes v).
Definition pair_key (p : pair) : list Z :=
  read_bytes (a_key p) 0 (a_keybytes p).
Definition pair_value (p : pair) : list Z :=
  read_bytes (a_value p) 0 (a_valuebytes p).

(** The record layout of the specification: two lengths, pad to [kalign],
    the key, pad to [valign], the value, pad to [talign]; offsets relative
    to a record start that is itself aligned. *)
Definition pad (n a : Z) : Z := a * ((n + a - 1) / a).
Definition packed_size (kv : t) (keybytes valuebytes : Z) : Z :=
  pad (pad (pad (twolenbytes kv) (kalign kv) + keybytes) (valign kv)
       + valuebytes) (talign kv).

(** ** Well-formed containers

    What the driver guarantees when it builds a KeyValue and what [add]
    maintains between calls, as decidable checks.  [pow2b]: a positive power
    of two that an [int] holds.  [wf_config]: the alignments are powers of
    two with the derived fields as the constructor sets them, the page is
    [talign]-aligned, and the page and the largest pair that two [int]
    lengths describe lie below [2^64].  [wf_cursor]: the counters of the
    in-memory page are within the page, an empty page holds no pair, and
    an open spill file is one that exists. *)
Definition pow2b (x : Z) : bool :=
  (0 <? x) && (x <=? 2 ^ 30) && (x =? 2 ^ Z.log2 x).

Definition wf_config (kv : t) : bool :=
  pow2b (kalign kv) && pow2b (valign kv)
  && (talign kv =? Z.max (Z.max (kalign kv) (valign kv)) 4)
  && (kalignm1 kv =? kalign kv - 1) && (valignm1 kv =? valign kv - 1)
  && (talignm1 kv =? talign kv - 1) && (twolenbytes kv =? 8)
  && (0 <=? page kv) && (0 <=? pagesize kv)
  && (page kv + pagesize kv + 2 ^ 33 <=? 2 ^ 64).

Definition wf_cursor (kv : t) : bool :=
  (0 <=? nkey kv) && (nkey kv <=? INTMAX)
  && (0 <=? alignsize kv) && (alignsize kv <=? pagesize kv)
  && (alignsize kv mod talign kv =? 0)
  && ((0 <? alignsize kv) || (nkey kv =? 0))
  && (0 <=? keysize kv) && (0 <=? valuesize kv)
  && (keysize kv + valuesize kv <=? alignsize kv)
  && (0 <=? npage kv) && (npage kv <? INTMAX)
  && (npage kv <=? Z.of_nat (length (pages kv)))
  && (negb (fp kv) || fileflag kv).

Definition wf (kv : t) : bool :=
  wf_config kv && (page kv mod talign kv =? 0) && wf_cursor kv.

(** Whether a pair of packed size [sz] goes into the current page as it is:
    the test [add] makes before it flushes. *)
Definition fits_current (kv : t) (sz : Z) : bool :=
  (alignsize kv + sz <=? pagesize kv) && (nkey kv <? INTMAX).

(** A view shows a pair: the lengths and the byte ranges are the same. *)
Definition same_pair (p : pair) (v : view) : Prop :=
  v_keybytes v = a_keybytes p /\ v_valuebytes v = a_valuebytes p /\
  view_key v = pair_key p /\ view_value v = pair_value p.

(** Lengths a caller may pass: non-negative, and such that the packed pair
    stays below [2^32] bytes whatever the padding (two lengths, the key and
    the value, and less than one alignment unit of padding before the key,
    before the value and after it), so that the conversion of its size to
    [int] cannot wrap around to a size that looks valid. *)
Definition pair_ok (kv : t) (p : pair) : bool :=
  (0 <=? a_keybytes p) && (0 <=? a_valuebytes p)
  && (a_keybytes p <=? INTMAX) && (a_valuebytes p <=? INTMAX)
  && (8 + kalign kv + a_keybytes p + valign kv + a_valuebytes p + talign kv
      <=? 2 ^ 32).

Definition sum_keybytes (l : list pair) : Z :=
  fold_right (fun p s => a_keybytes p + s) 0 l.
Definition sum_valuebytes (l : list pair) : Z :=
  fold_right (fun p s => a_valuebytes p + s) 0 l.

End KeyValue.

(** * The containers as the driver uses them

    mapreduce.cpp never looks at a KeyValue's bytes except through the scan
    it repeats in every operator (read two lengths, round the pointer up
    three times), and it hands whole records from one container to another.
    The driver is therefore modelled over containers that hold records, one
    list per page; [KeyValueFacts.packing_round_trip] is what ties this view
    to the bytes.  A record is its key and its value, their lengths the
    lengths of the two byte strings. *)

Record entry : Type := mkEntry { e_key : list Z; e_value : list Z }.

Module KV.
Import CInt.

(** [class KeyValue] at record level.  [page] holds the records of the
    in-memory page, [pages] those of the virtual pages [0..npage-1].  The
    size of a record is the one [add] computes when the page address is a
    multiple of [talign]. *)
Record t : Type := mk {
  nkv : Z;
  kalign : Z; valign : Z; talign : Z;
  nkey : Z; alignsize : Z;
  page : list entry; pagesize : Z;
  pages : list (list entry)
}.

Definition npage (kv : t) : Z := Z.of_nat (length (pages kv)).

Definition keybytes (e : entry) : Z := Z.of_nat (length (e_key e)).
Definition valuebytes (e : entry) : Z := Z.of_nat (length (e_value e)).

(** [nptr - iptr] of [add], and of every scan, for one record. *)
Definition kvsize (ka va ta : Z) (e : entry) : Z :=
  KeyValue.pad (KeyValue.pad (KeyValue.pad 8 ka + keybytes e) va
                + valuebytes e) ta.

Definition esize (kv : t) (e : entry) : Z :=
  kvsize (kalign kv) (valign kv) (talign kv) e.

Definition sum_sizes (kv : t) (l : list entry) : Z :=
  fold_right (fun e s => esize kv e + s) 0 l.

Definition set_page (kv : t) (n al : Z) (p : list entry) : t :=
  mk (nkv kv) (kalign kv) (valign kv) (talign kv) n al p (pagesize kv)
     (pages kv).

Definition set_pages (kv : t) (ps : list (list entry)) : t :=
  mk (nkv kv) (kalign kv) (valign kv) (talign kv) (nkey kv) (alignsize kv)
     (page kv) (pagesize kv) ps.

Definition set_nkv (kv : t) (n : Z) : t :=
  mk n (kalign kv) (valign kv) (talign kv) (nkey kv) (alignsize kv)
     (page kv) (pagesize kv) (pages kv).

(** [init_page] *)
Definition init_page (kv : t) : t := set_page kv 0 0 [].

(** The constructor. *)
Definition new (memsize memkalign memvalign : Z) : t :=
  mk 0 memkalign memvalign (MAX (MAX memkalign memvalign) 4) 0 0 []
     memsize [].

(** [create_page(); write_page(); npage++; init_page();] *)
Definition flush (kv : t) : t :=
  init_page (set_pages kv (pages kv ++ [page kv])).

(** [append()] *)
Definition append (kv : t) : t :=
  match rev (pages kv) with
  | [] => kv
  | last :: before =>
    set_page (set_pages kv (rev before))
             (int_of (Z.of_nat (length last))) (sum_sizes kv last) last
  end.

(** [complete()] *)
Definition complete (kv : t) : t :=
  let kv1 := flush kv in
  set_nkv kv1 (u64 (Z.of_nat (length (concat (pages kv1))))).

(** [request_info] and [request_page]: the page count, and the records of
    page [ipage] ([nkey] is their number). *)
Definition request_info (kv : t) : Z := int_of (npage kv).
Definition request_page (kv : t) (ipage : Z) : list entry :=
  nth (Z.to_nat ipage) (pages kv) [].

(** [add(char *key, int keybytes, char *value, int valuebytes)] *)
Definition put (kv : t) (e : entry) (kvbytes : Z) : t :=
  set_page kv (int_of (nkey kv + 1)) (u64 (alignsize kv + kvbytes))
           (page kv ++ [e]).

Fixpoint add_rec (fuel : nat) (kv : t) (e : entry) : result t :=
  match fuel with
  | O => Fatal "add: call nesting exceeded"
  | S fuel' =>
    let kvbytes := int_of (esize kv e) in
    if kvbytes <? 0 then Fatal "Single key/value pair exceeds int size"
    else if (u64 (alignsize kv + kvbytes) >? pagesize kv)
            || (nkey kv =? INTMAX) then
      if alignsize kv =? 0 then
        Fatal "Single key/value pair exceeds page size"
      else add_rec fuel' (flush kv) e
    else Ok (put kv e kvbytes)
  end.

Definition add (kv : t) (e : entry) : result t := add_rec 2 kv e.

(** [add(int n, char *buf, uint64_t keysize_buf, uint64_t valuesize_buf,
    uint64_t alignsize_buf)], lines 388-464.  [take_chunk] is the inner scan
    for a breakpoint: it walks the records of the buffer until one ends
    past [ptr_end] or [nlimit] records are taken, and gives the records
    taken, the size of the record it stopped at, and the rest.  The scan
    has no bound of its own; run past the last record of the buffer it
    reads memory the caller did not fill, and the model stops there. *)
Fixpoint take_chunk (kv : t) (room nlimit : Z) (buf : list entry)
    (taken : list entry) (used : Z) : option (list entry * Z * Z * list entry) :=
  match buf with
  | [] => None
  | e :: rest =>
    let kvbytes := int_of (esize kv e) in
    if (used + esize kv e >? room)
       || (Z.of_nat (length taken) =? nlimit)
    then Some (taken, used, kvbytes, buf)
    else take_chunk kv room nlimit rest (taken ++ [e]) (used + esize kv e)
  end.

Fixpoint add_chunks (fuel : nat) (kv : t) (buf : list entry)
    (alignsize_buf nlimit : Z) : result t :=
  match fuel with
  | O => Fatal "add: chunk loop exceeded"
  | S fuel' =>
    if (u64 (alignsize kv + alignsize_buf) >? pagesize kv)
       || (int_of (Z.of_nat (length buf)) >? nlimit) then
      match take_chunk kv (pagesize kv - alignsize kv) nlimit buf [] 0 with
      | None => Fatal "add: scan past the end of the buffer"
      | Some (chunk, chunksize, kvbytes, rest) =>
        if u64 kvbytes >? pagesize kv then
          Fatal "Single key/value pair exceeds page size"
        else
          let kv1 :=
            set_page kv (int_of (nkey kv + Z.of_nat (length chunk)))
                     (u64 (alignsize kv + chunksize)) (page kv ++ chunk) in
          add_chunks fuel' (flush kv1) rest (u64 (alignsize_buf - chunksize))
                     INTMAX
      end
    else
      Ok (set_page kv (int_of (nkey kv + Z.of_nat (length buf)))
                   (u64 (alignsize kv + alignsize_buf)) (page kv ++ buf))
  end.

Definition add_sized (kv : t) (buf : list entry) (alignsize_buf : Z) : result t :=
  add_chunks (2 * length buf + 2) kv buf alignsize_buf
             (int_of (INTMAX - nkey kv)).

(** [add(int n, char *buf)], lines 354-379: the sizes are found by a scan. *)
Definition add_buf (kv : t) (buf : list entry) : result t :=
  add_sized kv buf (u64 (sum_sizes kv buf)).

(** [add(int n, char *buf, int kalign_buf, int valign_buf)]: one by one. *)
Fixpoint add_each (kv : t) (buf : list entry) : result t :=
  match buf with
  | [] => Ok kv
  | e :: rest => kv' <- add kv e ;; add_each kv' rest
  end.

(** [add(KeyValue *kv)]: page by page, in chunks when the alignments agree
    ([alignsize_other] is the size the other container recorded for the
    page, under its own alignment). *)
Fixpoint add_pages (kv : t) (other : t) (ps : list (list entry)) : result t :=
  match ps with
  | [] => Ok kv
  | p :: rest =>
    kv' <- (if (kalign kv =? kalign other) && (valign kv =? valign other)
            then add_sized kv p (sum_sizes other p)
            else add_each kv p) ;;
    add_pages kv' other rest
  end.

Definition add_kv (kv other : t) : result t := add_pages kv other (pages other).

End KV.

Module KMV.
Import CInt.

(** [class KeyMultiValue] is one of the classes whose code is not among the
    sources.  The layout of its pages is fixed by the scans of mapreduce.cpp
    ([reduce], [compress], [sort_multivalues]): a record is three [int]s,
    [keybytes], [mvaluebytes] and [nvalues], then [nvalues] value sizes, the
    key and the multivalue.  A record whose [nvalues] is not positive heads
    a multivalue split over [-nvalues] block pages, which follow the page
    of the record; a block page is a count, that many value sizes, and the
    values. *)
Record record : Type := mkRecord {
  keybytes : Z; mvaluebytes : Z; nvalues : Z;
  valuesizes : list Z;
  key : list Z; multivalue : list Z
}.

Inductive kmvpage : Type :=
| Records (l : list record)
| Block (sizes : list Z) (values : list Z).

Record t : Type := mk { nkmv : Z; pages : list kmvpage }.

(** [request_info] and [request_page]: the page count, and the records a
    scan of page [ipage] walks over. *)
Definition request_info (kmv : t) : Z := int_of (Z.of_nat (length (pages kmv))).

Definition request_page (kmv : t) (ipage : Z) : list record :=
  match nth (Z.to_nat ipage) (pages kmv) (Records []) with
  | Records l => l
  | Block _ _ => []
  end.

(** [overwrite_page(ipage)]: the in-memory page, as the caller changed it,
    replaces page [ipage]. *)
Fixpoint replace_nth {A : Type} (l : list A) (i : nat) (x : A) : list A :=
  match l, i with
  | [], _ => []
  | _ :: t, O => x :: t
  | h :: t, S j => h :: replace_nth t j x
  end.

Definition overwrite_page (kmv : t) (ipage : Z) (l : list record) : t :=
  match nth (Z.to_nat ipage) (pages kmv) (Records []) with
  | Records _ =>
    mk (nkmv kmv) (replace_nth (pages kmv) (Z.to_nat ipage) (Records l))
  | Block _ _ => kmv
  end.

(** The block pages [first .. first+n-1], what [multivalue_block] hands to
    a callback one at a time. *)
Definition blocks (kmv : t) (first n : Z) : list kmvpage :=
  firstn (Z.to_nat n) (skipn (Z.to_nat first) (pages kmv)).

End KMV.

(** ** What the driver calls and the sources do not contain

    [KeyMultiValue] (building a KMV from a KV), [Irregular] (the all-to-all
    exchange of [aggregate]), [Spool] (the paged stream of the merge sort),
    [hashlittle], the C library's [qsort], the memory [smalloc] returns, and
    the order in which [MPI_Recv] from [MPI_ANY_SOURCE] sees the workers.
    The driver is defined over any behaviour of these; what a property
    needs of them is a hypothesis of that property. *)
Class Externals : Type := {
  (** [new KeyMultiValue(...)], then [convert(kv,mem2,memhalf)], [clone(kv)]
      or [collapse(key,keybytes,kv)], then [complete()] *)
  kmv_convert : KV.t -> Z -> Z -> result KMV.t;
  kmv_clone : KV.t -> Z -> result KMV.t;
  kmv_collapse : list Z -> KV.t -> Z -> result KMV.t;
  (** [hashlittle(key,keybytes,nprocs)] *)
  hashlittle : list Z -> Z -> Z;
  (** [Irregular]: from what each rank sends (a destination and a record),
      what each rank receives, in the order it receives it *)
  irregular : list (list (Z * entry)) -> list (list entry);
  (** [Spool]: how a stream of records written to a spool whose page has
      [memspool] bytes comes back as pages *)
  spool_pages : Z -> list entry -> list (list entry);
  (** [qsort(base,n,sizeof(int),compar)] on an array of [int]s *)
  qsort : (Z -> Z -> Z) -> list Z -> list Z;
  (** the content of [n] [int]s of fresh memory *)
  smalloc_ints : Z -> list Z;
  (** [MPI_Recv] from [MPI_ANY_SOURCE]: which worker the master hears at
      its receive number [nrecv] (counted from 0), given the workers
      whose answer is pending; a function of the number of the receive,
      so that every order of arrival is one of these *)
  any_source : nat -> list Z -> Z
}.

(** * The driver ([src/new/mapreduce.cpp])

    Every rank of the communicator runs the same operator on its own
    [MapReduce] object; a group is the list of these objects, rank [me] at
    position [me], and [nprocs] is its length.  An operator is a function of
    the group: its work local to a rank is a function of that rank's
    object, its collective steps ([MPI_Allreduce], the exchanges of
    [aggregate] and [gather], the task hand-out of [map]) are functions of
    the whole list.  Counters that a loop keeps between 0 and an [int]
    bound are written without the conversion to [int]; every other [int]
    is converted where the code computes it. *)

Module MapReduce.
Import CInt.

(** [#define MBYTES 100], [ALIGNKV 4], [VALUECHUNK 128], [ALIGNFILE 512] *)
Definition MBYTES : Z := 100.
Definition ALIGNKV : Z := 4.
Definition VALUECHUNK : Z := 128.
Definition ALIGNFILE : Z := 512.

(** What rank 0 prints: the timing line of [stats], its heading, the
    totals line of [kv_stats] ([which = 0]) or [kmv_stats] ([which = 1])
    with the count it shows, and the histograms of level 2. *)
Inductive event : Type :=
| TimeLine (heading : string)
| StatsHead (heading : string)
| StatsCount (which : Z) (nkeyall : Z)
| StatsHisto (which : Z).

(** [class MapReduce]: the settings, what [allocate] computes, the two
    containers ([None] is the null pointer) and the printed output. *)
Record t : Type := mk {
  mapstyle : Z; verbosity : Z; timer : Z;
  memsize : Z; keyalign : Z; valuealign : Z;
  allocated : bool;
  kalign : Z; valign : Z; talign : Z;
  memquarter : Z; memhalf : Z; memtoggle : Z;
  kv : option KV.t; kmv : option KMV.t;
  out : list event
}.

Definition group : Type := list t.

(** The constructors. *)
Definition new : t :=
  mk 0 0 0 MBYTES ALIGNKV ALIGNKV false 0 0 0 0 0 0 None None [].

Definition set_kv (s : t) (k : option KV.t) : t :=
  mk (mapstyle s) (verbosity s) (timer s) (memsize s) (keyalign s)
     (valuealign s) (allocated s) (kalign s) (valign s) (talign s)
     (memquarter s) (memhalf s) (memtoggle s) k (kmv s) (out s).

Definition set_kmv (s : t) (m : option KMV.t) : t :=
  mk (mapstyle s) (verbosity s) (timer s) (memsize s) (keyalign s)
     (valuealign s) (allocated s) (kalign s) (valign s) (talign s)
     (memquarter s) (memhalf s) (memtoggle s) (kv s) m (out s).

Definition set_settings (s : t) (ms v tm ms' ka va : Z) : t :=
  mk ms v tm ms' ka va (allocated s) (kalign s) (valign s) (talign s)
     (memquarter s) (memhalf s) (memtoggle s) (kv s) (kmv s) (out s).

(** [verbosity = ...; timer = ...;] *)
Definition set_verbose (s : t) (v tm : Z) : t :=
  set_settings s (mapstyle s) v tm (memsize s) (keyalign s) (valuealign s).

Definition set_memory (s : t) (al : bool) (ka va ta mq mh mt : Z) : t :=
  mk (mapstyle s) (verbosity s) (timer s) (memsize s) (keyalign s)
     (valuealign s) al ka va ta mq mh mt (kv s) (kmv s) (out s).

Definition print (s : t) (e : event) : t :=
  mk (mapstyle s) (verbosity s) (timer s) (memsize s) (keyalign s)
     (valuealign s) (allocated s) (kalign s) (valign s) (talign s)
     (memquarter s) (memhalf s) (memtoggle s) (kv s) (kmv s) (out s ++ [e]).

(** [memswap()]: the other quarter becomes the available one. *)
Definition memswap (s : t) : t :=
  set_memory s (allocated s) (kalign s) (valign s) (talign s) (memquarter s)
             (memhalf s) (if memtoggle s =? 0 then 1 else 0).

(** [while (tmp < kalign) tmp *= 2;] on [int]; with wrap-around the loop
    does not end for an alignment above [2^30], [None] stands for that. *)
Fixpoint doubling (fuel : nat) (tmp a : Z) : option Z :=
  match fuel with
  | O => None
  | S fuel' => if tmp <? a then doubling fuel' (int_of (tmp * 2)) a else Some tmp
  end.

(** [allocate()] *)
Definition allocate (s : t) : result t :=
  if memsize s <=? 0 then Fatal "Invalid memsize setting"
  else
    let nbytes := u64 (int_of (int_of (memsize s * 1024) * 1024)) in
    match doubling 64 1 (keyalign s), doubling 64 1 (valuealign s) with
    | Some tmpk, Some tmpv =>
      if negb (tmpk =? keyalign s) then Fatal "Invalid alignment setting"
      else if negb (tmpv =? valuealign s) then Fatal "Invalid alignment setting"
      else Ok (set_memory s true (keyalign s) (valuealign s)
                 (MAX (MAX (keyalign s) (valuealign s)) 4)
                 (nbytes / 4) (nbytes / 2) 0)
    | Some tmpk, None =>
      if negb (tmpk =? keyalign s) then Fatal "Invalid alignment setting"
      else Fatal "allocate: the doubling loop does not end"
    | None, _ => Fatal "allocate: the doubling loop does not end"
    end.

(** [new KeyValue(comm,memavail,memquarter,memtoggle,kalign,valign,
    instances)] *)
Definition new_kv (s : t) : KV.t := KV.new (memquarter s) (kalign s) (valign s).

(** ** Collective steps *)

(** Running the rank-local part [f me nprocs] on every rank; the run is
    aborted by the first rank that reaches an error. *)
Fixpoint each_from (f : Z -> t -> result t) (me : Z) (g : group) : result group :=
  match g with
  | [] => Ok []
  | s :: rest =>
    s' <- f me s ;;
    rest' <- each_from f (me + 1) rest ;;
    Ok (s' :: rest')
  end.

Definition each (f : Z -> Z -> t -> result t) (g : group) : result group :=
  each_from (fun me => f me (Z.of_nat (length g))) 0 g.

(** [MPI_Allreduce(&x,&all,1,MPI_INT,MPI_SUM,comm)]: every rank
    contributes the [int] at the address it passes. *)
Definition allreduce_sum (xs : list Z) : Z :=
  int_of (fold_right Z.add 0 (map int_of xs)).

(** [MPI_Allreduce(...,MPI_INT,MPI_MAX,comm)] *)
Definition allreduce_max (xs : list Z) : Z :=
  fold_right Z.max (- 2 ^ 31) (map int_of xs).

(** [kv->nkv] and [kmv->nkmv] as the reductions at the end of the
    operators read them; the container is there wherever they do. *)
Definition nkv_of (s : t) : Z :=
  match kv s with Some k => KV.nkv k | None => 0 end.
Definition nkmv_of (s : t) : Z :=
  match kmv s with Some m => KMV.nkmv m | None => 0 end.

Definition nkeyall_kv (g : group) : Z := allreduce_sum (map nkv_of g).
Definition nkeyall_kmv (g : group) : Z := allreduce_sum (map nkmv_of g).

(** [start_timer()]: a barrier and a reading of the clock, which is not
    part of the state.
    [stats(heading,which,level)] with [kv_stats] and [kmv_stats]; [level]
    is [verbosity] at every call. *)
Definition stats_rank (heading : string) (which : Z) (nkv_all nkmv_all : Z)
    (me : Z) (s : t) : result t :=
  let s1 :=
    if ((timer s =? 1) || (timer s =? 2)) && (me =? 0)
    then print s (TimeLine heading) else s in
  if verbosity s1 =? 0 then Ok s1
  else
    let s2 := if me =? 0 then print s1 (StatsHead heading) else s1 in
    let found := if which =? 0 then match kv s2 with Some _ => true | None => false end
                 else match kmv s2 with Some _ => true | None => false end in
    if negb found then
      Fatal (if which =? 0 then "Cannot print stats without KeyValue"
             else "Cannot print stats without KeyMultiValue")
    else
      let w := if which =? 0 then 0 else 1 in
      let s3 :=
        if me =? 0
        then print s2 (StatsCount w (if which =? 0 then nkv_all else nkmv_all))
        else s2 in
      Ok (if (verbosity s =? 2) && (me =? 0) then print s3 (StatsHisto w) else s3).

Definition stats (heading : string) (which : Z) (g : group) : result group :=
  each (fun me _ => stats_rank heading which (nkeyall_kv g) (nkeyall_kmv g) me) g.

Section Operators.
Context {E : Externals}.

(** ** Operators that turn a KeyValue into a KeyMultiValue *)

(** [convert()], lines 641-658 *)
Definition convert_rank (s : t) : result t :=
  match kv s with
  | None => Fatal "Cannot convert without KeyValue"
  | Some k =>
    m <- kmv_convert k (memquarter s) (memhalf s) ;;
    Ok (set_kv (set_kmv (memswap s) (Some m)) None)
  end.

Definition convert (g : group) : result (Z * group) :=
  g1 <- each (fun _ _ => convert_rank) g ;;
  g2 <- stats "Convert" 1 g1 ;;
  Ok (nkeyall_kmv g2, g2).

(** [clone()], lines 476-493 *)
Definition clone_rank (s : t) : result t :=
  match kv s with
  | None => Fatal "Cannot clone without KeyValue"
  | Some k =>
    m <- kmv_clone k (memquarter s) ;;
    Ok (set_kv (set_kmv (memswap s) (Some m)) None)
  end.

Definition clone (g : group) : result (Z * group) :=
  g1 <- each (fun _ _ => clone_rank) g ;;
  g2 <- stats "Clone" 1 g1 ;;
  Ok (nkeyall_kmv g2, g2).

(** [collapse(key,keybytes)], lines 502-519 *)
Definition collapse_rank (key : list Z) (s : t) : result t :=
  match kv s with
  | None => Fatal "Cannot collapse without KeyValue"
  | Some k =>
    m <- kmv_collapse key k (memquarter s) ;;
    Ok (set_kv (set_kmv (memswap s) (Some m)) None)
  end.

Definition collapse (key : list Z) (g : group) : result (Z * group) :=
  g1 <- each (fun _ _ => collapse_rank key) g ;;
  g2 <- stats "Collapse" 1 g1 ;;
  Ok (nkeyall_kmv g2, g2).

(** ** [aggregate(hash)], lines 341-468 *)

Definition require_kv (msg : string) (s : t) : result t :=
  match kv s with None => Fatal msg | Some _ => Ok s end.

Definition require_kmv (msg : string) (s : t) : result t :=
  match kmv s with None => Fatal msg | Some _ => Ok s end.

(** [proclist[i]]: the user's hash, or [hashlittle], modulo [nprocs] (the
    remainder of C). *)
Definition proc_of (hash : option (list Z -> Z)) (nprocs : Z) (e : entry) : Z :=
  match hash with
  | Some h => Z.rem (int_of (h (e_key e))) nprocs
  | None => Z.rem (hashlittle (e_key e) nprocs) nprocs
  end.

(** What one rank sends for page [ipage]: nothing once its own pages are
    through. *)
Definition page_send (hash : option (list Z -> Z)) (nprocs ipage : Z) (s : t)
    : list (Z * entry) :=
  match kv s with
  | None => []
  | Some k =>
    if ipage <? KV.request_info k
    then map (fun e => (proc_of hash nprocs e, e)) (KV.request_page k ipage)
    else []
  end.

(** [kvnew->add(nkey_recv,page_recv)] on every rank. *)
Fixpoint receive (kvnew : list KV.t) (recv : list (list entry)) : result (list KV.t) :=
  match kvnew with
  | [] => Ok []
  | k :: rest =>
    k' <- KV.add_buf k (hd [] recv) ;;
    rest' <- receive rest (tl recv) ;;
    Ok (k' :: rest')
  end.

(** The loop over [ipage < maxpage]; [n] pages are left. *)
Fixpoint exchange_pages (hash : option (list Z -> Z)) (g : group)
    (ipage : Z) (n : nat) (kvnew : list KV.t) : result (list KV.t) :=
  match n with
  | O => Ok kvnew
  | S n' =>
    let nprocs := Z.of_nat (length g) in
    let recv := irregular (map (page_send hash nprocs ipage) g) in
    kvnew' <- receive kvnew recv ;;
    exchange_pages hash g (ipage + 1) n' kvnew'
  end.

(** [delete kv; kv = kvnew; kv->complete();] *)
Definition install (s : t) (k : KV.t) : t :=
  set_kv (memswap s) (Some (KV.complete k)).

Definition aggregate (hash : option (list Z -> Z)) (g : group) : result (Z * group) :=
  g0 <- each (fun _ _ => require_kv "Cannot aggregate without KeyValue") g ;;
  if Z.of_nat (length g0) =? 1 then
    g1 <- stats "Aggregate" 0 g0 ;;
    Ok (int_of (nkv_of (hd new g1)), g1)
  else
    let maxpage :=
      allreduce_max
        (map (fun s => match kv s with
                       | Some k => KV.request_info k | None => 0 end) g0) in
    kvnew <- exchange_pages hash g0 0 (Z.to_nat maxpage) (map new_kv g0) ;;
    let g1 := map (fun sk => install (fst sk) (snd sk)) (combine g0 kvnew) in
    g2 <- stats "Aggregate" 0 g1 ;;
    Ok (nkeyall_kv g2, g2).

(** ** [collate(hash)], lines 527-546 *)

(** [verbosity = verbosity_hold; timer = timer_hold;] on every rank, from
    the values each rank held. *)
Definition restore (hold g : group) : group :=
  map (fun hs => set_verbose (snd hs) (verbosity (fst hs)) (timer (fst hs)))
      (combine hold g).

Definition collate (hash : option (list Z -> Z)) (g : group) : result (Z * group) :=
  g0 <- each (fun _ _ => require_kv "Cannot collate without KeyValue") g ;;
  let quiet := map (fun s => set_verbose s 0 0) g0 in
  r1 <- aggregate hash quiet ;;
  r2 <- convert (snd r1) ;;
  g3 <- stats "Collate" 1 (restore g0 (snd r2)) ;;
  Ok (nkeyall_kmv g3, g3).

(** ** [reduce] and [compress]: a callback per KMV record

    The callback is the user's [appreduce] or [appcompress]: given the
    record, or for a split multivalue the record and its block pages (what
    [multivalue_blocks] and [multivalue_block] hand out), it adds pairs to
    the KeyValue it is passed. *)
Inductive call : Type :=
| Whole (r : KMV.record)
| Split (r : KMV.record) (blocks : list KMV.kmvpage).

Definition callback : Type := call -> KV.t -> result KV.t.

(** The loop over [i < nkey] of one page; [ipage] is advanced past the
    block pages of a split multivalue inside it. *)
Fixpoint scan_records (f : callback) (m : KMV.t) (recs : list KMV.record)
    (ipage : Z) (k : KV.t) : result (Z * KV.t) :=
  match recs with
  | [] => Ok (ipage, k)
  | r :: rest =>
    if KMV.nvalues r >? 0 then
      k' <- f (Whole r) k ;;
      scan_records f m rest ipage k'
    else
      let nblock_kmv := int_of (- KMV.nvalues r) in
      k' <- f (Split r (KMV.blocks m (ipage + 1) nblock_kmv)) k ;;
      scan_records f m rest (int_of (ipage + nblock_kmv)) k'
  end.

(** The loop over [ipage < npage]. *)
Fixpoint scan_kmv (fuel : nat) (f : callback) (m : KMV.t) (ipage : Z)
    (k : KV.t) : result KV.t :=
  match fuel with
  | O => Fatal "scan: page loop exceeded"
  | S fuel' =>
    if ipage <? KMV.request_info m then
      r <- scan_records f m (KMV.request_page m ipage) ipage k ;;
      scan_kmv fuel' f m (int_of (fst r + 1)) (snd r)
    else Ok k
  end.

Definition scan_fuel (m : KMV.t) : nat := S (length (KMV.pages m)).

(** [reduce(appreduce,appptr)], lines 1347-1416 *)
Definition reduce_rank (f : callback) (s : t) : result t :=
  match kmv s with
  | None => Fatal "Cannot reduce without KeyMultiValue"
  | Some m =>
    let s1 := memswap (set_kv s (Some (new_kv s))) in
    k <- scan_kmv (scan_fuel m) f m 0 (new_kv s) ;;
    Ok (set_kmv (set_kv s1 (Some (KV.complete k))) None)
  end.

Definition reduce (f : callback) (g : group) : result (Z * group) :=
  g1 <- each (fun _ _ => reduce_rank f) g ;;
  g2 <- stats "Reduce" 0 g1 ;;
  Ok (nkeyall_kv g2, g2).

(** [compress(appcompress,appptr)], lines 557-631 *)
Definition compress_rank (f : callback) (s : t) : result t :=
  match kv s with
  | None => Fatal "Cannot compress without KeyValue"
  | Some k0 =>
    m <- kmv_convert k0 (memquarter s) (memhalf s) ;;
    let s1 := memswap (set_kmv s (Some m)) in
    let s2 := memswap (set_kv s1 (Some (new_kv s1))) in
    k <- scan_kmv (scan_fuel m) f m 0 (new_kv s1) ;;
    Ok (set_kmv (set_kv s2 (Some (KV.complete k))) None)
  end.

Definition compress (f : callback) (g : group) : result (Z * group) :=
  g1 <- each (fun _ _ => compress_rank f) g ;;
  g2 <- stats "Compress" 0 g1 ;;
  Ok (nkeyall_kv g2, g2).

(** ** [gather(numprocs)], lines 665-733 *)

(** The pages rank [me < numprocs] receives: those of the ranks [me +
    numprocs], [me + 2 numprocs], ..., each with the size its owner
    recorded for it ([kv->add(sizes[0],buf,sizes[1],sizes[2],sizes[3])]).
    [n] bounds the number of senders. *)
Fixpoint receive_pages (k other : KV.t) (ps : list (list entry)) : result KV.t :=
  match ps with
  | [] => Ok k
  | p :: rest =>
    k' <- KV.add_sized k p (KV.sum_sizes other p) ;;
    receive_pages k' other rest
  end.

Fixpoint gather_from (g : group) (numprocs iproc : Z) (n : nat) (k : KV.t)
    : result KV.t :=
  match n with
  | O => Ok k
  | S n' =>
    if iproc <? Z.of_nat (length g) then
      match kv (nth (Z.to_nat iproc) g new) with
      | None => Ok k
      | Some other =>
        k' <- receive_pages k other
                (firstn (Z.to_nat (KV.request_info other)) (KV.pages other)) ;;
        gather_from g numprocs (int_of (iproc + numprocs)) n' k'
      end
    else Ok k
  end.

Definition gather_rank (g : group) (numprocs : Z) (me nprocs : Z) (s : t)
    : result t :=
  match kv s with
  | None => Fatal "Cannot gather without KeyValue"
  | Some k =>
    if me <? numprocs then
      k' <- gather_from g numprocs (int_of (me + numprocs)) (length g)
                        (KV.append k) ;;
      Ok (set_kv s (Some (KV.complete k')))
    else
      Ok (memswap (set_kv s (Some (KV.complete (new_kv s)))))
  end.

Definition gather (numprocs : Z) (g : group) : result (Z * group) :=
  let nprocs := Z.of_nat (length g) in
  g0 <- each (fun _ _ s =>
                _ <- require_kv "Cannot gather without KeyValue" s ;;
                if (numprocs <? 1) || (numprocs >? nprocs)
                then Fatal "Invalid proc count for gather" else Ok s) g ;;
  if (nprocs =? 1) || (numprocs =? nprocs) then
    g1 <- stats "Gather" 0 g0 ;;
    Ok (nkeyall_kv g1, g1)
  else
    g1 <- each (gather_rank g0 numprocs) g0 ;;
    g2 <- stats "Gather" 0 g1 ;;
    Ok (nkeyall_kv g2, g2).

(** ** [scrunch(numprocs,key,keybytes)], lines 1426-1445 *)
Definition scrunch (numprocs : Z) (key : list Z) (g : group) : result (Z * group) :=
  g0 <- each (fun _ _ => require_kv "Cannot scrunch without KeyValue") g ;;
  let quiet := map (fun s => set_verbose s 0 0) g0 in
  r1 <- gather numprocs quiet ;;
  r2 <- collapse key (snd r1) ;;
  g3 <- stats "Scrunch" 1 (restore g0 (snd r2)) ;;
  Ok (nkeyall_kmv g3, g3).

(** ** [map(nmap,appmap,appptr,addflag)], lines 741-832 *)

(** [for (int itask = lo; itask < hi; itask += step) body(itask)].  The
    loop makes at most [fuel] passes; a loop that [fuel] cuts short is one
    whose counter overflowed, which C leaves undefined. *)
Fixpoint for_loop {X : Type} (fuel : nat) (itask hi step : Z)
    (body : Z -> X -> result X) (x : X) : result X :=
  match fuel with
  | O => Fatal "for: counter overflow"
  | S fuel' =>
    if itask <? hi then
      x' <- body itask x ;;
      for_loop fuel' (int_of (itask + step)) hi step body x'
    else Ok x
  end.

Definition loop_fuel (nmap : Z) : nat := S (Z.to_nat nmap).

(** [lo] and [hi] of mapstyle 0: [me * nmap64 / nprocs] on [uint64_t],
    converted to [int]. *)
Definition chunk_lo (me nprocs nmap : Z) : Z :=
  int_of (u64 (u64 me * u64 nmap) / u64 nprocs).
Definition chunk_hi (me nprocs nmap : Z) : Z :=
  int_of (u64 (u64 (int_of (me + 1)) * u64 nmap) / u64 nprocs).

(** The master of mapstyle 2 (rank 0).  [hand_out]: the first loop, one
    message to every worker in rank order, a task while there are some and
    the done flag after that.  [serve]: the second loop, each pass hears
    from one of the workers that still has a task and answers it the same
    way; [nrecv] counts the passes.  A source that is not among the
    pending workers cannot be heard; the first pending worker stands for
    it.  The result is who was sent which task, in the order of
    sending. *)
Fixpoint hand_out (workers : list Z) (itask nmap : Z)
    : list (Z * Z) * list Z * Z :=
  match workers with
  | [] => ([], [], itask)
  | iproc :: rest =>
    if itask <? nmap then
      let '(sent, busy, itask') := hand_out rest (itask + 1) nmap in
      ((iproc, itask) :: sent, iproc :: busy, itask')
    else hand_out rest itask nmap
  end.

Definition without (busy : list Z) (iproc : Z) : list Z :=
  filter (fun p => negb (p =? iproc)) busy.

Fixpoint serve (fuel : nat) (nrecv : nat) (busy : list Z) (itask nmap : Z)
    : list (Z * Z) :=
  match fuel, busy with
  | O, _ => []
  | _, [] => []
  | S fuel', first :: _ =>
    let heard := any_source nrecv busy in
    let iproc := if existsb (Z.eqb heard) busy then heard else first in
    if itask <? nmap
    then (iproc, itask) :: serve fuel' (S nrecv) busy (itask + 1) nmap
    else serve fuel' (S nrecv) (without busy iproc) itask nmap
  end.

Definition master (nprocs nmap : Z) : list (Z * Z) :=
  let workers := map Z.of_nat (seq 1 (Z.to_nat (nprocs - 1))) in
  let '(sent, busy, itask) := hand_out workers 0 nmap in
  sent ++ serve (Z.to_nat nmap + Z.to_nat nprocs)%nat 0 busy itask nmap.

(** The tasks a worker receives, in order. *)
Definition received (schedule : list (Z * Z)) (me : Z) : list Z :=
  map snd (filter (fun x => fst x =? me) schedule).

Fixpoint run_list {X : Type} (tasks : list Z) (body : Z -> X -> result X)
    (x : X) : result X :=
  match tasks with
  | [] => Ok x
  | itask :: rest => x' <- body itask x ;; run_list rest body x'
  end.

(** The four-way branch on [nprocs] and [mapstyle] with its loops, for a
    loop body [body] ([appmap(itask,kv,appptr)]) acting on [x]. *)
Definition run_tasks {X : Type} (mapstyle me nprocs nmap : Z)
    (body : Z -> X -> result X) (x : X) : result X :=
  if nprocs =? 1 then for_loop (loop_fuel nmap) 0 nmap 1 body x
  else if mapstyle =? 0 then
    for_loop (loop_fuel nmap) (chunk_lo me nprocs nmap)
             (chunk_hi me nprocs nmap) 1 body x
  else if mapstyle =? 1 then for_loop (loop_fuel nmap) me nmap nprocs body x
  else if mapstyle =? 2 then
    if me =? 0 then Ok x
    else run_list (received (master nprocs nmap) me) body x
  else Fatal "Invalid mapstyle setting".

(** The calls of [appmap] a rank makes, in order. *)
Definition map_tasks (mapstyle me nprocs nmap : Z) : result (list Z) :=
  run_tasks mapstyle me nprocs nmap (fun itask l => Ok (l ++ [itask])) [].

Definition map_rank (nmap : Z) (appmap : Z -> KV.t -> result KV.t)
    (addflag : Z) (me nprocs : Z) (s : t) : result t :=
  s1 <- (if allocated s then Ok s else allocate s) ;;
  let s2 := set_kmv s1 None in
  let '(s3, k) :=
    if addflag =? 0 then (memswap s2, new_kv s2)
    else match kv s2 with
         | None => (memswap s2, new_kv s2)
         | Some k0 => (s2, KV.append k0)
         end in
  k' <- run_tasks (mapstyle s3) me nprocs nmap appmap k ;;
  Ok (set_kv s3 (Some (KV.complete k'))).

Definition map (nmap : Z) (appmap : Z -> KV.t -> result KV.t) (addflag : Z)
    (g : group) : result (Z * group) :=
  g1 <- each (map_rank nmap appmap addflag) g ;;
  g2 <- stats "Map" 0 g1 ;;
  Ok (nkeyall_kv g2, g2).

(** ** [add(MapReduce *mr)], lines 311-330

    The argument is this object itself or another one; [add] takes the
    argument each rank passes, as a function of the rank. *)
Inductive engine : Type :=
| This
| Another (mr : t).

Definition add_rank (mr : engine) (s : t) : result t :=
  match kv s with
  | None => Fatal "Cannot add without KeyValue"
  | Some k =>
    let mr_kv := match mr with This => kv s | Another m => kv m end in
    match mr_kv with
    | None => Fatal "MapReduce passed to add() does not have KeyValue pairs"
    | Some other =>
      match mr with
      | This => Fatal "Cannot add to self"
      | Another _ =>
        s1 <- (if allocated s then Ok s else allocate s) ;;
        k' <- KV.add_kv (KV.append k) other ;;
        Ok (set_kv s1 (Some (KV.complete k')))
      end
    end
  end.

Definition add (mr : Z -> engine) (g : group) : result (Z * group) :=
  g1 <- each (fun me _ => add_rank (mr me)) g ;;
  g2 <- stats "Add" 0 g1 ;;
  Ok (nkeyall_kv g2, g2).

(** ** [sort_keys], [sort_values] and [sort_kv], lines 1490-1920

    [compare] is the user's [appcompare]: two byte strings in, an [int]
    out, of which only the sign is used. *)
Definition comparison : Type := list Z -> list Z -> Z.

(** What a read past the records of a page yields. *)
Definition stale : entry := mkEntry [] [].

(** [extract]: the key ([flag = 0]) or the value of a record. *)
Definition extract (flag : Z) (e : entry) : list Z :=
  if flag =? 0 then e_key e else e_value e.

(** [compare_wrapper(i,j)] while [page] is being sorted. *)
Definition compare_wrapper (compare : comparison) (flag : Z)
    (page : list entry) (i j : Z) : Z :=
  compare (extract flag (nth (Z.to_nat i) page stale))
          (extract flag (nth (Z.to_nat j) page stale)).

(** Lines 1676-1740: [order] is set to [0..nkey-1], sorted by [qsort], and
    the records are copied out in that order. *)
Definition sort_page (compare : comparison) (flag : Z) (page : list entry)
    : list entry :=
  let order :=
    qsort (compare_wrapper compare flag page)
          (List.map Z.of_nat (seq 0 (length page))) in
  List.map (fun j => nth (Z.to_nat j) page stale) order.

(** [order], [soffset] and [slength] are laid over [memavail], three
    [int]s per record, with no check.  [index_arrays_fit]: they end within
    the quarter. *)
Definition index_arrays_fit (s : t) (page : list entry) : bool :=
  3 * 4 * Z.of_nat (length page) <=? memquarter s.

(** *** The index arrays past the quarter, lines 1667-1740

    When they do not fit, the end of [slength] lies past [memavail].  With
    [memavail] the second quarter ([memtoggle = 1]: the container has its
    page in the first, every operator that makes a container swaps the
    quarters after) that end lies at the start of [mem2], and the copy loop
    of a single page writes the records it copies over it, while it reads
    [slength[j]] before every copy.

    The memory is followed in bytes here.  The bytes of a record are known
    but for its alignment gaps, which hold what the memory held before: a
    byte is [Some b] or [None].  An [int] takes four bytes, the lowest
    first. *)
Definition int_image (v : Z) : list (option Z) :=
  List.map (fun i => Some (((v mod 2 ^ 32) / 2 ^ (8 * i)) mod 256)) [0; 1; 2; 3].

Definition gap (n : Z) : list (option Z) := repeat None (Z.to_nat n).

(** A record as [KeyValue::add] lays it out at an aligned place. *)
Definition image (ka va ta : Z) (e : entry) : list (option Z) :=
  let koff := KeyValue.pad 8 ka in
  let voff := KeyValue.pad (koff + KV.keybytes e) va in
  let size := KeyValue.pad (voff + KV.valuebytes e) ta in
  int_image (KV.keybytes e) ++ int_image (KV.valuebytes e) ++ gap (koff - 8)
  ++ List.map Some (e_key e) ++ gap (voff - (koff + KV.keybytes e))
  ++ List.map Some (e_value e) ++ gap (size - (voff + KV.valuebytes e)).

(** The [len] bytes at [from]. *)
Definition span (from len : Z) (bs : list (option Z)) : list (option Z) :=
  firstn (Z.to_nat len) (skipn (Z.to_nat from) bs).

(** The [int] that four bytes hold. *)
Definition read_int (bs : list (option Z)) : option Z :=
  match bs with
  | [Some b0; Some b1; Some b2; Some b3] =>
    Some (int_of (b0 + 2 ^ 8 * b1 + 2 ^ 16 * b2 + 2 ^ 24 * b3))
  | _ => None
  end.

(** [soffset] as the second loop fills it: [ptr - page] for every record,
    [sizes] being [ptr - ptr_start]. *)
Fixpoint record_starts (sizes : list Z) (ptr : Z) : list Z :=
  match sizes with
  | [] => []
  | n :: rest => int_of ptr :: record_starts rest (ptr + n)
  end.

(** The bytes of [slength] as the copy loop finds them once it has written
    [out] to [mem2]: [lengths] are the bytes the second loop stored, of
    which the first [ahead] lie before [mem2]. *)
Definition slength_bytes (ahead : Z) (lengths out : list (option Z))
    : list (option Z) :=
  firstn (Z.to_nat ahead) lengths ++ out
  ++ skipn (Z.to_nat ahead + length out) lengths.

(** Lines 1727-1731: [j = order[i]; memcpy(ptr,&sptr[soffset[j]],slength[j]);
    ptr += slength[j];] for the indices [order] still to come, [out] being
    the bytes between [mem2] and [ptr].  [nkey] is the number of records,
    [img] the bytes of the page up to the end of its last record, [room]
    the size of [mem2].  The loop is followed while [j] is an index of the
    arrays, the length read is known and not negative, the bytes copied are
    bytes of the records and they go to [mem2]. *)
Fixpoint copy_out (nkey ahead room : Z) (lengths img : list (option Z))
    (starts order : list Z) (out : list (option Z))
    : option (list (option Z)) :=
  match order with
  | [] => Some out
  | j :: rest =>
    match read_int (span (4 * j) 4 (slength_bytes ahead lengths out)) with
    | Some len =>
      let from := nth (Z.to_nat j) starts 0 in
      if (0 <=? j) && (j <? nkey) && (0 <=? len) && (0 <=? from)
         && (from + len <=? Z.of_nat (length img))
         && (Z.of_nat (length out) + len <=? room)
      then copy_out nkey ahead room lengths img starts rest
                    (out ++ span from len img)
      else None
    | None => None
    end
  end.

(** The bytes of a string, when all are known. *)
Fixpoint known (bs : list (option Z)) : option (list Z) :=
  match bs with
  | [] => Some []
  | Some b :: rest => option_map (cons b) (known rest)
  | None :: _ => None
  end.

(** The record at the start of [bs], as every scan reads it, and its
    size. *)
Definition parse_record (ka va ta : Z) (bs : list (option Z))
    : option (entry * Z) :=
  match read_int (span 0 4 bs), read_int (span 4 4 bs) with
  | Some keybytes, Some valuebytes =>
    let koff := KeyValue.pad 8 ka in
    let voff := KeyValue.pad (koff + keybytes) va in
    let size := KeyValue.pad (voff + valuebytes) ta in
    match known (span koff keybytes bs), known (span voff valuebytes bs) with
    | Some key, Some value =>
      if (0 <=? keybytes) && (0 <=? valuebytes)
         && (Z.of_nat (length key) =? keybytes)
         && (Z.of_nat (length value) =? valuebytes)
      then Some (mkEntry key value, size)
      else None
    | _, _ => None
    end
  | _, _ => None
  end.

(** The [n] records a page holds from [bs] on. *)
Fixpoint parse (n : nat) (ka va ta : Z) (bs : list (option Z))
    : option (list entry) :=
  match n with
  | O => Some []
  | S n' =>
    match parse_record ka va ta bs with
    | Some (e, size) =>
      option_map (cons e) (parse n' ka va ta (skipn (Z.to_nat size) bs))
    | None => None
    end
  end.

(** The single page [p] of [k], sorted with [memavail] the second quarter:
    [qsort] sees the records as they are (nothing has been written to
    [mem2] yet), the second loop stores starts and sizes, the copy loop
    runs as above and [memcpy(page,mem2,ptr-mem2)] puts what it wrote over
    the start of the page, which keeps its count of records.  [order] and
    [soffset] are to end before [mem2] and the bytes copied back to stay
    within the quarter of the page; what the page then holds is to be
    records again. *)
Definition sort_page_past (compare : comparison) (flag : Z) (s : t) (k : KV.t)
    (p : list entry) : option (list entry) :=
  let nkey := Z.of_nat (length p) in
  let ahead := memhalf s - memquarter s - 2 * nkey * 4 in
  let order :=
    qsort (compare_wrapper compare flag p)
          (List.map Z.of_nat (seq 0 (length p))) in
  let sizes := List.map (KV.esize k) p in
  let img := concat (List.map (image (KV.kalign k) (KV.valign k) (KV.talign k)) p) in
  let lengths := concat (List.map (fun n => int_image (int_of n)) sizes) in
  if (0 <=? ahead) && (Z.of_nat (length img) <=? memquarter s) then
    match copy_out nkey ahead (memhalf s) lengths img (record_starts sizes 0)
                   order [] with
    | Some out =>
      if Z.of_nat (length out) <=? memquarter s
      then parse (length p) (KV.kalign k) (KV.valign k) (KV.talign k)
                 (out ++ skipn (length out) img)
      else None
    | None => None
    end
  else None.

(** *** [merge(flag,s1,s2,dest)], lines 1803-1868

    A source is read through a cursor: the page loaded last, its number,
    the number of its entries and the index of the current one. *)
Record cursor : Type := mkCursor {
  ipage : Z; ientry : Z; nentry : Z; page : list entry
}.

Record merging : Type := mkMerging {
  src1 : cursor; src2 : cursor;
  done : Z; cmp : Z;
  dest : list entry
}.

(** [request_page(ipage)] of a spool, with [ientry = 0] and [ptr = page]. *)
Definition load (pages : list (list entry)) (ip : Z) : cursor :=
  let p := nth (Z.to_nat ip) pages [] in
  mkCursor ip 0 (Z.of_nat (length p)) p.

(** The record at [ptr]. *)
Definition current (c : cursor) : entry :=
  nth (Z.to_nat (ientry c)) (page c) stale.

(** [ptr += len; ientry++;] and what follows: the next entry, the next
    page, or the end of the source ([true]). *)
Definition advance (pages : list (list entry)) (c : cursor) : cursor * bool :=
  let ie := ientry c + 1 in
  if ie =? nentry c then
    let ip := ipage c + 1 in
    if ip <? Z.of_nat (length pages) then (load pages ip, false)
    else (mkCursor ip ie (nentry c) (page c), true)
  else (mkCursor (ipage c) ie (nentry c) (page c), false).

(** [if (result <= 0) {...}]: the state after it and whether it left the
    loop. *)
Definition take1 (p1 : list (list entry)) (m : merging) : merging * bool :=
  let d := dest m ++ [current (src1 m)] in
  let '(c, ended) := advance p1 (src1 m) in
  if ended then
    if done m + 1 =? 2 then (mkMerging c (src2 m) (done m + 1) (cmp m) d, true)
    else (mkMerging c (src2 m) (done m + 1) 1 d, false)
  else (mkMerging c (src2 m) (done m) (cmp m) d, false).

(** [if (result >= 0) {...}] *)
Definition take2 (p2 : list (list entry)) (m : merging) : merging * bool :=
  let d := dest m ++ [current (src2 m)] in
  let '(c, ended) := advance p2 (src2 m) in
  if ended then
    if done m + 1 =? 2 then (mkMerging (src1 m) c (done m + 1) (cmp m) d, true)
    else (mkMerging (src1 m) c (done m + 1) (-1) d, false)
  else (mkMerging (src1 m) c (done m) (cmp m) d, false).

(** One pass of [while (1)]. *)
Definition merge_pass (compare : comparison) (flag : Z)
    (p1 p2 : list (list entry)) (m : merging) : merging * bool :=
  let m0 :=
    if done m =? 0
    then mkMerging (src1 m) (src2 m) (done m)
           (compare (extract flag (current (src1 m)))
                    (extract flag (current (src2 m))))
           (dest m)
    else m in
  let '(m1, ended) := if cmp m0 <=? 0 then take1 p1 m0 else (m0, false) in
  if ended then (m1, true)
  else if cmp m1 >=? 0 then take2 p2 m1 else (m1, false).

Fixpoint merge_loop (fuel : nat) (compare : comparison) (flag : Z)
    (p1 p2 : list (list entry)) (m : merging) : result (list entry) :=
  match fuel with
  | O => Fatal "merge: loop exceeded"
  | S fuel' =>
    let '(m', ended) := merge_pass compare flag p1 p2 m in
    if ended then Ok (dest m') else merge_loop fuel' compare flag p1 p2 m'
  end.

(** [merge]: the records written to [dest], in order. *)
Definition merge (compare : comparison) (flag : Z)
    (p1 p2 : list (list entry)) : result (list entry) :=
  merge_loop (S (length (concat p1) + length (concat p2))%nat) compare flag p1 p2
             (mkMerging (load p1 0) (load p2 0) 0 0 []).

(** *** [sort_kv(flag)]

    A spool is the stream of records written to it; it is read back as
    the pages [spool_pages] makes of it. *)
Definition memspool (s : t) : Z := memhalf s / 3 / ALIGNFILE * ALIGNFILE.

(** Lines 1761-1772: [n] merges are left, of [spools[isrc]] and
    [spools[isrc+1]] into [spools[idest]]. *)
Fixpoint merge_spools (n : nat) (compare : comparison) (flag : Z) (size : Z)
    (spools : list (list entry)) (isrc idest : nat) : result (list (list entry)) :=
  match n with
  | O => Ok spools
  | S n' =>
    d <- merge compare flag (spool_pages size (nth isrc spools []))
               (spool_pages size (nth (S isrc) spools [])) ;;
    merge_spools n' compare flag size (KMV.replace_nth spools idest d)
                 (S (S isrc)) (S idest)
  end.

(** Lines 1785-1788: [kv->add(nentry,page)] for the pages of the last
    spool. *)
Fixpoint add_spool_pages (k : KV.t) (ps : list (list entry)) : result KV.t :=
  match ps with
  | [] => Ok k
  | p :: rest => k' <- KV.add_buf k p ;; add_spool_pages k' rest
  end.

(** Index arrays that fit the quarter touch nothing else, and the sort is
    the one of the records.  Index arrays that do not are followed for a
    single page with [memavail] the second quarter ([sort_page_past]).
    With [memavail] the first quarter they run into the page that is being
    sorted, and with several pages into the page of a spool, a class that
    is not among the sources.  The program makes no test and goes on in
    these two cases as well, on bytes that the records of the model do not
    describe: the model stops there, with a message of its own, as it does
    when [sort_page_past] cannot follow the copy loop. *)
Definition sort_kv(compare : comparison) (flag : Z) (s : t) (k : KV.t)
    : result t :=
  let npage := KV.request_info k in
  let ps := firstn (Z.to_nat npage) (KV.pages k) in
  if negb (forallb (index_arrays_fit s) ps) then
    if (npage =? 1) && (memtoggle s =? 1) then
      match sort_page_past compare flag s k (nth 0 ps []) with
      | Some p => Ok (set_kv s (Some (KV.set_pages k [p])))
      | None => Fatal "sort: the index arrays leave the record view"
      end
    else Fatal "sort: the index arrays leave the record view"
  else
    let sorted := List.map (sort_page compare flag) ps in
    if npage =? 1 then
      Ok (set_kv s (Some (KV.set_pages k sorted)))
    else if npage >? 1 then
      let n := Z.to_nat npage in
      spools <- merge_spools (Nat.pred n) compare flag (memspool s)
                  (sorted ++ repeat [] (Nat.pred n)) 0 n ;;
      let final := nth (2 * n - 2)%nat spools [] in
      k' <- add_spool_pages (new_kv s) (spool_pages (memspool s) final) ;;
      Ok (memswap (set_kv s (Some (KV.complete k'))))
    else Fatal "sort: a container without pages".

Definition sort_rank (msg : string) (compare : comparison) (flag : Z) (s : t)
    : result t :=
  match kv s with
  | None => Fatal msg
  | Some k => sort_kv compare flag s k
  end.

Definition sort_keys (compare : comparison) (g : group) : result (Z * group) :=
  g1 <- each (fun _ _ =>
                sort_rank "Cannot sort_keys without KeyValue" compare 0) g ;;
  g2 <- stats "Sort_keys" 0 g1 ;;
  Ok (nkeyall_kv g2, g2).

Definition sort_values (compare : comparison) (g : group) : result (Z * group) :=
  g1 <- each (fun _ _ =>
                sort_rank "Cannot sort_values without KeyValue" compare 1) g ;;
  g2 <- stats "Sort_values" 0 g1 ;;
  Ok (nkeyall_kv g2, g2).

(** ** [sort_multivalues(appcompare)], lines 1533-1625 *)

(** [int MapReduce::roundup(int n, int nalign)] *)
Definition roundup (n nalign : Z) : Z :=
  if Z.rem n nalign =? 0 then n
  else int_of ((Z.quot n nalign + 1) * nalign).

(** The two arrays the loop keeps between records: [order] with its
    allocated length [maxn].  ([soffset] is filled for every record before
    it is read.) *)
Record scratch : Type := mkScratch { maxn : Z; order : list Z }.

(** [soffset[0] = 0; soffset[j] = soffset[j-1] + valuesizes[j-1];] *)
Fixpoint offsets (from : Z) (sizes : list Z) : list Z :=
  match sizes with
  | [] => []
  | n :: rest => from :: offsets (int_of (from + n)) rest
  end.

(** The bytes [&sptr[soffset[k]]] of length [slength[k]]. *)
Definition value_at (r : KMV.record) (k : Z) : list Z :=
  let soffset := offsets 0 (KMV.valuesizes r) in
  firstn (Z.to_nat (nth (Z.to_nat k) (KMV.valuesizes r) 0))
         (skipn (Z.to_nat (nth (Z.to_nat k) soffset 0)) (KMV.multivalue r)).

(** The body of the loop over the records of a page, lines 1560-1609.
    The test for a split multivalue comes first.  [order] is allocated
    when it is too short and is not filled before [qsort] sorts its first
    [nvalues] elements; the values are then copied in the order it holds
    to [memavail] and from there over the multivalue. *)
Definition sort_record (compare : comparison) (sc : scratch) (r : KMV.record)
    : result (scratch * KMV.record) :=
  if KMV.nvalues r <? 0 then
    Fatal "Cannot yet sort multivalues for a multiple block KeyMultiValue"
  else
    let sc1 :=
      if KMV.nvalues r >? maxn sc
      then let n := roundup (KMV.nvalues r) VALUECHUNK in
           mkScratch n (smalloc_ints n)
      else sc in
    let n := Z.to_nat (KMV.nvalues r) in
    let sorted :=
      qsort (fun i j => compare (value_at r i) (value_at r j))
            (firstn n (order sc1)) in
    let copied := concat (List.map (value_at r) sorted) in
    Ok (mkScratch (maxn sc1) (sorted ++ skipn n (order sc1)),
        KMV.mkRecord (KMV.keybytes r) (KMV.mvaluebytes r) (KMV.nvalues r)
          (KMV.valuesizes r) (KMV.key r)
          (copied ++ skipn (length copied) (KMV.multivalue r))).

Fixpoint sort_records (compare : comparison) (sc : scratch)
    (recs : list KMV.record) : result (scratch * list KMV.record) :=
  match recs with
  | [] => Ok (sc, [])
  | r :: rest =>
    x <- sort_record compare sc r ;;
    y <- sort_records compare (fst x) rest ;;
    Ok (fst y, snd x :: snd y)
  end.

(** The loop over [ipage < npage]; [n] pages are left.  A page is written
    back by [overwrite_page] after all its records are through. *)
Fixpoint sort_kmv_pages (n : nat) (compare : comparison) (m : KMV.t)
    (ipage : Z) (sc : scratch) : result KMV.t :=
  match n with
  | O => Ok m
  | S n' =>
    x <- sort_records compare sc (KMV.request_page m ipage) ;;
    sort_kmv_pages n' compare (KMV.overwrite_page m ipage (snd x))
                   (ipage + 1) (fst x)
  end.

Definition sort_multivalues_rank (compare : comparison) (s : t) : result t :=
  match kmv s with
  | None => Fatal "Cannot sort_multivalues without KeyMultiValue"
  | Some m =>
    m' <- sort_kmv_pages (Z.to_nat (KMV.request_info m)) compare m 0
                         (mkScratch 0 []) ;;
    Ok (set_kmv s (Some m'))
  end.

Definition sort_multivalues (compare : comparison) (g : group)
    : result (Z * group) :=
  g1 <- each (fun _ _ => sort_multivalues_rank compare) g ;;
  g2 <- stats "Sort_multivalues" 0 g1 ;;
  Ok (nkeyall_kmv g2, g2).

(** ** The operators as one type

    A call of an operator with its arguments, and the container its result
    is in: [false] for the KeyValue, [true] for the KeyMultiValue. *)
Inductive operator : Type :=
| Map (nmap : Z) (appmap : Z -> KV.t -> result KV.t) (addflag : Z)
| Add (mr : Z -> engine)
| Aggregate (hash : option (list Z -> Z))
| Convert
| Collate (hash : option (list Z -> Z))
| Clone
| Collapse (key : list Z)
| Compress (appcompress : callback)
| Reduce (appreduce : callback)
| Gather (numprocs : Z)
| Scrunch (numprocs : Z) (key : list Z)
| Sort_keys (compare : comparison)
| Sort_values (compare : comparison)
| Sort_multivalues (compare : comparison).

Definition run (op : operator) (g : group) : result (Z * group) :=
  match op with
  | Map nmap appmap addflag => map nmap appmap addflag g
  | Add mr => add mr g
  | Aggregate hash => aggregate hash g
  | Convert => convert g
  | Collate hash => collate hash g
  | Clone => clone g
  | Collapse key => collapse key g
  | Compress f => compress f g
  | Reduce f => reduce f g
  | Gather numprocs => gather numprocs g
  | Scrunch numprocs key => scrunch numprocs key g
  | Sort_keys compare => sort_keys compare g
  | Sort_values compare => sort_values compare g
  | Sort_multivalues compare => sort_multivalues compare g
  end.

Definition yields_kmv (op : operator) : bool :=
  match op with
  | Convert | Collate _ | Clone | Collapse _ | Scrunch _ _
  | Sort_multivalues _ => true
  | _ => false
  end.

End Operators.

End MapReduce.

(** * The word-frequency example ([src/examples/cwordfreq.c])

    The callbacks the example passes to [reduce] and [sort_values].
    [MR_kv_add(kv,key,keybytes,value,valuebytes)] of the C interface is
    [kv->add(key,keybytes,value,valuebytes)]. *)

Module WordFreq.
Import CInt MapReduce.

(** The four bytes of an [int] (the address of [nvalues] passed as the
    value, with [sizeof(int)] as its length) and the [int] behind a
    pointer (the value read as an [int]), little-endian as [store_int] and
    [load_int]; a byte past the end of the value is read as 0. *)
Definition int_bytes (v : Z) : list Z :=
  List.map (fun i => (v mod 2 ^ 32) / 2 ^ (8 * i) mod 256) [0; 1; 2; 3].

Definition int_at (p : list Z) : Z :=
  int_of (nth 0 p 0 + 2 ^ 8 * nth 1 p 0 + 2 ^ 16 * nth 2 p 0
          + 2 ^ 24 * nth 3 p 0).

(** [void sum(char *key, int keybytes, char *multivalue, int nvalues,
    int *valuebytes, void *kv, void *ptr)]: it looks at [key], [keybytes]
    and [nvalues] only, whether the multivalue is split or not. *)
Definition sum : callback :=
  fun c k =>
    match c with
    | Whole r | Split r _ =>
      KV.add k (mkEntry (KMV.key r) (int_bytes (KMV.nvalues r)))
    end.

(** [int ncompare(char *p1, int len1, char *p2, int len2)] *)
Definition ncompare : comparison :=
  fun p1 p2 =>
    let i1 := int_at p1 in
    let i2 := int_at p2 in
    if i1 >? i2 then -1 else if i1 <? i2 then 1 else 0.

End WordFreq.

(** * Copies, and [map] over the pairs of an engine

    [KeyValue::copy] of keyvalue.cpp, and its two callers in mapreduce.cpp:
    [MapReduce::copy] and [MapReduce::map(MapReduce *mr, ...)]. *)

Module KeyValueCopy.
Import CInt.

(** [void KeyValue::copy(KeyValue *kv)], keyvalue.cpp lines 110-133, for
    [kv] other than this container and of the same alignment (as the
    comment of the method asks).  The pages of [kv] but the last are
    written out as pages of this container, page after page, each with
    the counters [request_page] hands out for it; the last is copied to
    the page in memory, with its counters, and [complete] writes it out.
    A [kv] without a page has no last page: the call reads [pages[-1]],
    and the model stops there. *)
Definition copy (k other : KV.t) : result KV.t :=
  let npage_other := KV.request_info other in
  if npage_other <=? 0 then Fatal "copy: request of page -1"
  else
    let body :=
      List.map (fun ipage => KV.request_page other (Z.of_nat ipage))
               (seq 0 (Z.to_nat (npage_other - 1))) in
    let last := KV.request_page other (npage_other - 1) in
    Ok (KV.complete
          (KV.set_page (KV.set_pages k (KV.pages k ++ body))
                       (int_of (Z.of_nat (length last)))
                       (KV.sum_sizes other last) last)).

End KeyValueCopy.

Module MapReduceCopy.
Import CInt MapReduce.

(** [void MapReduce::copy_kv(KeyValue *kv_src)], lines 224-231 *)
Definition copy_kv (s : t) (kv_src : KV.t) : result t :=
  s1 <- (if allocated s then Ok s else allocate s) ;;
  k <- KeyValueCopy.copy (new_kv s1) kv_src ;;
  Ok (set_kv (memswap s1) (Some k)).

(** [void MapReduce::copy_kmv(KeyMultiValue *kmv_src)], lines 238-244.
    [KeyMultiValue::copy] is not among the sources: [kmv_copy] stands for
    the constructor followed by it, given the source and the size of the
    memory quarter. *)
Definition copy_kmv (kmv_copy : KMV.t -> Z -> result KMV.t) (s : t)
    (kmv_src : KMV.t) : result t :=
  s1 <- (if allocated s then Ok s else allocate s) ;;
  m <- kmv_copy kmv_src (memquarter s1) ;;
  Ok (set_kmv (memswap s1) (Some m)).

(** [MapReduce *MapReduce::copy()], lines 196-217: the new object. *)
Definition copy (kmv_copy : KMV.t -> Z -> result KMV.t) (s : t) : result t :=
  let mrnew :=
    set_settings new (mapstyle s) (verbosity s) (timer s) (memsize s)
                 (if allocated s then kalign s else keyalign s)
                 (if allocated s then valign s else valuealign s) in
  m1 <- match kv s with
        | Some k => copy_kv mrnew k
        | None => Ok mrnew
        end ;;
  match kmv s with
  | Some m => copy_kmv kmv_copy m1 m
  | None => Ok m1
  end.

(** [map(MapReduce *mr, appmap, appptr, addflag)], lines 1255-1339.  The
    callback gets the index of the pair in its page, the pair, and the
    KeyValue to add to. *)
Definition pair_callback : Type := Z -> entry -> KV.t -> result KV.t.

(** The loop over [i < nkey] of one page. *)
Fixpoint scan_pairs (f : pair_callback) (i : Z) (recs : list entry) (k : KV.t)
    : result KV.t :=
  match recs with
  | [] => Ok k
  | e :: rest => k' <- f i e k ;; scan_pairs f (i + 1) rest k'
  end.

(** The loop over [ipage < npage]. *)
Fixpoint scan_pages (f : pair_callback) (ps : list (list entry)) (k : KV.t)
    : result KV.t :=
  match ps with
  | [] => Ok k
  | p :: rest => k' <- scan_pairs f 0 p k ;; scan_pages f rest k'
  end.

Definition map_rank (mr : engine) (appmap : pair_callback) (addflag : Z)
    (s : t) : result t :=
  match (match mr with This => kv s | Another m => kv m end) with
  | None => Fatal "MapReduce passed to map() does not have KeyValue pairs"
  | Some kv_src =>
    s1 <- (if allocated s then Ok s else allocate s) ;;
    let s2 := set_kmv s1 None in
    x <- match mr with
         | This =>
           if addflag =? 0 then Ok (memswap s2, new_kv s2)
           else
             k <- KeyValueCopy.copy (new_kv s2) kv_src ;;
             Ok (memswap s2, KV.append k)
         | Another _ =>
           if addflag =? 0 then Ok (memswap s2, new_kv s2)
           else
             match kv s2 with
             | None => Ok (memswap s2, new_kv s2)
             | Some k0 => Ok (s2, KV.append k0)
             end
         end ;;
    let npage := KV.request_info kv_src in
    k' <- scan_pages appmap
            (List.map (fun ipage => KV.request_page kv_src (Z.of_nat ipage))
                      (seq 0 (Z.to_nat npage)))
            (snd x) ;;
    Ok (set_kv (fst x) (Some (KV.complete k')))
  end.

Definition map (mr : Z -> engine) (appmap : pair_callback) (addflag : Z)
    (g : group) : result (Z * group) :=
  g1 <- each (fun me _ => map_rank (mr me) appmap addflag) g ;;
  g2 <- stats "Map" 0 g1 ;;
  Ok (nkeyall_kv g2, g2).

End MapReduceCopy.

(** * [map] over files cut at a separator ([src/new/mapreduce.cpp])

    [map(nmap,nfiles,files,sepchar,delta,...)] and
    [map(nmap,nfiles,files,sepstr,delta,...)], lines 991-1019, with
    [map_file], lines 1032-1166, and [map_file_wrapper], lines 1183-1247.

    A file is the list of its bytes; [stat] reports its length.  A
    [char *] is the list of the bytes from the pointer to the end of its
    array, and a C string in it ends at the first 0. *)

Module FileMap.
Import CInt MapReduce.

(** [#define MIN(A,B) ((A) < (B)) ? (A) : (B)] *)
Definition MIN (A B : Z) : Z := if A <? B then A else B.

(** [filemap.sepwhich] with [filemap.sepchar] or with [filemap.sepstr]
    (the characters before its terminator). *)
Inductive separator : Type :=
| Char (sepchar : Z)
| Str (sepstr : list Z).

Definition sepwhich (sep : separator) : Z :=
  match sep with Char _ => 1 | Str _ => 0 end.

(** [struct FileMap] ([src/src/mapreduce.h], lines 82-94), without the
    file names and the callback: [filesize] holds [uint64_t], the other
    arrays, [sepwhich] and [delta] are [int], [sepchar] is a [char]. *)
Record t : Type := mk {
  sep : separator; delta : Z;
  filesize : list Z; tasksperfile : list Z;
  whichfile : list Z; whichtask : list Z
}.

(** [strchr(s,c)] as the offset from [s]: the terminator counts as a
    character of the string. *)
Fixpoint strchr (s : list Z) (c : Z) : option Z :=
  match s with
  | [] => None
  | x :: rest =>
    if x =? c then Some 0
    else if x =? 0 then None
    else option_map Z.succ (strchr rest c)
  end.

(** [strstr(s,sepstr)] as the offset from [s]. *)
Fixpoint starts_with (sepstr s : list Z) : bool :=
  match sepstr, s with
  | [], _ => true
  | _ :: _, [] => false
  | c :: sepstr', x :: s' => (x =? c) && starts_with sepstr' s'
  end.

Fixpoint strstr (s sepstr : list Z) : option Z :=
  match s with
  | [] => if starts_with sepstr [] then Some 0 else None
  | x :: rest =>
    if starts_with sepstr s then Some 0
    else if x =? 0 then None
    else option_map Z.succ (strstr rest sepstr)
  end.

Definition search (sep : separator) (str : list Z) : option Z :=
  match sep with
  | Char sepchar => strchr str sepchar
  | Str sepstr => strstr str sepstr
  end.

(** ** The number of tasks of each file, lines 1071-1115 *)

(** [ntotal] and [nideal], in [uint64_t]; [nmap] is converted for the
    division.  ([nmap = 0], which passes the test on [nfiles] when there
    is no file, divides by zero.) *)
Definition ntotal (filesize : list Z) : Z :=
  fold_left (fun total size => u64 (total + size)) filesize 0.

Definition nideal (filesize : list Z) (nmap : Z) : Z :=
  MAX 1 (ntotal filesize / u64 nmap).

(** The first loop over the files: [tasksperfile[i]], an [int], and
    [ntasks]. *)
Definition initial (filesize : list Z) (nideal : Z) : list Z :=
  List.map (fun size => int_of (MAX 1 (size / nideal))) filesize.

Definition count (tasksperfile : list Z) : Z :=
  fold_left (fun ntasks n => int_of (ntasks + n)) tasksperfile 0.

(** The [for] loop inside [while (ntasks < nmap)]: a task more for every
    file larger than [nideal], until [ntasks == nmap] breaks it. *)
Fixpoint grow_pass (nideal nmap : Z) (filesize tasksperfile : list Z)
    (ntasks : Z) : list Z * Z :=
  match filesize, tasksperfile with
  | size :: sizes, n :: rest =>
    if size >? nideal then
      let ntasks' := int_of (ntasks + 1) in
      if ntasks' =? nmap then (int_of (n + 1) :: rest, ntasks')
      else
        let '(rest', ntasks'') := grow_pass nideal nmap sizes rest ntasks' in
        (int_of (n + 1) :: rest', ntasks'')
    else
      let '(rest', ntasks') := grow_pass nideal nmap sizes rest ntasks in
      (n :: rest', ntasks')
  | _, _ => (tasksperfile, ntasks)
  end.

(** [while (ntasks < nmap)]; [None] when [fuel] passes did not end it. *)
Fixpoint grow (fuel : nat) (nideal nmap : Z) (filesize tasksperfile : list Z)
    (ntasks : Z) : option (list Z * Z) :=
  if ntasks <? nmap then
    match fuel with
    | O => None
    | S fuel' =>
      let '(tasksperfile', ntasks') :=
        grow_pass nideal nmap filesize tasksperfile ntasks in
      grow fuel' nideal nmap filesize tasksperfile' ntasks'
    end
  else Some (tasksperfile, ntasks).

(** The [for] loop inside [while (ntasks > nmap)]: a task less for every
    file with more than one. *)
Fixpoint shrink_pass (nmap : Z) (tasksperfile : list Z) (ntasks : Z)
    : list Z * Z :=
  match tasksperfile with
  | n :: rest =>
    if n >? 1 then
      let ntasks' := int_of (ntasks - 1) in
      if ntasks' =? nmap then (int_of (n - 1) :: rest, ntasks')
      else
        let '(rest', ntasks'') := shrink_pass nmap rest ntasks' in
        (int_of (n - 1) :: rest', ntasks'')
    else
      let '(rest', ntasks') := shrink_pass nmap rest ntasks in
      (n :: rest', ntasks')
  | [] => ([], ntasks)
  end.

Fixpoint shrink (fuel : nat) (nmap : Z) (tasksperfile : list Z) (ntasks : Z)
    : option (list Z * Z) :=
  if ntasks >? nmap then
    match fuel with
    | O => None
    | S fuel' =>
      let '(tasksperfile', ntasks') := shrink_pass nmap tasksperfile ntasks in
      shrink fuel' nmap tasksperfile' ntasks'
    end
  else Some (tasksperfile, ntasks).

(** [while (filemap.tasksperfile[i] > 1)] of the check against [delta],
    on [n = tasksperfile[i]] and [nmap]; the loop counts [n] down, and
    [fuel] is [n]. *)
Fixpoint lower (fuel : nat) (size delta n nmap : Z) : Z * Z :=
  match fuel with
  | O => (n, nmap)
  | S fuel' =>
    if n >? 1 then
      let n' := int_of (n - 1) in
      let nmap' := int_of (nmap - 1) in
      if size / u64 n' >? u64 delta then (n', nmap')
      else lower fuel' size delta n' nmap'
    else (n, nmap)
  end.

(** The loop over the files of the check: the new [tasksperfile], [nmap]
    and [flag]. *)
Fixpoint adjust (delta : Z) (filesize tasksperfile : list Z) (nmap flag : Z)
    : list Z * Z * Z :=
  match filesize, tasksperfile with
  | size :: sizes, n :: rest =>
    if size / u64 n >? u64 delta then
      let '(rest', nmap', flag') := adjust delta sizes rest nmap flag in
      (n :: rest', nmap', flag')
    else
      let '(n', nmap1) := lower (Z.to_nat n) size delta n nmap in
      let '(rest', nmap', flag') := adjust delta sizes rest nmap1 1 in
      (n' :: rest', nmap', flag')
  | _, _ => (tasksperfile, nmap, flag)
  end.

(** Lines 1071-1115 together.  A [while] loop that does not end is the
    [Fatal] of this model; each pass of the first that changes [ntasks]
    raises it, so that [nmap] passes end it if any number does, and
    likewise [ntasks] passes for the second. *)
Definition split (nmap : Z) (filesize : list Z) (delta : Z)
    : result (list Z * Z * Z) :=
  let ideal := nideal filesize nmap in
  let first := initial filesize ideal in
  match grow (Z.to_nat nmap) ideal nmap filesize first (count first) with
  | None => Fatal "map_file: while (ntasks < nmap) does not end"
  | Some (more, ntasks) =>
    match shrink (Z.to_nat ntasks) nmap more ntasks with
    | None => Fatal "map_file: while (ntasks > nmap) does not end"
    | Some (fewer, _) => Ok (adjust delta filesize fewer nmap 0)
    end
  end.

(** [whichfile] and [whichtask], lines 1128-1136: the file and the task
    within the file of every task, in the order of the double loop.  The
    arrays are allocated for [nmap] entries; the lists hold the entries
    the loop writes. *)
Definition tasks (tasksperfile : list Z) : list (Z * Z) :=
  concat
    (List.map (fun f =>
            List.map (fun j => (Z.of_nat (fst f), Z.of_nat j))
                (seq 0 (Z.to_nat (snd f))))
         (combine (seq 0 (length tasksperfile)) tasksperfile)).

(** The [FileMap] that [map_file] fills in, with the [nmap] it passes on
    and the [flag] of the warning. *)
Definition plan (nmap : Z) (filesize : list Z) (sep : separator) (delta : Z)
    : result (t * Z * Z) :=
  r <- split nmap filesize delta ;;
  let '(tasksperfile, nmap', flag) := r in
  Ok (mk sep delta filesize tasksperfile
         (List.map fst (tasks tasksperfile))
         (List.map snd (tasks tasksperfile)),
      nmap', flag).

(** ** [map_file_wrapper], lines 1183-1247

    What the wrapper computes before it calls [appmapfile]: the pointer
    [&str[strstart]] and [strsize].  [read_task] is the body from
    [readstart] on, for the file [text] of the task, its [filesize],
    [itask] and [ntask]; [str] is what [fread] delivers and the 0 stored
    behind it. *)
Definition read_task (sep : separator) (delta : Z) (text : list Z)
    (filesize itask ntask : Z) : result (list Z * Z) :=
  let readstart := u64 (u64 itask * filesize) / u64 ntask in
  let readnext := u64 (u64 (int_of (itask + 1)) * filesize) / u64 ntask in
  let readsize0 := int_of (u64 (readnext - readstart + u64 delta)) in
  let readsize := int_of (MIN (u64 readsize0) (u64 (filesize - readstart))) in
  let str :=
    firstn (Z.to_nat readsize) (skipn (Z.to_nat readstart) text) ++ [0] in
  strstart <-
    (if itask >? 0 then
       match search sep str with
       | None => Fatal "Could not find separator within delta"
       | Some p =>
         if p >? delta then Fatal "Could not find separator within delta"
         else Ok (int_of (p + sepwhich sep))
       end
     else Ok 0) ;;
  stopped <-
    (if itask <? int_of (ntask - 1) then
       let from := u64 (readnext - readstart) in
       match search sep (skipn (Z.to_nat from) str) with
       | None => Fatal "Could not find separator within delta"
       | Some q =>
         let ptr := from + q + sepwhich sep in
         Ok (array_set str (Z.to_nat ptr) 0, int_of ptr)
       end
     else Ok (str, readsize)) ;;
  let strsize := int_of (snd stopped - strstart + 1) in
  Ok (skipn (Z.to_nat strstart) (fst stopped), strsize).

Definition task_string (fm : t) (files : list (list Z)) (imap : Z)
    : result (list Z * Z) :=
  let ifile := nth (Z.to_nat imap) (whichfile fm) 0 in
  read_task (sep fm) (delta fm) (nth (Z.to_nat ifile) files [])
            (nth (Z.to_nat ifile) (filesize fm) 0)
            (nth (Z.to_nat imap) (whichtask fm) 0)
            (nth (Z.to_nat ifile) (tasksperfile fm) 0).

(** The user's [appmapfile(imap,str,strsize,kv,ptr)]. *)
Definition file_callback : Type := Z -> list Z -> Z -> KV.t -> result KV.t.

Definition map_file_wrapper (fm : t) (files : list (list Z))
    (appmapfile : file_callback) (imap : Z) (kv : KV.t) : result KV.t :=
  c <- task_string fm files imap ;;
  appmapfile imap (fst c) (snd c) kv.

Section Operator.
Context {E : Externals}.

(** ** [map_file], lines 1032-1166

    [nfiles] is the number of [files].  The warning of rank 0 about the
    decreased number of tasks goes to [error->warning] and is not part
    of the state. *)
Definition map_file (nmap : Z) (files : list (list Z)) (sep : separator)
    (delta : Z) (appmapfile : file_callback) (addflag : Z) (g : group)
    : result (Z * group) :=
  if Z.of_nat (length files) >? nmap
  then Fatal "Cannot map with more files than tasks"
  else
    g0 <- each (fun _ _ s =>
                  s1 <- (if allocated s then Ok s else allocate s) ;;
                  Ok (set_kmv s1 None)) g ;;
    p <- plan nmap (List.map (fun f => Z.of_nat (length f)) files) sep delta ;;
    let fm := fst (fst p) in
    let quiet := List.map (fun s => set_verbose s 0 0) g0 in
    r <- map (snd (fst p)) (map_file_wrapper fm files appmapfile) addflag
             quiet ;;
    g1 <- stats "Map" 0 (restore g0 (snd r)) ;;
    Ok (nkeyall_kv g1, g1).

End Operator.

End FileMap.
(** * [map] over a file of file names ([src/new/mapreduce.cpp])

    [map(file,appmap,appptr,addflag)], lines 840-984.  The file is the
    list of its bytes, or [None] when it cannot be opened; a string is
    the list of its characters. *)

Module MapNames.
Import CInt MapReduce.

(** [#define MAXLINE 1024] *)
Definition MAXLINE : Z := 1024.

(** [fgets(line,MAXLINE,fp)] on what is left of the file: the characters
    it stores, at most [MAXLINE-1] of them and none behind a newline,
    with the rest of the file; [None] is the null pointer it returns at
    the end of the file. *)
Fixpoint fgets_from (room : nat) (text : list Z) : list Z * list Z :=
  match room, text with
  | S room', c :: rest =>
    if c =? 10 then ([c], rest)
    else let '(line, rest') := fgets_from room' rest in (c :: line, rest')
  | _, _ => ([], text)
  end.

Definition fgets (text : list Z) : option (list Z * list Z) :=
  match text with
  | [] => None
  | _ :: _ => Some (fgets_from (Z.to_nat (MAXLINE - 1)) text)
  end.

(** The string in a buffer: the characters before the first 0, which is
    what [strlen] counts and what the broadcast of [strlen(line)+1]
    characters passes on. *)
Fixpoint cstring (s : list Z) : list Z :=
  match s with
  | [] => []
  | c :: rest => if c =? 0 then [] else c :: cstring rest
  end.

(** [isspace(c)] in the C locale: the blank and the characters 9 to 13. *)
Definition isspace (c : Z) : bool := (c =? 32) || ((9 <=? c) && (c <=? 13)).

(** [ptr] moves over the spaces at the start of the string. *)
Fixpoint skip_spaces (s : list Z) : list Z :=
  match s with
  | [] => []
  | c :: rest => if isspace c then skip_spaces rest else s
  end.

(** [ptr2] starts at the last character and moves back over the spaces;
    the 0 is stored behind the character it stops at. *)
Definition cut_spaces (s : list Z) : list Z := rev (skip_spaces (rev s)).

(** The body of the loop for one line: the file name, or the error. *)
Definition name_of (line : list Z) : result (list Z) :=
  let ptr := skip_spaces (cstring line) in
  if Z.of_nat (length ptr) =? 0
  then Fatal "Blank line in file of file names"
  else Ok (cut_spaces ptr).

(** [while (1)]: line after line until [fgets] returns the null pointer.
    Every [fgets] before that takes a character at least off the file, so
    that the loop makes no more passes than the file has characters, and
    one; [fuel] is that number. *)
Fixpoint read_lines (fuel : nat) (text : list Z) (files : list (list Z))
    : result (list (list Z)) :=
  match fuel with
  | O => Fatal "map: more lines than characters"
  | S fuel' =>
    match fgets text with
    | None => Ok files
    | Some (line, rest) =>
      name <- name_of line ;;
      read_lines fuel' rest (files ++ [name])
    end
  end.

Definition read_names (file : option (list Z)) : result (list (list Z)) :=
  match file with
  | None => Fatal "Could not open file of file names"
  | Some text => read_lines (S (length text)) text []
  end.

(** The user's [appmap(itask,file,kv,ptr)]. *)
Definition name_callback : Type := Z -> list Z -> KV.t -> result KV.t.

Section Operator.
Context {E : Externals}.

(** The operator on one rank, and on the group.  Rank 0 reads the file
    and broadcasts every line; each rank trims the lines and keeps the
    names.  The branch on [nprocs] and [mapstyle] is the one of
    [map(nmap,appmap,appptr,addflag)], with [nmap] the number of names,
    counted in an [int]. *)
Definition map_rank (file : option (list Z)) (appmap : name_callback)
    (addflag : Z) (me nprocs : Z) (s : t) : result t :=
  s1 <- (if allocated s then Ok s else allocate s) ;;
  let s2 := set_kmv s1 None in
  let '(s3, k) :=
    if addflag =? 0 then (memswap s2, new_kv s2)
    else match kv s2 with
         | None => (memswap s2, new_kv s2)
         | Some k0 => (s2, KV.append k0)
         end in
  files <- read_names file ;;
  let nmap := int_of (Z.of_nat (length files)) in
  k' <- run_tasks (mapstyle s3) me nprocs nmap
          (fun itask => appmap itask (nth (Z.to_nat itask) files [])) k ;;
  Ok (set_kv s3 (Some (KV.complete k'))).

Definition map (file : option (list Z)) (appmap : name_callback)
    (addflag : Z) (g : group) : result (Z * group) :=
  g1 <- each (map_rank file appmap addflag) g ;;
  g2 <- stats "Map" 0 g1 ;;
  Ok (nkeyall_kv g2, g2).

End Operator.

End MapNames.
(** ** A reference behaviour of what the sources leave out

    Used where a statement is shown on a concrete run: [convert] groups the
    values by key in order of first appearance, [clone] makes one record
    per pair, [collapse] one record of all keys and values; the exchange
    delivers to each rank what is addressed to it, sender by sender; a
    spool hands back one record per page; [qsort] is an insertion sort;
    fresh memory is zero; the master hears the pending workers in turn. *)
Module Reference.

Definition one_value (key value : list Z) : KMV.record :=
  KMV.mkRecord (Z.of_nat (length key)) (Z.of_nat (length value)) 1
               [Z.of_nat (length value)] key value.

Definition more_value (r : KMV.record) (value : list Z) : KMV.record :=
  KMV.mkRecord (KMV.keybytes r) (KMV.mvaluebytes r + Z.of_nat (length value))
               (KMV.nvalues r + 1)
               (KMV.valuesizes r ++ [Z.of_nat (length value)])
               (KMV.key r) (KMV.multivalue r ++ value).

Definition same_bytes (a b : list Z) : bool :=
  if list_eq_dec Z.eq_dec a b then true else false.

Fixpoint insert_value (rs : list KMV.record) (e : entry) : list KMV.record :=
  match rs with
  | [] => [one_value (e_key e) (e_value e)]
  | r :: rest =>
    if same_bytes (KMV.key r) (e_key e) then more_value r (e_value e) :: rest
    else r :: insert_value rest e
  end.

Definition group_values (l : list entry) : list KMV.record :=
  fold_left insert_value l [].

Definition of_records (rs : list KMV.record) : KMV.t :=
  KMV.mk (Z.of_nat (length rs)) [KMV.Records rs].

Definition convert (k : KV.t) (_ _ : Z) : result KMV.t :=
  Ok (of_records (group_values (concat (KV.pages k)))).

Definition clone (k : KV.t) (_ : Z) : result KMV.t :=
  Ok (of_records
        (List.map (fun e => one_value (e_key e) (e_value e))
                  (concat (KV.pages k)))).

Definition collapse (key : list Z) (k : KV.t) (_ : Z) : result KMV.t :=
  let values := flat_map (fun e => [e_key e; e_value e]) (concat (KV.pages k)) in
  Ok (of_records
        [KMV.mkRecord (Z.of_nat (length key))
           (Z.of_nat (length (concat values))) (Z.of_nat (length values))
           (List.map (fun v => Z.of_nat (length v)) values) key
           (concat values)]).

Definition hash (key : list Z) (_ : Z) : Z := fold_right Z.add 0 key.

Definition deliver (sent : list (list (Z * entry))) : list (list entry) :=
  List.map
    (fun me =>
       List.map snd
         (filter (fun x => fst x =? Z.of_nat me) (concat sent)))
    (seq 0 (length sent)).

Definition one_per_page (_ : Z) (l : list entry) : list (list entry) :=
  List.map (fun e => [e]) l.

Fixpoint insert (c : Z -> Z -> Z) (x : Z) (l : list Z) : list Z :=
  match l with
  | [] => [x]
  | y :: rest => if c x y <=? 0 then x :: l else y :: insert c x rest
  end.

Definition insertion_sort (c : Z -> Z -> Z) (l : list Z) : list Z :=
  fold_right (insert c) [] l.

Definition externals : Externals :=
  Build_Externals convert clone collapse hash deliver one_per_page
                  insertion_sort (fun n => repeat 0 (Z.to_nat n))
                  (fun nrecv busy => nth (nrecv mod length busy) busy 0).

End Reference.

(** * Facts about the C integer operations and byte memory *)

Module CIntFacts.
Import CInt.

Lemma u64_small x : 0 <= x < 2 ^ 64 -> u64 x = x.
Proof. intros; unfold u64; apply Z.mod_small; lia. Qed.

Lemma u64_range x : 0 <= u64 x < 2 ^ 64.
Proof. unfold u64; apply Z.mod_pos_bound; lia. Qed.

Lemma int_of_small x : - 2 ^ 31 <= x < 2 ^ 31 -> int_of x = x.
Proof. intros; unfold int_of; rewrite Z.mod_small; lia. Qed.

Lemma int_of_range x : - 2 ^ 31 <= int_of x < 2 ^ 31.
Proof. unfold int_of. pose proof (Z.mod_pos_bound (x + 2 ^ 31) (2 ^ 32)). lia. Qed.

Lemma land_mask x k :
  0 <= k <= 64 -> 0 <= x < 2 ^ 64 ->
  Z.land x (u64 (Z.lnot (2 ^ k - 1))) = 2 ^ k * (x / 2 ^ k).
Proof.
  intros Hk Hx.
  assert (E : u64 (Z.lnot (2 ^ k - 1)) = Z.shiftl (Z.ones (64 - k)) k).
  { unfold u64, Z.lnot. rewrite Z.shiftl_mul_pow2, Z.ones_equiv by lia.
    replace (Z.pred (- (2 ^ k - 1))) with (- 2 ^ k) by lia.
    assert (0 < 2 ^ k) by (apply Z.pow_pos_nonneg; lia).
    assert (2 ^ 64 = 2 ^ (64 - k) * 2 ^ k) by (rewrite <- Z.pow_add_r by lia; f_equal; lia).
    assert (0 < 2 ^ (64 - k)) by (apply Z.pow_pos_nonneg; lia).
    symmetry. apply Z.mod_unique with (q := -1); nia. }
  rewrite E.
  rewrite (Z.mul_comm (2 ^ k)), <- Z.shiftr_div_pow2, <- Z.shiftl_mul_pow2 by lia.
  rewrite <- Z.ldiff_ones_r by lia.
  apply Z.bits_inj'. intros n Hn.
  rewrite Z.land_spec, Z.ldiff_spec, Z.shiftl_spec by lia.
  destruct (Z.ltb_spec n k).
  - rewrite (Z.testbit_neg_r _ (n - k)) by lia. rewrite Z.ones_spec_low by lia.
    now rewrite !andb_false_r.
  - rewrite (Z.ones_spec_high k n) by lia. cbn [negb]. rewrite andb_true_r.
    destruct (Z.ltb_spec n 64).
    + rewrite Z.ones_spec_low by lia. now rewrite andb_true_r.
    + rewrite Z.ones_spec_high by lia. rewrite andb_false_r.
      destruct (Z.eq_dec x 0) as [->|]. { now rewrite Z.bits_0. }
      assert (0 < x) by lia.
      assert (Z.log2 x < 64) by (apply Z.log2_lt_pow2; lia).
      symmetry; apply Z.bits_above_log2; lia.
Qed.

Lemma ROUNDUP_pow2 A k :
  0 <= k <= 64 -> 0 <= A -> A + (2 ^ k - 1) < 2 ^ 64 ->
  ROUNDUP A (2 ^ k - 1) = 2 ^ k * ((A + (2 ^ k - 1)) / 2 ^ k).
Proof.
  intros Hk HA Hb. unfold ROUNDUP.
  assert (0 < 2 ^ k) by (apply Z.pow_pos_nonneg; lia).
  rewrite (u64_small (A + _)) by lia.
  apply land_mask; lia.
Qed.

Lemma ROUNDUP_divide A k :
  0 <= k <= 64 -> (2 ^ k | ROUNDUP A (2 ^ k - 1)).
Proof.
  intros Hk. unfold ROUNDUP.
  rewrite land_mask by (auto using u64_range).
  apply Z.divide_factor_l.
Qed.

Lemma ROUNDUP_bounds A k :
  0 <= k <= 64 -> 0 <= A -> A + (2 ^ k - 1) < 2 ^ 64 ->
  A <= ROUNDUP A (2 ^ k - 1) < A + 2 ^ k.
Proof.
  intros Hk HA Hb. rewrite ROUNDUP_pow2 by assumption.
  assert (0 < 2 ^ k) by (apply Z.pow_pos_nonneg; lia).
  pose proof (Z.div_mod (A + (2 ^ k - 1)) (2 ^ k)).
  pose proof (Z.mod_pos_bound (A + (2 ^ k - 1)) (2 ^ k)). lia.
Qed.

Lemma ROUNDUP_aligned A k :
  0 <= k <= 64 -> 0 <= A -> A + (2 ^ k - 1) < 2 ^ 64 -> (2 ^ k | A) ->
  ROUNDUP A (2 ^ k - 1) = A.
Proof.
  intros Hk HA Hb [q ->]. rewrite ROUNDUP_pow2 by assumption.
  assert (0 < 2 ^ k) by (apply Z.pow_pos_nonneg; lia).
  replace (q * 2 ^ k + (2 ^ k - 1)) with ((2 ^ k - 1) + q * 2 ^ k) by lia.
  rewrite Z.div_add by lia. rewrite Z.div_small by lia. lia.
Qed.

Lemma roundup_divide n a : 0 < a -> (a | 2 ^ 64) -> (a | roundup n a).
Proof.
  intros Ha Hd. unfold roundup.
  destruct (Z.eqb_spec (n mod a) 0) as [E|E].
  - apply Z.mod_divide; lia.
  - unfold u64. destruct Hd as [q Hq].
    rewrite Z.mod_eq by lia. apply Z.divide_sub_r.
    + apply Z.divide_factor_r.
    + rewrite Hq. exists (q * ((n / a + 1) * a / (q * a))). lia.
Qed.

Lemma roundup_bounds n a :
  0 < a -> 0 <= n -> n + a <= 2 ^ 64 -> n <= roundup n a < n + a.
Proof.
  intros Ha Hn Hb. unfold roundup.
  destruct (Z.eqb_spec (n mod a) 0) as [E|E]; [lia|].
  pose proof (Z.div_mod n a). pose proof (Z.mod_pos_bound n a).
  rewrite u64_small; nia.
Qed.

(** memory *)
Lemma memcpy_in m dst src n a :
  dst <= a < dst + n -> memcpy m dst src n a = src (a - dst).
Proof.
  intros H. unfold memcpy.
  destruct (Z.leb_spec dst a), (Z.ltb_spec a (dst + n)); simpl; auto; lia.
Qed.

Lemma memcpy_out m dst src n a :
  a < dst \/ dst + n <= a -> memcpy m dst src n a = m a.
Proof.
  intros H. unfold memcpy.
  destruct (Z.leb_spec dst a), (Z.ltb_spec a (dst + n)); simpl; auto; lia.
Qed.

Lemma store_int_out m p v a :
  a < p \/ p + 4 <= a -> store_int m p v a = m a.
Proof.
  intros H. unfold store_int.
  destruct (Z.leb_spec p a), (Z.ltb_spec a (p + 4)); simpl; auto; lia.
Qed.

Lemma store_int_in m p v i :
  0 <= i < 4 -> store_int m p v (p + i) = (v mod 2 ^ 32) / 2 ^ (8 * i) mod 256.
Proof.
  intros H. unfold store_int.
  destruct (Z.leb_spec p (p + i)), (Z.ltb_spec (p + i) (p + 4)); simpl; try lia.
  replace (p + i - p) with i by lia. reflexivity.
Qed.

Lemma int_of_mod v : - 2 ^ 31 <= v < 2 ^ 31 -> int_of (v mod 2 ^ 32) = v.
Proof.
  intros H. unfold int_of.
  rewrite Zplus_mod_idemp_l. rewrite Z.mod_small; lia.
Qed.

Lemma load_store_int m p v :
  - 2 ^ 31 <= v < 2 ^ 31 -> load_int (store_int m p v) p = v.
Proof.
  intros H. unfold load_int.
  replace (store_int m p v p) with (store_int m p v (p + 0)) by (f_equal; lia).
  rewrite !store_int_in by lia.
  set (u := v mod 2 ^ 32).
  assert (Hu : 0 <= u < 2 ^ 32) by (apply Z.mod_pos_bound; lia).
  replace (u / 2 ^ (8 * 0) mod 256 + 2 ^ 8 * (u / 2 ^ (8 * 1) mod 256)
           + 2 ^ 16 * (u / 2 ^ (8 * 2) mod 256)
           + 2 ^ 24 * (u / 2 ^ (8 * 3) mod 256)) with u.
  { apply int_of_mod; exact H. }
  change (2 ^ (8 * 0)) with 1. change (2 ^ (8 * 1)) with 256.
  change (2 ^ (8 * 2)) with 65536. change (2 ^ (8 * 3)) with 16777216.
  change (2 ^ 8) with 256. change (2 ^ 16) with 65536.
  change (2 ^ 24) with 16777216. change (2 ^ 32) with 4294967296 in Hu.
  rewrite Z.div_1_r.
  pose proof (Z.div_mod u 256). pose proof (Z.mod_pos_bound u 256).
  pose proof (Z.div_mod (u / 256) 256). pose proof (Z.mod_pos_bound (u / 256) 256).
  pose proof (Z.div_mod (u / 256 / 256) 256).
  pose proof (Z.mod_pos_bound (u / 256 / 256) 256).
  replace (u / 65536) with (u / 256 / 256) by (rewrite Z.div_div by lia; reflexivity).
  replace (u / 16777216) with (u / 256 / 256 / 256)
    by (rewrite !Z.div_div by lia; reflexivity).
  assert (u / 256 / 256 / 256 < 256).
  { apply Z.div_lt_upper_bound; [lia|]. apply Z.div_lt_upper_bound; [lia|].
    apply Z.div_lt_upper_bound; lia. }
  assert (0 <= u / 256 / 256 / 256).
  { repeat apply Z.div_pos; lia. }
  rewrite (Z.mod_small (u / 256 / 256 / 256)) by lia. lia.
Qed.

Lemma load_int_ext m m' p :
  (forall i, 0 <= i < 4 -> m' (p + i) = m (p + i)) -> load_int m' p = load_int m p.
Proof.
  intros H. unfold load_int.
  rewrite <- (H 1), <- (H 2), <- (H 3) by lia.
  replace (m p) with (m (p + 0)) by (f_equal; lia). rewrite <- (H 0) by lia.
  replace (p + 0) with p by lia. reflexivity.
Qed.

End CIntFacts.


(** * Facts about the KeyValue container *)

Module KeyValueFacts.
Import CInt CIntFacts KeyValue.

Lemma pow2_pos k : 0 <= k -> 0 < 2 ^ k.
Proof. intros; apply Z.pow_pos_nonneg; lia. Qed.

Lemma pow2b_spec x : pow2b x = true -> exists k, 0 <= k <= 30 /\ x = 2 ^ k.
Proof.
  unfold pow2b. rewrite !andb_true_iff, Z.ltb_lt, Z.leb_le, Z.eqb_eq.
  intros [[H0 H1] H2]. exists (Z.log2 x). split; [|exact H2].
  split; [apply Z.log2_nonneg|].
  assert (Z.log2 x < 31); [|lia].
  apply Z.log2_lt_pow2; [lia|]. change (2 ^ 31) with (2 * 2 ^ 30). lia.
Qed.

Lemma pow2_divide a b : 0 <= a <= b -> (2 ^ a | 2 ^ b).
Proof.
  intros H. exists (2 ^ (b - a)). rewrite <- Z.pow_add_r by lia. f_equal; lia.
Qed.

Lemma pow2_max a b : 0 <= a -> 0 <= b -> Z.max (2 ^ a) (2 ^ b) = 2 ^ Z.max a b.
Proof.
  intros Ha Hb. destruct (Z.le_ge_cases a b).
  - rewrite !Z.max_r; auto. apply Z.pow_le_mono_r; lia.
  - rewrite !Z.max_l; auto. apply Z.pow_le_mono_r; lia.
Qed.

Lemma MAX_max x y : MAX x y = Z.max x y.
Proof. unfold MAX. destruct (Z.gtb_spec x y); lia. Qed.

(** [pad]: rounding an offset up to a multiple of [a]. *)
Lemma pad_bounds x a : 0 < a -> x <= pad x a < x + a.
Proof.
  intros Ha. unfold pad.
  pose proof (Z.div_mod (x + a - 1) a). pose proof (Z.mod_pos_bound (x + a - 1) a).
  lia.
Qed.

Lemma pad_divide x a : (a | pad x a).
Proof. unfold pad. apply Z.divide_factor_l. Qed.

Lemma ROUNDUP_offset base x k :
  0 <= k <= 64 -> (2 ^ k | base) -> 0 <= base -> 0 <= x ->
  base + x + 2 ^ k <= 2 ^ 64 ->
  ROUNDUP (base + x) (2 ^ k - 1) = base + pad x (2 ^ k).
Proof.
  intros Hk [q ->] Hb Hx Hlt. pose proof (pow2_pos k ltac:(lia)).
  rewrite ROUNDUP_pow2 by lia. unfold pad.
  replace (q * 2 ^ k + x + (2 ^ k - 1)) with (q * 2 ^ k + (x + 2 ^ k - 1)) by lia.
  rewrite Z.div_add_l by lia. lia.
Qed.

(** The facts [wf_config] stands for: the alignment fields, and where the
    page lies. *)
Record alignment (kv : t) (a b c : Z) : Prop := mkAlignment {
  cf_a : 0 <= a <= 30;
  cf_b : 0 <= b <= 30;
  cf_c : c = Z.max (Z.max a b) 2;
  cf_kalign : kalign kv = 2 ^ a;
  cf_valign : valign kv = 2 ^ b;
  cf_talign : talign kv = 2 ^ c;
  cf_kalignm1 : kalignm1 kv = 2 ^ a - 1;
  cf_valignm1 : valignm1 kv = 2 ^ b - 1;
  cf_talignm1 : talignm1 kv = 2 ^ c - 1;
  cf_twolen : twolenbytes kv = 8
}.

Record config (kv : t) (a b c : Z) : Prop := mkConfig {
  cf_al : alignment kv a b c;
  cf_page : 0 <= page kv;
  cf_pagesize : 0 <= pagesize kv;
  cf_top : page kv + pagesize kv + 2 ^ 33 <= 2 ^ 64
}.

Lemma alignment_intro kv a b :
  0 <= a <= 30 -> 0 <= b <= 30 ->
  kalign kv = 2 ^ a -> valign kv = 2 ^ b ->
  talign kv = Z.max (Z.max (kalign kv) (valign kv)) 4 ->
  kalignm1 kv = kalign kv - 1 -> valignm1 kv = valign kv - 1 ->
  talignm1 kv = talign kv - 1 -> twolenbytes kv = 8 ->
  alignment kv a b (Z.max (Z.max a b) 2).
Proof.
  intros Ha Hb Ea Eb Et Hk1 Hv1 Ht1 H8.
  assert (talign kv = 2 ^ Z.max (Z.max a b) 2).
  { rewrite Et, Ea, Eb. change 4 with (2 ^ 2).
    rewrite !pow2_max by lia. reflexivity. }
  constructor; try assumption; try reflexivity; congruence.
Qed.

Lemma wf_config_spec kv :
  wf_config kv = true -> exists a b c, config kv a b c.
Proof.
  unfold wf_config. rewrite !andb_true_iff, !Z.eqb_eq, !Z.leb_le.
  intros [[[[[[[[[Hk Hv] Ht] Hk1] Hv1] Ht1] H8] Hp] Hs] Htop].
  destruct (pow2b_spec _ Hk) as (a & Ha & Ea).
  destruct (pow2b_spec _ Hv) as (b & Hb & Eb).
  exists a, b, (Z.max (Z.max a b) 2).
  constructor; try assumption. apply alignment_intro; assumption.
Qed.

(** The configuration is what every method leaves alone. *)
Definition cfg_of (kv : t) :=
  (kalign kv, valign kv, talign kv, kalignm1 kv, valignm1 kv, talignm1 kv,
   twolenbytes kv, page kv, pagesize kv).

Lemma alignment_cfg kv kv' a b c :
  cfg_of kv' = cfg_of kv -> alignment kv a b c -> alignment kv' a b c.
Proof.
  unfold cfg_of. intros E H. inversion E. destruct H.
  constructor; congruence.
Qed.

Lemma config_cfg kv kv' a b c :
  cfg_of kv' = cfg_of kv -> config kv a b c -> config kv' a b c.
Proof.
  intros E [H ? ? ?]. pose proof (alignment_cfg _ _ _ _ _ E H).
  unfold cfg_of in E. inversion E. constructor; congruence.
Qed.

Ltac alignment_facts A :=
  let Ea := fresh "Ea" in let Eb := fresh "Eb" in let Ec := fresh "Ec" in
  pose proof (cf_a _ _ _ _ A); pose proof (cf_b _ _ _ _ A);
  pose proof (cf_c _ _ _ _ A);
  pose proof (cf_kalign _ _ _ _ A) as Ea; pose proof (cf_valign _ _ _ _ A) as Eb;
  pose proof (cf_talign _ _ _ _ A) as Ec;
  rewrite ?(cf_kalignm1 _ _ _ _ A), ?(cf_valignm1 _ _ _ _ A),
    ?(cf_talignm1 _ _ _ _ A), ?(cf_twolen _ _ _ _ A);
  rewrite ?Ea, ?Eb, ?Ec in *.

Ltac config_facts C :=
  pose proof (cf_page _ _ _ _ C); pose proof (cf_pagesize _ _ _ _ C);
  pose proof (cf_top _ _ _ _ C);
  alignment_facts (cf_al _ _ _ _ C).

Section Alignments.
Variables (kv : t) (a b c : Z).
Hypothesis A : alignment kv a b c.

Lemma c_range : 2 <= c <= 30.
Proof. alignment_facts A. lia. Qed.

Lemma talign_ge4 : 4 <= talign kv.
Proof.
  pose proof c_range. alignment_facts A. change 4 with (2 ^ 2).
  apply Z.pow_le_mono_r; lia.
Qed.

Lemma kalign_talign : (kalign kv | talign kv).
Proof. alignment_facts A. apply pow2_divide. lia. Qed.

Lemma valign_talign : (valign kv | talign kv).
Proof. alignment_facts A. apply pow2_divide. lia. Qed.

Lemma align_bounds :
  0 < kalign kv <= 2 ^ 30 /\ 0 < valign kv <= 2 ^ 30 /\ 0 < talign kv <= 2 ^ 30.
Proof.
  pose proof c_range. alignment_facts A.
  repeat split; try (apply pow2_pos; lia); apply Z.pow_le_mono_r; lia.
Qed.

(** Pointers are aligned whatever the address. *)
Lemma kptr_aligned iptr : (kalign kv | kptr_of kv iptr).
Proof.
  unfold kptr_of. alignment_facts A. apply ROUNDUP_divide; lia.
Qed.

Lemma vptr_aligned iptr kb : (valign kv | vptr_of kv iptr kb).
Proof.
  unfold vptr_of. alignment_facts A. apply ROUNDUP_divide; lia.
Qed.

Lemma nptr_aligned iptr kb vb : (talign kv | nptr_of kv iptr kb vb).
Proof.
  pose proof c_range. unfold nptr_of. alignment_facts A.
  apply ROUNDUP_divide; lia.
Qed.

Lemma packed_size_bounds kb vb :
  0 <= kb -> 0 <= vb ->
  8 + kb + vb <= packed_size kv kb vb < 8 + kb + vb + 3 * 2 ^ 30 /\
  (talign kv | packed_size kv kb vb).
Proof.
  intros Hk Hv. pose proof align_bounds as HA. unfold packed_size.
  rewrite (cf_twolen _ _ _ _ A).
  pose proof (pad_bounds 8 (kalign kv) ltac:(lia)).
  pose proof (pad_bounds (pad 8 (kalign kv) + kb) (valign kv) ltac:(lia)).
  pose proof (pad_bounds (pad (pad 8 (kalign kv) + kb) (valign kv) + vb)
                (talign kv) ltac:(lia)).
  split; [lia | apply pad_divide].
Qed.

End Alignments.

Section Pointers.
Variables (kv : t) (a b c : Z).
Hypothesis C : config kv a b c.
Let A := cf_al _ _ _ _ C.

(** Pointers of a pair placed at any address below the top of the page. *)
Lemma pointers_mono iptr kb vb :
  0 <= iptr <= page kv + pagesize kv ->
  0 <= kb <= INTMAX -> 0 <= vb <= INTMAX ->
  iptr + 8 <= kptr_of kv iptr < iptr + 8 + kalign kv /\
  kptr_of kv iptr + kb <= vptr_of kv iptr kb
    < kptr_of kv iptr + kb + valign kv /\
  vptr_of kv iptr kb + vb <= nptr_of kv iptr kb vb
    < vptr_of kv iptr kb + vb + talign kv.
Proof.
  intros Hi Hk Hv. pose proof (c_range _ _ _ _ A) as Hc.
  pose proof (align_bounds _ _ _ _ A) as HA.
  unfold nptr_of, vptr_of, kptr_of. unfold INTMAX in *.
  config_facts C.
  change (2 ^ 33) with 8589934592 in *. change (2 ^ 30) with 1073741824 in *.
  assert (K := ROUNDUP_bounds (iptr + 8) a ltac:(lia) ltac:(lia) ltac:(lia)).
  assert (V := ROUNDUP_bounds (ROUNDUP (iptr + 8) (2 ^ a - 1) + kb) b
                 ltac:(lia) ltac:(lia) ltac:(lia)).
  assert (N := ROUNDUP_bounds
                 (ROUNDUP (ROUNDUP (iptr + 8) (2 ^ a - 1) + kb) (2 ^ b - 1) + vb)
                 c ltac:(lia) ltac:(lia) ltac:(lia)).
  lia.
Qed.

(** At an aligned address the pair takes [packed_size] bytes. *)
Lemma nptr_packed iptr kb vb :
  0 <= iptr <= page kv + pagesize kv -> (talign kv | iptr) ->
  0 <= kb <= INTMAX -> 0 <= vb <= INTMAX ->
  nptr_of kv iptr kb vb = iptr + packed_size kv kb vb.
Proof.
  intros Hi Ht Hk Hv. pose proof (c_range _ _ _ _ A) as Hc.
  pose proof (align_bounds _ _ _ _ A) as HA.
  pose proof (kalign_talign _ _ _ _ A) as KT.
  pose proof (valign_talign _ _ _ _ A) as VT.
  unfold nptr_of, vptr_of, kptr_of, packed_size. unfold INTMAX in *.
  config_facts C.
  change (2 ^ 33) with 8589934592 in *. change (2 ^ 30) with 1073741824 in *.
  pose proof (pad_bounds 8 (2 ^ a) ltac:(lia)).
  pose proof (pad_bounds (pad 8 (2 ^ a) + kb) (2 ^ b) ltac:(lia)).
  pose proof (pad_bounds (pad (pad 8 (2 ^ a) + kb) (2 ^ b) + vb) (2 ^ c) ltac:(lia)).
  rewrite (ROUNDUP_offset iptr 8 a) by
    (try lia; eapply Z.divide_trans; eassumption).
  rewrite <- Z.add_assoc.
  rewrite (ROUNDUP_offset iptr _ b) by
    (try lia; eapply Z.divide_trans; eassumption).
  rewrite <- Z.add_assoc.
  rewrite (ROUNDUP_offset iptr _ c) by (try lia; assumption).
  reflexivity.
Qed.

End Pointers.

(** ** Reading fields through the methods *)

Ltac kvred :=
  cbn [nkv ksize vsize tsize kalign valign talign kalignm1 valignm1 talignm1
       twolenbytes nkey keysize valuesize alignsize page pagesize pages npage
       maxpage fileflag fp heap disk rsize wsize
       set_totals set_cursor set_pages set_file set_heap init_page
       incr_npage fst snd] in *.

Lemma create_page_cfg kv : cfg_of (create_page kv) = cfg_of kv.
Proof. reflexivity. Qed.

Lemma flush_cfg kv : cfg_of (flush kv) = cfg_of kv.
Proof. reflexivity. Qed.

Lemma store_cfg kv key kb value vb :
  cfg_of (store kv key kb value vb) = cfg_of kv.
Proof. reflexivity. Qed.

(** Unfolding equations. *)
Lemma add_rec_S fuel kv key kb value vb :
  add_rec (S fuel) kv key kb value vb =
    if kvbytes_of kv kb vb <? 0
    then Fatal "Single key/value pair exceeds int size"
    else if page_full kv (kvbytes_of kv kb vb) then
      if alignsize kv =? 0
      then Fatal "Single key/value pair exceeds page size"
      else add_rec fuel (flush kv) key kb value vb
    else Ok (store kv key kb value vb).
Proof. reflexivity. Qed.

Lemma add_all_cons kv p l :
  add_all kv (p :: l) =
    match add kv (a_key p) (a_keybytes p) (a_value p) (a_valuebytes p) with
    | Ok kv' => add_all kv' l
    | Fatal m => Fatal m
    end.
Proof. reflexivity. Qed.

Lemma add_rec_cfg fuel : forall kv key kb value vb kv',
  add_rec fuel kv key kb value vb = Ok kv' -> cfg_of kv' = cfg_of kv.
Proof.
  induction fuel as [|fuel IH]; intros kv key kb value vb kv' H.
  - discriminate.
  - rewrite add_rec_S in H.
    destruct (_ <? 0); [discriminate|].
    destruct (page_full _ _).
    + destruct (alignsize kv =? 0); [discriminate|].
      apply IH in H. rewrite H. apply flush_cfg.
    + injection H as <-. apply store_cfg.
Qed.

Lemma add_cfg kv key kb value vb kv' :
  add kv key kb value vb = Ok kv' -> cfg_of kv' = cfg_of kv.
Proof. apply add_rec_cfg. Qed.

Lemma add_all_cfg l : forall kv kv',
  add_all kv l = Ok kv' -> cfg_of kv' = cfg_of kv.
Proof.
  induction l as [|p l IH]; intros kv kv' H.
  - injection H as <-. reflexivity.
  - rewrite add_all_cons in H.
    destruct (add kv _ _ _ _) as [kv1|] eqn:E; [|discriminate].
    apply add_cfg in E. apply IH in H. rewrite H. exact E.
Qed.

Lemma complete_cfg kv : cfg_of (complete kv) = cfg_of kv.
Proof. unfold complete. destruct (fileflag (create_page kv)); reflexivity. Qed.

Lemma request_page_cfg kv i : cfg_of (fst (request_page kv i)) = cfg_of kv.
Proof.
  unfold request_page. destruct (fileflag kv) eqn:F.
  - destruct (_ && _); reflexivity.
  - rewrite F, andb_false_r. reflexivity.
Qed.

Lemma new_alignment memblock mem memsize ka va :
  pow2b ka = true -> pow2b va = true ->
  exists a b c, alignment (new memblock mem memsize ka va) a b c.
Proof.
  intros Hk Hv.
  destruct (pow2b_spec _ Hk) as (a & Ha & Ea).
  destruct (pow2b_spec _ Hv) as (b & Hb & Eb).
  exists a, b, (Z.max (Z.max a b) 2).
  apply alignment_intro; auto; unfold new; kvred; rewrite ?MAX_max; auto.
Qed.

(** ** Claim C6: completing a container that holds nothing *)

(** C6, as the code has it: [complete] on a KeyValue to which nothing was
    added leaves exactly one page, an empty one (no pair, no byte, file
    offset 0, no spill file), and the totals [nkv], [ksize], [vsize] and
    [tsize] are all zero; the page iteration visits that page and finds no
    record. *)
Theorem complete_of_empty (memblock : Z) (mem : bytes) (memsize ka va : Z) :
  let kv := complete (new memblock mem memsize ka va) in
  fst (request_info kv) = 1 /\
  firstn 1 (pages kv) = [mkPage 0 0 0 0 0 0 0] /\
  nkv kv = 0 /\ ksize kv = 0 /\ vsize kv = 0 /\ tsize kv = 0 /\
  fileflag kv = false /\
  snd (iterate kv) = [[]].
Proof.
  repeat split.
Qed.

(** C6 as stated (zero pages) does not hold: the page count is one. *)
Lemma complete_of_empty_counts_a_page :
  ~ (fst (request_info (complete (new 4096 (fun _ => 0) 65536 4 4))) = 0 /\
     nkv (complete (new 4096 (fun _ => 0) 65536 4 4)) = 0).
Proof.
  intros [H _]. vm_compute in H. discriminate.
Qed.

(** ** Claim C4: alignment *)

(** File offsets and file sizes of page descriptors are multiples of
    [ALIGNFILE]; this holds of every entry of the [pages] array. *)
Definition file_aligned (p : Page) : Prop :=
  Z.divide ALIGNFILE (p_fileoffset p) /\ Z.divide ALIGNFILE (p_filesize p).

Lemma u64_divide a x : (a | 2 ^ 64) -> (a | x) -> (a | u64 x).
Proof.
  intros H1 H2. unfold u64.
  destruct (Z.eq_dec a 0) as [->|Ha].
  { destruct H1 as [q Hq]. rewrite Z.mul_0_r in Hq. discriminate. }
  rewrite Z.mod_eq by discriminate.
  apply Z.divide_sub_r; [assumption|].
  apply Z.divide_mul_l. assumption.
Qed.

Lemma ALIGNFILE_divides : (ALIGNFILE | 2 ^ 64).
Proof. exists (2 ^ 55). reflexivity. Qed.

Lemma array_set_Forall {A} (P : A -> Prop) (l : list A) i x :
  Forall P l -> P x -> Forall P (array_set l i x).
Proof.
  intros Hl Hx. revert i. induction Hl as [|h t Hh Ht IH]; intros i.
  - constructor; auto.
  - destruct i; simpl; constructor; auto.
Qed.

Lemma Forall_firstn' {A} (P : A -> Prop) n : forall l,
  Forall P l -> Forall P (firstn n l).
Proof.
  induction n as [|n IH]; intros l H; [constructor|].
  destruct H; cbn [firstn]; constructor; auto.
Qed.

Lemma page_at_file_aligned kv i :
  Forall file_aligned (pages kv) -> file_aligned (page_at kv i).
Proof.
  intros H. unfold page_at.
  destruct (nth_in_or_default (Z.to_nat i) (pages kv) (mkPage 0 0 0 0 0 0 0))
    as [Hin | ->].
  - rewrite Forall_forall in H. apply H. exact Hin.
  - split; apply Z.divide_0_r.
Qed.

Lemma descriptor_file_aligned kv :
  Forall file_aligned (pages kv) -> file_aligned (descriptor kv).
Proof.
  intros H. unfold descriptor, file_aligned. cbn [p_fileoffset p_filesize].
  split.
  - destruct (npage kv =? 0); [apply Z.divide_0_r|].
    destruct (page_at_file_aligned kv (npage kv - 1) H).
    apply u64_divide; [apply ALIGNFILE_divides|].
    apply Z.divide_add_r; assumption.
  - apply roundup_divide; [reflexivity | apply ALIGNFILE_divides].
Qed.

Lemma create_page_file_aligned kv :
  Forall file_aligned (pages kv) -> Forall file_aligned (pages (create_page kv)).
Proof.
  intros H. unfold create_page. kvred.
  apply array_set_Forall; [assumption | apply descriptor_file_aligned; assumption].
Qed.

Lemma flush_file_aligned kv :
  Forall file_aligned (pages kv) -> Forall file_aligned (pages (flush kv)).
Proof. intros H. apply (create_page_file_aligned kv H). Qed.

Lemma add_rec_file_aligned fuel : forall kv key kb value vb kv',
  add_rec fuel kv key kb value vb = Ok kv' ->
  Forall file_aligned (pages kv) -> Forall file_aligned (pages kv').
Proof.
  induction fuel as [|fuel IH]; intros kv key kb value vb kv' H F.
  - discriminate.
  - rewrite add_rec_S in H.
    destruct (_ <? 0); [discriminate|].
    destruct (page_full _ _).
    + destruct (alignsize kv =? 0); [discriminate|].
      apply IH in H; [exact H | apply flush_file_aligned; exact F].
    + injection H as <-. exact F.
Qed.

Lemma add_file_aligned kv key kb value vb kv' :
  add kv key kb value vb = Ok kv' ->
  Forall file_aligned (pages kv) -> Forall file_aligned (pages kv').
Proof. apply add_rec_file_aligned. Qed.

Lemma add_all_file_aligned l : forall kv kv',
  add_all kv l = Ok kv' ->
  Forall file_aligned (pages kv) -> Forall file_aligned (pages kv').
Proof.
  induction l as [|p l IH]; intros kv kv' H F.
  - injection H as <-. exact F.
  - rewrite add_all_cons in H.
    destruct (add kv _ _ _ _) as [kv1|] eqn:E; [|discriminate].
    apply (IH _ _ H). apply (add_file_aligned _ _ _ _ _ _ E F).
Qed.

Lemma complete_pages kv : pages (complete kv) = pages (create_page kv).
Proof. unfold complete. destruct (fileflag (create_page kv)); reflexivity. Qed.

(** What one scan of a page hands out is aligned: keys and values always,
    record starts from the second record on, and the first one when the
    page itself is aligned. *)
Definition view_aligned (kv : t) (v : view) : Prop :=
  Z.divide (kalign kv) (v_key v) /\ Z.divide (valign kv) (v_value v) /\
  (Z.divide (talign kv) (page kv) -> Z.divide (talign kv) (v_start v)).

Lemma scan_page_aligned kv a b c :
  alignment kv a b c ->
  forall n ptr, ((talign kv | page kv) -> (talign kv | ptr)) ->
  Forall (view_aligned kv) (scan_page kv ptr n).
Proof.
  intros A. induction n as [|n IH]; intros ptr Hp; cbn [scan_page].
  - constructor.
  - constructor.
    + repeat split; cbn [v_key v_value v_start].
      * apply (kptr_aligned _ _ _ _ A).
      * apply (vptr_aligned _ _ _ _ A ptr).
      * exact Hp.
    + apply IH. intros _. apply (nptr_aligned _ _ _ _ A ptr).
Qed.

Lemma cfg_fields kv kv' :
  cfg_of kv' = cfg_of kv ->
  kalign kv' = kalign kv /\ valign kv' = valign kv /\
  talign kv' = talign kv /\ page kv' = page kv /\
  pagesize kv' = pagesize kv.
Proof.
  unfold cfg_of. intros E. injection E. intros. repeat split; assumption.
Qed.

Lemma view_aligned_cfg kv kv' v :
  cfg_of kv' = cfg_of kv -> view_aligned kv v -> view_aligned kv' v.
Proof.
  intros E H. destruct (cfg_fields _ _ E) as (E1 & E2 & E3 & E4 & _).
  unfold view_aligned. rewrite E1, E2, E3, E4. exact H.
Qed.

Lemma iterate_from_aligned a b c n : forall kv ipage,
  alignment kv a b c ->
  Forall (Forall (view_aligned kv)) (snd (iterate_from kv ipage n)).
Proof.
  induction n as [|n IH]; intros kv ipage A; cbn [iterate_from].
  - constructor.
  - pose proof (request_page_cfg kv ipage) as E.
    destruct (request_page kv ipage) as [kv1 [[[nk ?] ?] ?]]. cbn [fst] in E.
    pose proof (alignment_cfg _ _ _ _ _ E A) as A1.
    specialize (IH kv1 (ipage + 1) A1).
    destruct (iterate_from kv1 (ipage + 1) n) as [kv2 rest]. cbn [snd] in *.
    constructor.
    + apply Forall_impl with (P := view_aligned kv1).
      * intros v. apply view_aligned_cfg. symmetry. exact E.
      * apply (scan_page_aligned kv1 a b c A1). intros H. exact H.
    + eapply Forall_impl; [|exact IH].
      intros vs. apply Forall_impl. intros v. apply view_aligned_cfg.
      symmetry. exact E.
Qed.

(** Where the records of one scan start: the first at the address the scan
    starts from, every later one at a multiple of [talign], whatever the
    address of the page. *)
Definition starts_from (kv : t) (ptr : Z) (vs : list view) : Prop :=
  match vs with
  | [] => True
  | v :: rest =>
    v_start v = ptr /\ Forall (fun w => Z.divide (talign kv) (v_start w)) rest
  end.

Lemma scan_page_later kv a b c :
  alignment kv a b c ->
  forall n ptr, (talign kv | ptr) ->
  Forall (fun w => Z.divide (talign kv) (v_start w)) (scan_page kv ptr n).
Proof.
  intros A. induction n as [|n IH]; intros ptr Hp; cbn [scan_page].
  - constructor.
  - constructor; [exact Hp|]. apply IH. apply (nptr_aligned _ _ _ _ A ptr).
Qed.

Lemma scan_page_starts kv a b c :
  alignment kv a b c ->
  forall n ptr, starts_from kv ptr (scan_page kv ptr n).
Proof.
  intros A n ptr. destruct n as [|n]; cbn [scan_page starts_from]; [exact I|].
  split; [reflexivity|].
  apply (scan_page_later kv a b c A). apply (nptr_aligned _ _ _ _ A ptr).
Qed.

Lemma starts_from_cfg kv kv' ptr vs :
  cfg_of kv' = cfg_of kv -> starts_from kv ptr vs -> starts_from kv' ptr vs.
Proof.
  intros E H. destruct (cfg_fields _ _ E) as (_ & _ & E3 & _ & _).
  unfold starts_from in *. destruct vs; [exact I|]. now rewrite E3.
Qed.

Lemma iterate_from_starts a b c n : forall kv ipage,
  alignment kv a b c ->
  Forall (starts_from kv (page kv)) (snd (iterate_from kv ipage n)).
Proof.
  induction n as [|n IH]; intros kv ipage A; cbn [iterate_from].
  - constructor.
  - pose proof (request_page_cfg kv ipage) as E.
    destruct (request_page kv ipage) as [kv1 [[[nk ?] ?] ?]]. cbn [fst] in E.
    pose proof (alignment_cfg _ _ _ _ _ E A) as A1.
    specialize (IH kv1 (ipage + 1) A1).
    destruct (cfg_fields _ _ E) as (_ & _ & _ & E4 & _).
    destruct (iterate_from kv1 (ipage + 1) n) as [kv2 rest]. cbn [snd] in *.
    rewrite <- E4.
    constructor.
    + apply (starts_from_cfg kv1); [symmetry; exact E|].
      apply (scan_page_starts kv1 a b c A1).
    + eapply Forall_impl; [|exact IH].
      intros vs. apply starts_from_cfg. symmetry. exact E.
Qed.

(** C4, as the code has it.  After any accepted sequence of [add] calls and
    [complete], with [kalign] and [valign] powers of two: [talign] is the
    largest of [kalign], [valign] and [sizeof(int)]; every record reached by
    the page iteration has its key pointer [kalign]-aligned and its value
    pointer [valign]-aligned; the first record of a page starts at the
    address of the page and every later record of the page at a multiple
    of [talign], so that every record start is [talign]-aligned when the
    page's own address is; and the file offset and the file size of every
    page are multiples of the 512-byte file-alignment unit. *)
Theorem iteration_alignment (memblock : Z) (mem : bytes) (memsize ka va : Z)
    (l : list pair) (kv1 : t) :
  pow2b ka = true -> pow2b va = true ->
  add_all (new memblock mem memsize ka va) l = Ok kv1 ->
  let kv2 := complete kv1 in
  talign kv2 = Z.max (Z.max ka va) 4 /\
  Forall (Forall (fun v =>
            Z.divide ka (v_key v) /\ Z.divide va (v_value v) /\
            (Z.divide (talign kv2) memblock ->
             Z.divide (talign kv2) (v_start v))))
         (snd (iterate kv2)) /\
  Forall (fun vs =>
            match vs with
            | [] => True
            | v :: rest =>
              v_start v = memblock
              /\ Forall (fun w => Z.divide (talign kv2) (v_start w)) rest
            end)
         (snd (iterate kv2)) /\
  Forall (fun p => Z.divide ALIGNFILE (p_fileoffset p)
                   /\ Z.divide ALIGNFILE (p_filesize p))
         (firstn (Z.to_nat (npage kv2)) (pages kv2)).
Proof.
  intros Hk Hv H kv2.
  destruct (new_alignment memblock mem memsize ka va Hk Hv) as (a & b & c & A0).
  pose proof (add_all_cfg _ _ _ H) as E1.
  pose proof (complete_cfg kv1) as E2. fold kv2 in E2.
  assert (E : cfg_of kv2 = cfg_of (new memblock mem memsize ka va))
    by (rewrite E2; exact E1).
  pose proof (alignment_cfg _ _ _ _ _ E A0) as A2.
  destruct (cfg_fields _ _ E) as (Eka & Eva & Eta & Epage & _).
  split; [|split; [|split]].
  - transitivity (talign (new memblock mem memsize ka va)); [exact Eta|].
    unfold new, init_page. kvred. rewrite !MAX_max. reflexivity.
  - pose proof (iterate_from_aligned a b c
                  (Z.to_nat (fst (request_info kv2))) kv2 0 A2) as F.
    unfold iterate. revert F. apply Forall_impl. intros vs.
    apply Forall_impl. intros v (K & V & S).
    rewrite Eka in K. rewrite Eva in V. rewrite Epage in S. auto.
  - pose proof (iterate_from_starts a b c
                  (Z.to_nat (fst (request_info kv2))) kv2 0 A2) as F.
    unfold iterate. revert F. apply Forall_impl. intros vs S.
    unfold starts_from in S. rewrite Epage in S. exact S.
  - apply Forall_firstn'.
    assert (F : Forall file_aligned (pages kv2)).
    { unfold kv2. rewrite complete_pages. apply create_page_file_aligned.
      apply (add_all_file_aligned _ _ _ H). constructor. }
    revert F. apply Forall_impl. intros p Hp. exact Hp.
Qed.

(** The hypotheses of [iteration_alignment] hold of a run that spills. *)
Definition sample_key : bytes := fun i => 65 + i.
Definition sample_value : bytes := fun i => 97 + i.
Definition sample_pairs : list pair :=
  [mkPair sample_key 3 sample_value 5; mkPair sample_key 1 sample_value 0;
   mkPair sample_key 20 sample_value 20; mkPair sample_key 2 sample_value 2;
   mkPair sample_key 20 sample_value 25].

Lemma sample_run_ok :
  is_ok (add_all (new 4096 (fun _ => 0) 64 4 8) sample_pairs) = true.
Proof. vm_compute. reflexivity. Qed.

Lemma iteration_alignment_witness :
  match add_all (new 4096 (fun _ => 0) 64 4 8) sample_pairs with
  | Ok kv1 =>
    let kv2 := complete kv1 in
    talign kv2 = Z.max (Z.max 4 8) 4 /\
    Forall (Forall (fun v =>
              Z.divide 4 (v_key v) /\ Z.divide 8 (v_value v) /\
              (Z.divide (talign kv2) 4096 ->
               Z.divide (talign kv2) (v_start v))))
           (snd (iterate kv2)) /\
    Forall (fun vs =>
              match vs with
              | [] => True
              | v :: rest =>
                v_start v = 4096
                /\ Forall (fun w => Z.divide (talign kv2) (v_start w)) rest
              end)
           (snd (iterate kv2)) /\
    Forall (fun p => Z.divide ALIGNFILE (p_fileoffset p)
                     /\ Z.divide ALIGNFILE (p_filesize p))
           (firstn (Z.to_nat (npage kv2)) (pages kv2))
  | Fatal _ => False
  end.
Proof.
  pose proof sample_run_ok as R.
  destruct (add_all (new 4096 (fun _ => 0) 64 4 8) sample_pairs) as [kv1|m] eqn:E.
  - apply (iteration_alignment 4096 (fun _ => 0) 64 4 8 sample_pairs kv1);
      [reflexivity | reflexivity | exact E].
  - discriminate R.
Defined.

(** C4 as stated fails for the record start: with [kalign = 1024] on a page
    whose address is only 512-aligned (what the driver's allocation
    guarantees), the first record of the page starts at the page address. *)
Lemma record_start_not_aligned :
  match add (new 512 (fun _ => 0) 4096 1024 4) sample_key 3 sample_value 5 with
  | Ok kv1 =>
    let kv2 := complete kv1 in
    ~ Forall (Forall (fun v => Z.divide (talign kv2) (v_start v)))
             (snd (iterate kv2))
  | Fatal _ => False
  end.
Proof.
  assert (S : match add (new 512 (fun _ => 0) 4096 1024 4)
                        sample_key 3 sample_value 5 with
              | Ok kv1 =>
                (talign (complete kv1),
                 map (map v_start) (snd (iterate (complete kv1))))
              | Fatal _ => (0, [])
              end = (1024, [[512]])) by (vm_compute; reflexivity).
  destruct (add _ _ _ _ _) as [kv1|m]; [|discriminate S].
  cbv zeta. set (kv2 := complete kv1) in *.
  pose proof (f_equal fst S) as St. pose proof (f_equal snd S) as Ss.
  cbn [fst snd] in St, Ss. rewrite St. intros F.
  destruct (snd (iterate kv2)) as [|vs rest]; [discriminate Ss|].
  destruct vs as [|v vs]; [discriminate Ss|].
  injection Ss as Ev _ _.
  inversion F as [|? ? F1 _]; subst. inversion F1 as [|? ? [q Hq] _]; subst.
  rewrite Ev in Hq. lia.
Qed.

(** On the same page a second record starts at address 2048, a multiple
    of [talign = 1024], and so at the offset 1536 within the page, which
    is none. *)
Lemma second_record_start :
  match add_all (new 512 (fun _ => 0) 4096 1024 4)
                [mkPair sample_key 3 sample_value 5;
                 mkPair sample_key 3 sample_value 5] with
  | Ok kv1 =>
    (talign (complete kv1), map (map v_start) (snd (iterate (complete kv1))))
  | Fatal _ => (0, [])
  end = (1024, [[512; 2048]]).
Proof. vm_compute. reflexivity. Qed.

(** ** Claim C3: when [add] fails, and when it flushes *)

Record cursor_facts (kv : t) : Prop := mkCursorFacts {
  cu_nkey : 0 <= nkey kv <= INTMAX;
  cu_alignsize : 0 <= alignsize kv <= pagesize kv;
  cu_aligned : Z.divide (talign kv) (alignsize kv);
  cu_empty : alignsize kv = 0 -> nkey kv = 0;
  cu_keysize : 0 <= keysize kv;
  cu_valuesize : 0 <= valuesize kv;
  cu_sizes : keysize kv + valuesize kv <= alignsize kv;
  cu_npage : 0 <= npage kv < INTMAX;
  cu_pages : npage kv <= Z.of_nat (length (pages kv));
  cu_file : fp kv = true -> fileflag kv = true
}.

Lemma wf_spec kv :
  wf kv = true ->
  exists a b c, config kv a b c /\ Z.divide (talign kv) (page kv) /\
                cursor_facts kv.
Proof.
  unfold wf. rewrite !andb_true_iff. intros [[Hc Hp] Hu].
  destruct (wf_config_spec _ Hc) as (a & b & c & C).
  exists a, b, c. split; [exact C|].
  pose proof (talign_ge4 _ _ _ _ (cf_al _ _ _ _ C)) as T4.
  split.
  - apply Z.mod_divide; [lia|]. apply Z.eqb_eq. exact Hp.
  - unfold wf_cursor in Hu.
    rewrite !andb_true_iff, !Z.leb_le, !Z.ltb_lt, !orb_true_iff,
      !Z.eqb_eq, Z.ltb_lt, negb_true_iff in Hu.
    destruct Hu as [[[[[[[[[[[[H1 H2] H3] H4] H5] H6] H7] H8] H9] H10] H11] H12] H13].
    constructor; try lia.
    + apply Z.mod_divide; [lia | exact H5].
    + intros F. rewrite F in H13. destruct H13 as [H13|H13]; [discriminate H13 | exact H13].
Qed.

Lemma packed_size_cfg kv kv' kb vb :
  cfg_of kv' = cfg_of kv -> packed_size kv' kb vb = packed_size kv kb vb.
Proof.
  unfold cfg_of, packed_size. intros E. injection E. intros.
  repeat match goal with H : _ = _ |- _ => rewrite H; clear H end.
  reflexivity.
Qed.

(** The [int] [kvbytes] that [add] computes is the packed size, converted. *)
Lemma kvbytes_of_packed kv a b c kb vb :
  config kv a b c -> Z.divide (talign kv) (page kv) ->
  0 <= alignsize kv <= pagesize kv -> Z.divide (talign kv) (alignsize kv) ->
  0 <= kb <= INTMAX -> 0 <= vb <= INTMAX ->
  kvbytes_of kv kb vb = int_of (packed_size kv kb vb).
Proof.
  intros C Hp Ha Hd Hk Hv. unfold kvbytes_of. cbv zeta.
  pose proof (cf_page _ _ _ _ C).
  rewrite (nptr_packed kv a b c C) by (try lia; apply Z.divide_add_r; assumption).
  f_equal. lia.
Qed.

Lemma int_of_wrapped x :
  2 ^ 31 <= x < 2 ^ 32 -> int_of x = x - 2 ^ 32.
Proof.
  intros H. unfold int_of.
  replace (x + 2 ^ 31) with ((x - 2 ^ 31) + 1 * 2 ^ 32) by lia.
  rewrite Z.mod_add by lia. rewrite Z.mod_small; lia.
Qed.

Lemma nth_array_set {A} (d x : A) : forall (l : list A) (i : nat),
  (i <= length l)%nat -> nth i (array_set l i x) d = x.
Proof.
  induction l as [|h t IH]; intros i Hi.
  - destruct i; [reflexivity | simpl in Hi; lia].
  - destruct i; [reflexivity|]. simpl. apply IH. simpl in Hi. lia.
Qed.

(** What [flush] does to a container. *)
Lemma flush_facts kv :
  0 <= npage kv < INTMAX -> npage kv <= Z.of_nat (length (pages kv)) ->
  (fp kv = true -> fileflag kv = true) ->
  let kv' := flush kv in
  npage kv' = npage kv + 1 /\
  page_at kv' (npage kv) = descriptor kv /\
  fileflag kv' = true /\ fp kv' = true /\
  (forall i, 0 <= i < p_filesize (descriptor kv) ->
     disk kv' (p_fileoffset (descriptor kv) + i) = heap kv (page kv + i)) /\
  (forall o, o < p_fileoffset (descriptor kv) \/
             p_fileoffset (descriptor kv) + p_filesize (descriptor kv) <= o ->
     disk kv' o = (if fp kv then disk kv else fun _ => 0) o) /\
  heap kv' = heap kv /\
  nkey kv' = 0 /\ keysize kv' = 0 /\ valuesize kv' = 0 /\ alignsize kv' = 0.
Proof.
  intros Hn Hl Hf kv'.
  assert (D : page_at (create_page kv) (npage kv) = descriptor kv).
  { unfold page_at, create_page. kvred. apply nth_array_set. lia. }
  repeat split.
  - unfold kv', flush, write_page, create_page. kvred.
    apply int_of_small. unfold INTMAX in Hn. lia.
  - exact D.
  - unfold kv', flush, write_page. kvred.
    change (fp (create_page kv)) with (fp kv).
    change (fileflag (create_page kv)) with (fileflag kv).
    destruct (fp kv); [auto | reflexivity].
  - intros i Hi. unfold kv', flush, write_page. kvred.
    change (npage (create_page kv)) with (npage kv). rewrite D.
    rewrite memcpy_in by lia.
    change (heap (create_page kv)) with (heap kv).
    change (page (create_page kv)) with (page kv). f_equal. lia.
  - intros o Ho. unfold kv', flush, write_page. kvred.
    change (npage (create_page kv)) with (npage kv). rewrite D.
    rewrite memcpy_out by lia. reflexivity.
Qed.

Lemma add_unfold kv key kb value vb :
  add kv key kb value vb =
    if kvbytes_of kv kb vb <? 0
    then Fatal "Single key/value pair exceeds int size"
    else if page_full kv (kvbytes_of kv kb vb) then
      if alignsize kv =? 0
      then Fatal "Single key/value pair exceeds page size"
      else
        if kvbytes_of (flush kv) kb vb <? 0
        then Fatal "Single key/value pair exceeds int size"
        else if page_full (flush kv) (kvbytes_of (flush kv) kb vb) then
          if alignsize (flush kv) =? 0
          then Fatal "Single key/value pair exceeds page size"
          else Fatal "add: call nesting exceeded"
        else Ok (store (flush kv) key kb value vb)
    else Ok (store kv key kb value vb).
Proof. reflexivity. Qed.

(** [add] never uses up its call nesting: the second call starts on an
    empty page, where a full page is an error. *)
Lemma add_never_exhausts kv key kb value vb :
  add kv key kb value vb <> Fatal "add: call nesting exceeded".
Proof.
  rewrite add_unfold.
  destruct (_ <? 0); [discriminate|].
  destruct (page_full kv _); [|discriminate].
  destruct (alignsize kv =? 0); [discriminate|].
  destruct (_ <? 0); [discriminate|].
  destruct (page_full (flush kv) _); [|discriminate].
  change (alignsize (flush kv)) with 0. discriminate.
Qed.

Section AddOutcome.
Variables (kv : t) (key : bytes) (kb : Z) (value : bytes) (vb : Z).
Hypothesis W : wf kv = true.
Hypothesis Hkb : 0 <= kb <= INTMAX.
Hypothesis Hvb : 0 <= vb <= INTMAX.
Let sz := packed_size kv kb vb.

Lemma add_kvbytes :
  kvbytes_of kv kb vb = int_of sz /\ kvbytes_of (flush kv) kb vb = int_of sz /\
  8 <= sz < 2 ^ 33.
Proof.
  destruct (wf_spec kv W) as (a & b & c & C & P & U).
  destruct U. unfold INTMAX in *.
  pose proof (packed_size_bounds kv a b c (cf_al _ _ _ _ C) kb vb
                ltac:(lia) ltac:(lia)) as [B _].
  split; [|split].
  - apply (kvbytes_of_packed kv a b c); auto; unfold INTMAX; lia.
  - rewrite (kvbytes_of_packed (flush kv) a b c).
    + rewrite (packed_size_cfg kv (flush kv)) by apply flush_cfg. reflexivity.
    + apply (config_cfg kv); [apply flush_cfg | exact C].
    + exact P.
    + change (alignsize (flush kv)) with 0.
      change (pagesize (flush kv)) with (pagesize kv). lia.
    + change (alignsize (flush kv)) with 0. apply Z.divide_0_r.
    + unfold INTMAX; lia.
    + unfold INTMAX; lia.
  - fold sz in B. change (2 ^ 33) with 8589934592.
    change (2 ^ 30) with 1073741824 in B. lia.
Qed.

Lemma add_int_size :
  INTMAX < sz < 2 ^ 32 ->
  add kv key kb value vb = Fatal "Single key/value pair exceeds int size".
Proof.
  intros H. rewrite add_unfold. destruct add_kvbytes as (E & _ & _).
  rewrite E, int_of_wrapped by (unfold INTMAX in H; lia).
  destruct (Z.ltb_spec (sz - 2 ^ 32) 0); [reflexivity | lia].
Qed.

Lemma page_full_spec k s :
  0 <= alignsize k -> 0 <= s -> alignsize k + s < 2 ^ 64 ->
  nkey k <= INTMAX ->
  page_full k s = negb (fits_current k s) || (nkey k =? INTMAX).
Proof.
  intros Ha Hs Hb Hn. unfold page_full, fits_current.
  rewrite u64_small by lia.
  destruct (Z.gtb_spec (alignsize k + s) (pagesize k)),
           (Z.leb_spec (alignsize k + s) (pagesize k)),
           (Z.ltb_spec (nkey k) INTMAX), (Z.eqb_spec (nkey k) INTMAX);
    try reflexivity; lia.
Qed.

Lemma add_fits :
  sz <= INTMAX -> fits_current kv sz = true ->
  add kv key kb value vb = Ok (store kv key kb value vb).
Proof.
  intros H F. rewrite add_unfold. destruct add_kvbytes as (E & _ & B).
  destruct (wf_spec kv W) as (a & b & c & C & P & U). destruct U.
  config_facts C. unfold INTMAX in *.
  rewrite E, int_of_small by lia.
  destruct (Z.ltb_spec sz 0); [lia|].
  rewrite page_full_spec by (unfold INTMAX; lia). rewrite F.
  unfold fits_current in F. apply andb_true_iff in F. destruct F as [_ F].
  apply Z.ltb_lt in F.
  destruct (Z.eqb_spec (nkey kv) INTMAX); [unfold INTMAX in *; lia|].
  reflexivity.
Qed.

Lemma add_flushes :
  sz <= INTMAX -> sz <= pagesize kv -> fits_current kv sz = false ->
  add kv key kb value vb = Ok (store (flush kv) key kb value vb).
Proof.
  intros H Hs F. rewrite add_unfold. destruct add_kvbytes as (E & E' & B).
  destruct (wf_spec kv W) as (a & b & c & C & P & U). destruct U.
  config_facts C. unfold INTMAX in *.
  rewrite E, E', int_of_small by lia.
  destruct (Z.ltb_spec sz 0); [lia|].
  rewrite page_full_spec by (unfold INTMAX; lia). rewrite F. cbn [negb orb].
  destruct (Z.eqb_spec (alignsize kv) 0) as [Z0|NZ].
  { exfalso. unfold fits_current in F. rewrite Z0, (cu_empty0 Z0) in F.
    destruct (Z.leb_spec (0 + sz) (pagesize kv)); [discriminate F | lia]. }
  assert (PF : page_full (flush kv) sz = false).
  { unfold page_full. change (alignsize (flush kv)) with 0.
    change (nkey (flush kv)) with 0. change (pagesize (flush kv)) with (pagesize kv).
    rewrite u64_small by lia.
    destruct (Z.gtb_spec (0 + sz) (pagesize kv)); [lia | reflexivity]. }
  rewrite PF. reflexivity.
Qed.

Lemma add_page_size :
  sz <= INTMAX -> pagesize kv < sz ->
  add kv key kb value vb = Fatal "Single key/value pair exceeds page size".
Proof.
  intros H Hs. rewrite add_unfold. destruct add_kvbytes as (E & E' & B).
  destruct (wf_spec kv W) as (a & b & c & C & P & U). destruct U.
  config_facts C. unfold INTMAX in *.
  rewrite E, E', int_of_small by lia.
  destruct (Z.ltb_spec sz 0); [lia|].
  assert (PF : page_full kv sz = true).
  { unfold page_full. rewrite u64_small by lia.
    destruct (Z.gtb_spec (alignsize kv + sz) (pagesize kv)); [reflexivity | lia]. }
  assert (PF' : page_full (flush kv) sz = true).
  { unfold page_full. change (alignsize (flush kv)) with 0.
    change (pagesize (flush kv)) with (pagesize kv).
    rewrite u64_small by lia.
    destruct (Z.gtb_spec (0 + sz) (pagesize kv)); [reflexivity | lia]. }
  rewrite PF, PF'. change (alignsize (flush kv)) with 0.
  destruct (alignsize kv =? 0); reflexivity.
Qed.

End AddOutcome.

(** C3, as the code has it.  On a well-formed container (alignments powers
    of two, page address [talign]-aligned) and for lengths that are
    non-negative [int]s, let [sz] be the aligned packed size of the pair.
    - If [sz] does not fit an [int] but is below [2^32], [add] aborts with
      the "exceeds int size" error, whatever the page size.
    - If [sz] fits an [int]: [add] aborts with the "exceeds page size" error
      exactly when [sz] exceeds the page size (so a pair of exactly the page
      size is accepted); otherwise it succeeds, directly when the pair fits
      the current page and the page holds fewer than INTMAX pairs, and else
      after a flush: the descriptor of the current page is appended to
      [pages], the page's file-aligned bytes are on disk at that
      descriptor's offset, and the pair is the only one of the new page. *)
Theorem add_outcome (kv : t) (key : bytes) (kb : Z) (value : bytes) (vb : Z) :
  wf kv = true -> 0 <= kb <= INTMAX -> 0 <= vb <= INTMAX ->
  let sz := packed_size kv kb vb in
  let r := add kv key kb value vb in
  (INTMAX < sz < 2 ^ 32 ->
     r = Fatal "Single key/value pair exceeds int size") /\
  (sz <= INTMAX ->
     (r = Fatal "Single key/value pair exceeds page size" <->
      pagesize kv < sz) /\
     (sz <= pagesize kv ->
        exists kv', r = Ok kv' /\
        if fits_current kv sz then
          npage kv' = npage kv /\ pages kv' = pages kv /\
          disk kv' = disk kv /\
          nkey kv' = nkey kv + 1 /\ alignsize kv' = alignsize kv + sz
        else
          npage kv' = npage kv + 1 /\
          page_at kv' (npage kv) = descriptor kv /\
          fileflag kv' = true /\
          (forall i, 0 <= i < p_filesize (descriptor kv) ->
             disk kv' (p_fileoffset (descriptor kv) + i)
             = heap kv (page kv + i)) /\
          nkey kv' = 1 /\ alignsize kv' = sz)).
Proof.
  intros W Hkb Hvb sz r. split; [apply add_int_size; assumption|].
  intros Hsz.
  destruct (add_kvbytes kv kb vb W Hkb Hvb) as (E & E' & B). fold sz in E, E', B.
  destruct (wf_spec kv W) as (a & b & c & C & P & U). destruct U.
  config_facts C.
  assert (OKcase : sz <= pagesize kv ->
            r = Ok (store (if fits_current kv sz then kv else flush kv)
                          key kb value vb)).
  { intros Hs. destruct (fits_current kv sz) eqn:F.
    - apply add_fits; assumption.
    - apply add_flushes; assumption. }
  split.
  - split.
    + intros Hr. destruct (Z.lt_ge_cases (pagesize kv) sz) as [|Hs]; [assumption|].
      rewrite (OKcase Hs) in Hr. discriminate Hr.
    + intros Hs. apply add_page_size; assumption.
  - intros Hs. rewrite (OKcase Hs). eexists. split; [reflexivity|].
    unfold INTMAX in *.
    destruct (fits_current kv sz) eqn:F.
    + unfold fits_current in F. apply andb_true_iff in F.
      rewrite Z.leb_le, Z.ltb_lt in F. unfold INTMAX in F.
      unfold store. kvred. rewrite E.
      rewrite !int_of_small, u64_small by lia. auto.
    + destruct (flush_facts kv) as (F1 & F2 & F3 & _ & F5 & _);
        [unfold INTMAX; lia | lia | assumption |].
      unfold store. kvred. rewrite E'. fold (flush kv).
      change (alignsize (flush kv)) with 0. change (nkey (flush kv)) with 0.
      rewrite !int_of_small by lia. rewrite (u64_small (0 + sz)) by lia.
      repeat split; auto.
Qed.

(** A container with a part-filled page, and a pair that needs a flush. *)
Definition sample_kv : t :=
  store (new 4096 (fun _ => 0) 64 4 4) sample_key 20 sample_value 20.

Lemma add_outcome_witness :
  let kv := sample_kv in
  let sz := packed_size kv 5 6 in
  let r := add kv sample_key 5 sample_value 6 in
  (INTMAX < sz < 2 ^ 32 ->
     r = Fatal "Single key/value pair exceeds int size") /\
  (sz <= INTMAX ->
     (r = Fatal "Single key/value pair exceeds page size" <->
      pagesize kv < sz) /\
     (sz <= pagesize kv ->
        exists kv', r = Ok kv' /\
        if fits_current kv sz then
          npage kv' = npage kv /\ pages kv' = pages kv /\
          disk kv' = disk kv /\
          nkey kv' = nkey kv + 1 /\ alignsize kv' = alignsize kv + sz
        else
          npage kv' = npage kv + 1 /\
          page_at kv' (npage kv) = descriptor kv /\
          fileflag kv' = true /\
          (forall i, 0 <= i < p_filesize (descriptor kv) ->
             disk kv' (p_fileoffset (descriptor kv) + i)
             = heap kv (page kv + i)) /\
          nkey kv' = 1 /\ alignsize kv' = sz)).
Proof.
  apply (add_outcome sample_kv sample_key 5 sample_value 6).
  - vm_compute. reflexivity.
  - unfold INTMAX. lia.
  - unfold INTMAX. lia.
Defined.

(** C3 as stated fails at the [int] limit: a pair whose packed size is
    exactly the page size is refused when that size is [2^31]. *)
Lemma add_refuses_page_sized_pair :
  let kv := new 4096 (fun _ => 0) (2 ^ 31) 4 4 in
  packed_size kv 2147483640 0 = pagesize kv /\
  add kv sample_key 2147483640 sample_value 0
  = Fatal "Single key/value pair exceeds int size".
Proof.
  split; vm_compute; reflexivity.
Qed.

(** Past [2^32] the conversion to [int] wraps to a small size and neither
    check fires: the pair is written although it is larger than the page. *)
Lemma add_accepts_wrapped_size :
  let kv := new 4096 (fun _ => 0) 65536 4 4 in
  pagesize kv < packed_size kv 2147483647 2147483647 /\
  is_ok (add kv sample_key 2147483647 sample_value 2147483647) = true.
Proof.
  split; vm_compute; reflexivity.
Qed.


(** ** Claim C1: the packing round trip *)

(** [holds kv m ptr l e]: memory [m] holds the pairs [l], packed one after
    the other from address [ptr] up to address [e], as [add] lays them
    out. *)
Fixpoint holds (kv : t) (m : bytes) (ptr : Z) (l : list pair) (e : Z) : Prop :=
  match l with
  | [] => e = ptr
  | p :: l' =>
    let kb := a_keybytes p in
    let vb := a_valuebytes p in
    (0 <= kb <= INTMAX /\ 0 <= vb <= INTMAX) /\
    (load_int m ptr = kb /\ load_int m (ptr + 4) = vb) /\
    (forall i, 0 <= i < kb -> m (kptr_of kv ptr + i) = a_key p i) /\
    (forall i, 0 <= i < vb -> m (vptr_of kv ptr kb + i) = a_value p i) /\
    (ptr + 8 <= kptr_of kv ptr /\
     kptr_of kv ptr + kb <= vptr_of kv ptr kb /\
     vptr_of kv ptr kb + vb <= nptr_of kv ptr kb vb) /\
    holds kv m (nptr_of kv ptr kb vb) l' e
  end.

Lemma sum_keybytes_cons p l :
  sum_keybytes (p :: l) = a_keybytes p + sum_keybytes l.
Proof. reflexivity. Qed.

Lemma sum_valuebytes_cons p l :
  sum_valuebytes (p :: l) = a_valuebytes p + sum_valuebytes l.
Proof. reflexivity. Qed.

Lemma sum_keybytes_app l1 l2 :
  sum_keybytes (l1 ++ l2) = sum_keybytes l1 + sum_keybytes l2.
Proof.
  induction l1 as [|p l1 IH]; [reflexivity|].
  cbn [app]. rewrite !sum_keybytes_cons, IH. lia.
Qed.

Lemma sum_valuebytes_app l1 l2 :
  sum_valuebytes (l1 ++ l2) = sum_valuebytes l1 + sum_valuebytes l2.
Proof.
  induction l1 as [|p l1 IH]; [reflexivity|].
  cbn [app]. rewrite !sum_valuebytes_cons, IH. lia.
Qed.

(** The pairs take at least their own bytes and two lengths each. *)
Lemma holds_le kv m l : forall ptr e,
  holds kv m ptr l e ->
  0 <= sum_keybytes l /\ 0 <= sum_valuebytes l /\
  ptr + 8 * Z.of_nat (length l) + sum_keybytes l + sum_valuebytes l <= e.
Proof.
  induction l as [|p l IH]; intros ptr e H; cbn [holds] in H.
  - cbn [length sum_keybytes sum_valuebytes fold_right]. lia.
  - destruct H as ((Hk & Hv) & _ & _ & _ & (H1 & H2 & H3) & H).
    apply IH in H. rewrite sum_keybytes_cons, sum_valuebytes_cons.
    cbn [length]. lia.
Qed.

Lemma holds_ext kv m m' l : forall ptr e,
  (forall a, ptr <= a < e -> m' a = m a) ->
  holds kv m ptr l e -> holds kv m' ptr l e.
Proof.
  induction l as [|p l IH]; intros ptr e X H; cbn [holds] in *.
  - exact H.
  - destruct H as ((Hk & Hv) & (L1 & L2) & K & V & (H1 & H2 & H3) & H).
    pose proof (holds_le _ _ _ _ _ H) as Hle.
    assert (Hn : 0 <= Z.of_nat (length l)) by lia.
    split; [exact (conj Hk Hv)|]. split; [split|].
    { rewrite <- L1. apply load_int_ext. intros i Hi. apply X. lia. }
    { rewrite <- L2. apply load_int_ext. intros i Hi. apply X. lia. }
    split. { intros i Hi. rewrite X by lia. apply K. exact Hi. }
    split. { intros i Hi. rewrite X by lia. apply V. exact Hi. }
    split; [exact (conj H1 (conj H2 H3))|].
    apply IH; [|exact H]. intros a Ha. apply X. lia.
Qed.

Lemma pointers_cfg kv kv' :
  cfg_of kv' = cfg_of kv ->
  (forall p, kptr_of kv' p = kptr_of kv p) /\
  (forall p k, vptr_of kv' p k = vptr_of kv p k) /\
  (forall p k v, nptr_of kv' p k v = nptr_of kv p k v).
Proof.
  unfold cfg_of, nptr_of, vptr_of, kptr_of. intros E. injection E. intros.
  repeat match goal with H : _ = _ |- _ => rewrite H; clear H end.
  repeat split.
Qed.

Lemma holds_cfg kv kv' m l :
  cfg_of kv' = cfg_of kv ->
  forall ptr e, holds kv m ptr l e -> holds kv' m ptr l e.
Proof.
  intros E. destruct (pointers_cfg _ _ E) as (PK & PV & PN).
  induction l as [|p l IH]; intros ptr e H; cbn [holds] in *.
  - exact H.
  - rewrite PK, PV, PN.
    destruct H as (R & L & K & V & M & H).
    split; [exact R|]. split; [exact L|]. split; [exact K|].
    split; [exact V|]. split; [exact M|]. apply IH. exact H.
Qed.

Lemma holds_app kv m l1 l2 : forall ptr e e',
  holds kv m ptr l1 e -> holds kv m e l2 e' -> holds kv m ptr (l1 ++ l2) e'.
Proof.
  induction l1 as [|p l1 IH]; intros ptr e e' H1 H2; cbn [holds app] in *.
  - subst e. exact H2.
  - destruct H1 as (R & L & K & V & M & H).
    repeat split; try tauto. eapply IH; eassumption.
Qed.

Lemma read_bytes_ext m m' p p' n :
  (forall i, 0 <= i < n -> m (p + i) = m' (p' + i)) ->
  read_bytes m p n = read_bytes m' p' n.
Proof.
  intros H. unfold read_bytes. apply map_ext_in. intros i Hi.
  apply in_seq in Hi. apply H. lia.
Qed.

(** Scanning a page that holds [l] shows [l]. *)
Lemma scan_holds kv l : forall ptr e,
  holds kv (heap kv) ptr l e ->
  Forall2 same_pair l (scan_page kv ptr (length l)).
Proof.
  induction l as [|p l IH]; intros ptr e H; cbn [holds length scan_page] in *.
  - constructor.
  - destruct H as (R & (L1 & L2) & K & V & M & H).
    rewrite L1, L2. fold (kptr_of kv ptr).
    fold (vptr_of kv ptr (a_keybytes p)).
    fold (nptr_of kv ptr (a_keybytes p) (a_valuebytes p)).
    constructor.
    + unfold same_pair, view_key, view_value, pair_key, pair_value.
      cbn [v_keybytes v_valuebytes v_key v_value v_mem].
      repeat split.
      * apply read_bytes_ext. intros i Hi. rewrite K by exact Hi.
        f_equal.
      * apply read_bytes_ext. intros i Hi. rewrite V by exact Hi.
        f_equal.
    + eapply IH. exact H.
Qed.

(** What [store] writes: the new pair, and nothing below its start. *)
Lemma store_holds kv a b c key kb value vb :
  config kv a b c ->
  0 <= alignsize kv <= pagesize kv ->
  0 <= kb <= INTMAX -> 0 <= vb <= INTMAX ->
  let iptr := page kv + alignsize kv in
  holds kv (heap (store kv key kb value vb)) iptr
        [mkPair key kb value vb] (nptr_of kv iptr kb vb) /\
  (forall x, x < iptr -> heap (store kv key kb value vb) x = heap kv x).
Proof.
  intros C Ha Hk Hv iptr.
  pose proof (cf_page _ _ _ _ C) as Hp.
  destruct (pointers_mono kv a b c C iptr kb vb) as ((K1 & _) & (V1 & _) & (N1 & _));
    try (unfold iptr; lia); try assumption.
  unfold store. cbv zeta. fold iptr. kvred.
  set (h1 := store_int (heap kv) iptr kb).
  set (h2 := store_int h1 (iptr + 4) vb).
  set (h3 := memcpy h2 (kptr_of kv iptr) key (u64 kb)).
  set (h4 := memcpy h3 (vptr_of kv iptr kb) value (u64 vb)).
  assert (Uk : u64 kb = kb) by (apply u64_small; unfold INTMAX in *; lia).
  assert (Uv : u64 vb = vb) by (apply u64_small; unfold INTMAX in *; lia).
  split.
  - cbn [holds a_keybytes a_valuebytes a_key a_value].
    split; [exact (conj Hk Hv)|]. split; [split|].
    { transitivity (load_int h1 iptr).
      - apply load_int_ext. intros i Hi. unfold h4, h3, h2.
        rewrite !memcpy_out by lia. rewrite store_int_out by lia. reflexivity.
      - apply load_store_int. unfold INTMAX in *. lia. }
    { transitivity (load_int h2 (iptr + 4)).
      - apply load_int_ext. intros i Hi. unfold h4, h3.
        rewrite !memcpy_out by lia. reflexivity.
      - apply load_store_int. unfold INTMAX in *. lia. }
    split.
    { intros i Hi. unfold h4. rewrite memcpy_out by lia.
      unfold h3. rewrite memcpy_in by lia. f_equal. lia. }
    split.
    { intros i Hi. unfold h4. rewrite memcpy_in by lia. f_equal. lia. }
    split; [lia | reflexivity].
  - intros x Hx. unfold h4, h3, h2, h1.
    rewrite !memcpy_out by lia. rewrite !store_int_out by lia. reflexivity.
Qed.

Lemma nth_array_set_other {A} (d x : A) : forall (l : list A) (i j : nat),
  (j < i)%nat -> (j < length l)%nat -> nth j (array_set l i x) d = nth j l d.
Proof.
  induction l as [|h t IH]; intros i j Hj Hl.
  - simpl in Hl. lia.
  - destruct i; [lia|]. destruct j; [reflexivity|].
    simpl. apply IH; simpl in Hl; lia.
Qed.

Lemma length_array_set {A} (x : A) : forall (l : list A) (i : nat),
  (i <= length l)%nat -> (i < length (array_set l i x))%nat.
Proof.
  induction l as [|h t IH]; intros i Hi.
  - simpl. simpl in Hi. lia.
  - destruct i; simpl; [lia|]. simpl in Hi. specialize (IH i). lia.
Qed.

Lemma length_concat_nonempty {A} (ll : list (list A)) :
  Forall (fun r => r <> []) ll -> (length ll <= length (concat ll))%nat.
Proof.
  induction 1 as [|r ll Hr _ IH]; [simpl; lia|].
  simpl. rewrite length_app. destruct r; [congruence|]. simpl. lia.
Qed.

(** The end of the spill file as the next descriptor will record it. *)
Definition file_end (kv : t) : Z := p_fileoffset (descriptor kv).

(** [stored kv d recs]: descriptor [d] describes the pairs [recs], and the
    spill file holds them at [d]'s offset, as an image of the page. *)
Record stored (kv : t) (d : Page) (recs : list pair) : Prop := mkStored {
  st_nkey : p_nkey d = Z.of_nat (length recs);
  st_keysize : p_keysize d = sum_keybytes recs;
  st_valuesize : p_valuesize d = sum_valuebytes recs;
  st_align : 0 <= p_alignsize d <= pagesize kv;
  st_filesize : p_alignsize d <= p_filesize d;
  st_off : 0 <= p_fileoffset d;
  st_holds :
    holds kv (fun x => disk kv (p_fileoffset d + (x - page kv)))
          (page kv) recs (page kv + p_alignsize d)
}.

Definition dflt : Page := mkPage 0 0 0 0 0 0 0.

Section RoundTrip.
Variables (a b c : Z) (cap : Z) (psz : Z).
Hypothesis cap_int : cap <= INTMAX.
Hypothesis cap_file : cap * (psz + 512) <= 2 ^ 64.

(** The invariant of a container being filled: [done] are the pairs of the
    pages flushed so far, [cur] the pairs of the in-memory page. *)
Record inv (kv : t) (done : list (list pair)) (cur : list pair) : Prop :=
  mkInv {
  i_cfg : config kv a b c;
  i_psz : pagesize kv = psz;
  i_nkey : nkey kv = Z.of_nat (length cur);
  i_nkey_max : nkey kv <= INTMAX;
  i_align : 0 <= alignsize kv <= pagesize kv;
  i_keysize : keysize kv = sum_keybytes cur;
  i_valuesize : valuesize kv = sum_valuebytes cur;
  i_holds : holds kv (heap kv) (page kv) cur (page kv + alignsize kv);
  i_npage : npage kv = Z.of_nat (length done);
  i_pages_len : (length done <= length (pages kv))%nat;
  i_nonempty : Forall (fun r => r <> []) done;
  i_stored : forall j, (j < length done)%nat ->
     stored kv (nth j (pages kv) dflt) (nth j done []) /\
     p_fileoffset (nth j (pages kv) dflt) + p_filesize (nth j (pages kv) dflt)
       <= file_end kv;
  i_end : 0 <= file_end kv <= npage kv * (psz + 512);
  i_file : fp kv = fileflag kv /\ fileflag kv = negb (npage kv =? 0)
}.

Lemma stored_frame kv kv' d recs :
  cfg_of kv' = cfg_of kv ->
  (forall o, p_fileoffset d <= o < p_fileoffset d + p_filesize d ->
             disk kv' o = disk kv o) ->
  stored kv d recs -> stored kv' d recs.
Proof.
  intros E X [H1 H2 H3 H4 H5 H6 H7].
  destruct (cfg_fields _ _ E) as (_ & _ & _ & Ep & Es).
  constructor; try assumption.
  - rewrite Es. exact H4.
  - rewrite Ep. apply (holds_cfg kv kv' _ _ E).
    revert H7. apply holds_ext. intros x Hx. apply X. lia.
Qed.

Lemma new_inv memblock mem ka va :
  pow2b ka = true -> pow2b va = true ->
  0 <= memblock -> 0 <= psz -> memblock + psz + 2 ^ 33 <= 2 ^ 64 ->
  ka = 2 ^ a -> va = 2 ^ b -> c = Z.max (Z.max a b) 2 ->
  0 <= a <= 30 -> 0 <= b <= 30 ->
  inv (new memblock mem psz ka va) [] [].
Proof.
  intros Hk Hv Hm Hs Ht Ea Eb Ec Ha Hb.
  constructor.
  - constructor; try assumption.
    subst c. apply alignment_intro; auto; unfold new; kvred;
      rewrite ?MAX_max; auto.
  - reflexivity.
  - reflexivity.
  - change (nkey _) with 0. unfold INTMAX. lia.
  - change (alignsize _) with 0. change (pagesize _) with psz. lia.
  - reflexivity.
  - reflexivity.
  - change (alignsize _) with 0. cbn [holds]. change (page _) with memblock. lia.
  - reflexivity.
  - cbn [length]. lia.
  - constructor.
  - intros j Hj. cbn [length] in Hj. lia.
  - change (file_end _) with 0. change (npage _) with 0. lia.
  - split; reflexivity.
Qed.


Lemma store_inv kv done cur key kb value vb :
  inv kv done cur ->
  0 <= kb <= INTMAX -> 0 <= vb <= INTMAX ->
  let iptr := page kv + alignsize kv in
  kvbytes_of kv kb vb = nptr_of kv iptr kb vb - iptr ->
  alignsize kv + kvbytes_of kv kb vb <= pagesize kv ->
  nkey kv < INTMAX ->
  inv (store kv key kb value vb) done (cur ++ [mkPair key kb value vb]).
Proof.
  intros I Hk Hv iptr Ekv Hfit Hn. destruct I.
  pose proof (store_cfg kv key kb value vb) as E.
  config_facts i_cfg0.
  destruct (pointers_mono kv a b c i_cfg0 iptr kb vb) as ((K1 & _) & (V1 & _) & (N1 & _));
    try (unfold iptr; lia); try assumption.
  destruct (holds_le _ _ _ _ _ i_holds0) as (S1 & S2 & S3).
  destruct (store_holds kv a b c key kb value vb i_cfg0 i_align0 Hk Hv)
    as (Hnew & Hframe). fold iptr in Hnew, Hframe.
  assert (Hal : alignsize (store kv key kb value vb)
                = alignsize kv + kvbytes_of kv kb vb).
  { unfold store. kvred. apply u64_small. lia. }
  unfold INTMAX in *.
  constructor.
  - apply (config_cfg kv); assumption.
  - exact i_psz0.
  - unfold store. kvred. rewrite int_of_small by lia.
    rewrite length_app. cbn [length]. lia.
  - unfold store. kvred. rewrite int_of_small by lia. unfold INTMAX. lia.
  - rewrite Hal. change (pagesize (store kv key kb value vb)) with (pagesize kv).
    lia.
  - unfold store. kvred. rewrite sum_keybytes_app, sum_keybytes_cons.
    cbn [a_keybytes sum_keybytes fold_right]. rewrite u64_small by lia. lia.
  - unfold store. kvred. rewrite sum_valuebytes_app, sum_valuebytes_cons.
    cbn [a_valuebytes sum_valuebytes fold_right]. rewrite u64_small by lia. lia.
  - rewrite Hal. change (page (store kv key kb value vb)) with (page kv).
    apply (holds_cfg kv _ _ _ E).
    apply holds_app with (e := iptr).
    + revert i_holds0. apply holds_ext. intros x Hx. apply Hframe.
      unfold iptr. lia.
    + replace (page kv + (alignsize kv + kvbytes_of kv kb vb))
        with (nptr_of kv iptr kb vb) by (unfold iptr in *; lia).
      exact Hnew.
  - exact i_npage0.
  - exact i_pages_len0.
  - exact i_nonempty0.
  - intros j Hj. destruct (i_stored0 j Hj) as [St Le]. split.
    + apply (stored_frame kv); [exact E | reflexivity | exact St].
    + exact Le.
  - exact i_end0.
  - exact i_file0.
Qed.

Lemma file_end_flush kv done cur :
  inv kv done cur -> Z.of_nat (length done) + 1 <= cap ->
  file_end (flush kv) = file_end kv + roundup (alignsize kv) ALIGNFILE /\
  alignsize kv <= roundup (alignsize kv) ALIGNFILE < alignsize kv + 512.
Proof.
  intros I Hc. destruct I. config_facts i_cfg0.
  assert (R : alignsize kv <= roundup (alignsize kv) ALIGNFILE
              < alignsize kv + 512).
  { apply roundup_bounds; unfold ALIGNFILE; lia. }
  split; [|exact R].
  destruct (flush_facts kv) as (F1 & F2 & _).
  { unfold INTMAX in *. lia. }
  { lia. }
  { destruct i_file0 as [-> _]. auto. }
  unfold file_end at 1. unfold descriptor at 1. cbn [p_fileoffset].
  rewrite F1. destruct (Z.eqb_spec (npage kv + 1) 0) as [|_]; [lia|].
  replace (npage kv + 1 - 1) with (npage kv) by lia.
  rewrite F2. unfold descriptor at 1 2. cbn [p_fileoffset p_filesize].
  fold (file_end kv). unfold descriptor, file_end in *. cbn [p_fileoffset] in *.
  assert ((npage kv + 1) * (psz + 512) <= cap * (psz + 512))
    by (apply Z.mul_le_mono_nonneg_r; lia).
  apply u64_small. lia.
Qed.

Lemma flush_inv kv done cur :
  inv kv done cur -> cur <> [] -> Z.of_nat (length done) + 1 <= cap ->
  inv (flush kv) (done ++ [cur]) [].
Proof.
  intros I Hne Hc.
  destruct (file_end_flush kv done cur I Hc) as (FE & R).
  destruct I. config_facts i_cfg0.
  pose proof (flush_cfg kv) as E.
  destruct (flush_facts kv) as (F1 & F2 & F3 & F4 & F5 & F6 & F7 & F8).
  { unfold INTMAX in *. lia. }
  { lia. }
  { destruct i_file0 as [-> _]. auto. }
  assert (P' : pages (flush kv)
               = array_set (pages kv) (Z.to_nat (npage kv)) (descriptor kv))
    by reflexivity.
  assert (Nn : Z.to_nat (npage kv) = length done) by lia.
  constructor.
  - apply (config_cfg kv); assumption.
  - exact i_psz0.
  - reflexivity.
  - change (nkey (flush kv)) with 0. unfold INTMAX. lia.
  - change (alignsize (flush kv)) with 0.
    change (pagesize (flush kv)) with (pagesize kv). lia.
  - reflexivity.
  - reflexivity.
  - change (alignsize (flush kv)) with 0. cbn [holds].
    change (page (flush kv)) with (page kv). lia.
  - rewrite F1, length_app. cbn [length]. lia.
  - rewrite length_app. cbn [length]. rewrite P', Nn.
    pose proof (length_array_set (descriptor kv) (pages kv) (length done)
                  i_pages_len0). lia.
  - apply Forall_app. split; [exact i_nonempty0|]. constructor; [exact Hne|constructor].
  - intros j Hj. rewrite length_app in Hj. cbn [length] in Hj.
    rewrite FE. rewrite P', Nn.
    destruct (Nat.eq_dec j (length done)) as [->|Hneq].
    + rewrite nth_array_set by exact i_pages_len0.
      rewrite nth_middle. split.
      * constructor.
        -- exact i_nkey0.
        -- exact i_keysize0.
        -- exact i_valuesize0.
        -- exact i_align0.
        -- exact (proj1 R).
        -- exact (proj1 i_end0).
        -- change (page (flush kv)) with (page kv).
           change (p_alignsize (descriptor kv)) with (alignsize kv).
           apply (holds_cfg kv _ _ _ E).
           revert i_holds0. apply holds_ext. intros x Hx.
           change (p_filesize (descriptor kv))
             with (roundup (alignsize kv) ALIGNFILE) in F5.
           rewrite F5 by lia. f_equal. lia.
      * change (p_filesize (descriptor kv))
          with (roundup (alignsize kv) ALIGNFILE).
        fold (file_end kv). lia.
    + assert (Hj' : (j < length done)%nat) by lia.
      rewrite nth_array_set_other by lia.
      rewrite app_nth1 by exact Hj'.
      destruct (i_stored0 j Hj') as [St Le]. split; [|lia].
      apply (stored_frame kv); [exact E | | exact St].
      intros o Ho. rewrite F6.
      * destruct i_file0 as [-> ->].
        destruct (Z.eqb_spec (npage kv) 0); [lia | reflexivity].
      * left. fold (file_end kv). lia.
  - rewrite FE, F1. lia.
  - rewrite F3, F4, F1. split; [reflexivity|].
    destruct (Z.eqb_spec (npage kv + 1) 0); [lia | reflexivity].
Qed.

Lemma kvbytes_of_eq k kb vb :
  kvbytes_of k kb vb
  = int_of (nptr_of k (page k + alignsize k) kb vb - (page k + alignsize k)).
Proof. reflexivity. Qed.

(** An [int] [kvbytes] that is not negative is the true size of the pair,
    for a pair that takes less than [2^32] bytes. *)
Lemma kvbytes_true k kb vb :
  config k a b c -> 0 <= alignsize k <= pagesize k ->
  0 <= kb <= INTMAX -> 0 <= vb <= INTMAX ->
  8 + 2 ^ a + kb + 2 ^ b + vb + 2 ^ c <= 2 ^ 32 ->
  (kvbytes_of k kb vb <? 0) = false ->
  kvbytes_of k kb vb
  = nptr_of k (page k + alignsize k) kb vb - (page k + alignsize k) /\
  8 <= kvbytes_of k kb vb < 2 ^ 31.
Proof.
  intros C Ha Hk Hv Hs Hpos.
  apply Z.ltb_ge in Hpos. rewrite kvbytes_of_eq in *.
  set (iptr := page k + alignsize k) in *.
  destruct (pointers_mono k a b c C iptr kb vb) as ((K1 & K2) & (V1 & V2) & (N1 & N2));
    try assumption.
  { pose proof (cf_page _ _ _ _ C). unfold iptr. lia. }
  rewrite (cf_kalign _ _ _ _ (cf_al _ _ _ _ C)) in K2.
  rewrite (cf_valign _ _ _ _ (cf_al _ _ _ _ C)) in V2.
  rewrite (cf_talign _ _ _ _ (cf_al _ _ _ _ C)) in N2.
  set (t := nptr_of k iptr kb vb - iptr) in *.
  assert (Ht : 8 <= t < 2 ^ 32) by (unfold t; lia).
  clearbody t. clear K1 K2 V1 V2 N1 N2.
  destruct (Z.lt_ge_cases t (2 ^ 31)) as [Hlt|Hge].
  - rewrite int_of_small by lia. lia.
  - rewrite int_of_wrapped in Hpos by lia. lia.
Qed.

Lemma page_full_false k s :
  0 <= alignsize k -> 0 <= s -> alignsize k + s < 2 ^ 64 ->
  page_full k s = false ->
  alignsize k + s <= pagesize k /\ nkey k <> INTMAX.
Proof.
  intros Ha Hs Hb H. unfold page_full in H. rewrite u64_small in H by lia.
  apply orb_false_iff in H. destruct H as [H1 H2].
  destruct (Z.gtb_spec (alignsize k + s) (pagesize k)); [discriminate|].
  apply Z.eqb_neq in H2. auto.
Qed.

Lemma inv_cur_nonempty kv done cur :
  inv kv done cur -> alignsize kv <> 0 -> cur <> [].
Proof.
  intros I Hn ->. destruct I. cbn [holds] in i_holds0. lia.
Qed.

Lemma add_inv kv done cur p kv' :
  inv kv done cur -> pair_ok kv p = true ->
  Z.of_nat (length (concat done ++ cur)) + 1 <= cap ->
  add kv (a_key p) (a_keybytes p) (a_value p) (a_valuebytes p) = Ok kv' ->
  exists done' cur',
    inv kv' done' cur' /\ concat done' ++ cur' = (concat done ++ cur) ++ [p].
Proof.
  intros I Hp Hc H.
  unfold pair_ok in Hp. rewrite !andb_true_iff, !Z.leb_le in Hp.
  destruct Hp as [[[[Hk0 Hv0] Hk1] Hv1] Hs].
  destruct p as [key kb value vb].
  cbn [a_key a_keybytes a_value a_valuebytes] in *.
  assert (Hk : 0 <= kb <= INTMAX) by lia.
  assert (Hv : 0 <= vb <= INTMAX) by lia.
  pose proof (i_cfg _ _ _ I) as C. config_facts C.
  pose proof (i_align _ _ _ I) as Al.
  rewrite add_unfold in H.
  destruct (kvbytes_of kv _ _ <? 0) eqn:Neg; [discriminate|].
  destruct (kvbytes_true kv _ _ C Al Hk Hv Hs Neg) as (T & T8).
  change (2 ^ 31) with 2147483648 in T8.
  destruct (page_full kv _) eqn:Full.
  - destruct (Z.eqb_spec (alignsize kv) 0) as [|NZ]; [discriminate|].
    destruct (kvbytes_of (flush kv) _ _ <? 0) eqn:Neg'; [discriminate|].
    pose proof (inv_cur_nonempty _ _ _ I NZ) as Hne.
    assert (Hlen : Z.of_nat (length done) + 1 <= cap).
    { pose proof (length_concat_nonempty done (i_nonempty _ _ _ I)).
      rewrite length_app in Hc. destruct cur; [congruence|]. cbn [length] in Hc.
      lia. }
    pose proof (flush_inv kv done cur I Hne Hlen) as I'.
    destruct (kvbytes_true (flush kv) _ _ (i_cfg _ _ _ I') (i_align _ _ _ I')
                Hk Hv Hs Neg') as (T' & T8').
    change (2 ^ 31) with 2147483648 in T8'.
    destruct (page_full (flush kv) _) eqn:Full'.
    { change (alignsize (flush kv)) with 0 in H. discriminate H. }
    injection H as <-.
    pose proof (page_full_false (flush kv)
                  (kvbytes_of (flush kv) kb vb)) as PF.
    change (alignsize (flush kv)) with 0 in PF.
    destruct PF as (Fit & Nk); [lia | lia | lia | exact Full' |].
    exists (done ++ [cur]), [mkPair key kb value vb]. split.
    + apply (store_inv (flush kv) (done ++ [cur]) []);
        try assumption.
      change (nkey (flush kv)) with 0. unfold INTMAX. lia.
    + rewrite concat_app. cbn [concat]. rewrite app_nil_r. reflexivity.
  - injection H as <-.
    destruct (page_full_false kv
                (kvbytes_of kv kb vb))
      as (Fit & Nk); [lia | lia | lia | exact Full |].
    exists done, (cur ++ [mkPair key kb value vb]). split.
    + apply store_inv; try assumption.
      pose proof (i_nkey_max _ _ _ I). lia.
    + rewrite app_assoc. reflexivity.
Qed.

Lemma add_inv_nonempty kv done cur p kv' done' cur' :
  inv kv done cur ->
  add kv (a_key p) (a_keybytes p) (a_value p) (a_valuebytes p) = Ok kv' ->
  inv kv' done' cur' -> cur' <> [].
Proof.
  intros I H I' ->.
  pose proof (i_nkey _ _ _ I') as N. cbn [length] in N.
  pose proof (i_nkey _ _ _ I) as N0. pose proof (i_nkey_max _ _ _ I) as N1.
  rewrite add_unfold in H.
  destruct (_ <? 0); [discriminate|].
  destruct (page_full kv _) eqn:Full.
  - destruct (alignsize kv =? 0); [discriminate|].
    destruct (_ <? 0); [discriminate|].
    destruct (page_full (flush kv) _); [destruct (_ =? 0); discriminate|].
    injection H as <-. unfold store in N. kvred.
    change (nkey (flush kv)) with 0 in N. vm_compute in N. discriminate.
  - injection H as <-. unfold store in N. kvred.
    unfold page_full in Full. apply orb_false_iff in Full.
    destruct Full as [_ Full]. apply Z.eqb_neq in Full.
    rewrite int_of_small in N by (unfold INTMAX in *; lia). lia.
Qed.

Lemma pair_ok_cfg kv kv' p :
  cfg_of kv' = cfg_of kv -> pair_ok kv' p = pair_ok kv p.
Proof.
  intros E. destruct (cfg_fields _ _ E) as (E1 & E2 & E3 & _).
  unfold pair_ok. rewrite E1, E2, E3. reflexivity.
Qed.

Lemma forallb_pair_ok_cfg kv kv' l :
  cfg_of kv' = cfg_of kv ->
  forallb (pair_ok kv') l = forallb (pair_ok kv) l.
Proof.
  intros E. induction l as [|p l IH]; [reflexivity|].
  cbn [forallb]. rewrite IH, (pair_ok_cfg _ _ _ E). reflexivity.
Qed.

Lemma add_all_inv l : forall kv done cur kv',
  inv kv done cur -> (done = [] \/ cur <> []) ->
  forallb (pair_ok kv) l = true ->
  Z.of_nat (length (concat done ++ cur)) + Z.of_nat (length l) + 1 <= cap ->
  add_all kv l = Ok kv' ->
  exists done' cur',
    inv kv' done' cur' /\ (done' = [] \/ cur' <> []) /\
    concat done' ++ cur' = (concat done ++ cur) ++ l.
Proof.
  induction l as [|p l IH]; intros kv done cur kv' I Hd Hok Hc H.
  - injection H as <-. exists done, cur. rewrite app_nil_r. auto.
  - rewrite add_all_cons in H.
    destruct (add kv _ _ _ _) as [kv1|] eqn:E; [|discriminate].
    cbn [forallb] in Hok. apply andb_true_iff in Hok. destruct Hok as [Hp Hok].
    cbn [length] in Hc.
    destruct (add_inv kv done cur p kv1 I Hp ltac:(lia) E)
      as (done1 & cur1 & I1 & E1).
    pose proof (add_inv_nonempty _ _ _ _ _ _ _ I E I1) as Hne.
    destruct (IH kv1 done1 cur1 kv' I1 (or_intror Hne)) as (done' & cur' & I' & Hd' & E').
    + rewrite (forallb_pair_ok_cfg kv kv1); [exact Hok|].
      apply (add_cfg _ _ _ _ _ _ E).
    + rewrite E1, length_app. cbn [length]. lia.
    + exact H.
    + exists done', cur'. split; [exact I'|]. split; [exact Hd'|].
      rewrite E', E1, <- app_assoc. reflexivity.
Qed.

(** ** The completed container *)

Lemma complete_spill kv :
  fileflag kv = true ->
  pages (complete kv) = pages (flush kv) /\
  npage (complete kv) = npage (flush kv) /\
  disk (complete kv) = disk (flush kv) /\
  fileflag (complete kv) = fileflag (flush kv).
Proof.
  intros H. unfold complete. cbv zeta.
  change (fileflag (create_page kv)) with (fileflag kv). rewrite H.
  repeat split.
Qed.

Lemma complete_mem kv :
  fileflag kv = false ->
  pages (complete kv) = pages (create_page kv) /\
  npage (complete kv) = int_of (npage kv + 1) /\
  heap (complete kv) = heap kv /\
  fileflag (complete kv) = false.
Proof.
  intros H. unfold complete. cbv zeta.
  change (fileflag (create_page kv)) with (fileflag kv). rewrite H.
  repeat split. kvred. exact H.
Qed.

Lemma complete_totals kv :
  let ps := firstn (Z.to_nat (npage (complete kv))) (pages (complete kv)) in
  nkv (complete kv) = sum_pages p_nkey ps 0 /\
  ksize (complete kv) = sum_pages p_keysize ps 0 /\
  vsize (complete kv) = sum_pages p_valuesize ps 0.
Proof.
  unfold complete. cbv zeta.
  destruct (fileflag (create_page kv)); repeat split.
Qed.

(** A descriptor agrees with the pairs of its page. *)
Definition described (d : Page) (recs : list pair) : Prop :=
  p_nkey d = Z.of_nat (length recs) /\
  p_keysize d = sum_keybytes recs /\
  p_valuesize d = sum_valuebytes recs /\
  0 <= sum_keybytes recs <= psz /\ 0 <= sum_valuebytes recs <= psz.

Lemma stored_described kv d recs :
  pagesize kv = psz -> stored kv d recs -> described d recs.
Proof.
  intros Ps [H1 H2 H3 H4 H5 H6 H7].
  destruct (holds_le _ _ _ _ _ H7) as (S1 & S2 & S3).
  unfold described. repeat split; try assumption; lia.
Qed.

Record completed (kv : t) (all : list (list pair)) : Prop := mkCompleted {
  c_cfg : config kv a b c;
  c_npage : npage kv = Z.of_nat (length all);
  c_len : (length all <= length (pages kv))%nat;
  c_desc : forall j, (j < length all)%nat ->
     described (nth j (pages kv) dflt) (nth j all []);
  c_data :
    if fileflag kv
    then forall j, (j < length all)%nat ->
           stored kv (nth j (pages kv) dflt) (nth j all [])
    else exists cur,
           all = [cur] /\
           holds kv (heap kv) (page kv) cur
                 (page kv + p_alignsize (nth 0 (pages kv) dflt))
}.

Lemma complete_completed kv done cur :
  inv kv done cur -> (done = [] \/ cur <> []) ->
  Z.of_nat (length done) + 1 <= cap ->
  completed (complete kv) (done ++ [cur]).
Proof.
  intros I Hd Hc.
  pose proof (complete_cfg kv) as E.
  pose proof (i_cfg _ _ _ I) as C.
  destruct (fileflag kv) eqn:FF.
  - (* pages were spilled: the last one is written like a flushed page *)
    assert (Hne : cur <> []).
    { destruct Hd as [->|]; [|assumption].
      destruct (i_file _ _ _ I) as [_ F]. rewrite FF, (i_npage _ _ _ I) in F.
      cbn [length] in F. discriminate F. }
    pose proof (flush_inv kv done cur I Hne Hc) as I'.
    destruct (complete_spill kv FF) as (Ep & En & Edisk & Eff).
    assert (FF' : fileflag (complete kv) = true).
    { rewrite Eff. destruct (i_file _ _ _ I') as [_ ->].
      rewrite (i_npage _ _ _ I'), length_app. cbn [length].
      destruct (Z.eqb_spec (Z.of_nat (length done + 1)) 0); [lia | reflexivity]. }
    assert (St : forall j, (j < length (done ++ [cur]))%nat ->
               stored (complete kv) (nth j (pages (complete kv)) dflt)
                      (nth j (done ++ [cur]) [])).
    { intros j Hj. rewrite Ep.
      destruct (i_stored _ _ _ I' j Hj) as [S _].
      apply (stored_frame (flush kv)); [|intros; rewrite Edisk; reflexivity|exact S].
      rewrite E. symmetry. apply flush_cfg. }
    constructor.
    + apply (config_cfg kv); assumption.
    + rewrite En. exact (i_npage _ _ _ I').
    + rewrite Ep. exact (i_pages_len _ _ _ I').
    + intros j Hj. apply (stored_described (complete kv)); [|apply St; exact Hj].
      destruct (cfg_fields _ _ E) as (_ & _ & _ & _ & ->). exact (i_psz _ _ _ I).
    + rewrite FF'. exact St.
  - (* nothing was spilled: the one page stays in memory *)
    destruct (complete_mem kv FF) as (Ep & En & Eh & Eff).
    destruct (i_file _ _ _ I) as [_ F]. rewrite FF in F.
    assert (N0 : npage kv = 0).
    { destruct (Z.eqb_spec (npage kv) 0); [assumption | discriminate F]. }
    assert (D0 : done = []).
    { pose proof (i_npage _ _ _ I) as N. rewrite N0 in N.
      destruct done; [reflexivity | cbn [length] in N; lia]. }
    subst done. cbn [app length].
    assert (P0 : nth 0 (pages (complete kv)) dflt = descriptor kv).
    { rewrite Ep. unfold create_page. kvred. rewrite N0. apply nth_array_set.
      cbn. lia. }
    destruct (holds_le _ _ _ _ _ (i_holds _ _ _ I)) as (S1 & S2 & S3).
    pose proof (i_align _ _ _ I) as Al. pose proof (i_psz _ _ _ I) as Ps.
    constructor.
    + apply (config_cfg kv); assumption.
    + rewrite En, N0. reflexivity.
    + rewrite Ep. unfold create_page. kvred. rewrite N0.
      pose proof (length_array_set (descriptor kv) (pages kv) 0 ltac:(lia)).
      cbn [length]. change (Z.to_nat 0) with 0%nat. lia.
    + intros j Hj. cbn [length] in Hj. assert (j = 0)%nat by lia. subst j.
      rewrite P0. cbn [nth]. unfold described.
      change (p_nkey (descriptor kv)) with (nkey kv).
      change (p_keysize (descriptor kv)) with (keysize kv).
      change (p_valuesize (descriptor kv)) with (valuesize kv).
      rewrite (i_nkey _ _ _ I), (i_keysize _ _ _ I), (i_valuesize _ _ _ I).
      repeat split; try lia.
    + rewrite Eff. exists cur. split; [reflexivity|].
      rewrite P0, Eh. change (p_alignsize (descriptor kv)) with (alignsize kv).
      destruct (cfg_fields _ _ E) as (_ & _ & _ & -> & _).
      apply (holds_cfg kv _ _ _ E). exact (i_holds _ _ _ I).
Qed.

(** ** Iterating a completed container *)

Lemma request_page_fields kv i :
  let kv2 := fst (request_page kv i) in
  cfg_of kv2 = cfg_of kv /\ pages kv2 = pages kv /\ npage kv2 = npage kv /\
  disk kv2 = disk kv /\ fileflag kv2 = fileflag kv /\
  heap kv2 =
    (if fileflag kv
     then memcpy (heap kv) (page kv)
                 (fun x => disk kv (p_fileoffset (page_at kv i) + x))
                 (p_filesize (page_at kv i))
     else heap kv) /\
  fst (fst (fst (snd (request_page kv i)))) = p_nkey (page_at kv i).
Proof.
  unfold request_page. cbv zeta. destruct (fileflag kv) eqn:F.
  - change (fileflag (read_page kv i 0)) with (fileflag kv). rewrite F.
    destruct (_ && true); cbn [fst snd]; repeat split; exact F.
  - rewrite F, andb_false_r. cbn [fst snd]. repeat split. exact F.
Qed.

Lemma request_page_completed kv all j :
  completed kv all -> (j < length all)%nat ->
  let r := request_page kv (Z.of_nat j) in
  completed (fst r) all /\
  fst (fst (fst (snd r))) = Z.of_nat (length (nth j all [])) /\
  exists e, holds (fst r) (heap (fst r)) (page (fst r)) (nth j all []) e.
Proof.
  intros Cp Hj r.
  destruct (request_page_fields kv (Z.of_nat j))
    as (E & Ep & En & Ed & Ef & Eh & Ek). fold r in E, Ep, En, Ed, Ef, Eh, Ek.
  destruct Cp as [C N L D X].
  destruct (cfg_fields _ _ E) as (_ & _ & _ & Epage & Epsz).
  assert (PA : page_at kv (Z.of_nat j) = nth j (pages kv) dflt).
  { unfold page_at. rewrite Nat2Z.id. reflexivity. }
  split; [|split].
  - constructor.
    + apply (config_cfg kv); assumption.
    + rewrite En. exact N.
    + rewrite Ep. exact L.
    + rewrite Ep. exact D.
    + rewrite Ef, Ep. destruct (fileflag kv).
      * intros i Hi. apply (stored_frame kv);
          [exact E | intros; rewrite Ed; reflexivity | apply X; exact Hi].
      * destruct X as (cur & Ea & H). exists cur. split; [exact Ea|].
        rewrite Eh, Epage. apply (holds_cfg kv _ _ _ E). exact H.
  - rewrite Ek, PA. destruct (D j Hj) as (H & _). exact H.
  - rewrite Eh, Epage. destruct (fileflag kv).
    + destruct (X j Hj) as [_ _ _ H4 H5 H6 H7].
      exists (page kv + p_alignsize (nth j (pages kv) dflt)).
      apply (holds_cfg kv _ _ _ E).
      revert H7. apply holds_ext. intros x Hx. rewrite PA.
      rewrite memcpy_in by lia. reflexivity.
    + destruct X as (cur & Ea & H). subst all. cbn [length] in Hj.
      assert (j = 0)%nat by lia. subst j. cbn [nth].
      eexists. apply (holds_cfg kv _ _ _ E). exact H.
Qed.

Lemma skipn_nth_cons {A} (d : A) : forall (l : list A) (j : nat),
  (j < length l)%nat -> skipn j l = nth j l d :: skipn (S j) l.
Proof.
  induction l as [|h t IH]; intros j Hj; [simpl in Hj; lia|].
  destruct j; [reflexivity|]. cbn [skipn nth]. rewrite IH by (simpl in Hj; lia).
  reflexivity.
Qed.

Lemma iterate_from_unfold kv i n :
  iterate_from kv i (S n) =
    (fst (iterate_from (fst (request_page kv i)) (i + 1) n),
     scan_page (fst (request_page kv i)) (page (fst (request_page kv i)))
               (Z.to_nat (fst (fst (fst (snd (request_page kv i))))))
     :: snd (iterate_from (fst (request_page kv i)) (i + 1) n)).
Proof.
  cbn [iterate_from].
  destruct (request_page kv i) as [kv1 [[[nk ?] ?] ?]]. cbn [fst snd].
  destruct (iterate_from kv1 (i + 1) n). reflexivity.
Qed.

Lemma iterate_from_completed all : forall n j kv,
  completed kv all -> (j + n = length all)%nat ->
  Forall2 (Forall2 same_pair) (skipn j all)
          (snd (iterate_from kv (Z.of_nat j) n)).
Proof.
  induction n as [|n IH]; intros j kv Cp Hn.
  - rewrite skipn_all2 by lia. constructor.
  - rewrite iterate_from_unfold. cbn [snd].
    destruct (request_page_completed kv all j Cp ltac:(lia)) as (Cp1 & Ek & e & H).
    rewrite (skipn_nth_cons [] all j) by lia.
    constructor.
    + rewrite Ek, Nat2Z.id. eapply scan_holds. exact H.
    + replace (Z.of_nat j + 1) with (Z.of_nat (S j)) by lia.
      apply IH; [exact Cp1 | lia].
Qed.

Lemma iterate_completed kv all :
  completed kv all ->
  Forall2 (Forall2 same_pair) all (snd (iterate kv)).
Proof.
  intros Cp. unfold iterate, request_info. cbn [fst].
  rewrite (c_npage _ _ Cp), Nat2Z.id.
  apply (iterate_from_completed all (length all) 0 kv Cp). lia.
Qed.

Lemma Forall2_concat {A B} (R : A -> B -> Prop) l1 l2 :
  Forall2 (Forall2 R) l1 l2 -> Forall2 R (concat l1) (concat l2).
Proof.
  induction 1; cbn [concat]; [constructor|].
  apply Forall2_app; assumption.
Qed.

(** ** Totals *)

Definition sum_over {A} (g : A -> Z) (l : list A) : Z :=
  fold_right (fun r s => g r + s) 0 l.

Lemma sum_pages_spec (f : Page -> Z) (g : list pair -> Z) :
  forall (all : list (list pair)) (ps : list Page) (acc : Z),
  (length all <= length ps)%nat ->
  (forall j, (j < length all)%nat ->
     f (nth j ps dflt) = g (nth j all []) /\ 0 <= g (nth j all [])) ->
  0 <= acc -> acc + sum_over g all < 2 ^ 64 ->
  sum_pages f (firstn (length all) ps) acc = acc + sum_over g all.
Proof.
  induction all as [|r all IH]; intros ps acc Hl H Ha Hb.
  - cbn. lia.
  - destruct ps as [|p ps]; [cbn in Hl; lia|].
    cbn [length firstn sum_pages sum_over fold_right] in *.
    fold (sum_over g all) in *.
    destruct (H 0%nat ltac:(lia)) as [E0 P0]. cbn [nth] in E0, P0.
    assert (Pall : 0 <= sum_over g all).
    { clear - H. assert (H' : forall j, (j < length all)%nat -> 0 <= g (nth j all [])).
      { intros j Hj. destruct (H (S j) ltac:(lia)) as [_ X]. exact X. }
      clear H. induction all as [|x all IH]; [cbn; lia|].
      cbn [sum_over fold_right]. fold (sum_over g all).
      pose proof (H' 0%nat ltac:(cbn; lia)). cbn [nth] in *.
      assert (0 <= sum_over g all).
      { apply IH. intros j Hj. apply (H' (S j)). cbn. lia. }
      lia. }
    rewrite E0, u64_small by lia.
    rewrite IH; try lia.
    intros j Hj. apply (H (S j)). lia.
Qed.

Lemma sum_over_length (all : list (list pair)) :
  sum_over (fun r => Z.of_nat (length r)) all = Z.of_nat (length (concat all)).
Proof.
  induction all as [|r all IH]; [reflexivity|].
  cbn [sum_over fold_right concat]. fold (sum_over (fun r => Z.of_nat (length r)) all).
  rewrite IH, length_app. lia.
Qed.

Lemma sum_over_keybytes (all : list (list pair)) :
  sum_over sum_keybytes all = sum_keybytes (concat all).
Proof.
  induction all as [|r all IH]; [reflexivity|].
  cbn [sum_over fold_right concat]. fold (sum_over sum_keybytes all).
  rewrite IH, sum_keybytes_app. reflexivity.
Qed.

Lemma sum_over_valuebytes (all : list (list pair)) :
  sum_over sum_valuebytes all = sum_valuebytes (concat all).
Proof.
  induction all as [|r all IH]; [reflexivity|].
  cbn [sum_over fold_right concat]. fold (sum_over sum_valuebytes all).
  rewrite IH, sum_valuebytes_app. reflexivity.
Qed.

Lemma sum_over_bound {A} (g : A -> Z) (m : Z) (l : list A) :
  (forall j d, (j < length l)%nat -> 0 <= g (nth j l d) <= m) ->
  0 <= sum_over g l <= Z.of_nat (length l) * m.
Proof.
  induction l as [|x l IH]; intros H; [cbn; lia|].
  cbn [sum_over fold_right length]. fold (sum_over g l).
  pose proof (H 0%nat x ltac:(cbn; lia)) as H0. cbn [nth] in H0.
  assert (0 <= sum_over g l <= Z.of_nat (length l) * m).
  { apply IH. intros j d Hj. apply (H (S j) d). cbn. lia. }
  lia.
Qed.

Lemma completed_totals kv all :
  completed (complete kv) all -> Z.of_nat (length all) <= cap ->
  0 <= psz -> Z.of_nat (length (concat all)) < 2 ^ 64 ->
  nkv (complete kv) = Z.of_nat (length (concat all)) /\
  ksize (complete kv) = sum_keybytes (concat all) /\
  vsize (complete kv) = sum_valuebytes (concat all).
Proof.
  intros Cp Hc Hps Bl. destruct (complete_totals kv) as (T1 & T2 & T3).
  destruct Cp as [C N L D _]. rewrite N, Nat2Z.id in T1, T2, T3.
  assert (Bk : 0 <= sum_over sum_keybytes all <= Z.of_nat (length all) * psz).
  { apply sum_over_bound. intros j d Hj. rewrite (nth_indep _ d []) by exact Hj.
    destruct (D j Hj) as (_ & _ & _ & H & _). exact H. }
  assert (Bv : 0 <= sum_over sum_valuebytes all <= Z.of_nat (length all) * psz).
  { apply sum_over_bound. intros j d Hj. rewrite (nth_indep _ d []) by exact Hj.
    destruct (D j Hj) as (_ & _ & _ & _ & H). exact H. }
  assert (Bn : 0 <= Z.of_nat (length all) * psz < 2 ^ 64).
  { split; [lia|].
    assert (Z.of_nat (length all) * psz <= cap * psz)
      by (apply Z.mul_le_mono_nonneg_r; lia).
    destruct (Z.eq_dec cap 0) as [Z0|NZ]; [rewrite Z0 in *; lia|].
    assert (0 < cap) by lia.
    assert (cap * psz < cap * (psz + 512)) by (apply Z.mul_lt_mono_pos_l; lia).
    lia. }
  split; [|split].
  - rewrite T1, (sum_pages_spec p_nkey (fun r => Z.of_nat (length r))); try lia.
    + rewrite sum_over_length. lia.
    + intros j Hj. destruct (D j Hj) as (H & _). split; [exact H | lia].
    + rewrite sum_over_length. lia.
  - rewrite T2, (sum_pages_spec p_keysize sum_keybytes); try lia.
    + rewrite sum_over_keybytes. lia.
    + intros j Hj. destruct (D j Hj) as (_ & H & _ & ? & _). split; [exact H | lia].
  - rewrite T3, (sum_pages_spec p_valuesize sum_valuebytes); try lia.
    + rewrite sum_over_valuebytes. lia.
    + intros j Hj. destruct (D j Hj) as (_ & _ & H & _ & ?). split; [exact H | lia].
Qed.

End RoundTrip.



End KeyValueFacts.

(** * Facts about the driver *)

Module MapReduceFacts.
Import CInt CIntFacts MapReduce.

(** ** Task assignment of [map] *)

(** The task indices [lo, lo+1, ..., hi-1]. *)
Definition range (lo hi : Z) : list Z :=
  List.map (fun k => lo + Z.of_nat k) (seq 0 (Z.to_nat (hi - lo))).

Lemma range_nil lo hi : hi <= lo -> range lo hi = [].
Proof.
  intros H. unfold range. replace (Z.to_nat (hi - lo)) with O by lia.
  reflexivity.
Qed.

Lemma range_cons lo hi : lo < hi -> range lo hi = lo :: range (lo + 1) hi.
Proof.
  intros H. unfold range.
  replace (Z.to_nat (hi - lo)) with (S (Z.to_nat (hi - (lo + 1)))) by lia.
  cbn [seq List.map]. f_equal; [lia|].
  rewrite <- seq_shift, map_map. apply map_ext. intros k. lia.
Qed.

Lemma range_app lo mid hi :
  lo <= mid <= hi -> range lo hi = range lo mid ++ range mid hi.
Proof.
  remember (Z.to_nat (mid - lo)) as n eqn:En.
  revert lo En. induction n as [|n IH]; intros lo En H.
  - replace mid with lo by lia. now rewrite (range_nil lo lo) by lia.
  - rewrite (range_cons lo hi), (range_cons lo mid) by lia.
    cbn [app]. f_equal. apply IH; lia.
Qed.

Lemma In_range lo hi i : In i (range lo hi) <-> lo <= i < hi.
Proof.
  unfold range. rewrite in_map_iff. split.
  - intros [k [<- Hk]]. apply in_seq in Hk. lia.
  - intros H. exists (Z.to_nat (i - lo)). split; [lia|]. apply in_seq. lia.
Qed.

(** A loop that only records its counter, and what it gives for any other
    body. *)
Definition record_task (itask : Z) (l : list Z) : result (list Z) :=
  Ok (l ++ [itask]).

Lemma run_list_record l acc : run_list l record_task acc = Ok (acc ++ l).
Proof.
  revert acc. induction l as [|a l IH]; intros acc; cbn [run_list].
  - now rewrite app_nil_r.
  - unfold record_task at 1. cbn [bind]. rewrite IH, <- app_assoc. reflexivity.
Qed.

Lemma for_loop_S {X : Type} fuel itask hi step (body : Z -> X -> result X) x :
  for_loop (S fuel) itask hi step body x =
  if itask <? hi then
    x' <- body itask x ;; for_loop fuel (int_of (itask + step)) hi step body x'
  else Ok x.
Proof. reflexivity. Qed.

Lemma for_loop_trace fuel hi step :
  forall itask acc l,
    for_loop fuel itask hi step record_task acc = Ok l ->
    exists l', l = acc ++ l' /\
      forall (X : Type) (body : Z -> X -> result X) (x : X),
        for_loop fuel itask hi step body x = run_list l' body x.
Proof.
  induction fuel as [|fuel IH]; intros itask acc l H.
  - discriminate H.
  - rewrite for_loop_S in H.
    destruct (itask <? hi) eqn:E.
    + unfold record_task at 1 in H. cbn [bind] in H.
      apply IH in H. destruct H as [l' [-> Hl]].
      exists (itask :: l'). split; [now rewrite <- app_assoc|].
      intros X body x. rewrite for_loop_S, E. cbn [run_list].
      destruct (body itask x); cbn [bind]; [apply Hl|reflexivity].
    + injection H as <-. exists []. split; [now rewrite app_nil_r|].
      intros X body x. rewrite for_loop_S, E. reflexivity.
Qed.

(** A loop with step 1 over [lo, hi). *)
Lemma for_loop_unit fuel hi :
  hi <= INTMAX ->
  forall lo acc,
    - 2 ^ 31 <= lo -> (Z.to_nat (hi - lo) < fuel)%nat ->
    for_loop fuel lo hi 1 record_task acc = Ok (acc ++ range lo hi).
Proof.
  intros Hhi. induction fuel as [|fuel IH]; intros lo acc Hlo Hf; [lia|].
  rewrite for_loop_S. destruct (Z.ltb_spec lo hi) as [L|L].
  - unfold record_task at 1. cbn [bind].
    rewrite int_of_small by (unfold INTMAX in Hhi; lia).
    rewrite IH by lia. rewrite (range_cons lo hi L), <- app_assoc. reflexivity.
  - rewrite range_nil by lia. now rewrite app_nil_r.
Qed.


(** A loop with step [nprocs] from [itask]: the indices below [nmap] that
    are congruent to [itask]. *)
Definition same_rank (nprocs me i : Z) : bool := i mod nprocs =? me.

Lemma filter_none {A : Type} (f : A -> bool) l :
  (forall x, In x l -> f x = false) -> filter f l = [].
Proof.
  induction l as [|a l IH]; intros H; [reflexivity|].
  cbn [filter]. rewrite (H a) by (now left). apply IH.
  intros x Hx. apply H. now right.
Qed.

Lemma stride_next nprocs me i nmap :
  0 < nprocs -> 0 <= i -> i mod nprocs = me -> i < nmap ->
  filter (same_rank nprocs me) (range i nmap)
  = i :: filter (same_rank nprocs me) (range (i + nprocs) nmap).
Proof.
  intros Hn Hi Hm Hlt.
  rewrite (range_cons i nmap Hlt). cbn [filter].
  unfold same_rank at 1. rewrite Hm, Z.eqb_refl. f_equal.
  destruct (Z.le_gt_cases nmap (i + nprocs)) as [L|L].
  - rewrite (range_nil (i + nprocs) nmap L). apply filter_none.
    intros x Hx. apply In_range in Hx. unfold same_rank.
    apply Z.eqb_neq. intros Hc.
    assert (Hd : (x - i) mod nprocs = 0).
    { rewrite Zminus_mod, Hc, Hm, Z.sub_diag. apply Z.mod_0_l. lia. }
    apply Z.mod_divide in Hd; [|lia]. destruct Hd as [q Hq].
    assert (Hq' : q <= 0 \/ 1 <= q) by lia. destruct Hq'; nia.
  - rewrite (range_app (i + 1) (i + nprocs) nmap) by lia.
    rewrite filter_app. rewrite filter_none; [reflexivity|].
    intros x Hx. apply In_range in Hx. unfold same_rank.
    apply Z.eqb_neq. intros Hc.
    assert (Hd : (x - i) mod nprocs = 0).
    { rewrite Zminus_mod, Hc, Hm, Z.sub_diag. apply Z.mod_0_l. lia. }
    apply Z.mod_divide in Hd; [|lia]. destruct Hd as [q Hq].
    assert (Hq' : q <= 0 \/ 1 <= q) by lia. destruct Hq'; nia.
Qed.

Lemma for_loop_stride fuel nprocs me nmap :
  0 < nprocs -> 0 <= nmap -> nmap + nprocs <= 2 ^ 31 ->
  forall itask acc,
    0 <= itask -> itask mod nprocs = me -> itask < nmap + nprocs ->
    (Z.to_nat (nmap - itask) < fuel)%nat ->
    for_loop fuel itask nmap nprocs record_task acc
    = Ok (acc ++ filter (same_rank nprocs me) (range itask nmap)).
Proof.
  intros Hn Hm Hb. induction fuel as [|fuel IH]; intros itask acc H0 Hr Hlt Hf;
    [lia|].
  rewrite for_loop_S. destruct (Z.ltb_spec itask nmap) as [L|L].
  - unfold record_task at 1. cbn [bind].
    rewrite int_of_small by lia.
    rewrite IH; try lia.
    + rewrite (stride_next nprocs me itask nmap) by lia.
      now rewrite <- app_assoc.
    + rewrite <- Hr. rewrite <- Zplus_mod_idemp_r, Z.mod_same by lia.
      now rewrite Z.add_0_r.
  - rewrite range_nil by lia. now rewrite app_nil_r.
Qed.

Lemma stride_from_zero nprocs me nmap :
  0 <= me < nprocs ->
  filter (same_rank nprocs me) (range 0 nmap)
  = filter (same_rank nprocs me) (range me nmap).
Proof.
  intros H. destruct (Z.le_gt_cases nmap me) as [L|L].
  - rewrite (range_nil me nmap L). apply filter_none.
    intros x Hx. apply In_range in Hx. unfold same_rank.
    rewrite Z.mod_small by lia. apply Z.eqb_neq. lia.
  - rewrite (range_app 0 me nmap) by lia. rewrite filter_app.
    rewrite filter_none; [reflexivity|].
    intros x Hx. apply In_range in Hx. unfold same_rank.
    rewrite Z.mod_small by lia. apply Z.eqb_neq. lia.
Qed.

(** The bounds of mapstyle 0 are the quotients the specification names. *)
Lemma chunk_lo_spec me nprocs nmap :
  0 <= nmap <= INTMAX -> 0 <= me < nprocs -> nprocs <= INTMAX ->
  chunk_lo me nprocs nmap = me * nmap / nprocs.
Proof.
  unfold INTMAX. intros Hm Hr Hn. unfold chunk_lo.
  rewrite (u64_small me), (u64_small nmap), (u64_small nprocs) by lia.
  assert (0 <= me * nmap < 2 ^ 62) by nia.
  rewrite u64_small by lia.
  assert (0 <= me * nmap / nprocs) by (apply Z.div_pos; lia).
  assert (me * nmap / nprocs <= nmap).
  { apply Z.div_le_upper_bound; [lia|nia]. }
  apply int_of_small. lia.
Qed.

Lemma chunk_hi_spec me nprocs nmap :
  0 <= nmap <= INTMAX -> 0 <= me < nprocs -> nprocs <= INTMAX ->
  chunk_hi me nprocs nmap = (me + 1) * nmap / nprocs.
Proof.
  unfold INTMAX. intros Hm Hr Hn. unfold chunk_hi.
  rewrite (int_of_small (me + 1)) by lia.
  rewrite (u64_small (me + 1)), (u64_small nmap), (u64_small nprocs) by lia.
  assert (0 <= (me + 1) * nmap < 2 ^ 62) by nia.
  rewrite u64_small by lia.
  assert (0 <= (me + 1) * nmap / nprocs) by (apply Z.div_pos; lia).
  assert ((me + 1) * nmap / nprocs <= nmap).
  { apply Z.div_le_upper_bound; [lia|nia]. }
  apply int_of_small. lia.
Qed.

Lemma chunk_mono me nprocs nmap :
  0 <= nmap -> 0 <= me -> 0 < nprocs ->
  0 <= me * nmap / nprocs <= (me + 1) * nmap / nprocs.
Proof.
  intros Hm Hr Hn. split.
  - apply Z.div_pos; [nia|lia].
  - apply Z.div_le_mono; [lia|nia].
Qed.

(** The chunks of ranks [0 .. k-1], one after the other, are the tasks
    below the bound of rank [k]. *)
Lemma chunks_concat nprocs nmap (k : nat) :
  0 <= nmap -> 0 < nprocs ->
  concat (List.map (fun me => range (me * nmap / nprocs) ((me + 1) * nmap / nprocs))
                   (range 0 (Z.of_nat k)))
  = range 0 (Z.of_nat k * nmap / nprocs).
Proof.
  intros Hm Hn. induction k as [|k IH].
  - change (Z.of_nat 0) with 0. rewrite Z.mul_0_l, Z.div_0_l by lia.
    rewrite (range_nil 0 0) by lia. reflexivity.
  - rewrite (range_app 0 (Z.of_nat k) (Z.of_nat (S k))) by lia.
    rewrite map_app, concat_app, IH.
    rewrite (range_cons (Z.of_nat k)) by lia.
    rewrite (range_nil (Z.of_nat k + 1)) by lia.
    cbn [List.map concat]. rewrite app_nil_r.
    replace (Z.of_nat (S k)) with (Z.of_nat k + 1) by lia.
    pose proof (chunk_mono (Z.of_nat k) nprocs nmap Hm ltac:(lia) Hn).
    symmetry. apply range_app. lia.
Qed.

(** Whatever the loop body, a rank runs it on the tasks [map_tasks] lists,
    in that order. *)
Lemma run_tasks_trace {E : Externals} (mapstyle me nprocs nmap : Z) (l : list Z) :
  map_tasks mapstyle me nprocs nmap = Ok l ->
  forall (X : Type) (body : Z -> X -> result X) (x : X),
    run_tasks mapstyle me nprocs nmap body x = run_list l body x.
Proof.
  unfold map_tasks, run_tasks. intros H X body x.
  destruct (nprocs =? 1).
  { apply (for_loop_trace _ _ _ _ [] l) in H. destruct H as [l' [-> Hl]].
    apply Hl. }
  destruct (mapstyle =? 0).
  { apply (for_loop_trace _ _ _ _ [] l) in H. destruct H as [l' [-> Hl]].
    apply Hl. }
  destruct (mapstyle =? 1).
  { apply (for_loop_trace _ _ _ _ [] l) in H. destruct H as [l' [-> Hl]].
    apply Hl. }
  destruct (mapstyle =? 2); [|discriminate H].
  destruct (me =? 0).
  - injection H as <-. reflexivity.
  - change (run_list (received (master nprocs nmap) me) record_task [] = Ok l) in H.
    rewrite run_list_record in H. injection H as <-. reflexivity.
Qed.

(** C8.  Task assignment of [map(nmap, fn)] on a group of [nprocs] ranks,
    for a task count and a group size that [int] holds.  With mapstyle 0,
    rank [me] calls [fn] on the contiguous indices from [me*nmap/nprocs] up
    to, not including, [(me+1)*nmap/nprocs] (integer division), and the
    ranks' lists put one after the other in rank order are exactly
    [0, 1, ..., nmap-1]: every task is executed exactly once across the
    group.  With mapstyle 1, when [nmap + nprocs] does not exceed [2^31]
    (the loop counter, an [int], is advanced by [nprocs] once past the last
    task), rank [me] calls [fn] on exactly the indices below [nmap] that are
    congruent to [me] modulo [nprocs], in increasing order. *)
Theorem map_task_assignment {E : Externals} (nmap nprocs : Z) :
  0 <= nmap <= INTMAX -> 1 <= nprocs <= INTMAX ->
  (forall me, 0 <= me < nprocs ->
     map_tasks 0 me nprocs nmap
     = Ok (range (me * nmap / nprocs) ((me + 1) * nmap / nprocs)))
  /\ concat (List.map (fun me => range (me * nmap / nprocs)
                                       ((me + 1) * nmap / nprocs))
                      (range 0 nprocs))
     = range 0 nmap
  /\ (nmap + nprocs <= 2 ^ 31 ->
      forall me, 0 <= me < nprocs ->
        map_tasks 1 me nprocs nmap
        = Ok (filter (fun i => i mod nprocs =? me) (range 0 nmap))).
Proof.
  intros Hm Hn. split; [|split].
  - intros me Hr. unfold map_tasks, run_tasks.
    destruct (Z.eqb_spec nprocs 1) as [->|Hne].
    + assert (me = 0) by lia. subst me.
      change (for_loop (loop_fuel nmap) 0 nmap 1 record_task [] = Ok (range (0 * nmap / 1) ((0 + 1) * nmap / 1))).
      rewrite for_loop_unit; unfold loop_fuel; try lia.
      cbn [app]. rewrite Z.mul_0_l, Z.div_0_l, Z.mul_1_l, Z.div_1_r by lia.
      reflexivity.
    + change (0 =? 0) with true. cbv iota.
      rewrite chunk_lo_spec, chunk_hi_spec by lia.
      pose proof (chunk_mono me nprocs nmap ltac:(lia) ltac:(lia) ltac:(lia)) as Hc.
      assert ((me + 1) * nmap / nprocs <= nmap).
      { apply Z.div_le_upper_bound; [lia|nia]. }
      change (for_loop (loop_fuel nmap) (me * nmap / nprocs)
                ((me + 1) * nmap / nprocs) 1 record_task []
              = Ok (range (me * nmap / nprocs) ((me + 1) * nmap / nprocs))).
      rewrite for_loop_unit; unfold loop_fuel; try lia. reflexivity.
  - pose proof (chunks_concat nprocs nmap (Z.to_nat nprocs)
                  ltac:(lia) ltac:(lia)) as Hc.
    rewrite Z2Nat.id in Hc by lia. rewrite Hc.
    rewrite Z.mul_comm, Z.div_mul by lia. reflexivity.
  - intros Hb me Hr. unfold map_tasks, run_tasks.
    change (filter (fun i => i mod nprocs =? me) (range 0 nmap))
      with (filter (same_rank nprocs me) (range 0 nmap)).
    destruct (Z.eqb_spec nprocs 1) as [->|Hne].
    + assert (me = 0) by lia. subst me.
      change (for_loop (loop_fuel nmap) 0 nmap 1 record_task []
              = Ok (filter (same_rank 1 0) (range 0 nmap))).
      rewrite for_loop_unit; unfold loop_fuel; try lia.
      cbn [app]. f_equal. symmetry.
      rewrite (proj2 (filter_ext_in_iff _ (fun _ => true) (range 0 nmap))).
      * clear. induction (range 0 nmap) as [|a l IH]; [reflexivity|].
        cbn [filter]. now rewrite IH.
      * intros a _. unfold same_rank. now rewrite Z.mod_1_r.
    + change (1 =? 0) with false. change (1 =? 1) with true. cbv iota.
      change (for_loop (loop_fuel nmap) me nmap nprocs record_task []
              = Ok (filter (same_rank nprocs me) (range 0 nmap))).
      rewrite (for_loop_stride _ nprocs me nmap); unfold loop_fuel; try lia.
      * cbn [app]. now rewrite stride_from_zero by lia.
      * apply Z.mod_small. lia.
Qed.

(** Ten tasks on three ranks. *)
Lemma map_task_assignment_witness :
  map_tasks (E := Reference.externals) 0 1 3 10 = Ok [3; 4; 5]
  /\ map_tasks (E := Reference.externals) 1 1 3 10 = Ok [1; 4; 7].
Proof.
  destruct (map_task_assignment (E := Reference.externals) 10 3)
    as [H0 [_ H1]];
    [unfold INTMAX; lia | unfold INTMAX; lia |].
  split.
  - rewrite (H0 1) by lia. reflexivity.
  - rewrite (H1 ltac:(lia) 1) by lia. reflexivity.
Defined.

(** ** Preconditions of the operators *)

Lemma bind_fatal {A B : Type} (r : result A) (k : A -> result B) :
  (exists msg, r = Fatal msg) -> exists msg, (x <- r ;; k x) = Fatal msg.
Proof. intros [msg ->]. exists msg. reflexivity. Qed.

Lemma each_from_fatal (f : Z -> t -> result t) :
  forall (g : group) (me0 : Z) (k : nat) (s : t),
    nth_error g k = Some s ->
    (exists msg, f (me0 + Z.of_nat k) s = Fatal msg) ->
    exists msg, each_from f me0 g = Fatal msg.
Proof.
  induction g as [|a g IH]; intros me0 k s Hk Hf.
  - destruct k; discriminate Hk.
  - cbn [each_from]. destruct k as [|k].
    + injection Hk as ->. replace (me0 + Z.of_nat 0) with me0 in Hf by lia.
      destruct Hf as [msg ->]. exists msg. reflexivity.
    + destruct (f me0 a) as [a'|msg]; [|exists msg; reflexivity].
      cbn [bind]. apply bind_fatal. apply (IH (me0 + 1) k s Hk).
      replace (me0 + 1 + Z.of_nat k) with (me0 + Z.of_nat (S k)) by lia.
      exact Hf.
Qed.

Lemma each_fatal (f : Z -> Z -> t -> result t) (g : group) (k : nat) (s : t) :
  nth_error g k = Some s ->
  (exists msg, f (Z.of_nat k) (Z.of_nat (length g)) s = Fatal msg) ->
  exists msg, each f g = Fatal msg.
Proof.
  intros Hk Hf. unfold each.
  apply (each_from_fatal _ g 0 k s Hk). exact Hf.
Qed.

Lemma allocate_mapstyle (s s1 : t) :
  allocate s = Ok s1 -> mapstyle s1 = mapstyle s.
Proof.
  unfold allocate. intros H.
  destruct (memsize s <=? 0); [discriminate H|].
  destruct (doubling 64 1 (keyalign s)) as [tk|]; [|discriminate H].
  destruct (doubling 64 1 (valuealign s)) as [tv|].
  - destruct (negb (tk =? keyalign s)); [discriminate H|].
    destruct (negb (tv =? valuealign s)); [discriminate H|].
    injection H as <-. reflexivity.
  - destruct (negb (tk =? keyalign s)); discriminate H.
Qed.

(** With more than one rank, a mapstyle other than 0, 1 and 2 ends in the
    last branch. *)
Lemma run_tasks_invalid {E : Externals} {X : Type} mapstyle me nprocs nmap
    (body : Z -> X -> result X) (x : X) :
  nprocs <> 1 -> mapstyle <> 0 -> mapstyle <> 1 -> mapstyle <> 2 ->
  run_tasks mapstyle me nprocs nmap body x = Fatal "Invalid mapstyle setting".
Proof.
  intros Hn H0 H1 H2. unfold run_tasks.
  rewrite (proj2 (Z.eqb_neq nprocs 1) Hn), (proj2 (Z.eqb_neq mapstyle 0) H0),
    (proj2 (Z.eqb_neq mapstyle 1) H1), (proj2 (Z.eqb_neq mapstyle 2) H2).
  reflexivity.
Qed.

Lemma map_rank_invalid {E : Externals} nmap appmap addflag me nprocs (s : t) :
  nprocs <> 1 -> mapstyle s <> 0 -> mapstyle s <> 1 -> mapstyle s <> 2 ->
  exists msg, map_rank nmap appmap addflag me nprocs s = Fatal msg.
Proof.
  intros Hn H0 H1 H2. unfold map_rank.
  assert (G : forall s1, mapstyle s1 = mapstyle s ->
            exists msg,
              (let s2 := set_kmv s1 None in
               let '(s3, k) :=
                 if addflag =? 0 then (memswap s2, new_kv s2)
                 else match kv s2 with
                      | None => (memswap s2, new_kv s2)
                      | Some k0 => (s2, KV.append k0)
                      end in
               k' <- run_tasks (mapstyle s3) me nprocs nmap appmap k ;;
               Ok (set_kv s3 (Some (KV.complete k')))) = Fatal msg).
  { intros s1 Hs. cbv zeta.
    destruct (addflag =? 0).
    - change (mapstyle (memswap (set_kmv s1 None))) with (mapstyle s1).
      rewrite Hs, run_tasks_invalid by assumption. eexists; reflexivity.
    - change (kv (set_kmv s1 None)) with (kv s1). destruct (kv s1).
      + change (mapstyle (set_kmv s1 None)) with (mapstyle s1).
        rewrite Hs, run_tasks_invalid by assumption. eexists; reflexivity.
      + change (mapstyle (memswap (set_kmv s1 None))) with (mapstyle s1).
        rewrite Hs, run_tasks_invalid by assumption. eexists; reflexivity. }
  destruct (allocated s).
  - cbn [bind]. apply G. reflexivity.
  - destruct (allocate s) as [s1|msg] eqn:Ea.
    + cbn [bind]. apply G. apply allocate_mapstyle. exact Ea.
    + exists msg. reflexivity.
Qed.

(** The state in which an operator must not be called, for the rank [me]
    of a group of [nprocs] ranks holding [s]. *)
Definition violates (op : operator) (nprocs me : Z) (s : t) : Prop :=
  match op with
  | Map _ _ _ =>
    nprocs <> 1 /\ mapstyle s <> 0 /\ mapstyle s <> 1 /\ mapstyle s <> 2
  | Add mr =>
    kv s = None \/ mr me = This \/ exists m, mr me = Another m /\ kv m = None
  | Reduce _ | Sort_multivalues _ => kmv s = None
  | _ => kv s = None
  end.

Ltac guard_on k s Hk :=
  apply bind_fatal; apply (each_fatal _ _ k s Hk).

(** C7.  An operator called on a group in which some rank is in a state
    that violates the operator's precondition ends in a fatal error:
    [convert], [aggregate], [collapse], [clone], [collate], [compress],
    [gather], [scrunch], [sort_keys] and [sort_values] without a KeyValue;
    [reduce] and [sort_multivalues] without a KeyMultiValue; [add(mr)]
    when this engine or [mr] has no KeyValue or [mr] is this engine; and
    [map] with a mapstyle other than 0, 1 and 2 when the group has more
    than one rank. *)
Theorem precondition_errors {E : Externals} (op : operator) (g : group)
    (k : nat) (s : t) :
  nth_error g k = Some s ->
  violates op (Z.of_nat (length g)) (Z.of_nat k) s ->
  exists msg, run op g = Fatal msg.
Proof.
  intros Hk Hv. destruct op; cbn [run violates] in *.
  - (* map *)
    destruct Hv as [Hn [H0 [H1 H2]]]. unfold map. guard_on k s Hk.
    apply map_rank_invalid; assumption.
  - (* add *)
    unfold add. guard_on k s Hk. unfold add_rank.
    destruct (kv s) as [k0|]; [|eexists; reflexivity].
    destruct Hv as [Hv|[Hv|[m [Hv Hm]]]]; [discriminate Hv| |]; rewrite Hv.
    + eexists; reflexivity.
    + rewrite Hm. eexists; reflexivity.
  - unfold aggregate. guard_on k s Hk. unfold require_kv. rewrite Hv.
    eexists; reflexivity.
  - unfold convert. guard_on k s Hk. unfold convert_rank. rewrite Hv.
    eexists; reflexivity.
  - unfold collate. guard_on k s Hk. unfold require_kv. rewrite Hv.
    eexists; reflexivity.
  - unfold clone. guard_on k s Hk. unfold clone_rank. rewrite Hv.
    eexists; reflexivity.
  - unfold collapse. guard_on k s Hk. unfold collapse_rank. rewrite Hv.
    eexists; reflexivity.
  - unfold compress. guard_on k s Hk. unfold compress_rank. rewrite Hv.
    eexists; reflexivity.
  - unfold reduce. guard_on k s Hk. unfold reduce_rank. rewrite Hv.
    eexists; reflexivity.
  - unfold gather. cbv zeta. guard_on k s Hk. unfold require_kv. rewrite Hv.
    eexists; reflexivity.
  - unfold scrunch. guard_on k s Hk. unfold require_kv. rewrite Hv.
    eexists; reflexivity.
  - unfold sort_keys. guard_on k s Hk. unfold sort_rank. rewrite Hv.
    eexists; reflexivity.
  - unfold sort_values. guard_on k s Hk. unfold sort_rank. rewrite Hv.
    eexists; reflexivity.
  - unfold sort_multivalues. guard_on k s Hk. unfold sort_multivalues_rank.
    rewrite Hv. eexists; reflexivity.
Qed.

(** [convert] on a fresh engine. *)
Lemma precondition_errors_witness :
  exists msg, run (E := Reference.externals) Convert [new] = Fatal msg.
Proof.
  apply (precondition_errors (E := Reference.externals) Convert [new] 0 new).
  - reflexivity.
  - reflexivity.
Defined.

(** A rank that lacks the container reports the operator's own message. *)
Lemma guard_messages {E : Externals} (s : t) :
  (kv s = None ->
   convert_rank s = Fatal "Cannot convert without KeyValue"
   /\ clone_rank s = Fatal "Cannot clone without KeyValue"
   /\ (forall key, collapse_rank key s = Fatal "Cannot collapse without KeyValue")
   /\ (forall f, compress_rank f s = Fatal "Cannot compress without KeyValue")
   /\ (forall mr, add_rank mr s = Fatal "Cannot add without KeyValue")
   /\ (forall c, sort_rank "Cannot sort_keys without KeyValue" c 0 s
                 = Fatal "Cannot sort_keys without KeyValue"))
  /\ (kmv s = None ->
      (forall f, reduce_rank f s = Fatal "Cannot reduce without KeyMultiValue")
      /\ (forall c, sort_multivalues_rank c s
                    = Fatal "Cannot sort_multivalues without KeyMultiValue")).
Proof.
  split; intros H.
  - unfold convert_rank, clone_rank, collapse_rank, compress_rank, add_rank,
      sort_rank. rewrite H. repeat split.
  - unfold reduce_rank, sort_multivalues_rank. rewrite H. split; reflexivity.
Qed.

(** On a group of one rank [map] never looks at [mapstyle]: with
    mapstyle 7 it runs its three tasks and returns their pairs. *)
Definition emit_task (itask : Z) (k : KV.t) : result KV.t :=
  KV.add k (mkEntry [itask] [itask; itask]).

Definition lone_rank : group := [set_settings new 7 0 0 1 4 4].

Lemma map_alone_ignores_mapstyle :
  List.map mapstyle lone_rank = [7]
  /\ exists g',
       run (E := Reference.externals) (Map 3 emit_task 0) lone_rank = Ok (3, g')
       /\ List.map (fun s => option_map KV.pages (kv s)) g'
          = [Some [[mkEntry [0] [0; 0]; mkEntry [1] [1; 1]; mkEntry [2] [2; 2]]]].
Proof.
  split; [reflexivity|].
  eexists. split; vm_compute; reflexivity.
Qed.

(** ** What the operators return *)

Lemma bind_ok {A B : Type} (r : result A) (k : A -> result B) (b : B) :
  (x <- r ;; k x) = Ok b -> exists a, r = Ok a /\ k a = Ok b.
Proof. destruct r as [a|msg]; [|discriminate]. intros H. now exists a. Qed.

Lemma each_from_Forall2 (f : Z -> t -> result t) :
  forall (g : group) (me : Z) (g' : group),
    each_from f me g = Ok g' ->
    Forall2 (fun s s' => exists me', f me' s = Ok s') g g'.
Proof.
  induction g as [|a g IH]; intros me g' H; cbn [each_from] in H.
  - injection H as <-. constructor.
  - apply bind_ok in H. destruct H as [a' [Ea H]].
    apply bind_ok in H. destruct H as [rest [Er H]].
    injection H as <-. constructor; [now exists me|]. apply (IH _ _ Er).
Qed.

Lemma each_Forall2 (f : Z -> Z -> t -> result t) (g g' : group) :
  each f g = Ok g' ->
  Forall2 (fun s s' => exists me n, f me n s = Ok s') g g'.
Proof.
  intros H. apply each_from_Forall2 in H.
  eapply Forall2_impl; [|exact H]. cbn beta. intros s s' [me Hs].
  now exists me, (Z.of_nat (length g)).
Qed.

Lemma Forall2_right {A B : Type} (R : A -> B -> Prop) (P : B -> Prop) l l' :
  Forall2 R l l' -> (forall a b, R a b -> P b) -> Forall P l'.
Proof.
  intros H HP. induction H; constructor; [eapply HP; eassumption|assumption].
Qed.

Lemma Forall2_keep {A : Type} (R : A -> A -> Prop) (P : A -> Prop) l l' :
  Forall2 R l l' -> Forall P l -> (forall a b, R a b -> P a -> P b) ->
  Forall P l'.
Proof.
  intros H HF HP. induction H; [constructor|].
  inversion HF; subst. constructor; [eapply HP; eassumption|auto].
Qed.

(** After [each], every rank holds what the rank-local part produces. *)
Lemma each_all (f : Z -> Z -> t -> result t) (P : t -> Prop) (g g' : group) :
  each f g = Ok g' ->
  (forall me n s s', f me n s = Ok s' -> P s') -> Forall P g'.
Proof.
  intros H HP. apply each_Forall2 in H.
  apply (Forall2_right _ P _ _ H). intros s s' [me [n Hs]]. eapply HP, Hs.
Qed.

Lemma each_length (f : Z -> Z -> t -> result t) (g g' : group) :
  each f g = Ok g' -> length g' = length g.
Proof.
  intros H. apply each_Forall2 in H. symmetry. eapply Forall2_length, H.
Qed.

(** [stats] prints and changes nothing else. *)
Lemma stats_rank_keeps heading which a b me (s s' : t) :
  stats_rank heading which a b me s = Ok s' ->
  kv s' = kv s /\ kmv s' = kmv s.
Proof.
  unfold stats_rank. intros H.
  set (s1 := if ((timer s =? 1) || (timer s =? 2)) && (me =? 0)
             then print s (TimeLine heading) else s) in H.
  assert (H1 : kv s1 = kv s /\ kmv s1 = kmv s).
  { subst s1. destruct (((timer s =? 1) || (timer s =? 2)) && (me =? 0));
      split; reflexivity. }
  destruct (verbosity s1 =? 0); [injection H as <-; exact H1|].
  set (s2 := if me =? 0 then print s1 (StatsHead heading) else s1) in H.
  assert (H2 : kv s2 = kv s /\ kmv s2 = kmv s).
  { subst s2. destruct (me =? 0); exact H1. }
  destruct (negb _); [discriminate H|].
  injection H as <-.
  destruct ((verbosity s =? 2) && (me =? 0)), (me =? 0); exact H2.
Qed.

Definition has_kv (s : t) : Prop := kv s <> None.
Definition has_kmv (s : t) : Prop := kmv s <> None.

Lemma stats_keeps_kv heading which (g g' : group) :
  stats heading which g = Ok g' -> Forall has_kv g -> Forall has_kv g'.
Proof.
  intros H HF. apply each_Forall2 in H.
  apply (Forall2_keep _ has_kv _ _ H HF).
  intros s s' [me [n Hs]] Hk. apply stats_rank_keeps in Hs.
  unfold has_kv. now rewrite (proj1 Hs).
Qed.

Lemma stats_keeps_kmv heading which (g g' : group) :
  stats heading which g = Ok g' -> Forall has_kmv g -> Forall has_kmv g'.
Proof.
  intros H HF. apply each_Forall2 in H.
  apply (Forall2_keep _ has_kmv _ _ H HF).
  intros s s' [me [n Hs]] Hk. apply stats_rank_keeps in Hs.
  unfold has_kmv. now rewrite (proj2 Hs).
Qed.

Lemma stats_length heading which (g g' : group) :
  stats heading which g = Ok g' -> length g' = length g.
Proof. apply each_length. Qed.

(** The pattern every operator ends with: the rank-local part on every
    rank, [stats], and the reduction of the count. *)
Lemma finish_kv (f : Z -> Z -> t -> result t) heading (g : group) r g' :
  (g1 <- each f g ;; g2 <- stats heading 0 g1 ;; Ok (nkeyall_kv g2, g2))
  = Ok (r, g') ->
  (forall me n s s', f me n s = Ok s' -> has_kv s') ->
  Forall has_kv g' /\ r = nkeyall_kv g'.
Proof.
  intros H Hf. apply bind_ok in H. destruct H as [g1 [E1 H]].
  apply bind_ok in H. destruct H as [g2 [E2 H]].
  injection H as <- <-. split; [|reflexivity].
  apply (stats_keeps_kv _ _ _ _ E2). apply (each_all _ _ _ _ E1 Hf).
Qed.

Lemma finish_kmv (f : Z -> Z -> t -> result t) heading which (g : group) r g' :
  (g1 <- each f g ;; g2 <- stats heading which g1 ;; Ok (nkeyall_kmv g2, g2))
  = Ok (r, g') ->
  (forall me n s s', f me n s = Ok s' -> has_kmv s') ->
  Forall has_kmv g' /\ r = nkeyall_kmv g'.
Proof.
  intros H Hf. apply bind_ok in H. destruct H as [g1 [E1 H]].
  apply bind_ok in H. destruct H as [g2 [E2 H]].
  injection H as <- <-. split; [|reflexivity].
  apply (stats_keeps_kmv _ _ _ _ E2). apply (each_all _ _ _ _ E1 Hf).
Qed.

Section ReturnValues.
Context {E : Externals}.

Ltac some_kmv H m :=
  apply bind_ok in H; destruct H as [m [_ H]]; injection H as <-;
  unfold has_kmv; discriminate.

Lemma convert_rank_has s s' : convert_rank s = Ok s' -> has_kmv s'.
Proof.
  unfold convert_rank. destruct (kv s); [|discriminate]. intros H. some_kmv H m.
Qed.

Lemma clone_rank_has s s' : clone_rank s = Ok s' -> has_kmv s'.
Proof.
  unfold clone_rank. destruct (kv s); [|discriminate]. intros H. some_kmv H m.
Qed.

Lemma collapse_rank_has key s s' : collapse_rank key s = Ok s' -> has_kmv s'.
Proof.
  unfold collapse_rank. destruct (kv s); [|discriminate]. intros H.
  some_kmv H m.
Qed.

Lemma require_kv_has msg s s' : require_kv msg s = Ok s' -> has_kv s'.
Proof.
  unfold require_kv, has_kv. destruct (kv s) eqn:Ek; [|discriminate].
  intros H. injection H as <-. now rewrite Ek.
Qed.

Lemma map_rank_has nmap appmap addflag me n s s' :
  map_rank nmap appmap addflag me n s = Ok s' -> has_kv s'.
Proof.
  unfold map_rank. intros H. apply bind_ok in H. destruct H as [s1 [_ H]].
  cbv zeta in H.
  destruct (if addflag =? 0 then (memswap (set_kmv s1 None), new_kv (set_kmv s1 None))
            else match kv (set_kmv s1 None) with
                 | Some k0 => (set_kmv s1 None, KV.append k0)
                 | None => (memswap (set_kmv s1 None), new_kv (set_kmv s1 None))
                 end) as [s3 k].
  apply bind_ok in H. destruct H as [k' [_ H]]. injection H as <-.
  unfold has_kv. discriminate.
Qed.

Lemma add_rank_has mr s s' : add_rank mr s = Ok s' -> has_kv s'.
Proof.
  unfold add_rank. destruct (kv s); [|discriminate].
  destruct (match mr with This => Some t0 | Another m => kv m end);
    [|discriminate].
  destruct mr; [discriminate|]. intros H.
  apply bind_ok in H. destruct H as [s1 [_ H]].
  apply bind_ok in H. destruct H as [k' [_ H]]. injection H as <-.
  unfold has_kv. discriminate.
Qed.

Lemma reduce_rank_has f s s' : reduce_rank f s = Ok s' -> has_kv s'.
Proof.
  unfold reduce_rank. destruct (kmv s); [|discriminate]. cbv zeta. intros H.
  apply bind_ok in H. destruct H as [k [_ H]]. injection H as <-.
  unfold has_kv. discriminate.
Qed.

Lemma compress_rank_has f s s' : compress_rank f s = Ok s' -> has_kv s'.
Proof.
  unfold compress_rank. destruct (kv s); [|discriminate]. intros H.
  apply bind_ok in H. destruct H as [m [_ H]]. cbv zeta in H.
  apply bind_ok in H. destruct H as [k [_ H]]. injection H as <-.
  unfold has_kv. discriminate.
Qed.

Lemma gather_rank_has g numprocs me n s s' :
  gather_rank g numprocs me n s = Ok s' -> has_kv s'.
Proof.
  unfold gather_rank. destruct (kv s); [|discriminate].
  destruct (me <? numprocs); intros H.
  - apply bind_ok in H. destruct H as [k [_ H]]. injection H as <-.
    unfold has_kv. discriminate.
  - injection H as <-. unfold has_kv. discriminate.
Qed.

Lemma sort_rank_has msg compare flag s s' :
  sort_rank msg compare flag s = Ok s' -> has_kv s'.
Proof.
  unfold sort_rank. destruct (kv s) as [k|]; [|discriminate].
  unfold sort_kv. cbv zeta.
  destruct (negb _).
  { destruct (_ && _); [|discriminate].
    destruct (sort_page_past _ _ _ _ _); [|discriminate].
    intros H. injection H as <-. unfold has_kv. discriminate. }
  destruct (KV.request_info k =? 1).
  - intros H. injection H as <-. unfold has_kv. discriminate.
  - destruct (KV.request_info k >? 1); [|discriminate]. intros H.
    apply bind_ok in H. destruct H as [sp [_ H]].
    apply bind_ok in H. destruct H as [k' [_ H]]. injection H as <-.
    unfold has_kv. discriminate.
Qed.

Lemma sort_multivalues_rank_has compare s s' :
  sort_multivalues_rank compare s = Ok s' -> has_kmv s'.
Proof.
  unfold sort_multivalues_rank. destruct (kmv s); [|discriminate]. intros H.
  apply bind_ok in H. destruct H as [m [_ H]]. injection H as <-.
  unfold has_kmv. discriminate.
Qed.

Lemma int_of_idem x : int_of (int_of x) = int_of x.
Proof. apply int_of_small. apply int_of_range. Qed.

Lemma nkeyall_kv_one s : nkeyall_kv [s] = int_of (nkv_of s).
Proof.
  unfold nkeyall_kv, allreduce_sum. cbn [List.map fold_right].
  rewrite Z.add_0_r. apply int_of_idem.
Qed.

Lemma aggregate_returns hash g r g' :
  aggregate hash g = Ok (r, g') -> Forall has_kv g' /\ r = nkeyall_kv g'.
Proof.
  unfold aggregate. intros H. apply bind_ok in H. destruct H as [g0 [E0 H]].
  assert (H0 : Forall has_kv g0).
  { apply (each_all _ _ _ _ E0). intros me n s s'. apply require_kv_has. }
  destruct (Z.eqb_spec (Z.of_nat (length g0)) 1) as [L|L].
  - apply bind_ok in H. destruct H as [g1 [E1 H]]. injection H as <- <-.
    split; [apply (stats_keeps_kv _ _ _ _ E1 H0)|].
    pose proof (stats_length _ _ _ _ E1) as L1.
    destruct g1 as [|s [|s2 g1]]; cbn [length] in L1; try lia.
    cbn [hd]. symmetry. apply nkeyall_kv_one.
  - cbv zeta in H. apply bind_ok in H. destruct H as [kvnew [_ H]].
    apply bind_ok in H. destruct H as [g2 [E2 H]]. injection H as <- <-.
    split; [|reflexivity]. apply (stats_keeps_kv _ _ _ _ E2).
    apply Forall_forall. intros s Hs. apply in_map_iff in Hs.
    destruct Hs as [[s0 k] [<- _]]. unfold has_kv. discriminate.
Qed.

Lemma convert_returns g r g' :
  convert g = Ok (r, g') -> Forall has_kmv g' /\ r = nkeyall_kmv g'.
Proof.
  unfold convert. intros H. apply (finish_kmv _ _ _ _ _ _ H).
  intros me n s s'. apply convert_rank_has.
Qed.

Lemma collapse_returns key g r g' :
  collapse key g = Ok (r, g') -> Forall has_kmv g' /\ r = nkeyall_kmv g'.
Proof.
  unfold collapse. intros H. apply (finish_kmv _ _ _ _ _ _ H).
  intros me n s s'. apply collapse_rank_has.
Qed.

Lemma restore_has_kmv hold g : Forall has_kmv g -> Forall has_kmv (restore hold g).
Proof.
  intros H. unfold restore. apply Forall_forall. intros s Hs.
  apply in_map_iff in Hs. destruct Hs as [[h s0] [<- Hin]].
  apply in_combine_r in Hin. rewrite Forall_forall in H. apply (H _ Hin).
Qed.

Lemma collate_returns hash g r g' :
  collate hash g = Ok (r, g') -> Forall has_kmv g' /\ r = nkeyall_kmv g'.
Proof.
  unfold collate. intros H. apply bind_ok in H. destruct H as [g0 [_ H]].
  cbv zeta in H. apply bind_ok in H. destruct H as [[r1 g1] [_ H]].
  apply bind_ok in H. destruct H as [[r2 g2] [E2 H]].
  apply bind_ok in H. destruct H as [g3 [E3 H]]. injection H as <- <-.
  split; [|reflexivity]. apply (stats_keeps_kmv _ _ _ _ E3).
  apply restore_has_kmv. apply (convert_returns _ _ _ E2).
Qed.

Lemma gather_returns numprocs g r g' :
  gather numprocs g = Ok (r, g') -> Forall has_kv g' /\ r = nkeyall_kv g'.
Proof.
  unfold gather. cbv zeta. intros H.
  apply bind_ok in H. destruct H as [g0 [E0 H]].
  assert (H0 : Forall has_kv g0).
  { apply (each_all _ _ _ _ E0). intros me n s s' Hs.
    apply bind_ok in Hs. destruct Hs as [s1 [Hr Hs]].
    revert Hs. destruct (_ || _); [discriminate|]. intros Hs.
    injection Hs as <-. unfold require_kv in Hr. unfold has_kv.
    destruct (kv s); [discriminate|discriminate Hr]. }
  destruct ((Z.of_nat (length g) =? 1) || (numprocs =? Z.of_nat (length g))).
  - apply bind_ok in H. destruct H as [g1 [E1 H]]. injection H as <- <-.
    split; [apply (stats_keeps_kv _ _ _ _ E1 H0)|reflexivity].
  - apply (finish_kv _ _ _ _ _ H). intros me n s s'. apply gather_rank_has.
Qed.

Lemma scrunch_returns numprocs key g r g' :
  scrunch numprocs key g = Ok (r, g') ->
  Forall has_kmv g' /\ r = nkeyall_kmv g'.
Proof.
  unfold scrunch. intros H. apply bind_ok in H. destruct H as [g0 [_ H]].
  cbv zeta in H. apply bind_ok in H. destruct H as [[r1 g1] [_ H]].
  apply bind_ok in H. destruct H as [[r2 g2] [E2 H]].
  apply bind_ok in H. destruct H as [g3 [E3 H]]. injection H as <- <-.
  split; [|reflexivity]. apply (stats_keeps_kmv _ _ _ _ E3).
  apply restore_has_kmv. apply (collapse_returns _ _ _ _ E2).
Qed.

End ReturnValues.

(** The container an operator leaves its result in, and the counts the
    ranks contribute to the reduction. *)
Definition holds_result (op : operator) (s : t) : Prop :=
  if yields_kmv op then has_kmv s else has_kv s.

Definition counts (op : operator) (g : group) : list Z :=
  List.map (if yields_kmv op then nkmv_of else nkv_of) g.

Definition total (xs : list Z) : Z := fold_right Z.add 0 xs.

Lemma total_nonneg xs : Forall (fun c => 0 <= c) xs -> 0 <= total xs.
Proof.
  induction 1 as [|x xs Hx _ IH]; cbn [total fold_right]; [lia|].
  unfold total in IH. lia.
Qed.

Lemma allreduce_sum_exact xs :
  Forall (fun c => 0 <= c) xs -> total xs <= INTMAX ->
  allreduce_sum xs = total xs.
Proof.
  intros Hx Hs. unfold allreduce_sum.
  assert (Hm : List.map int_of xs = xs).
  { revert Hs. induction Hx as [|x xs H0 Hx IH]; intros Hs; [reflexivity|].
    cbn [List.map]. cbn [total fold_right] in Hs.
    pose proof (total_nonneg xs Hx) as Hn. unfold total in Hn, IH.
    unfold INTMAX in *. rewrite int_of_small by lia. f_equal.
    apply IH. unfold total. lia. }
  rewrite Hm. pose proof (total_nonneg xs Hx) as Hn. unfold total in *.
  unfold INTMAX in Hs. apply int_of_small. lia.
Qed.

(** C9.  Every operator of the driver that returns, returns an [int]: the
    sum, taken by [MPI_Allreduce] with [MPI_SUM] over [MPI_INT], of the
    record counts ([nkv], or [nkmv] for the operators that produce a
    KeyMultiValue) of the containers the ranks hold after the operation,
    each count and the sum reduced to 32 bits.  Every rank holds that
    container.  When the counts are non-negative and their sum does not
    exceed [INT_MAX], the value returned is the total record count. *)
Theorem operator_return_value {E : Externals} (op : operator) (g : group)
    (r : Z) (g' : group) :
  run op g = Ok (r, g') ->
  Forall (holds_result op) g'
  /\ r = allreduce_sum (counts op g')
  /\ (Forall (fun c => 0 <= c) (counts op g') ->
      total (counts op g') <= INTMAX ->
      r = total (counts op g')).
Proof.
  intros H.
  assert (G : Forall (holds_result op) g' /\ r = allreduce_sum (counts op g')).
  { destruct op; unfold holds_result, counts; cbn [run yields_kmv] in *.
    - apply (finish_kv _ _ _ _ _ H). intros me n s s'. apply map_rank_has.
    - apply (finish_kv _ _ _ _ _ H). intros me n s s'. apply add_rank_has.
    - apply (aggregate_returns _ _ _ _ H).
    - apply (convert_returns _ _ _ H).
    - apply (collate_returns _ _ _ _ H).
    - apply (finish_kmv _ _ _ _ _ _ H). intros me n s s'. apply clone_rank_has.
    - apply (collapse_returns _ _ _ _ H).
    - apply (finish_kv _ _ _ _ _ H). intros me n s s'. apply compress_rank_has.
    - apply (finish_kv _ _ _ _ _ H). intros me n s s'. apply reduce_rank_has.
    - apply (gather_returns _ _ _ _ H).
    - apply (scrunch_returns _ _ _ _ _ H).
    - apply (finish_kv _ _ _ _ _ H). intros me n s s'. apply sort_rank_has.
    - apply (finish_kv _ _ _ _ _ H). intros me n s s'. apply sort_rank_has.
    - apply (finish_kmv _ _ _ _ _ _ H). intros me n s s'.
      apply sort_multivalues_rank_has. }
  destruct G as [G1 G2]. split; [exact G1|]. split; [exact G2|].
  intros Hc Hs. rewrite G2. apply allreduce_sum_exact; assumption.
Qed.

(** Five tasks on two ranks, one pair per task. *)
Definition two_ranks : group :=
  [set_settings new 0 0 0 1 4 4; set_settings new 0 0 0 1 4 4].

Definition after_map : group :=
  Eval vm_compute in
    match run (E := Reference.externals) (Map 5 emit_task 0) two_ranks with
    | Ok (_, g') => g'
    | Fatal _ => []
    end.

Lemma operator_return_value_witness :
  run (E := Reference.externals) (Map 5 emit_task 0) two_ranks
  = Ok (5, after_map)
  /\ 5 = total (counts (Map 5 emit_task 0) after_map).
Proof.
  assert (R : run (E := Reference.externals) (Map 5 emit_task 0) two_ranks
              = Ok (5, after_map)) by (vm_compute; reflexivity).
  split; [exact R|].
  apply (operator_return_value (E := Reference.externals) _ _ _ _ R).
  - vm_compute. repeat constructor; discriminate.
  - vm_compute. discriminate.
Defined.

(** A group whose ranks all hold a KeyValue and print nothing passes
    through [gather] onto all of its ranks unchanged. *)
Definition silent (s : t) : Prop := verbosity s = 0 /\ timer s = 0.

Lemma each_from_same (f : Z -> t -> result t) (g : group) :
  forall me, (forall s m, In s g -> f m s = Ok s) -> each_from f me g = Ok g.
Proof.
  induction g as [|a g IH]; intros me H; [reflexivity|].
  cbn [each_from]. rewrite (H a me) by (now left). cbn [bind].
  rewrite IH; [reflexivity|]. intros s m Hs. apply H. now right.
Qed.

Lemma stats_silent heading which (g : group) :
  Forall silent g -> stats heading which g = Ok g.
Proof.
  intros H. unfold stats, each. apply each_from_same.
  intros s m Hs. rewrite Forall_forall in H. destruct (H s Hs) as [Hv Ht].
  unfold stats_rank. rewrite Ht. cbn [Z.eqb orb andb]. now rewrite Hv.
Qed.

Lemma gather_everyone {E : Externals} (g : group) :
  Forall has_kv g -> Forall silent g -> g <> [] ->
  gather (Z.of_nat (length g)) g = Ok (nkeyall_kv g, g).
Proof.
  intros Hk Hs Hne. unfold gather. cbv zeta.
  assert (E0 : each (fun _ _ s =>
                _ <- require_kv "Cannot gather without KeyValue" s ;;
                if (Z.of_nat (length g) <? 1)
                   || (Z.of_nat (length g) >? Z.of_nat (length g))
                then Fatal "Invalid proc count for gather" else Ok s) g = Ok g).
  { unfold each. apply each_from_same. intros s m Hin.
    rewrite Forall_forall in Hk. specialize (Hk s Hin).
    unfold require_kv, has_kv in *. destruct (kv s); [|contradiction].
    cbn [bind].
    assert (L : 1 <= Z.of_nat (length g)) by (destruct g; [contradiction|cbn [length]; lia]).
    rewrite (proj2 (Z.ltb_ge _ _) L).
    replace (Z.of_nat (length g) >? Z.of_nat (length g)) with false
      by (symmetry; rewrite Z.gtb_ltb; apply Z.ltb_irrefl).
    reflexivity. }
  rewrite E0. cbn [bind]. rewrite Z.eqb_refl, orb_true_r.
  rewrite (stats_silent _ _ g Hs). reflexivity.
Qed.

(** Two ranks that hold [2^30] pairs each, in 1024 pages of [2^20] pairs
    (pairs with an empty key and an empty value, 8 bytes each, on pages of
    8 MB).  The group holds [2^31] pairs; [gather] onto both ranks moves
    nothing and returns [-2^31]. *)
Definition full_pages : list (list entry) :=
  repeat (repeat stale (Z.to_nat (2 ^ 20))) (Z.to_nat (2 ^ 10)).

Definition crowded_kv : KV.t :=
  KV.mk (2 ^ 30) 4 4 4 0 0 [] (2 ^ 23) full_pages.

Definition crowded : t :=
  mk 0 0 0 32 4 4 true 4 4 4 (2 ^ 23) (2 ^ 24) 0 (Some crowded_kv) None [].

Lemma length_concat_repeat {A : Type} (l : list A) (n : nat) :
  length (concat (repeat l n)) = (n * length l)%nat.
Proof.
  induction n as [|n IH]; [reflexivity|].
  cbn [repeat concat]. rewrite length_app, IH. reflexivity.
Qed.

Lemma gather_return_wraps :
  Z.of_nat (length (concat (KV.pages crowded_kv))) = KV.nkv crowded_kv
  /\ total (List.map nkv_of [crowded; crowded]) = 2 ^ 31
  /\ run (E := Reference.externals) (Gather 2) [crowded; crowded]
     = Ok (- 2 ^ 31, [crowded; crowded]).
Proof.
  split; [|split].
  - change (KV.pages crowded_kv) with full_pages.
    change (KV.nkv crowded_kv) with (2 ^ 30).
    unfold full_pages. rewrite length_concat_repeat, repeat_length.
    rewrite Nat2Z.inj_mul, !Z2Nat.id by lia. reflexivity.
  - change (List.map nkv_of [crowded; crowded]) with [2 ^ 30; 2 ^ 30].
    reflexivity.
  - cbn [run].
    change 2 with (Z.of_nat (length [crowded; crowded])) at 1.
    rewrite (gather_everyone (E := Reference.externals)).
    + apply f_equal. apply (f_equal (fun x => (x, [crowded; crowded]))).
      unfold nkeyall_kv.
      change (List.map nkv_of [crowded; crowded]) with [2 ^ 30; 2 ^ 30].
      reflexivity.
    + repeat constructor; unfold has_kv; discriminate.
    + repeat constructor.
    + discriminate.
Qed.

(** ** [sort_multivalues] and split multivalues *)

Definition split_message : string :=
  "Cannot yet sort multivalues for a multiple block KeyMultiValue".

(** A KeyMultiValue with a block-split record: one of the pages the scan
    visits holds a record whose stored [nvalues] is negative. *)
Definition block_split (m : KMV.t) : Prop :=
  exists (ip : nat) (l : list KMV.record) (r : KMV.record),
    (ip < Z.to_nat (KMV.request_info m))%nat
    /\ nth_error (KMV.pages m) ip = Some (KMV.Records l)
    /\ In r l /\ KMV.nvalues r < 0.

Section SplitMultivalues.
Context {E : Externals}.
Variable compare : comparison.

Lemma sort_record_split sc r :
  KMV.nvalues r < 0 -> sort_record compare sc r = Fatal split_message.
Proof.
  intros H. unfold sort_record.
  rewrite (proj2 (Z.ltb_lt _ _) H). reflexivity.
Qed.

Lemma sort_record_fatal sc r msg :
  sort_record compare sc r = Fatal msg -> msg = split_message.
Proof.
  unfold sort_record. destruct (KMV.nvalues r <? 0); [|discriminate].
  intros H. injection H as <-. reflexivity.
Qed.

Lemma sort_records_fatal recs :
  forall sc msg, sort_records compare sc recs = Fatal msg -> msg = split_message.
Proof.
  induction recs as [|r recs IH]; intros sc msg H; cbn [sort_records] in H.
  - discriminate H.
  - destruct (sort_record compare sc r) as [x|m] eqn:Er; cbn [bind] in H.
    + destruct (sort_records compare (fst x) recs) as [y|m] eqn:Es;
        cbn [bind] in H; [discriminate H|].
      injection H as <-. apply (IH _ _ Es).
    + injection H as <-. apply (sort_record_fatal _ _ _ Er).
Qed.

Lemma sort_records_split recs r :
  In r recs -> KMV.nvalues r < 0 ->
  forall sc, sort_records compare sc recs = Fatal split_message.
Proof.
  intros Hin Hr. induction recs as [|r0 recs IH]; intros sc; [contradiction|].
  cbn [sort_records].
  destruct (sort_record compare sc r0) as [x|m] eqn:Er; cbn [bind].
  - destruct Hin as [->|Hin].
    + rewrite sort_record_split in Er by exact Hr. discriminate Er.
    + rewrite (IH Hin). reflexivity.
  - f_equal. apply (sort_record_fatal _ _ _ Er).
Qed.

Lemma nth_error_replace_other {A : Type} (l : list A) (i j : nat) (x : A) :
  i <> j -> nth_error (KMV.replace_nth l i x) j = nth_error l j.
Proof.
  revert i j. induction l as [|a l IH]; intros i j H; [reflexivity|].
  destruct i, j; cbn [KMV.replace_nth nth_error]; try reflexivity.
  - contradiction.
  - apply IH. intros ->. contradiction.
Qed.

Lemma overwrite_other m ipage recs (j : nat) :
  Z.to_nat ipage <> j ->
  nth_error (KMV.pages (KMV.overwrite_page m ipage recs)) j
  = nth_error (KMV.pages m) j.
Proof.
  intros H. unfold KMV.overwrite_page.
  destruct (nth (Z.to_nat ipage) (KMV.pages m) (KMV.Records [])).
  - cbn [KMV.pages]. apply nth_error_replace_other. exact H.
  - reflexivity.
Qed.

Lemma request_page_records m (ip : nat) l :
  nth_error (KMV.pages m) ip = Some (KMV.Records l) ->
  KMV.request_page m (Z.of_nat ip) = l.
Proof.
  intros H. unfold KMV.request_page. rewrite Nat2Z.id.
  rewrite (nth_error_nth _ _ _ H). reflexivity.
Qed.

Lemma sort_kmv_pages_split (ip : nat) l r :
  In r l -> KMV.nvalues r < 0 ->
  forall (n : nat) (m : KMV.t) (i : nat) sc,
    nth_error (KMV.pages m) ip = Some (KMV.Records l) ->
    (i <= ip < i + n)%nat ->
    sort_kmv_pages n compare m (Z.of_nat i) sc = Fatal split_message.
Proof.
  intros Hin Hr. induction n as [|n IH]; intros m i sc Hp Hi; [lia|].
  cbn [sort_kmv_pages].
  destruct (Nat.eq_dec i ip) as [->|Hne].
  - rewrite (request_page_records _ _ _ Hp).
    rewrite (sort_records_split _ _ Hin Hr). reflexivity.
  - destruct (sort_records compare sc (KMV.request_page m (Z.of_nat i)))
      as [x|msg] eqn:Es; cbn [bind].
    + replace (Z.of_nat i + 1) with (Z.of_nat (S i)) by lia.
      apply IH; [|lia].
      rewrite overwrite_other by (rewrite Nat2Z.id; exact Hne). exact Hp.
    + f_equal. apply (sort_records_fatal _ _ _ Es).
Qed.

Lemma sort_multivalues_rank_split (s : t) (m : KMV.t) :
  kmv s = Some m -> block_split m ->
  sort_multivalues_rank compare s = Fatal split_message.
Proof.
  intros Hm [ip [l [r [Hip [Hp [Hin Hr]]]]]].
  unfold sort_multivalues_rank. rewrite Hm.
  rewrite (sort_kmv_pages_split ip l r Hin Hr _ m 0%nat _ Hp) by lia.
  reflexivity.
Qed.

Lemma sort_multivalues_rank_fatal (s : t) msg :
  has_kmv s -> sort_multivalues_rank compare s = Fatal msg ->
  msg = split_message.
Proof.
  unfold has_kmv, sort_multivalues_rank. intros Hk.
  destruct (kmv s) as [m|]; [|contradiction]. clear Hk.
  generalize (Z.to_nat (KMV.request_info m)) 0 (mkScratch 0 []).
  intros n. revert m. induction n as [|n IH]; intros m i sc H.
  - discriminate H.
  - cbn [sort_kmv_pages bind] in H.
    destruct (sort_records compare sc (KMV.request_page m i)) as [x|m0] eqn:Es;
      cbn [bind] in H.
    + destruct (sort_kmv_pages n compare _ (i + 1) (fst x)) as [m'|m0] eqn:Ep.
      * discriminate H.
      * cbn [bind] in H. injection H as <-.
        apply (IH (KMV.overwrite_page m i (snd x)) (i + 1) (fst x)).
        rewrite Ep. reflexivity.
    + injection H as <-. apply (sort_records_fatal _ _ _ Es).
Qed.

End SplitMultivalues.

Lemma each_from_message (f : Z -> t -> result t) (M : string) :
  forall (g : group) (me : Z),
    (forall s m msg, In s g -> f m s = Fatal msg -> msg = M) ->
    (exists s, In s g /\ forall m, f m s = Fatal M) ->
    each_from f me g = Fatal M.
Proof.
  induction g as [|a g IH]; intros me Hm [s [Hin Hs]]; [contradiction|].
  cbn [each_from]. destruct (f me a) as [a'|msg] eqn:Ea; cbn [bind].
  - destruct Hin as [->|Hin]; [rewrite Hs in Ea; discriminate Ea|].
    rewrite IH; [reflexivity| |].
    + intros s0 m msg H0. apply Hm. now right.
    + exists s. split; [exact Hin|exact Hs].
  - rewrite (Hm a me msg); [reflexivity|now left|exact Ea].
Qed.

(** C10.  [sort_multivalues] aborts on a block-split record.  The test of
    the stored [nvalues] is the first thing done with a record: for a
    negative [nvalues] the step on that record is the fatal error, whatever
    the state of the work arrays, and nothing of the record is sorted or
    written.  So a rank whose KeyMultiValue holds such a record on a page
    the scan visits ends in that error, and so does the operator on a
    group (of ranks that all hold a KeyMultiValue) in which some rank
    does; no sorted KeyMultiValue is returned. *)
Theorem sort_multivalues_aborts {E : Externals} (compare : comparison) :
  (forall sc r, KMV.nvalues r < 0 ->
     sort_record compare sc r = Fatal split_message)
  /\ (forall s m, kmv s = Some m -> block_split m ->
        sort_multivalues_rank compare s = Fatal split_message)
  /\ (forall g, Forall has_kmv g ->
        Exists (fun s => exists m, kmv s = Some m /\ block_split m) g ->
        run (Sort_multivalues compare) g = Fatal split_message).
Proof.
  split; [|split].
  - intros sc r. apply sort_record_split.
  - intros s m. apply sort_multivalues_rank_split.
  - intros g Hk Hex. cbn [run]. unfold sort_multivalues, each.
    rewrite (each_from_message _ split_message); [reflexivity| |].
    + intros s m msg Hin Hf. rewrite Forall_forall in Hk.
      apply (sort_multivalues_rank_fatal compare s msg (Hk s Hin) Hf).
    + apply Exists_exists in Hex. destruct Hex as [s [Hin [m [Hm Hb]]]].
      exists s. split; [exact Hin|]. intros _.
      apply (sort_multivalues_rank_split compare s m Hm Hb).
Qed.

(** A KeyMultiValue of two pages: a record of two values, then a record
    whose multivalue is split over two blocks, and the blocks. *)
Definition compare_first (a b : list Z) : Z := hd 0 a - hd 0 b.

Definition split_kmv : KMV.t :=
  KMV.mk 2
    [KMV.Records [KMV.mkRecord 1 2 2 [1; 1] [7] [5; 3]];
     KMV.Records [KMV.mkRecord 1 0 (-2) [] [8] []];
     KMV.Block [1; 1] [4; 2];
     KMV.Block [1] [9]].

Lemma sort_multivalues_aborts_witness :
  run (E := Reference.externals) (Sort_multivalues compare_first)
      [set_kmv new (Some split_kmv)]
  = Fatal split_message.
Proof.
  apply (proj2 (proj2 (sort_multivalues_aborts (E := Reference.externals)
                         compare_first))).
  - repeat constructor. unfold has_kmv. discriminate.
  - constructor. exists split_kmv. split; [reflexivity|].
    exists 1%nat, [KMV.mkRecord 1 0 (-2) [] [8] []],
      (KMV.mkRecord 1 0 (-2) [] [8] []).
    split; [vm_compute; lia|]. split; [reflexivity|].
    split; [now left|]. cbn [KMV.nvalues]. lia.
Defined.

(** ** [collate] against [aggregate] followed by [convert]

    [mute] forgets what [collate] sets aside while it runs the two
    operators: the verbosity, the timer setting and the printed output.
    Everything else of the engine is data. *)
Definition mute (s : t) : t :=
  mk (mapstyle s) 0 0 (memsize s) (keyalign s) (valuealign s) (allocated s)
     (kalign s) (valign s) (talign s) (memquarter s) (memhalf s) (memtoggle s)
     (kv s) (kmv s) [].

Definition rmap {A B : Type} (f : A -> B) (r : result A) : result B :=
  match r with Ok a => Ok (f a) | Fatal msg => Fatal msg end.

Lemma rmap_ok {A B : Type} (f : A -> B) (r : result A) (b : B) :
  rmap f r = Ok b -> exists a, r = Ok a /\ f a = b.
Proof. destruct r as [a|]; [|discriminate]. intros H. injection H as <-. now exists a. Qed.

Lemma mute_kv s s' : mute s = mute s' -> kv s = kv s'.
Proof. intros H. apply (f_equal kv) in H. exact H. Qed.

Lemma mute_kmv s s' : mute s = mute s' -> kmv s = kmv s'.
Proof. intros H. apply (f_equal kmv) in H. exact H. Qed.

Lemma map_mute_kv g g' :
  List.map mute g = List.map mute g' -> List.map kv g = List.map kv g'.
Proof.
  intros H. apply (f_equal (List.map kv)) in H. rewrite !map_map in H. exact H.
Qed.

Lemma map_mute_kmv g g' :
  List.map mute g = List.map mute g' -> List.map kmv g = List.map kmv g'.
Proof.
  intros H. apply (f_equal (List.map kmv)) in H. rewrite !map_map in H. exact H.
Qed.

Lemma map_mute_length g g' :
  List.map mute g = List.map mute g' -> length g = length g'.
Proof.
  intros H. apply (f_equal (@length t)) in H. rewrite !length_map in H. exact H.
Qed.

Lemma nkeyall_kmv_mute g g' :
  List.map mute g = List.map mute g' -> nkeyall_kmv g = nkeyall_kmv g'.
Proof.
  intros H. unfold nkeyall_kmv. f_equal.
  apply (f_equal (List.map nkmv_of)) in H. rewrite !map_map in H. exact H.
Qed.

(** A rank-local step that treats the muted engine as it treats the
    engine. *)
Definition data_only (f : Z -> t -> result t) : Prop :=
  forall me s, f me (mute s) = rmap mute (f me s).

Lemma each_from_mute (f : Z -> t -> result t) :
  data_only f ->
  forall g me, each_from f me (List.map mute g)
               = rmap (List.map mute) (each_from f me g).
Proof.
  intros Hf. induction g as [|a g IH]; intros me; [reflexivity|].
  cbn [List.map each_from]. rewrite Hf, IH.
  destruct (f me a); [|reflexivity]. cbn [rmap bind].
  destruct (each_from f (me + 1) g); reflexivity.
Qed.

Lemma each_mute (f : Z -> Z -> t -> result t) (g : group) :
  (forall n, data_only (fun me => f me n)) ->
  each f (List.map mute g) = rmap (List.map mute) (each f g).
Proof.
  intros Hf. unfold each. rewrite length_map.
  apply (each_from_mute _ (Hf _)).
Qed.

(** Two groups with the same data get the same data from [each]. *)
Lemma each_same_data (f : Z -> Z -> t -> result t) (g g' g1 : group) :
  (forall n, data_only (fun me => f me n)) ->
  List.map mute g = List.map mute g' ->
  each f g = Ok g1 ->
  exists g1', each f g' = Ok g1' /\ List.map mute g1' = List.map mute g1.
Proof.
  intros Hf Hm H1.
  pose proof (each_mute f g Hf) as A. pose proof (each_mute f g' Hf) as B.
  rewrite Hm, B, H1 in A. cbn [rmap] in A.
  apply rmap_ok in A. exact A.
Qed.

(** [stats] only prints, and it goes through when every rank holds the
    container it reports on. *)
Lemma stats_rank_mute heading which a b me s s' :
  stats_rank heading which a b me s = Ok s' -> mute s' = mute s.
Proof.
  unfold stats_rank. intros H.
  set (s1 := if ((timer s =? 1) || (timer s =? 2)) && (me =? 0)
             then print s (TimeLine heading) else s) in H.
  assert (H1 : mute s1 = mute s).
  { subst s1. destruct (((timer s =? 1) || (timer s =? 2)) && (me =? 0));
      reflexivity. }
  destruct (verbosity s1 =? 0); [injection H as <-; exact H1|].
  set (s2 := if me =? 0 then print s1 (StatsHead heading) else s1) in H.
  assert (H2 : mute s2 = mute s).
  { subst s2. destruct (me =? 0); exact H1. }
  destruct (negb _); [discriminate H|].
  injection H as <-.
  destruct ((verbosity s =? 2) && (me =? 0)), (me =? 0); exact H2.
Qed.

Lemma stats_mute heading which g g' :
  stats heading which g = Ok g' -> List.map mute g' = List.map mute g.
Proof.
  intros H. apply each_Forall2 in H.
  induction H as [|s s' l l' [me [n Hs]] _ IH]; [reflexivity|].
  cbn [List.map]. rewrite IH. f_equal. apply (stats_rank_mute _ _ _ _ _ _ _ Hs).
Qed.

Lemma stats_rank_total heading which a b me s :
  (if which =? 0 then has_kv s else has_kmv s) ->
  exists s', stats_rank heading which a b me s = Ok s'.
Proof.
  intros H. unfold stats_rank.
  set (s1 := if ((timer s =? 1) || (timer s =? 2)) && (me =? 0)
             then print s (TimeLine heading) else s).
  destruct (verbosity s1 =? 0); [eexists; reflexivity|].
  set (s2 := if me =? 0 then print s1 (StatsHead heading) else s1).
  assert (H2 : kv s2 = kv s /\ kmv s2 = kmv s).
  { subst s2 s1. destruct (me =? 0);
      destruct (((timer s =? 1) || (timer s =? 2)) && _); split; reflexivity. }
  destruct H2 as [Hk Hm]. rewrite Hk, Hm.
  unfold has_kv, has_kmv in H.
  destruct (which =? 0).
  - destruct (kv s); [|contradiction]. cbn [negb]. eexists; reflexivity.
  - destruct (kmv s); [|contradiction]. cbn [negb]. eexists; reflexivity.
Qed.

Lemma each_from_total (f : Z -> t -> result t) (P : t -> Prop) :
  (forall me s, P s -> exists s', f me s = Ok s') ->
  forall g me, Forall P g -> exists g', each_from f me g = Ok g'.
Proof.
  intros Hf. induction g as [|a g IH]; intros me HP; [eexists; reflexivity|].
  inversion HP as [|? ? Ha Hg]; subst. cbn [each_from].
  destruct (Hf me a Ha) as [a' ->]. destruct (IH (me + 1) Hg) as [g' ->].
  eexists; reflexivity.
Qed.

Lemma stats_total heading which g :
  Forall (fun s => if which =? 0 then has_kv s else has_kmv s) g ->
  exists g', stats heading which g = Ok g'.
Proof.
  intros H. unfold stats, each.
  apply (each_from_total _ _ (fun me s => stats_rank_total _ _ _ _ me s) g 0 H).
Qed.

Section Collate.
Context {E : Externals}.
Variable hash : option (list Z -> Z).

(** The guard of an operator that needs a KeyValue. *)
Lemma require_each_ok msg (g g0 : group) :
  each (fun _ _ => require_kv msg) g = Ok g0 -> g0 = g /\ Forall has_kv g.
Proof.
  intros H. apply each_Forall2 in H.
  induction H as [|s s' l l' [me [n Hs]] _ [IH1 IH2]]; [split; constructor|].
  unfold require_kv in Hs. destruct (kv s) eqn:Ek; [|discriminate Hs].
  injection Hs as <-. subst l'. split; [reflexivity|].
  constructor; [|exact IH2]. unfold has_kv. rewrite Ek. discriminate.
Qed.

Lemma require_each msg (g : group) :
  Forall has_kv g -> each (fun _ _ => require_kv msg) g = Ok g.
Proof.
  intros H. unfold each. apply each_from_same. intros s m Hs.
  rewrite Forall_forall in H. specialize (H s Hs).
  unfold require_kv, has_kv in *. destruct (kv s); [reflexivity|contradiction].
Qed.

(** [aggregate] between its guard and its call of [stats]. *)
Definition aggregate_core (g0 : group) : result group :=
  if Z.of_nat (length g0) =? 1 then Ok g0
  else
    let maxpage :=
      allreduce_max
        (List.map (fun s => match kv s with
                            | Some k => KV.request_info k | None => 0 end) g0) in
    kvnew <- exchange_pages hash g0 0 (Z.to_nat maxpage) (List.map new_kv g0) ;;
    Ok (List.map (fun sk => install (fst sk) (snd sk)) (combine g0 kvnew)).

Lemma aggregate_split g r g2 :
  aggregate hash g = Ok (r, g2) ->
  exists g0 g1,
    each (fun _ _ => require_kv "Cannot aggregate without KeyValue") g = Ok g0
    /\ aggregate_core g0 = Ok g1 /\ stats "Aggregate" 0 g1 = Ok g2.
Proof.
  unfold aggregate, aggregate_core. intros H.
  apply bind_ok in H. destruct H as [g0 [E0 H]]. exists g0.
  destruct (Z.of_nat (length g0) =? 1).
  - apply bind_ok in H. destruct H as [g1 [E1 H]]. injection H as _ <-.
    exists g0. repeat split; assumption.
  - cbv zeta in *. apply bind_ok in H. destruct H as [kvnew [Ek H]].
    apply bind_ok in H. destruct H as [g2' [E2 H]]. injection H as _ <-.
    eexists. rewrite Ek. cbn [bind]. repeat split; [exact E0|exact E2].
Qed.

Lemma aggregate_join g g0 g1 g2 :
  each (fun _ _ => require_kv "Cannot aggregate without KeyValue") g = Ok g0 ->
  aggregate_core g0 = Ok g1 -> stats "Aggregate" 0 g1 = Ok g2 ->
  exists r, aggregate hash g = Ok (r, g2).
Proof.
  unfold aggregate, aggregate_core. intros E0 E1 E2. rewrite E0. cbn [bind].
  destruct (Z.of_nat (length g0) =? 1).
  - injection E1 as <-. rewrite E2. eexists; reflexivity.
  - cbv zeta in *. apply bind_ok in E1. destruct E1 as [kvnew [Ek E1]].
    injection E1 as <-. rewrite Ek. cbn [bind]. rewrite E2.
    eexists; reflexivity.
Qed.

Lemma exchange_pages_mute g :
  forall n ipage kvnew,
    exchange_pages hash (List.map mute g) ipage n kvnew
    = exchange_pages hash g ipage n kvnew.
Proof.
  induction n as [|n IH]; intros ipage kvnew; [reflexivity|].
  cbn [exchange_pages]. cbv zeta. rewrite length_map, map_map.
  destruct (receive kvnew _); [|reflexivity]. cbn [bind]. apply IH.
Qed.

Lemma install_mute g :
  forall kvnew,
    List.map (fun sk => install (fst sk) (snd sk)) (combine (List.map mute g) kvnew)
    = List.map mute
        (List.map (fun sk => install (fst sk) (snd sk)) (combine g kvnew)).
Proof.
  induction g as [|s g IH]; intros kvnew; [reflexivity|].
  destruct kvnew as [|k kvnew]; [reflexivity|].
  cbn [List.map combine fst snd]. rewrite IH. reflexivity.
Qed.

Lemma aggregate_core_mute g :
  aggregate_core (List.map mute g) = rmap (List.map mute) (aggregate_core g).
Proof.
  unfold aggregate_core. rewrite length_map.
  destruct (Z.of_nat (length g) =? 1); [reflexivity|].
  cbv zeta. rewrite !map_map. rewrite exchange_pages_mute.
  change (List.map (fun x => new_kv (mute x)) g) with (List.map new_kv g).
  change (List.map (fun x => match kv (mute x) with
                             | Some k => KV.request_info k | None => 0 end) g)
    with (List.map (fun s => match kv s with
                             | Some k => KV.request_info k | None => 0 end) g).
  destruct (exchange_pages hash g 0 _ _) as [kvnew|]; [|reflexivity].
  cbn [bind rmap]. now rewrite install_mute.
Qed.

Lemma aggregate_core_same_data g g' g1 :
  List.map mute g = List.map mute g' -> aggregate_core g = Ok g1 ->
  exists g1', aggregate_core g' = Ok g1'
              /\ List.map mute g1' = List.map mute g1.
Proof.
  intros Hm H1.
  pose proof (aggregate_core_mute g) as A.
  pose proof (aggregate_core_mute g') as B.
  rewrite Hm, B, H1 in A. cbn [rmap] in A. apply rmap_ok in A. exact A.
Qed.

Lemma aggregate_core_has_kv g0 g1 :
  Forall has_kv g0 -> aggregate_core g0 = Ok g1 ->
  Forall has_kv g1 /\ (length g1 <= length g0)%nat.
Proof.
  unfold aggregate_core. intros H0 H.
  destruct (Z.of_nat (length g0) =? 1).
  - injection H as <-. split; [exact H0|lia].
  - cbv zeta in H. apply bind_ok in H. destruct H as [kvnew [_ H]].
    injection H as <-. split.
    + apply Forall_forall. intros s Hs. apply in_map_iff in Hs.
      destruct Hs as [[s0 k] [<- _]]. unfold has_kv. discriminate.
    + rewrite length_map, length_combine. lia.
Qed.

(** [convert], rank by rank, is a function of the data. *)
Lemma convert_rank_data_only : data_only (fun _ : Z => convert_rank).
Proof.
  intros me s. unfold convert_rank.
  change (kv (mute s)) with (kv s). destruct (kv s) as [k|]; [|reflexivity].
  change (memquarter (mute s)) with (memquarter s).
  change (memhalf (mute s)) with (memhalf s).
  destruct (kmv_convert k (memquarter s) (memhalf s)); reflexivity.
Qed.

Lemma restore_mute hold g :
  (length g <= length hold)%nat ->
  List.map mute (restore hold g) = List.map mute g.
Proof.
  unfold restore. revert g. induction hold as [|h hold IH]; intros g H.
  - destruct g; [reflexivity|cbn [length] in H; lia].
  - destruct g as [|s g]; [reflexivity|].
    cbn [combine List.map fst snd]. rewrite IH by (cbn [length] in H; lia).
    reflexivity.
Qed.

Lemma quiet_mute g :
  List.map mute (List.map (fun s => set_verbose s 0 0) g) = List.map mute g.
Proof. rewrite map_map. reflexivity. Qed.

Lemma quiet_silent g : Forall silent (List.map (fun s => set_verbose s 0 0) g).
Proof.
  apply Forall_forall. intros s Hs. apply in_map_iff in Hs.
  destruct Hs as [s0 [<- _]]. split; reflexivity.
Qed.

Lemma has_kv_mute g g' :
  List.map mute g = List.map mute g' -> Forall has_kv g -> Forall has_kv g'.
Proof.
  intros Hm H. apply map_mute_kv in Hm.
  revert g' Hm. induction H as [|s g Hs _ IH]; intros g' Hm.
  - destruct g'; [constructor|discriminate Hm].
  - destruct g' as [|s' g']; [discriminate Hm|].
    cbn [List.map] in Hm. injection Hm as H1 H2.
    constructor; [|apply IH, H2]. unfold has_kv in *. now rewrite <- H1.
Qed.

Lemma has_kmv_mute g g' :
  List.map mute g = List.map mute g' -> Forall has_kmv g -> Forall has_kmv g'.
Proof.
  intros Hm H. apply map_mute_kmv in Hm.
  revert g' Hm. induction H as [|s g Hs _ IH]; intros g' Hm.
  - destruct g'; [constructor|discriminate Hm].
  - destruct g' as [|s' g']; [discriminate Hm|].
    cbn [List.map] in Hm. injection Hm as H1 H2.
    constructor; [|apply IH, H2]. unfold has_kmv in *. now rewrite <- H1.
Qed.

End Collate.

Section CollateTheorem.
Context {E : Externals}.
Variable hash : option (list Z -> Z).

Lemma convert_split g r g2 :
  convert g = Ok (r, g2) ->
  exists g1, each (fun _ _ => convert_rank) g = Ok g1
             /\ stats "Convert" 1 g1 = Ok g2 /\ r = nkeyall_kmv g2.
Proof.
  unfold convert. intros H. apply bind_ok in H. destruct H as [g1 [E1 H]].
  apply bind_ok in H. destruct H as [g2' [E2 H]]. injection H as <- <-.
  exists g1. repeat split; assumption.
Qed.

Lemma convert_join g g1 g2 :
  each (fun _ _ => convert_rank) g = Ok g1 -> stats "Convert" 1 g1 = Ok g2 ->
  convert g = Ok (nkeyall_kmv g2, g2).
Proof. unfold convert. intros -> H. cbn [bind]. rewrite H. reflexivity. Qed.

(** [aggregate] then [convert] on a group with the data of [g], when they
    succeed on [g]: they succeed, with the same data. *)
Lemma aggregate_convert_same_data g g' ra ga rc gc :
  List.map mute g = List.map mute g' ->
  aggregate hash g = Ok (ra, ga) -> convert ga = Ok (rc, gc) ->
  exists ra' ga' gc',
    aggregate hash g' = Ok (ra', ga') /\ convert ga' = Ok (rc, gc')
    /\ List.map mute gc' = List.map mute gc
    /\ (length gc' <= length g')%nat.
Proof.
  intros Hm Ha Hc.
  apply aggregate_split in Ha. destruct Ha as [g0 [c1 [E0 [E1 E2]]]].
  apply require_each_ok in E0. destruct E0 as [-> Hk].
  assert (Hk' : Forall has_kv g') by (apply (has_kv_mute g g' Hm Hk)).
  destruct (aggregate_core_same_data hash g g' c1 Hm E1) as [c1' [E1' M1]].
  destruct (aggregate_core_has_kv hash g' c1' Hk' E1') as [Hc1 L1].
  destruct (stats_total "Aggregate" 0 c1' Hc1) as [ga' E2'].
  destruct (aggregate_join hash g' g' c1' ga' (require_each _ g' Hk') E1' E2')
    as [ra' Ha'].
  assert (M2 : List.map mute ga = List.map mute ga').
  { rewrite (stats_mute _ _ _ _ E2), (stats_mute _ _ _ _ E2'). now symmetry. }
  apply convert_split in Hc. destruct Hc as [d1 [D1 [D2 ->]]].
  destruct (each_same_data (fun _ _ => convert_rank) ga ga' d1
              (fun _ => convert_rank_data_only) M2 D1) as [d1' [D1' M3]].
  assert (Hd : Forall has_kmv d1').
  { apply (each_all _ _ _ _ D1'). intros me n s s'. apply convert_rank_has. }
  destruct (stats_total "Convert" 1 d1' Hd) as [gc' D2'].
  assert (M4 : List.map mute gc' = List.map mute gc).
  { rewrite (stats_mute _ _ _ _ D2), (stats_mute _ _ _ _ D2'). exact M3. }
  exists ra', ga', gc'. split; [exact Ha'|]. split; [|split; [exact M4|]].
  - rewrite (convert_join _ _ _ D1' D2'). f_equal. f_equal.
    apply nkeyall_kmv_mute. exact M4.
  - rewrite (stats_length _ _ _ _ D2'), (each_length _ _ _ D1'),
      (stats_length _ _ _ _ E2'). exact L1.
Qed.

(** C2.  [collate(hash)] against [aggregate(hash)] followed by
    [convert()], from the same group.  If [collate] returns, so do the two
    operators in sequence, and conversely; the value returned is that of
    [convert], and on every rank the KeyMultiValue [collate] leaves is the
    one [convert] leaves, page for page and record for record (and no rank
    is left with a KeyValue).  What differs is what is printed. *)
Theorem collate_is_aggregate_convert (g : group) :
  (forall r g3,
     collate hash g = Ok (r, g3) ->
     exists ra ga gc,
       aggregate hash g = Ok (ra, ga) /\ convert ga = Ok (r, gc)
       /\ List.map kmv g3 = List.map kmv gc
       /\ List.map kv g3 = List.map kv gc)
  /\ (forall ra ga r gc,
        aggregate hash g = Ok (ra, ga) -> convert ga = Ok (r, gc) ->
        exists g3,
          collate hash g = Ok (r, g3)
          /\ List.map kmv g3 = List.map kmv gc
          /\ List.map kv g3 = List.map kv gc).
Proof.
  split.
  - intros r g3 H. unfold collate in H.
    apply bind_ok in H. destruct H as [g0 [E0 H]].
    apply require_each_ok in E0. destruct E0 as [-> Hk]. cbv zeta in H.
    apply bind_ok in H. destruct H as [[r1 q2] [Ea H]].
    apply bind_ok in H. destruct H as [[r2 c2] [Ec H]]. cbn [snd] in Ec, H.
    apply bind_ok in H. destruct H as [g3' [E3 H]]. injection H as <- <-.
    destruct (aggregate_convert_same_data _ g r1 q2 r2 c2 (quiet_mute g) Ea Ec)
      as [ra [ga [gc [Ha [Hc [M L]]]]]].
    assert (M3 : List.map mute g3' = List.map mute gc).
    { rewrite (stats_mute _ _ _ _ E3), restore_mute; [now symmetry|].
      rewrite <- (map_mute_length _ _ M). exact L. }
    exists ra, ga, gc. split; [exact Ha|]. split; [|split].
    + rewrite Hc. f_equal. f_equal.
      destruct (convert_returns _ _ _ Ec) as [_ ->].
      apply nkeyall_kmv_mute. rewrite M3. symmetry. exact M.
    + apply map_mute_kmv, M3.
    + apply map_mute_kv, M3.
  - intros ra ga r gc Ha Hc.
    assert (Hk : Forall has_kv g).
    { pose proof Ha as Ha'. apply aggregate_split in Ha'.
      destruct Ha' as [g0 [c1 [E0 _]]]. apply require_each_ok in E0. apply E0. }
    assert (Mq : List.map mute g
                 = List.map mute (List.map (fun s => set_verbose s 0 0) g))
      by (symmetry; apply quiet_mute).
    destruct (aggregate_convert_same_data g _ ra ga r gc Mq Ha Hc)
      as [r1 [q2 [c2 [Ea [Ec [M L]]]]]].
    rewrite length_map in L.
    assert (Hm : Forall has_kmv (restore g c2)).
    { apply restore_has_kmv. apply (convert_returns _ _ _ Ec). }
    destruct (stats_total "Collate" 1 (restore g c2) Hm) as [g3 E3].
    assert (M3 : List.map mute g3 = List.map mute gc).
    { rewrite (stats_mute _ _ _ _ E3), restore_mute by exact L. exact M. }
    exists g3. split; [|split].
    + unfold collate. rewrite (require_each _ g Hk). cbn [bind]. cbv zeta.
      rewrite Ea. cbn [bind snd]. rewrite Ec. cbn [bind snd]. rewrite E3.
      cbn [bind]. f_equal. f_equal.
      destruct (convert_returns _ _ _ Hc) as [_ ->].
      apply nkeyall_kmv_mute. exact M3.
    + apply map_mute_kmv, M3.
    + apply map_mute_kv, M3.
Qed.

End CollateTheorem.

(** Five pairs, keyed by the parity of the task, mapped on two ranks and
    collated: rank 0 ends with key 0 and its three values, rank 1 with key
    1 and its two values, as after [aggregate] and [convert]. *)
Definition emit_parity (itask : Z) (k : KV.t) : result KV.t :=
  KV.add k (mkEntry [itask mod 2] [itask]).

Definition mapped : group :=
  Eval vm_compute in
    match run (E := Reference.externals) (Map 5 emit_parity 0) two_ranks with
    | Ok (_, g') => g'
    | Fatal _ => []
    end.

Lemma collate_is_aggregate_convert_witness :
  exists g3 ra ga gc,
    collate (E := Reference.externals) None mapped = Ok (2, g3)
    /\ aggregate (E := Reference.externals) None mapped = Ok (ra, ga)
    /\ convert (E := Reference.externals) ga = Ok (2, gc)
    /\ List.map kmv g3 = List.map kmv gc
    /\ List.map (fun s => option_map KMV.pages (kmv s)) g3
       = [Some [KMV.Records [KMV.mkRecord 1 3 3 [1; 1; 1] [0] [0; 2; 4]]];
          Some [KMV.Records [KMV.mkRecord 1 2 2 [1; 1] [1] [1; 3]]]].
Proof.
  destruct (collate (E := Reference.externals) None mapped)
    as [[r g3]|msg] eqn:Hc; [|vm_compute in Hc; discriminate Hc].
  destruct (proj1 (collate_is_aggregate_convert (E := Reference.externals)
                     None mapped) r g3 Hc)
    as [ra [ga [gc [Ha [Hv [Hm _]]]]]].
  vm_compute in Hc. injection Hc as <- <-.
  eexists _, ra, ga, gc. split; [reflexivity|].
  split; [exact Ha|]. split; [exact Hv|]. split; [exact Hm|reflexivity].
Defined.

(** ** Sorting a KeyValue

    What the proofs ask of the comparison function: a total preorder read
    off the sign of its result.  [by_field compare flag a b]: record [a]
    does not come after record [b]. *)
Record total_order (compare : comparison) : Prop := {
  cmp_flip : forall a b, 0 <= compare a b -> compare b a <= 0;
  cmp_trans : forall a b c,
      compare a b <= 0 -> compare b c <= 0 -> compare a c <= 0
}.

Definition by_field (compare : comparison) (flag : Z) (a b : entry) : Prop :=
  compare (extract flag a) (extract flag b) <= 0.

(** What they ask of [qsort]: for a comparison of array elements that is a
    total preorder, the result is a rearrangement of the array that is in
    order. *)
Definition sorts (q : (Z -> Z -> Z) -> list Z -> list Z) : Prop :=
  forall (c : Z -> Z -> Z) (l : list Z),
    (forall i j, 0 <= c i j -> c j i <= 0) ->
    (forall i j k, c i j <= 0 -> c j k <= 0 -> c i k <= 0) ->
    Permutation l (q c l) /\ StronglySorted (fun i j => c i j <= 0) (q c l).

(** And of [Spool]: records that each fit a page of the spool ([size]
    bytes) come back in the order written, on pages none of which is
    empty.  [sz] is the size of a record as the sort passes it to
    [Spool::add], the one its scan computes with the alignments of the
    rank.  Nothing is asked for a record that is larger than the page. *)
Definition paged (sz : entry -> Z)
    (sp : Z -> list entry -> list (list entry)) : Prop :=
  forall (size : Z) (l : list entry),
    Forall (fun e => sz e <= size) l ->
    concat (sp size l) = l /\ Forall (fun p => p <> []) (sp size l).

Section SortPage.
Context {E : Externals}.
Variable compare : comparison.
Variable flag : Z.
Hypothesis order_ok : total_order compare.
Hypothesis qsort_ok : sorts qsort.

Lemma by_field_trans a b c :
  by_field compare flag a b -> by_field compare flag b c ->
  by_field compare flag a c.
Proof. unfold by_field. apply (cmp_trans _ order_ok). Qed.

Lemma map_nth_seq (page : list entry) :
  List.map (fun j => nth (Z.to_nat j) page stale)
           (List.map Z.of_nat (seq 0 (length page)))
  = page.
Proof.
  rewrite map_map.
  erewrite map_ext; [|intros j; rewrite Nat2Z.id; reflexivity].
  induction page as [|a page IH]; [reflexivity|].
  cbn [length seq List.map nth]. f_equal.
  rewrite <- seq_shift, map_map. exact IH.
Qed.

Lemma StronglySorted_map {A B : Type} (R : A -> A -> Prop) (S : B -> B -> Prop)
    (f : A -> B) (l : list A) :
  (forall x y, R x y -> S (f x) (f y)) ->
  StronglySorted R l -> StronglySorted S (List.map f l).
Proof.
  intros H. induction 1 as [|a l Hl IH Ha]; cbn [List.map]; constructor.
  - exact IH.
  - apply Forall_forall. intros y Hy. apply in_map_iff in Hy.
    destruct Hy as [x [<- Hx]]. apply H. rewrite Forall_forall in Ha.
    apply Ha, Hx.
Qed.

(** The index sort of one page. *)
Lemma sort_page_spec (page : list entry) :
  Permutation page (sort_page compare flag page)
  /\ StronglySorted (by_field compare flag) (sort_page compare flag page).
Proof.
  unfold sort_page.
  destruct (qsort_ok (compare_wrapper compare flag page)
                     (List.map Z.of_nat (seq 0 (length page)))) as [Hp Hs].
  - intros i j. unfold compare_wrapper. apply (cmp_flip _ order_ok).
  - intros i j k. unfold compare_wrapper. apply (cmp_trans _ order_ok).
  - split.
    + rewrite <- (map_nth_seq page) at 1. apply Permutation_map. exact Hp.
    + apply (StronglySorted_map
               (fun i j => compare_wrapper compare flag page i j <= 0)
               (by_field compare flag)
               (fun j => nth (Z.to_nat j) page stale)); [|exact Hs].
      intros x y H. exact H.
Qed.

Lemma sort_page_nonempty (page : list entry) :
  page <> [] -> sort_page compare flag page <> [].
Proof.
  intros H Hc. destruct (sort_page_spec page) as [Hp _].
  rewrite Hc in Hp. apply Permutation_sym, Permutation_nil in Hp.
  contradiction.
Qed.

End SortPage.

(** *** Reading a spool through a cursor

    [rest pages c]: the records of the source from the current one on.  A
    cursor is [live] when it stands on a record of a page of the source. *)
Definition rest (pages : list (list entry)) (c : cursor) : list entry :=
  skipn (Z.to_nat (ientry c)) (page c)
  ++ concat (skipn (S (Z.to_nat (ipage c))) pages).

Record live (pages : list (list entry)) (c : cursor) : Prop := {
  live_page : page c = nth (Z.to_nat (ipage c)) pages [];
  live_nentry : nentry c = Z.of_nat (length (page c));
  live_ipage : 0 <= ipage c < Z.of_nat (length pages);
  live_ientry : 0 <= ientry c < nentry c
}.

Lemma skipn_nth {A : Type} (l : list A) (k : nat) (d : A) :
  (k < length l)%nat -> skipn k l = nth k l d :: skipn (S k) l.
Proof.
  revert k. induction l as [|a l IH]; intros k H; [cbn [length] in H; lia|].
  destruct k as [|k]; [reflexivity|].
  cbn [skipn nth]. rewrite (IH k) by (cbn [length] in H; lia). reflexivity.
Qed.

Lemma nth_nonempty (pages : list (list entry)) (k : nat) :
  Forall (fun p => p <> []) pages -> (k < length pages)%nat ->
  nth k pages [] <> [].
Proof.
  intros H Hk. rewrite Forall_forall in H. apply H. apply nth_In. exact Hk.
Qed.

Lemma load_live (pages : list (list entry)) (ip : Z) :
  Forall (fun p => p <> []) pages -> 0 <= ip < Z.of_nat (length pages) ->
  live pages (load pages ip)
  /\ rest pages (load pages ip) = concat (skipn (Z.to_nat ip) pages).
Proof.
  intros Hne Hip. unfold load, rest. cbn [ientry page ipage nentry].
  pose proof (nth_nonempty pages (Z.to_nat ip) Hne ltac:(lia)) as Hp.
  split.
  - constructor; cbn [ientry page ipage nentry]; try reflexivity; try lia.
    destruct (nth (Z.to_nat ip) pages []); [contradiction|].
    cbn [length]. lia.
  - change (Z.to_nat 0) with O. cbn [skipn].
    rewrite (skipn_nth pages (Z.to_nat ip) []) by lia. reflexivity.
Qed.

Lemma live_rest (pages : list (list entry)) (c : cursor) :
  live pages c ->
  rest pages c
  = current c :: skipn (S (Z.to_nat (ientry c))) (page c)
                 ++ concat (skipn (S (Z.to_nat (ipage c))) pages).
Proof.
  intros [Hp Hn Hi He]. unfold rest, current.
  rewrite (skipn_nth (page c) (Z.to_nat (ientry c)) stale) by lia.
  reflexivity.
Qed.

(** One step of a live cursor: the current record is consumed, and the
    cursor is live again or the source is through. *)
Lemma advance_spec (pages : list (list entry)) (c : cursor) :
  Forall (fun p => p <> []) pages -> live pages c ->
  rest pages c = current c :: rest pages (fst (advance pages c))
  /\ (snd (advance pages c) = false -> live pages (fst (advance pages c)))
  /\ (snd (advance pages c) = true -> rest pages (fst (advance pages c)) = []).
Proof.
  intros Hne Hl. rewrite (live_rest pages c Hl).
  destruct Hl as [Hp Hn Hi He]. unfold advance.
  destruct (Z.eqb_spec (ientry c + 1) (nentry c)) as [Hlast|Hmore].
  - assert (Hs : skipn (S (Z.to_nat (ientry c))) (page c) = []).
    { apply skipn_all2. lia. }
    rewrite Hs. cbn [app].
    destruct (Z.ltb_spec (ipage c + 1) (Z.of_nat (length pages))) as [Hnext|Hend].
    + cbn [fst snd].
      destruct (load_live pages (ipage c + 1) Hne ltac:(lia)) as [L R].
      rewrite R. replace (Z.to_nat (ipage c + 1)) with (S (Z.to_nat (ipage c))) by lia.
      split; [reflexivity|]. split; [intros _; exact L|discriminate].
    + cbn [fst snd]. unfold rest. cbn [ientry page ipage].
      replace (Z.to_nat (ientry c + 1)) with (S (Z.to_nat (ientry c))) by lia.
      rewrite Hs, !skipn_all2 by lia. cbn [concat app].
      split; [reflexivity|]. split; [discriminate|reflexivity].
  - cbn [fst snd]. unfold rest at 1. cbn [ientry page ipage].
    replace (Z.to_nat (ientry c + 1)) with (S (Z.to_nat (ientry c))) by lia.
    split; [reflexivity|]. split; [|discriminate]. intros _.
    constructor; cbn [ientry page ipage nentry]; try assumption. lia.
Qed.

(** *** The merge of two sorted spools *)

Lemma sorted_app {A : Type} (R : A -> A -> Prop) (l1 l2 : list A) :
  StronglySorted R (l1 ++ l2) <->
  StronglySorted R l1 /\ StronglySorted R l2
  /\ (forall x y, In x l1 -> In y l2 -> R x y).
Proof.
  induction l1 as [|a l1 IH]; cbn [app].
  - split.
    + intros H. split; [constructor|]. split; [exact H|]. intros x y [].
    + intros [_ [H _]]. exact H.
  - split.
    + intros H. apply StronglySorted_inv in H. destruct H as [H Ha].
      apply IH in H. destruct H as [H1 [H2 H3]].
      rewrite Forall_forall in Ha. split; [|split; [exact H2|]].
      * constructor; [exact H1|]. apply Forall_forall. intros y Hy.
        apply Ha, in_or_app. now left.
      * intros x y [<-|Hx] Hy; [apply Ha, in_or_app; now right|].
        apply H3; assumption.
    + intros [H1 [H2 H3]]. apply StronglySorted_inv in H1.
      destruct H1 as [H1 Ha]. rewrite Forall_forall in Ha. constructor.
      * apply IH. split; [exact H1|]. split; [exact H2|].
        intros x y Hx Hy. apply H3; [now right|exact Hy].
      * apply Forall_forall. intros y Hy. apply in_app_or in Hy.
        destruct Hy as [Hy|Hy]; [apply Ha, Hy|apply H3; [now left|exact Hy]].
Qed.

Section Merge.
Context {E : Externals}.
Variable compare : comparison.
Variable flag : Z.
Hypothesis order_ok : total_order compare.
Variables p1 p2 : list (list entry).
Hypothesis nonempty1 : Forall (fun p => p <> []) p1.
Hypothesis nonempty2 : Forall (fun p => p <> []) p2.

Abbreviation le := (by_field compare flag).

(** What is written ([d]) and what is left of the two sources. *)
Record merged (d r1 r2 : list entry) : Prop := {
  merged_all : Permutation (d ++ r1 ++ r2) (concat p1 ++ concat p2);
  merged_1 : StronglySorted le (d ++ r1);
  merged_2 : StronglySorted le (d ++ r2)
}.

Lemma head_least d a r y :
  StronglySorted le (d ++ a :: r) -> In y r -> le a y.
Proof.
  intros H Hy. apply sorted_app in H. destruct H as [_ [H _]].
  apply StronglySorted_inv in H. destruct H as [_ H].
  rewrite Forall_forall in H. apply H, Hy.
Qed.

Lemma sorted_snoc d a r r' :
  StronglySorted le (d ++ a :: r) -> StronglySorted le (d ++ r') ->
  (forall y, In y r' -> le a y) -> StronglySorted le ((d ++ [a]) ++ r').
Proof.
  intros H1 H2 Ha. apply sorted_app in H1. destruct H1 as [D [_ Hd]].
  apply sorted_app in H2. destruct H2 as [_ [R' Hd']].
  apply sorted_app. split; [|split; [exact R'|]].
  - apply sorted_app. split; [exact D|]. split; [repeat constructor|].
    intros x y Hx [<-|[]]. apply Hd; [exact Hx|now left].
  - intros x y Hx Hy. apply in_app_or in Hx. destruct Hx as [Hx|[<-|[]]].
    + apply Hd'; assumption.
    + apply Ha, Hy.
Qed.

Lemma merged_take1 d a r1 r2 :
  merged d (a :: r1) r2 -> (forall y, In y r2 -> le a y) ->
  merged (d ++ [a]) r1 r2.
Proof.
  intros [P S1 S2] Ha. constructor.
  - rewrite <- app_assoc. exact P.
  - rewrite <- app_assoc. exact S1.
  - apply (sorted_snoc d a r1 r2 S1 S2 Ha).
Qed.

Lemma merged_take2 d b r1 r2 :
  merged d r1 (b :: r2) -> (forall y, In y r1 -> le b y) ->
  merged (d ++ [b]) r1 r2.
Proof.
  intros [P S1 S2] Hb. constructor.
  - rewrite <- app_assoc. cbn [app].
    eapply Permutation_trans; [|exact P].
    apply Permutation_app_head. apply Permutation_middle.
  - apply (sorted_snoc d b r2 r1 S2 S1 Hb).
  - rewrite <- app_assoc. exact S2.
Qed.

Lemma merged_done d :
  merged d [] [] ->
  Permutation d (concat p1 ++ concat p2) /\ StronglySorted le d.
Proof.
  intros [P S1 _]. rewrite !app_nil_r in *. split; assumption.
Qed.

(** The two halves of the loop body on a live source. *)
Lemma take1_spec (m : merging) :
  live p1 (src1 m) -> done m = 0 \/ done m = 1 ->
  dest (fst (take1 p1 m)) = dest m ++ [current (src1 m)]
  /\ src2 (fst (take1 p1 m)) = src2 m
  /\ rest p1 (src1 m) = current (src1 m) :: rest p1 (src1 (fst (take1 p1 m)))
  /\ ((live p1 (src1 (fst (take1 p1 m))) /\ snd (take1 p1 m) = false
       /\ done (fst (take1 p1 m)) = done m /\ cmp (fst (take1 p1 m)) = cmp m)
      \/ (rest p1 (src1 (fst (take1 p1 m))) = []
          /\ ((done m = 1 /\ snd (take1 p1 m) = true)
              \/ (done m = 0 /\ snd (take1 p1 m) = false
                  /\ done (fst (take1 p1 m)) = 1
                  /\ cmp (fst (take1 p1 m)) = 1)))).
Proof.
  intros Hl Hd. destruct (advance_spec p1 (src1 m) nonempty1 Hl) as [R [L X]].
  unfold take1. destruct (advance p1 (src1 m)) as [c ended].
  cbn [fst snd] in R, L, X. destruct ended.
  - specialize (X eq_refl). destruct Hd as [Hd|Hd]; rewrite Hd.
    + cbn [Z.add Z.eqb Pos.eqb fst snd dest src1 src2 done cmp].
      split; [reflexivity|]. split; [reflexivity|]. split; [exact R|].
      right. split; [exact X|]. right. repeat split.
    + cbn [Z.add Pos.add Pos.succ Z.eqb Pos.eqb fst snd dest src1 src2 done cmp].
      split; [reflexivity|]. split; [reflexivity|]. split; [exact R|].
      right. split; [exact X|]. left. split; reflexivity.
  - specialize (L eq_refl). cbn [fst snd dest src1 src2 done cmp].
    split; [reflexivity|]. split; [reflexivity|]. split; [exact R|].
    left. split; [exact L|]. repeat split.
Qed.

Lemma take2_spec (m : merging) :
  live p2 (src2 m) -> done m = 0 \/ done m = 1 ->
  dest (fst (take2 p2 m)) = dest m ++ [current (src2 m)]
  /\ src1 (fst (take2 p2 m)) = src1 m
  /\ rest p2 (src2 m) = current (src2 m) :: rest p2 (src2 (fst (take2 p2 m)))
  /\ ((live p2 (src2 (fst (take2 p2 m))) /\ snd (take2 p2 m) = false
       /\ done (fst (take2 p2 m)) = done m /\ cmp (fst (take2 p2 m)) = cmp m)
      \/ (rest p2 (src2 (fst (take2 p2 m))) = []
          /\ ((done m = 1 /\ snd (take2 p2 m) = true)
              \/ (done m = 0 /\ snd (take2 p2 m) = false
                  /\ done (fst (take2 p2 m)) = 1
                  /\ cmp (fst (take2 p2 m)) = -1)))).
Proof.
  intros Hl Hd. destruct (advance_spec p2 (src2 m) nonempty2 Hl) as [R [L X]].
  unfold take2. destruct (advance p2 (src2 m)) as [c ended].
  cbn [fst snd] in R, L, X. destruct ended.
  - specialize (X eq_refl). destruct Hd as [Hd|Hd]; rewrite Hd.
    + cbn [Z.add Z.eqb Pos.eqb fst snd dest src1 src2 done cmp].
      split; [reflexivity|]. split; [reflexivity|]. split; [exact R|].
      right. split; [exact X|]. right. repeat split.
    + cbn [Z.add Pos.add Pos.succ Z.eqb Pos.eqb fst snd dest src1 src2 done cmp].
      split; [reflexivity|]. split; [reflexivity|]. split; [exact R|].
      right. split; [exact X|]. left. split; reflexivity.
  - specialize (L eq_refl). cbn [fst snd dest src1 src2 done cmp].
    split; [reflexivity|]. split; [reflexivity|]. split; [exact R|].
    left. split; [exact L|]. repeat split.
Qed.


(** The states of the loop: both sources live; the first through and the
    second live, the comparison held at 1; or the other way round, held
    at -1. *)
Inductive phase (m : merging) : Prop :=
| Both : done m = 0 -> live p1 (src1 m) -> live p2 (src2 m) -> phase m
| Second : done m = 1 -> cmp m = 1 -> rest p1 (src1 m) = [] ->
           live p2 (src2 m) -> phase m
| First : done m = 1 -> cmp m = -1 -> live p1 (src1 m) ->
          rest p2 (src2 m) = [] -> phase m.

Definition consistent (m : merging) : Prop :=
  merged (dest m) (rest p1 (src1 m)) (rest p2 (src2 m)) /\ phase m.

Definition left_over (m : merging) : nat :=
  (length (rest p1 (src1 m)) + length (rest p2 (src2 m)))%nat.

Lemma step1 (m : merging) :
  merged (dest m) (rest p1 (src1 m)) (rest p2 (src2 m)) ->
  live p1 (src1 m) -> done m = 0 \/ done m = 1 ->
  (forall y, In y (rest p2 (src2 m)) -> le (current (src1 m)) y) ->
  merged (dest (fst (take1 p1 m))) (rest p1 (src1 (fst (take1 p1 m))))
         (rest p2 (src2 (fst (take1 p1 m))))
  /\ src2 (fst (take1 p1 m)) = src2 m
  /\ rest p1 (src1 m) = current (src1 m) :: rest p1 (src1 (fst (take1 p1 m))).
Proof.
  intros M Hl Hd Ha.
  destruct (take1_spec m Hl Hd) as [D [S2 [R _]]].
  rewrite D, S2. split; [|split; [reflexivity|exact R]].
  apply merged_take1; [|exact Ha]. rewrite <- R. exact M.
Qed.

Lemma step2 (m : merging) :
  merged (dest m) (rest p1 (src1 m)) (rest p2 (src2 m)) ->
  live p2 (src2 m) -> done m = 0 \/ done m = 1 ->
  (forall y, In y (rest p1 (src1 m)) -> le (current (src2 m)) y) ->
  merged (dest (fst (take2 p2 m))) (rest p1 (src1 (fst (take2 p2 m))))
         (rest p2 (src2 (fst (take2 p2 m))))
  /\ src1 (fst (take2 p2 m)) = src1 m
  /\ rest p2 (src2 m) = current (src2 m) :: rest p2 (src2 (fst (take2 p2 m))).
Proof.
  intros M Hl Hd Hb.
  destruct (take2_spec m Hl Hd) as [D [S1 [R _]]].
  rewrite D, S1. split; [|split; [reflexivity|exact R]].
  apply merged_take2; [|exact Hb]. rewrite <- R. exact M.
Qed.

(** The second half of a pass, from a state in which the second source is
    live and its current record may go next. *)
Lemma second_half (m : merging) (n : nat) :
  merged (dest m) (rest p1 (src1 m)) (rest p2 (src2 m)) ->
  live p2 (src2 m) ->
  (forall y, In y (rest p1 (src1 m)) -> le (current (src2 m)) y) ->
  (done m = 0 /\ live p1 (src1 m)
   \/ done m = 1 /\ cmp m = 1 /\ rest p1 (src1 m) = []) ->
  (left_over m <= n)%nat ->
  (snd (take2 p2 m) = true ->
   merged (dest (fst (take2 p2 m))) [] [])
  /\ (snd (take2 p2 m) = false ->
      consistent (fst (take2 p2 m))
      /\ (left_over (fst (take2 p2 m)) < n)%nat).
Proof.
  intros M L2 Hb Hp Hn.
  assert (Hd : done m = 0 \/ done m = 1) by (destruct Hp as [[? _]|[? _]]; auto).
  destruct (step2 m M L2 Hd Hb) as [M' [S1 R]].
  destruct (take2_spec m L2 Hd) as [_ [_ [_ T]]].
  assert (Hlen : (left_over (fst (take2 p2 m)) < n)%nat).
  { unfold left_over in *. rewrite S1. rewrite R in Hn. cbn [length] in Hn. lia. }
  rewrite S1 in M'.
  destruct T as [[L2' [B [Dn C]]]|[X [[Dn B]|[Dn [B [Dn' C']]]]]].
  - split; [rewrite B; discriminate|]. intros _. split; [|exact Hlen].
    split; [rewrite S1; exact M'|].
    destruct Hp as [[H0 L1]|[H1 [C1 X1]]].
    + apply Both; [now rewrite Dn|now rewrite S1|exact L2'].
    + apply Second; [now rewrite Dn|now rewrite C|now rewrite S1|exact L2'].
  - split; [|rewrite B; discriminate]. intros _.
    destruct Hp as [[H0 _]|[_ [_ X1]]]; [rewrite H0 in Dn; discriminate Dn|].
    rewrite X in M'. rewrite X1 in M'. exact M'.
  - split; [rewrite B; discriminate|]. intros _. split; [|exact Hlen].
    split; [rewrite S1; exact M'|].
    destruct Hp as [[H0 L1]|[H1 _]]; [|rewrite H1 in Dn; discriminate Dn].
    apply First; [exact Dn'|exact C'|now rewrite S1|exact X].
Qed.

Lemma merge_pass_eq (m : merging) :
  merge_pass compare flag p1 p2 m
  = let m0 :=
      if done m =? 0
      then mkMerging (src1 m) (src2 m) (done m)
             (compare (extract flag (current (src1 m)))
                      (extract flag (current (src2 m))))
             (dest m)
      else m in
    let r := if cmp m0 <=? 0 then take1 p1 m0 else (m0, false) in
    if snd r then (fst r, true)
    else if cmp (fst r) >=? 0 then take2 p2 (fst r) else (fst r, false).
Proof.
  unfold merge_pass. cbv zeta.
  destruct (if cmp _ <=? 0 then _ else _) as [m1 e]. reflexivity.
Qed.

Lemma rest_least (pages : list (list entry)) (c : cursor) d y :
  live pages c -> StronglySorted le (d ++ rest pages c) ->
  In y (rest pages c) -> y = current c \/ le (current c) y.
Proof.
  intros Hl Hs Hy. rewrite (live_rest pages c Hl) in Hs, Hy.
  destruct Hy as [<-|Hy]; [now left|right].
  apply (head_least d _ _ y Hs Hy).
Qed.

(** One pass: it ends the loop with everything written in order, or it
    leaves a consistent state with less to do. *)
Lemma merge_pass_spec (m : merging) :
  consistent m ->
  (snd (merge_pass compare flag p1 p2 m) = true ->
   merged (dest (fst (merge_pass compare flag p1 p2 m))) [] [])
  /\ (snd (merge_pass compare flag p1 p2 m) = false ->
      consistent (fst (merge_pass compare flag p1 p2 m))
      /\ (left_over (fst (merge_pass compare flag p1 p2 m)) < left_over m)%nat).
Proof.
  intros [M P]. rewrite merge_pass_eq. cbv zeta.
  destruct P as [H0 L1 L2|H1 C X1 L2|H1 C L1 X2].
  - (* both sources live *)
    rewrite H0. change (0 =? 0) with true. cbv iota.
    set (c := compare (extract flag (current (src1 m)))
                      (extract flag (current (src2 m)))).
    set (m0 := mkMerging (src1 m) (src2 m) 0 c (dest m)).
    change (cmp m0) with c.
    assert (M0 : merged (dest m0) (rest p1 (src1 m0)) (rest p2 (src2 m0)))
      by exact M.
    assert (Hab : c <= 0 -> forall y, In y (rest p2 (src2 m0)) ->
                                      le (current (src1 m0)) y).
    { intros Hc y Hy.
      assert (Hlab : le (current (src1 m)) (current (src2 m))) by exact Hc.
      destruct (rest_least p2 (src2 m) (dest m) y L2 (merged_2 _ _ _ M) Hy)
        as [->|Hy']; [exact Hlab|].
      apply (by_field_trans compare flag order_ok _ _ _ Hlab Hy'). }
    assert (Hba : 0 <= c -> forall y, In y (rest p1 (src1 m0)) ->
                                      le (current (src2 m0)) y).
    { intros Hc y Hy.
      assert (Hlba : le (current (src2 m)) (current (src1 m)))
        by (apply (cmp_flip _ order_ok); exact Hc).
      destruct (rest_least p1 (src1 m) (dest m) y L1 (merged_1 _ _ _ M) Hy)
        as [->|Hy']; [exact Hlba|].
      apply (by_field_trans compare flag order_ok _ _ _ Hlba Hy'). }
    destruct (Z.leb_spec c 0) as [Hle|Hgt].
    + destruct (step1 m0 M0 L1 (or_introl eq_refl) (Hab Hle)) as [M1 [S2 R]].
      destruct (take1_spec m0 L1 (or_introl eq_refl)) as [_ [_ [_ T]]].
      assert (Hlen : S (left_over (fst (take1 p1 m0))) = left_over m).
      { unfold left_over. rewrite S2.
        change (rest p1 (src1 m)) with (rest p1 (src1 m0)). rewrite R.
        reflexivity. }
      destruct T as [[L1' [B [Dn Cn]]]|[X [[Dn _]|[_ [B [Dn' C']]]]]].
      * rewrite B. cbv iota. rewrite Cn. change (cmp m0) with c.
        rewrite Z.geb_leb. destruct (Z.leb_spec 0 c) as [Hge|Hlt].
        -- destruct (second_half (fst (take1 p1 m0)) (left_over (fst (take1 p1 m0))))
             as [F1 F2]; try assumption.
           ++ rewrite S2. exact L2.
           ++ rewrite S2. intros y Hy. apply (Hba Hge). rewrite R. now right.
           ++ left. split; [now rewrite Dn|exact L1'].
           ++ lia.
           ++ split; [exact F1|]. intros Hs. destruct (F2 Hs) as [F3 F4].
              split; [exact F3|lia].
        -- cbn [fst snd]. split; [discriminate|]. intros _. split; [|lia].
           split; [exact M1|].
           apply Both; [now rewrite Dn|exact L1'|now rewrite S2].
      * discriminate Dn.
      * rewrite B. cbv iota. rewrite C'. change (1 >=? 0) with true. cbv iota.
        destruct (second_half (fst (take1 p1 m0)) (left_over (fst (take1 p1 m0))))
          as [F1 F2]; try assumption.
        -- rewrite S2. exact L2.
        -- rewrite X. intros y [].
        -- right. split; [exact Dn'|]. split; [exact C'|exact X].
        -- lia.
        -- split; [exact F1|]. intros Hs. destruct (F2 Hs) as [F3 F4].
           split; [exact F3|lia].
    + cbn [fst snd]. change (cmp m0) with c. rewrite Z.geb_leb.
      rewrite (proj2 (Z.leb_le 0 c)) by lia.
      apply (second_half m0 (left_over m)); try assumption.
      * apply Hba. lia.
      * left. split; [reflexivity|exact L1].
      * change (left_over m0) with (left_over m). apply Nat.le_refl.
  - (* only the second source is live *)
    rewrite H1. change (1 =? 0) with false. cbv iota. rewrite C.
    change (1 <=? 0) with false. cbv iota. cbn [fst snd]. rewrite C.
    change (1 >=? 0) with true. cbv iota.
    apply (second_half m (left_over m)); try assumption.
    + rewrite X1. intros y [].
    + right. split; [exact H1|]. split; [exact C|exact X1].
    + lia.
  - (* only the first source is live *)
    rewrite H1. change (1 =? 0) with false. cbv iota. rewrite C.
    change (-1 <=? 0) with true. cbv iota.
    assert (Ha : forall y, In y (rest p2 (src2 m)) -> le (current (src1 m)) y)
      by (rewrite X2; intros y []).
    destruct (step1 m M L1 (or_intror H1) Ha) as [M1 [S2 R]].
    destruct (take1_spec m L1 (or_intror H1)) as [_ [_ [_ T]]].
    assert (Hlen : S (left_over (fst (take1 p1 m))) = left_over m).
    { unfold left_over. rewrite S2, R. reflexivity. }
    destruct T as [[L1' [B [Dn Cn]]]|[X [[_ B]|[Dn _]]]].
    + rewrite B. cbv iota. rewrite Cn, C. change (-1 >=? 0) with false.
      cbv iota. cbn [fst snd]. split; [discriminate|]. intros _.
      split; [|lia]. split; [exact M1|].
      apply First; [now rewrite Dn|now rewrite Cn|exact L1'|now rewrite S2].
    + rewrite B. cbv iota. cbn [fst snd]. split; [|discriminate]. intros _.
      rewrite X, S2, X2 in M1. exact M1.
    + rewrite H1 in Dn. discriminate Dn.
Qed.

(** The loop, with fuel for what is left. *)
Lemma merge_loop_spec (fuel : nat) :
  forall m, consistent m -> (left_over m < fuel)%nat ->
    exists d, merge_loop fuel compare flag p1 p2 m = Ok d
              /\ Permutation d (concat p1 ++ concat p2)
              /\ StronglySorted le d.
Proof.
  induction fuel as [|fuel IH]; intros m Hm Hf; [lia|].
  cbn [merge_loop].
  destruct (merge_pass_spec m Hm) as [F1 F2].
  destruct (merge_pass compare flag p1 p2 m) as [m' ended].
  cbn [fst snd] in F1, F2. destruct ended.
  - exists (dest m'). split; [reflexivity|]. apply merged_done. now apply F1.
  - destruct (F2 eq_refl) as [Hm' Hl]. apply (IH m' Hm'). lia.
Qed.

(** [merge] of two non-empty sorted sources whose pages are not empty. *)
Lemma merge_spec :
  p1 <> [] -> p2 <> [] ->
  StronglySorted le (concat p1) -> StronglySorted le (concat p2) ->
  exists d, merge compare flag p1 p2 = Ok d
            /\ Permutation d (concat p1 ++ concat p2)
            /\ StronglySorted le d.
Proof.
  intros N1 N2 S1 S2. unfold merge.
  assert (B1 : 0 <= 0 < Z.of_nat (length p1))
    by (destruct p1; [contradiction|cbn [length]; lia]).
  assert (B2 : 0 <= 0 < Z.of_nat (length p2))
    by (destruct p2; [contradiction|cbn [length]; lia]).
  destruct (load_live p1 0 nonempty1 B1) as [L1 R1].
  destruct (load_live p2 0 nonempty2 B2) as [L2 R2].
  change (Z.to_nat 0) with O in R1, R2. cbn [skipn] in R1, R2.
  apply merge_loop_spec.
  - split.
    + cbn [dest src1 src2]. rewrite R1, R2. constructor; cbn [app]; auto.
    + apply Both; [reflexivity|exact L1|exact L2].
  - unfold left_over. cbn [src1 src2]. rewrite R1, R2. lia.
Qed.

End Merge.

(** *** The merge sort over the spools *)

Lemma length_replace_nth {A : Type} (l : list A) (i : nat) (x : A) :
  length (KMV.replace_nth l i x) = length l.
Proof.
  revert i. induction l as [|a l IH]; intros i; [reflexivity|].
  destruct i; cbn [KMV.replace_nth length]; [reflexivity|]. now rewrite IH.
Qed.

Lemma nth_replace_same {A : Type} (l : list A) (i : nat) (x d : A) :
  (i < length l)%nat -> nth i (KMV.replace_nth l i x) d = x.
Proof.
  revert i. induction l as [|a l IH]; intros i H; [cbn [length] in H; lia|].
  destruct i; cbn [KMV.replace_nth nth]; [reflexivity|].
  apply IH. cbn [length] in H. lia.
Qed.

Lemma nth_replace_other {A : Type} (l : list A) (i j : nat) (x d : A) :
  i <> j -> nth j (KMV.replace_nth l i x) d = nth j l d.
Proof.
  revert i j. induction l as [|a l IH]; intros i j H; [reflexivity|].
  destruct i, j; cbn [KMV.replace_nth nth]; try reflexivity.
  - contradiction.
  - apply IH. intros ->. contradiction.
Qed.

Section MergeSpools.
Context {E : Externals}.
Variable compare : comparison.
Variable flag : Z.
Hypothesis order_ok : total_order compare.
Variable sz : entry -> Z.
Hypothesis spool_ok : paged sz spool_pages.
Variable size : Z.

Abbreviation le := (by_field compare flag).

(** A sorted run: a spool as the first pass leaves it, or a merge. *)
Definition sorted_run (l : list entry) : Prop :=
  l <> [] /\ StronglySorted le l.

(** Records that fit a page of the spools. *)
Definition spooled (l : list entry) : Prop :=
  Forall (fun e => sz e <= size) l.

Lemma merge_runs (s1 s2 : list entry) :
  spooled s1 -> spooled s2 ->
  sorted_run s1 -> sorted_run s2 ->
  exists d, merge compare flag (spool_pages size s1) (spool_pages size s2) = Ok d
            /\ Permutation d (s1 ++ s2) /\ sorted_run d.
Proof.
  intros Hz1 Hz2 [N1 S1] [N2 S2].
  destruct (spool_ok size s1 Hz1) as [C1 F1].
  destruct (spool_ok size s2 Hz2) as [C2 F2].
  destruct (merge_spec compare flag order_ok _ _ F1 F2) as [d [Hd [P S]]].
  - intros H. rewrite H in C1. cbn [concat] in C1. now subst s1.
  - intros H. rewrite H in C2. cbn [concat] in C2. now subst s2.
  - rewrite C1. exact S1.
  - rewrite C2. exact S2.
  - rewrite C1, C2 in P. exists d. split; [exact Hd|]. split; [exact P|].
    split; [|exact S]. intros ->. apply Permutation_nil in P.
    destruct s1; [contradiction|discriminate P].
Qed.

(** The spools [isrc .. isrc+n] are sorted runs; [n] merges leave, in the
    last spool written, a sorted run of all their records. *)
Lemma merge_spools_spec (n : nat) :
  forall (spools : list (list entry)) (isrc idest : nat),
    idest = (isrc + n + 1)%nat -> (idest + n <= length spools)%nat ->
    (forall i, (isrc <= i < idest)%nat ->
               spooled (nth i spools []) /\ sorted_run (nth i spools [])) ->
    exists spools',
      merge_spools n compare flag size spools isrc idest = Ok spools'
      /\ sorted_run (nth (idest + n - 1) spools' [])
      /\ Permutation (nth (idest + n - 1) spools' [])
           (concat (List.map (fun i => nth i spools []) (seq isrc (n + 1)))).
Proof.
  induction n as [|n IH]; intros spools isrc idest Hd Hlen Hruns.
  - exists spools. cbn [merge_spools]. split; [reflexivity|].
    replace (idest + 0 - 1)%nat with isrc by lia.
    split; [apply Hruns; lia|].
    cbn [Nat.add seq List.map concat]. rewrite app_nil_r. apply Permutation_refl.
  - cbn [merge_spools].
    destruct (merge_runs (nth isrc spools []) (nth (S isrc) spools []))
      as [d [Hm [Pd Rd]]];
      [apply Hruns; lia|apply Hruns; lia|apply Hruns; lia|apply Hruns; lia|].
    assert (Zd : spooled d).
    { unfold spooled. eapply Permutation_Forall; [apply Permutation_sym, Pd|].
      apply Forall_app. split; apply Hruns; lia. }
    rewrite Hm. cbn [bind].
    set (spools2 := KMV.replace_nth spools idest d).
    assert (Hother : forall i, (i < idest)%nat ->
                               nth i spools2 [] = nth i spools []).
    { intros i Hi. apply nth_replace_other. lia. }
    assert (Hsame : nth idest spools2 [] = d).
    { apply nth_replace_same. lia. }
    destruct (IH spools2 (S (S isrc)) (S idest)) as [spools' [Hs [Rf Pf]]].
    + lia.
    + unfold spools2. rewrite length_replace_nth. lia.
    + intros i Hi. destruct (Nat.eq_dec i idest) as [->|Hne].
      * rewrite Hsame. split; [exact Zd|exact Rd].
      * rewrite Hother by lia. apply Hruns. lia.
    + exists spools'. split; [exact Hs|].
      replace (idest + S n - 1)%nat with (S idest + n - 1)%nat by lia.
      split; [exact Rf|].
      eapply Permutation_trans; [exact Pf|].
      replace (n + 1)%nat with (S n) by lia. rewrite seq_S.
      rewrite map_app, concat_app.
      replace (S (S isrc) + n)%nat with idest by lia.
      cbn [List.map concat]. rewrite Hsame, app_nil_r.
      replace (S n + 1)%nat with (S (S n)) by lia. cbn [seq List.map concat].
      assert (Hmap : List.map (fun i => nth i spools2 []) (seq (S (S isrc)) n)
                     = List.map (fun i => nth i spools []) (seq (S (S isrc)) n)).
      { apply map_ext_in. intros i Hi. apply in_seq in Hi. apply Hother. lia. }
      rewrite Hmap, app_assoc.
      eapply Permutation_trans; [apply Permutation_app_comm|].
      apply Permutation_app_tail. exact Pd.
Qed.

End MergeSpools.

(** *** Adding pages of records to a KeyValue

    [contents]: the records of a KeyValue that is being filled, those of
    its finished pages and those of the page in memory.  [tidy]: the
    counters of the page in memory are those of its records. *)
Definition contents (k : KV.t) : list entry := concat (KV.pages k) ++ KV.page k.

Definition shape (k : KV.t) : Z * Z * Z * Z :=
  (KV.kalign k, KV.valign k, KV.talign k, KV.pagesize k).

Record tidy (k : KV.t) : Prop := {
  tidy_size : KV.alignsize k = KV.sum_sizes k (KV.page k);
  tidy_nkey : KV.nkey k = Z.of_nat (length (KV.page k));
  tidy_room : KV.alignsize k <= KV.pagesize k
}.

(** A record that fits a page of [k]. *)
Definition fits (k : KV.t) (e : entry) : Prop :=
  0 < KV.esize k e <= KV.pagesize k.

Lemma esize_shape k k' e : shape k' = shape k -> KV.esize k' e = KV.esize k e.
Proof.
  unfold shape, KV.esize. intros H. injection H as -> -> -> _. reflexivity.
Qed.

Lemma sum_sizes_shape k k' l :
  shape k' = shape k -> KV.sum_sizes k' l = KV.sum_sizes k l.
Proof.
  intros H. unfold KV.sum_sizes. induction l as [|e l IH]; [reflexivity|].
  cbn [fold_right]. rewrite IH, (esize_shape k k' e H). reflexivity.
Qed.

Lemma sum_sizes_app k l1 l2 :
  KV.sum_sizes k (l1 ++ l2) = KV.sum_sizes k l1 + KV.sum_sizes k l2.
Proof.
  unfold KV.sum_sizes. induction l1 as [|e l1 IH]; [reflexivity|].
  cbn [app fold_right]. rewrite IH. lia.
Qed.

Lemma sum_sizes_cons k e l :
  KV.sum_sizes k (e :: l) = KV.esize k e + KV.sum_sizes k l.
Proof. reflexivity. Qed.

Lemma sum_sizes_nonneg k l : Forall (fits k) l -> 0 <= KV.sum_sizes k l.
Proof.
  induction 1 as [|e l He _ IH]; [cbn; lia|].
  rewrite sum_sizes_cons. unfold fits in He. lia.
Qed.

(** The scan for a breakpoint, when the records of the buffer do not all
    fit the room that is left: it stops at a record [e] of the buffer. *)
Lemma take_chunk_spec (k : KV.t) (room nlimit : Z) :
  forall (buf taken : list entry) (used : Z),
    Forall (fits k) buf -> used <= room ->
    room < used + KV.sum_sizes k buf ->
    Z.of_nat (length taken) + Z.of_nat (length buf) <= nlimit ->
    exists chunk e rest,
      KV.take_chunk k room nlimit buf taken used
      = Some (taken ++ chunk, used + KV.sum_sizes k chunk,
              int_of (KV.esize k e), e :: rest)
      /\ buf = chunk ++ e :: rest
      /\ used + KV.sum_sizes k chunk <= room
      /\ room < used + KV.sum_sizes k chunk + KV.esize k e.
Proof.
  induction buf as [|e buf IH]; intros taken used Hf Hu Hr Hn.
  - cbn in Hr. lia.
  - cbn [KV.take_chunk]. rewrite sum_sizes_cons in Hr.
    inversion Hf as [|? ? He Hb]; subst.
    replace (Z.of_nat (length taken) =? nlimit) with false
      by (symmetry; apply Z.eqb_neq; cbn [length] in Hn; lia).
    rewrite orb_false_r.
    destruct (Z.gtb_spec (used + KV.esize k e) room) as [Hc|Hc].
    + exists [], e, buf. rewrite app_nil_r. cbn [KV.sum_sizes fold_right app].
      rewrite Z.add_0_r. repeat split; [lia|lia].
    + destruct (IH (taken ++ [e]) (used + KV.esize k e) Hb ltac:(lia) ltac:(lia))
        as [chunk [e' [rest [Ht [Hbuf [H1 H2]]]]]].
      { rewrite length_app. cbn [length] in *. lia. }
      exists (e :: chunk), e', rest. rewrite Ht, <- app_assoc. cbn [app].
      rewrite sum_sizes_cons, Hbuf.
      repeat split; try lia. f_equal. f_equal. f_equal. f_equal. lia.
Qed.

Lemma fits_shape k k' e : shape k' = shape k -> fits k e -> fits k' e.
Proof.
  intros H. unfold fits. rewrite (esize_shape k k' e H).
  unfold shape in H. injection H as _ _ _ ->. auto.
Qed.

Lemma contents_flush k chunk :
  contents (KV.flush (KV.set_page k (int_of (KV.nkey k + Z.of_nat (length chunk)))
                        (u64 (KV.alignsize k + KV.sum_sizes k chunk))
                        (KV.page k ++ chunk)))
  = contents k ++ chunk.
Proof.
  unfold contents, KV.flush, KV.init_page, KV.set_pages, KV.set_page.
  cbn [KV.pages KV.page]. rewrite concat_app. cbn [concat].
  rewrite !app_nil_r, app_assoc. reflexivity.
Qed.

(** The chunk loop of the bulk [add], lines 403-463. *)
Lemma add_chunks_spec (fuel : nat) :
  forall (k : KV.t) (buf : list entry) (nlimit : Z),
    tidy k -> 0 <= KV.alignsize k -> 0 <= KV.nkey k ->
    Forall (fits k) buf -> KV.pagesize k <= INTMAX ->
    Z.of_nat (length buf) <= nlimit -> KV.nkey k + nlimit <= INTMAX ->
    KV.sum_sizes k buf < 2 ^ 63 ->
    (2 * length buf + (if (KV.alignsize k =? 0)%Z then 0 else 1) < fuel)%nat ->
    exists k',
      KV.add_chunks fuel k buf (KV.sum_sizes k buf) nlimit = Ok k'
      /\ tidy k' /\ 0 <= KV.alignsize k' /\ 0 <= KV.nkey k'
      /\ shape k' = shape k /\ contents k' = contents k ++ buf.
Proof.
  induction fuel as [|fuel IH];
    intros k buf nlimit T A0 N0 Hf Hp Hn Hl Hs Hfuel; [lia|].
  destruct T as [Ts Tn Tr].
  pose proof (sum_sizes_nonneg k buf Hf) as Hs0.
  unfold INTMAX in *.
  cbn [KV.add_chunks].
  rewrite (u64_small (KV.alignsize k + KV.sum_sizes k buf)) by lia.
  rewrite (int_of_small (Z.of_nat (length buf))) by lia.
  replace (Z.of_nat (length buf) >? nlimit) with false
    by (symmetry; rewrite Z.gtb_ltb; apply Z.ltb_ge; lia).
  rewrite orb_false_r.
  destruct (Z.gtb_spec (KV.alignsize k + KV.sum_sizes k buf) (KV.pagesize k))
    as [Hbig|Hsmall].
  - destruct (take_chunk_spec k (KV.pagesize k - KV.alignsize k) nlimit buf [] 0
                Hf ltac:(lia) ltac:(lia) ltac:(cbn [length]; lia))
      as [chunk [e [rest [Ht [Hbuf [H1 H2]]]]]].
    rewrite Ht. cbn [app]. rewrite Z.add_0_l.
    assert (He : fits k e).
    { rewrite Forall_forall in Hf. apply Hf. rewrite Hbuf.
      apply in_or_app. right. now left. }
    unfold fits in He.
    rewrite (int_of_small (KV.esize k e)) by lia.
    rewrite (u64_small (KV.esize k e)) by lia.
    replace (KV.esize k e >? KV.pagesize k) with false
      by (symmetry; rewrite Z.gtb_ltb; apply Z.ltb_ge; lia).
    set (k2 := KV.flush (KV.set_page k (int_of (KV.nkey k + Z.of_nat (length chunk)))
                           (u64 (KV.alignsize k + KV.sum_sizes k chunk))
                           (KV.page k ++ chunk))).
    assert (Sh : shape k2 = shape k) by reflexivity.
    assert (Hsum : KV.sum_sizes k buf
                   = KV.sum_sizes k chunk + KV.sum_sizes k (e :: rest)).
    { rewrite Hbuf at 1. apply sum_sizes_app. }
    assert (Hf' : Forall (fits k) (e :: rest)).
    { rewrite Hbuf in Hf. apply Forall_app in Hf. apply Hf. }
    pose proof (sum_sizes_nonneg k (e :: rest) Hf') as Hr0.
    assert (Hc0 : 0 <= KV.sum_sizes k chunk).
    { apply sum_sizes_nonneg. rewrite Hbuf in Hf. apply Forall_app in Hf.
      apply Hf. }
    replace (u64 (KV.sum_sizes k buf - KV.sum_sizes k chunk))
      with (KV.sum_sizes k2 (e :: rest)).
    2:{ rewrite (sum_sizes_shape k k2 _ Sh). rewrite u64_small; lia. }
    assert (Hlen : length buf = (length chunk + length (e :: rest))%nat).
    { rewrite Hbuf at 1. apply length_app. }
    destruct (IH k2 (e :: rest) 2147483647) as [k' [Hk' [T' [A' [N' [S' C']]]]]].
    + constructor; cbn; lia.
    + cbn. lia.
    + cbn. lia.
    + eapply Forall_impl; [|exact Hf']. intros x. apply (fits_shape k k2 x Sh).
    + exact Hp.
    + lia.
    + cbn. lia.
    + rewrite (sum_sizes_shape k k2 _ Sh). lia.
    + change (KV.alignsize k2) with 0. change (0 =? 0) with true. cbv iota.
      revert Hfuel. destruct chunk as [|c chunk].
      * cbn [KV.sum_sizes fold_right] in H2.
        destruct (Z.eqb_spec (KV.alignsize k) 0) as [Hz|Hz]; [lia|].
        cbn [length] in *. lia.
      * cbn [length] in *. destruct (KV.alignsize k =? 0); lia.
    + exists k'. split; [exact Hk'|]. split; [exact T'|].
      split; [exact A'|]. split; [exact N'|]. split; [now rewrite S'|].
      rewrite C'. unfold k2. rewrite contents_flush, <- app_assoc, <- Hbuf.
      reflexivity.
  - eexists. split; [reflexivity|].
    rewrite (int_of_small (KV.nkey k + Z.of_nat (length buf))) by lia.
    split; [|split; [|split; [|split]]].
    + constructor; cbn [KV.alignsize KV.page KV.nkey KV.pagesize KV.set_page].
      * rewrite Ts.
        change (KV.sum_sizes (KV.set_page k _ _ _) (KV.page k ++ buf))
          with (KV.sum_sizes k (KV.page k ++ buf)).
        now rewrite sum_sizes_app.
      * rewrite length_app, Tn. lia.
      * lia.
    + cbn. lia.
    + cbn. lia.
    + reflexivity.
    + unfold contents. cbn [KV.pages KV.page KV.set_page].
      now rewrite app_assoc.
Qed.

Lemma sum_sizes_bound k l :
  Forall (fits k) l -> KV.sum_sizes k l <= Z.of_nat (length l) * KV.pagesize k.
Proof.
  induction 1 as [|e l He _ IH]; [cbn; lia|].
  rewrite sum_sizes_cons. cbn [length]. rewrite Nat2Z.inj_succ.
  unfold fits in He. nia.
Qed.

(** [add(int n, char *buf)] of records that fit a page, while the count
    of the page stays an [int]. *)
Lemma add_buf_spec (k : KV.t) (buf : list entry) :
  tidy k -> 0 <= KV.alignsize k ->
  Forall (fits k) buf -> KV.pagesize k <= INTMAX ->
  KV.nkey k + Z.of_nat (length buf) <= INTMAX ->
  exists k',
    KV.add_buf k buf = Ok k' /\ tidy k' /\ 0 <= KV.alignsize k'
    /\ shape k' = shape k /\ contents k' = contents k ++ buf.
Proof.
  intros T A0 Hf Hp Hn.
  assert (N0 : 0 <= KV.nkey k) by (rewrite (tidy_nkey k T); lia).
  pose proof (sum_sizes_nonneg k buf Hf) as Hs0.
  pose proof (sum_sizes_bound k buf Hf) as Hsb.
  unfold INTMAX in *.
  assert (Hm : Z.of_nat (length buf) * KV.pagesize k <= 2147483647 * 2147483647).
  { destruct (Z.le_gt_cases (KV.pagesize k) 0); [nia|].
    apply Z.mul_le_mono_nonneg; lia. }
  unfold KV.add_buf, KV.add_sized. rewrite u64_small by lia.
  unfold INTMAX. rewrite int_of_small by lia.
  destruct (add_chunks_spec (2 * length buf + 2) k buf (2147483647 - KV.nkey k)
              T A0 N0 Hf)
    as [k' [H1 [H2 [H3 [_ [H4 H5]]]]]]; try (unfold INTMAX; lia).
  - destruct (KV.alignsize k =? 0); lia.
  - exists k'. auto.
Qed.

Lemma add_spool_pages_spec (ps : list (list entry)) :
  forall k : KV.t,
    tidy k -> 0 <= KV.alignsize k ->
    Forall (fits k) (concat ps) -> KV.pagesize k <= INTMAX ->
    Z.of_nat (length (contents k)) + Z.of_nat (length (concat ps)) <= INTMAX ->
    exists k',
      add_spool_pages k ps = Ok k' /\ tidy k' /\ shape k' = shape k
      /\ contents k' = contents k ++ concat ps.
Proof.
  induction ps as [|p ps IH]; intros k T A0 Hf Hp Hn.
  - exists k. cbn [add_spool_pages concat]. rewrite app_nil_r. auto.
  - cbn [concat] in Hf, Hn. apply Forall_app in Hf. destruct Hf as [Hfp Hfr].
    rewrite length_app, Nat2Z.inj_add in Hn.
    destruct (add_buf_spec k p T A0 Hfp Hp) as [k1 [E1 [T1 [A1 [S1 C1]]]]].
    { rewrite (tidy_nkey k T). unfold contents in Hn.
      rewrite length_app, Nat2Z.inj_add in Hn. lia. }
    cbn [add_spool_pages]. rewrite E1. cbn [bind].
    destruct (IH k1 T1 A1) as [k' [E' [T' [S' C']]]].
    + eapply Forall_impl; [|exact Hfr]. intros x. apply fits_shape. exact S1.
    + unfold shape in S1. injection S1 as _ _ _ ->. exact Hp.
    + rewrite C1, length_app, Nat2Z.inj_add. lia.
    + exists k'. split; [exact E'|]. split; [exact T'|].
      split; [now rewrite S'|]. rewrite C', C1. cbn [concat].
      now rewrite app_assoc.
Qed.

Lemma complete_contents (k : KV.t) :
  concat (KV.pages (KV.complete k)) = contents k.
Proof.
  unfold KV.complete, KV.flush, KV.init_page, KV.set_nkv, KV.set_pages,
    KV.set_page, contents.
  cbn [KV.pages KV.page]. rewrite concat_app. cbn [concat].
  now rewrite app_nil_r.
Qed.

Lemma map_nth_app_seq {A : Type} (l r : list A) (d : A) :
  List.map (fun i => nth i (l ++ r) d) (seq 0 (length l)) = l.
Proof.
  induction l as [|a l IH]; [reflexivity|].
  cbn [length seq List.map app nth]. f_equal.
  rewrite <- seq_shift, map_map. exact IH.
Qed.

Lemma Forall2_compose {A B C : Type} (R : A -> B -> Prop) (S : B -> C -> Prop)
    (T : A -> C -> Prop) :
  (forall a b c, R a b -> S b c -> T a c) ->
  forall l1 l2 l3, Forall2 R l1 l2 -> Forall2 S l2 l3 -> Forall2 T l1 l3.
Proof.
  intros H l1 l2 l3 H1. revert l3.
  induction H1 as [|a b l l' Hab _ IH]; intros l3 H2; inversion H2; subst;
    constructor; [eapply H; eassumption|now apply IH].
Qed.

Lemma each_from_rel (f : Z -> t -> result t) (P : t -> Prop)
    (R : t -> t -> Prop) :
  (forall me s, P s -> exists s', f me s = Ok s' /\ R s s') ->
  forall (g : group) (me : Z),
    Forall P g -> exists g', each_from f me g = Ok g' /\ Forall2 R g g'.
Proof.
  intros Hf. induction g as [|a g IH]; intros me HP.
  - exists []. split; [reflexivity|constructor].
  - inversion HP as [|? ? Ha Hg]; subst. cbn [each_from].
    destruct (Hf me a Ha) as [a' [-> Ra]].
    destruct (IH (me + 1) Hg) as [g' [-> Rg]].
    exists (a' :: g'). split; [reflexivity|now constructor].
Qed.

(** *** [sort_kv]

    What the sort asks of the container of a rank: its page count is a
    positive [int]; the three index arrays of every page fit the quarter
    they are laid over (twelve bytes a record); and, when the pages are
    more than one and go through the spools, no page is empty, every
    record fits a page of the spools ([memspool] bytes) and a page of the
    new container, and the number of records is an [int]. *)
Record sortable (s : t) (k : KV.t) : Prop := {
  st_npage : 1 <= Z.of_nat (length (KV.pages k)) <= INTMAX;
  st_arrays : forallb (index_arrays_fit s) (KV.pages k) = true;
  st_nonempty : 1 < Z.of_nat (length (KV.pages k)) ->
                Forall (fun p => p <> []) (KV.pages k);
  st_spool : 1 < Z.of_nat (length (KV.pages k)) ->
             Forall (fun e => KV.esize (new_kv s) e <= memspool s)
                    (concat (KV.pages k));
  st_fits : 1 < Z.of_nat (length (KV.pages k)) ->
            Forall (fits (new_kv s)) (concat (KV.pages k));
  st_quarter : 1 < Z.of_nat (length (KV.pages k)) -> memquarter s <= INTMAX;
  st_count : 1 < Z.of_nat (length (KV.pages k)) ->
             Z.of_nat (length (concat (KV.pages k))) <= INTMAX
}.

(** What the sort of a rank asks of [Spool]: it is [paged] for the sizes
    this rank computes. *)
Definition spooling {E : Externals} (s : t) : Prop :=
  paged (KV.esize (new_kv s)) spool_pages.

Section SortKV.
Context {E : Externals}.
Variable compare : comparison.
Variable flag : Z.
Hypothesis order_ok : total_order compare.
Hypothesis qsort_ok : sorts qsort.

Lemma sorted_pages_perm (ps : list (list entry)) :
  Permutation (concat ps) (concat (List.map (sort_page compare flag) ps)).
Proof.
  induction ps as [|p ps IH]; [constructor|].
  cbn [List.map concat]. apply Permutation_app; [|exact IH].
  apply (sort_page_spec compare flag order_ok qsort_ok p).
Qed.

Lemma sorted_pages_runs (ps : list (list entry)) (r : list (list entry)) :
  Forall (fun p => p <> []) ps ->
  forall i, (i < length ps)%nat ->
    sorted_run compare flag
      (nth i (List.map (sort_page compare flag) ps ++ r) []).
Proof.
  intros Hne i Hi.
  rewrite app_nth1 by (now rewrite length_map).
  rewrite (nth_indep _ [] (sort_page compare flag [])) by (now rewrite length_map).
  rewrite map_nth. split.
  - apply (sort_page_nonempty compare flag order_ok qsort_ok).
    rewrite Forall_forall in Hne. apply Hne. now apply nth_In.
  - apply (sort_page_spec compare flag order_ok qsort_ok).
Qed.

Lemma sorted_pages_keep (P : entry -> Prop) (ps r : list (list entry)) :
  Forall P (concat ps) ->
  forall i, (i < length ps)%nat ->
    Forall P (nth i (List.map (sort_page compare flag) ps ++ r) []).
Proof.
  intros HP i Hi.
  rewrite app_nth1 by (now rewrite length_map).
  rewrite (nth_indep _ [] (sort_page compare flag [])) by (now rewrite length_map).
  rewrite map_nth.
  eapply Permutation_Forall;
    [apply (sort_page_spec compare flag order_ok qsort_ok)|].
  apply Forall_forall. intros e He. rewrite Forall_forall in HP. apply HP.
  apply in_concat. exists (nth i ps []). split; [now apply nth_In|exact He].
Qed.

(** The single page is sorted in place; more pages are sorted into
    spools, the spools merged and the last one added to a new
    container. *)
Lemma sort_kv_spec (s : t) (k : KV.t) :
  spooling s -> sortable s k ->
  exists s' k',
    sort_kv compare flag s k = Ok s' /\ kv s' = Some k'
    /\ Permutation (concat (KV.pages k)) (concat (KV.pages k'))
    /\ StronglySorted (by_field compare flag) (concat (KV.pages k')).
Proof.
  intros spool_ok [Hn Ha Hne Hz Hf Hq Hc]. unfold sort_kv.
  unfold KV.request_info, KV.npage.
  rewrite int_of_small by (unfold INTMAX in Hn; lia).
  rewrite Nat2Z.id, firstn_all, Ha. cbn [negb].
  destruct (Z.eqb_spec (Z.of_nat (length (KV.pages k))) 1) as [H1|H1].
  - destruct (KV.pages k) as [|p [|q ps]] eqn:Hp; cbn [length] in H1; try lia.
    eexists. eexists. split; [reflexivity|]. split; [reflexivity|].
    cbn [List.map KV.pages KV.set_pages concat]. rewrite !app_nil_r.
    apply (sort_page_spec compare flag order_ok qsort_ok p).
  - assert (Hgt : 1 < Z.of_nat (length (KV.pages k))) by lia.
    specialize (Hne Hgt). specialize (Hz Hgt). specialize (Hf Hgt).
    specialize (Hq Hgt). specialize (Hc Hgt).
    replace (Z.of_nat (length (KV.pages k)) >? 1) with true
      by (symmetry; rewrite Z.gtb_ltb; apply Z.ltb_lt; exact Hgt).
    set (ps := KV.pages k) in *.
    remember (length ps) as n eqn:En.
    set (spools0 := List.map (sort_page compare flag) ps ++ repeat [] (Nat.pred n)).
    assert (Hpn : S (Nat.pred n) = n) by (destruct n; [lia|reflexivity]).
    destruct (merge_spools_spec compare flag order_ok (KV.esize (new_kv s))
                spool_ok (memspool s) (Nat.pred n) spools0 0 n)
      as [spools [Hm [Rf Pf]]].
    + lia.
    + unfold spools0. rewrite length_app, length_map, repeat_length.
      rewrite <- En. lia.
    + intros i Hi. split.
      * apply sorted_pages_keep; [exact Hz|]. rewrite <- En. lia.
      * apply sorted_pages_runs; [exact Hne|]. rewrite <- En. lia.
    + rewrite Hm. cbn [bind].
      replace (2 * n - 2)%nat with (n + Nat.pred n - 1)%nat by lia.
      set (final := nth (n + Nat.pred n - 1) spools []) in *.
      replace (Nat.pred n + 1)%nat with (length (List.map (sort_page compare flag) ps))
        in Pf by (rewrite length_map, <- En; lia).
      unfold spools0 in Pf. rewrite map_nth_app_seq in Pf.
      assert (Pall : Permutation (concat ps) final).
      { eapply Permutation_trans; [apply sorted_pages_perm|].
        apply Permutation_sym. exact Pf. }
      destruct (spool_ok (memspool s) final) as [Cf _].
      { eapply Permutation_Forall; [exact Pall|exact Hz]. }
      destruct (add_spool_pages_spec (spool_pages (memspool s) final) (new_kv s))
        as [k' [Ek [_ [_ Ck]]]].
      * constructor; cbn; try reflexivity.
        destruct (concat ps) as [|e l] eqn:Hl.
        -- destruct ps as [|p ps']; [cbn [length] in En; lia|].
           inversion Hne as [|? ? Hp0 _]; subst. cbn [concat] in Hl.
           apply app_eq_nil in Hl. destruct Hl as [Hl _]. contradiction.
        -- inversion Hf as [|? ? He _]; subst. unfold fits in He.
           change (KV.pagesize (new_kv s)) with (memquarter s) in He. lia.
      * cbn. lia.
      * rewrite Cf. eapply Permutation_Forall; [exact Pall|exact Hf].
      * exact Hq.
      * rewrite Cf. change (contents (new_kv s)) with (@nil entry).
        cbn [length]. rewrite <- (Permutation_length Pall). lia.
      * rewrite Ek. cbn [bind].
        eexists. eexists. split; [reflexivity|]. split; [reflexivity|].
        rewrite complete_contents, Ck, Cf.
        change (contents (new_kv s)) with (@nil entry). cbn [app].
        split; [exact Pall|apply Rf].
Qed.

Lemma sort_rank_spec (msg : string) (s : t) (k : KV.t) :
  spooling s -> kv s = Some k -> sortable s k ->
  exists s' k',
    sort_rank msg compare flag s = Ok s' /\ kv s' = Some k'
    /\ Permutation (concat (KV.pages k)) (concat (KV.pages k'))
    /\ StronglySorted (by_field compare flag) (concat (KV.pages k')).
Proof.
  intros Hp Hk Hs. unfold sort_rank. rewrite Hk. now apply sort_kv_spec.
Qed.

End SortKV.

(** *** [sort_keys] *)

(** A rank whose container can be sorted: it has a KeyValue, and the
    KeyValue is [sortable]. *)
Definition ready (s : t) : Prop := exists k, kv s = Some k /\ sortable s k.

(** What the sort leaves on a rank: the records it held, with the keys
    in order from page to page. *)
Definition sorted_from (compare : comparison) (s s' : t) : Prop :=
  exists k k',
    kv s = Some k /\ kv s' = Some k'
    /\ Permutation (concat (KV.pages k)) (concat (KV.pages k'))
    /\ StronglySorted (fun a b => compare (e_key a) (e_key b) <= 0)
         (concat (KV.pages k')).


(** The reference [qsort], spool and a comparison by first byte meet what
    is asked of them. *)
Lemma insert_perm (c : Z -> Z -> Z) (x : Z) (l : list Z) :
  Permutation (x :: l) (Reference.insert c x l).
Proof.
  induction l as [|a l IH]; cbn [Reference.insert]; [apply Permutation_refl|].
  destruct (c x a <=? 0); [apply Permutation_refl|].
  eapply perm_trans; [apply perm_swap|]. now constructor.
Qed.

Lemma insert_sorted (c : Z -> Z -> Z) (x : Z) (l : list Z) :
  (forall i j, 0 <= c i j -> c j i <= 0) ->
  (forall i j k, c i j <= 0 -> c j k <= 0 -> c i k <= 0) ->
  StronglySorted (fun i j => c i j <= 0) l ->
  StronglySorted (fun i j => c i j <= 0) (Reference.insert c x l).
Proof.
  intros Hf Ht. induction l as [|a l IH]; intros SS; cbn [Reference.insert].
  - constructor; constructor.
  - inversion SS as [|? ? SSl Fa]; subst.
    destruct (Z.leb_spec (c x a) 0) as [Hle|Hgt].
    + constructor; [exact SS|]. constructor; [exact Hle|].
      eapply Forall_impl; [|exact Fa]. intros y Hy. cbn beta in *.
      now apply (Ht x a y).
    + constructor; [now apply IH|].
      eapply Permutation_Forall; [apply insert_perm|].
      constructor; [apply Hf; lia|exact Fa].
Qed.

Lemma insertion_sort_sorts : sorts Reference.insertion_sort.
Proof.
  intros c l Hf Ht. unfold Reference.insertion_sort.
  induction l as [|a l [Hp Hs]]; cbn [fold_right]; [split; constructor|].
  split.
  - eapply perm_trans; [apply perm_skip; exact Hp|apply insert_perm].
  - now apply insert_sorted.
Qed.

Lemma one_per_page_paged (sz : entry -> Z) : paged sz Reference.one_per_page.
Proof.
  intros size l _. unfold Reference.one_per_page. split.
  - induction l as [|e l IH]; [reflexivity|].
    cbn [List.map concat app]. now rewrite IH.
  - apply Forall_forall. intros p Hp. apply in_map_iff in Hp.
    destruct Hp as [e [<- _]]. discriminate.
Qed.

Lemma reference_spooling (g : group) :
  Forall (spooling (E := Reference.externals)) g.
Proof. apply Forall_forall. intros s _. apply one_per_page_paged. Qed.

Lemma compare_first_order : total_order compare_first.
Proof. constructor; unfold compare_first; intros; lia. Qed.


(** One rank with a megabyte, in quarters of 262144 bytes, and twelve
    tasks that emit a key of 50000 bytes each, whose bytes are 20 less the
    task number: a page holds five records, and the container has three
    pages. *)
Definition long_key (b : Z) : list Z := repeat b (Z.to_nat 50000).

Definition long_record (itask : Z) : entry :=
  mkEntry (long_key (20 - itask)) [itask].

Definition emit_long (itask : Z) (k : KV.t) : result KV.t :=
  KV.add k (long_record itask).

Definition shelf_kv : KV.t :=
  KV.mk 12 4 4 4 0 0 [] 262144
    [List.map long_record [0; 1; 2; 3; 4];
     List.map long_record [5; 6; 7; 8; 9];
     List.map long_record [10; 11]].

Definition shelf : t :=
  mk 0 0 0 1 4 4 true 4 4 4 262144 524288 1 (Some shelf_kv) None [].

Lemma shelf_mapped :
  run (E := Reference.externals) (Map 12 emit_long 0)
      [set_settings new 0 0 0 1 4 4]
  = Ok (12, [shelf]).
Proof. reflexivity. Qed.

Lemma long_record_fits (itask : Z) : fits (new_kv shelf) (long_record itask).
Proof. unfold fits. vm_compute. split; [reflexivity|discriminate]. Qed.

(** A page of the spools has 174592 bytes here, a record 50012. *)
Lemma long_record_spools (itask : Z) :
  KV.esize (new_kv shelf) (long_record itask) <= memspool shelf.
Proof. vm_compute. discriminate. Qed.

Lemma shelf_ready : Forall ready [shelf].
Proof.
  constructor; [|constructor]. exists shelf_kv. split; [reflexivity|].
  constructor.
  - unfold shelf_kv, INTMAX. cbn [KV.pages length]. lia.
  - vm_compute. reflexivity.
  - intros _. unfold shelf_kv. cbn [KV.pages].
    repeat (apply Forall_cons; [cbn [List.map]; discriminate|]).
    apply Forall_nil.
  - intros _. unfold shelf_kv. cbn [KV.pages concat List.map app].
    repeat (apply Forall_cons; [apply long_record_spools|]). apply Forall_nil.
  - intros _. unfold shelf_kv. cbn [KV.pages concat List.map app].
    repeat (apply Forall_cons; [apply long_record_fits|]). apply Forall_nil.
  - intros _. unfold shelf, INTMAX. cbn [memquarter]. lia.
  - intros _. unfold shelf_kv, INTMAX. cbn [KV.pages concat List.map app length].
    lia.
Qed.


(** The run itself: the twelve records come back on three pages, by first
    byte of the key from 9 to 20. *)
Definition first_bytes (s : t) : option (list (list Z)) :=
  option_map
    (fun k => List.map (List.map (fun e => hd 0 (e_key e))) (KV.pages k))
    (kv s).

Lemma sort_keys_run :
  match sort_keys (E := Reference.externals) compare_first [shelf] with
  | Ok (n, g') => Some (n, List.map first_bytes g')
  | Fatal _ => None
  end
  = Some (12, [Some [[9; 10; 11; 12; 13]; [14; 15; 16; 17; 18]; [19; 20]]]).
Proof. vm_compute. reflexivity. Qed.

End MapReduceFacts.

(** * More about the containers at record level *)

Module ContainerFacts.
Import CInt CIntFacts MapReduce MapReduceFacts.

(** ** One [add] *)

(** A record whose size [add] can hold in its [int] [kvbytes]. *)
Definition sized (k : KV.t) (e : entry) : Prop := 0 < KV.esize k e < 2 ^ 31.

Lemma sized_shape k k' e : shape k' = shape k -> sized k e -> sized k' e.
Proof. intros H. unfold sized. now rewrite (esize_shape k k' e H). Qed.

Lemma sum_sizes_sized k l :
  Forall (sized k) l -> 0 <= KV.sum_sizes k l <= Z.of_nat (length l) * 2 ^ 31.
Proof.
  induction 1 as [|e l He _ IH]; [cbn; lia|].
  rewrite sum_sizes_cons. cbn [length]. rewrite Nat2Z.inj_succ.
  unfold sized in He. lia.
Qed.

Section OneAdd.
Variable k : KV.t.
Variable e : entry.
Hypothesis size_ok : sized k e.
Hypothesis align_ok : 0 <= KV.alignsize k <= KV.pagesize k.
Hypothesis page_ok : KV.pagesize k < 2 ^ 63.

(** The record goes behind the others of the page when it fits. *)
Lemma add_put :
  KV.alignsize k + KV.esize k e <= KV.pagesize k -> KV.nkey k <> INTMAX ->
  KV.add k e = Ok (KV.put k e (KV.esize k e)).
Proof.
  intros Hfit Hn. unfold sized in size_ok. unfold KV.add. cbn [KV.add_rec].
  rewrite int_of_small by lia.
  replace (KV.esize k e <? 0) with false by (symmetry; apply Z.ltb_ge; lia).
  rewrite u64_small by lia.
  replace (KV.alignsize k + KV.esize k e >? KV.pagesize k) with false
    by (symmetry; rewrite Z.gtb_ltb; apply Z.ltb_ge; lia).
  replace (KV.nkey k =? INTMAX) with false by (symmetry; now apply Z.eqb_neq).
  reflexivity.
Qed.

(** The page is written out first when the record does not fit it and
    fits an empty page. *)
Lemma add_flush :
  KV.pagesize k < KV.alignsize k + KV.esize k e -> KV.alignsize k <> 0 ->
  KV.esize k e <= KV.pagesize k ->
  KV.add k e = Ok (KV.put (KV.flush k) e (KV.esize k e)).
Proof.
  intros Hbig Hne Hfit. unfold sized in size_ok. unfold KV.add.
  cbn [KV.add_rec]. rewrite int_of_small by lia.
  replace (KV.esize k e <? 0) with false by (symmetry; apply Z.ltb_ge; lia).
  rewrite u64_small by lia.
  replace (KV.alignsize k + KV.esize k e >? KV.pagesize k) with true
    by (symmetry; rewrite Z.gtb_ltb; apply Z.ltb_lt; lia).
  cbn [orb].
  replace (KV.alignsize k =? 0) with false by (symmetry; now apply Z.eqb_neq).
  change (KV.esize (KV.flush k) e) with (KV.esize k e).
  rewrite (int_of_small (KV.esize k e)) by lia.
  replace (KV.esize k e <? 0) with false by (symmetry; apply Z.ltb_ge; lia).
  change (KV.alignsize (KV.flush k)) with 0.
  change (KV.pagesize (KV.flush k)) with (KV.pagesize k).
  change (KV.nkey (KV.flush k)) with 0.
  rewrite Z.add_0_l, u64_small by lia.
  replace (KV.esize k e >? KV.pagesize k) with false
    by (symmetry; rewrite Z.gtb_ltb; apply Z.ltb_ge; lia).
  reflexivity.
Qed.

(** It is refused when it does not fit an empty page, at once or after
    the page was written out. *)
Lemma add_too_big :
  KV.pagesize k < KV.esize k e ->
  KV.add k e = Fatal "Single key/value pair exceeds page size".
Proof.
  intros Hbig. unfold sized in size_ok. unfold KV.add.
  cbn [KV.add_rec]. rewrite int_of_small by lia.
  replace (KV.esize k e <? 0) with false by (symmetry; apply Z.ltb_ge; lia).
  rewrite u64_small by lia.
  replace (KV.alignsize k + KV.esize k e >? KV.pagesize k) with true
    by (symmetry; rewrite Z.gtb_ltb; apply Z.ltb_lt; lia).
  cbn [orb]. destruct (KV.alignsize k =? 0); [reflexivity|].
  change (KV.esize (KV.flush k) e) with (KV.esize k e).
  rewrite (int_of_small (KV.esize k e)) by lia.
  replace (KV.esize k e <? 0) with false by (symmetry; apply Z.ltb_ge; lia).
  change (KV.alignsize (KV.flush k)) with 0.
  change (KV.pagesize (KV.flush k)) with (KV.pagesize k).
  rewrite Z.add_0_l, u64_small by lia.
  replace (KV.esize k e >? KV.pagesize k) with true
    by (symmetry; rewrite Z.gtb_ltb; apply Z.ltb_lt; lia).
  reflexivity.
Qed.

End OneAdd.

(** ** One by one *)

Lemma add_each_app (l1 l2 : list entry) :
  forall k, KV.add_each k (l1 ++ l2)
            = (k1 <- KV.add_each k l1 ;; KV.add_each k1 l2).
Proof.
  induction l1 as [|e l1 IH]; intros k; [reflexivity|].
  cbn [app KV.add_each]. destruct (KV.add k e) as [k1|msg]; [|reflexivity].
  cbn [bind]. apply IH.
Qed.

Lemma set_page_twice k a b c a' b' c' :
  KV.set_page (KV.set_page k a b c) a' b' c' = KV.set_page k a' b' c'.
Proof. reflexivity. Qed.

(** Records that fit what is left of the page all go to it. *)
Lemma add_each_fits (buf : list entry) :
  forall k : KV.t,
    0 <= KV.alignsize k -> 0 <= KV.nkey k -> KV.pagesize k < 2 ^ 63 ->
    Forall (sized k) buf ->
    KV.nkey k + Z.of_nat (length buf) <= INTMAX ->
    KV.alignsize k + KV.sum_sizes k buf <= KV.pagesize k ->
    KV.add_each k buf
    = Ok (KV.set_page k (KV.nkey k + Z.of_nat (length buf))
            (KV.alignsize k + KV.sum_sizes k buf) (KV.page k ++ buf)).
Proof.
  induction buf as [|e buf IH]; intros k A0 N0 Hp Hs Hn Hfit.
  - cbn [KV.add_each length KV.sum_sizes fold_right].
    rewrite !Z.add_0_r, app_nil_r. now destruct k.
  - inversion Hs as [|? ? He Hb]; subst.
    pose proof (sum_sizes_sized k buf Hb) as Hsum.
    rewrite sum_sizes_cons in Hfit. cbn [length] in Hn.
    rewrite Nat2Z.inj_succ in Hn. unfold INTMAX in Hn.
    cbn [KV.add_each]. unfold sized in He.
    rewrite (add_put k e He ltac:(lia) Hp) by (unfold INTMAX; lia).
    cbn [bind]. unfold KV.put.
    rewrite int_of_small, u64_small by lia.
    rewrite IH.
    + rewrite set_page_twice.
      change (KV.sum_sizes (KV.set_page k _ _ _) buf) with (KV.sum_sizes k buf).
      cbn [KV.set_page KV.nkey KV.alignsize KV.page].
      rewrite sum_sizes_cons. cbn [length]. rewrite Nat2Z.inj_succ.
      rewrite <- app_assoc. cbn [app].
      f_equal. f_equal; lia.
    + cbn. lia.
    + cbn. lia.
    + exact Hp.
    + exact Hb.
    + cbn [KV.set_page KV.nkey]. unfold INTMAX. lia.
    + cbn [KV.set_page KV.alignsize KV.pagesize].
      change (KV.sum_sizes (KV.set_page k _ _ _) buf) with (KV.sum_sizes k buf).
      lia.
Qed.

(** ** The scan for a breakpoint *)

Lemma take_chunk_stop (k : KV.t) (room nlimit : Z) :
  forall (buf taken : list entry) (used : Z),
    used <= room -> room < used + KV.sum_sizes k buf ->
    Z.of_nat (length taken) + Z.of_nat (length buf) <= nlimit ->
    exists chunk e rest,
      KV.take_chunk k room nlimit buf taken used
      = Some (taken ++ chunk, used + KV.sum_sizes k chunk,
              int_of (KV.esize k e), e :: rest)
      /\ buf = chunk ++ e :: rest
      /\ used + KV.sum_sizes k chunk <= room
      /\ room < used + KV.sum_sizes k chunk + KV.esize k e.
Proof.
  induction buf as [|e buf IH]; intros taken used Hu Hr Hn.
  - cbn in Hr. lia.
  - cbn [KV.take_chunk]. rewrite sum_sizes_cons in Hr.
    replace (Z.of_nat (length taken) =? nlimit) with false
      by (symmetry; apply Z.eqb_neq; cbn [length] in Hn; lia).
    rewrite orb_false_r.
    destruct (Z.gtb_spec (used + KV.esize k e) room) as [Hc|Hc].
    + exists [], e, buf. rewrite app_nil_r. cbn [KV.sum_sizes fold_right app].
      rewrite Z.add_0_r. repeat split; [lia|lia].
    + destruct (IH (taken ++ [e]) (used + KV.esize k e) ltac:(lia) ltac:(lia))
        as [chunk [e' [rest [Ht [Hbuf [H1 H2]]]]]].
      { rewrite length_app. cbn [length] in *. lia. }
      exists (e :: chunk), e', rest. rewrite Ht, <- app_assoc. cbn [app].
      rewrite sum_sizes_cons, Hbuf.
      repeat split; try lia. f_equal. f_equal. f_equal. f_equal. lia.
Qed.

(** ** In chunks, or one by one *)

Lemma add_chunks_each (fuel : nat) :
  forall (k : KV.t) (buf : list entry) (nlimit : Z),
    0 <= KV.alignsize k <= KV.pagesize k -> 0 <= KV.nkey k ->
    KV.pagesize k < 2 ^ 63 -> Forall (sized k) buf ->
    Z.of_nat (length buf) <= nlimit -> KV.nkey k + nlimit <= INTMAX ->
    (2 * length buf + (if (KV.alignsize k =? 0)%Z then 0 else 1) < fuel)%nat ->
    KV.add_chunks fuel k buf (KV.sum_sizes k buf) nlimit = KV.add_each k buf.
Proof.
  induction fuel as [|fuel IH];
    intros k buf nlimit [A0 Ar] N0 Hp Hs Hn Hl Hfuel; [lia|].
  pose proof (sum_sizes_sized k buf Hs) as Hsum.
  assert (Hlen : Z.of_nat (length buf) <= 2147483647)
    by (unfold INTMAX in Hl; lia).
  unfold INTMAX in *.
  cbn [KV.add_chunks].
  rewrite (int_of_small (Z.of_nat (length buf))) by lia.
  replace (Z.of_nat (length buf) >? nlimit) with false
    by (symmetry; rewrite Z.gtb_ltb; apply Z.ltb_ge; lia).
  rewrite orb_false_r.
  destruct (Z.le_gt_cases (KV.alignsize k + KV.sum_sizes k buf) (KV.pagesize k))
    as [Hfit|Hbig].
  - rewrite (u64_small (KV.alignsize k + KV.sum_sizes k buf)) by lia.
    replace (KV.alignsize k + KV.sum_sizes k buf >? KV.pagesize k) with false
      by (symmetry; rewrite Z.gtb_ltb; apply Z.ltb_ge; lia).
    rewrite int_of_small by lia.
    symmetry. apply add_each_fits; try assumption. unfold INTMAX. lia.
  - rewrite (u64_small (KV.alignsize k + KV.sum_sizes k buf)) by lia.
    replace (KV.alignsize k + KV.sum_sizes k buf >? KV.pagesize k) with true
      by (symmetry; rewrite Z.gtb_ltb; apply Z.ltb_lt; lia).
    destruct (take_chunk_stop k (KV.pagesize k - KV.alignsize k) nlimit buf [] 0
                ltac:(lia) ltac:(lia) ltac:(cbn [length]; lia))
      as [chunk [e [rest [Ht [Hbuf [H1 H2]]]]]].
    rewrite Ht. cbn [app]. rewrite Z.add_0_l in H1, H2. rewrite Z.add_0_l.
    assert (Hsplit : Forall (sized k) chunk /\ Forall (sized k) (e :: rest))
      by (rewrite Hbuf in Hs; now apply Forall_app in Hs).
    destruct Hsplit as [Hc Hr].
    assert (He : sized k e) by (now inversion Hr).
    pose proof (sum_sizes_sized k chunk Hc) as Hcsum.
    pose proof (sum_sizes_sized k (e :: rest) Hr) as Hrsum.
    assert (Hlens : length buf = (length chunk + length (e :: rest))%nat)
      by (rewrite Hbuf at 1; apply length_app).
    assert (Hsums : KV.sum_sizes k buf
                    = KV.sum_sizes k chunk + KV.sum_sizes k (e :: rest))
      by (rewrite Hbuf at 1; apply sum_sizes_app).
    unfold sized in He.
    rewrite (int_of_small (KV.esize k e)), (u64_small (KV.esize k e)) by lia.
    rewrite (int_of_small (KV.nkey k + Z.of_nat (length chunk))) by lia.
    rewrite (u64_small (KV.alignsize k + KV.sum_sizes k chunk)) by lia.
    set (k1 := KV.set_page k (KV.nkey k + Z.of_nat (length chunk))
                 (KV.alignsize k + KV.sum_sizes k chunk) (KV.page k ++ chunk)).
    assert (E1 : KV.add_each k chunk = Ok k1).
    { apply add_each_fits; try assumption; unfold INTMAX; lia. }
    assert (ER : KV.add_each k buf = (x <- KV.add k1 e ;; KV.add_each x rest)).
    { rewrite Hbuf, add_each_app, E1. reflexivity. }
    rewrite ER.
    assert (He1 : sized k1 e) by exact He.
    assert (A1 : 0 <= KV.alignsize k1 <= KV.pagesize k1) by (cbn; lia).
    assert (P1 : KV.pagesize k1 < 2 ^ 63) by exact Hp.
    destruct (Z.le_gt_cases (KV.esize k e) (KV.pagesize k)) as [Hefit|Hebig].
    + replace (KV.esize k e >? KV.pagesize k) with false
        by (symmetry; rewrite Z.gtb_ltb; apply Z.ltb_ge; lia).
      replace (u64 (KV.sum_sizes k buf - KV.sum_sizes k chunk))
        with (KV.sum_sizes (KV.flush k1) (e :: rest)).
      2:{ change (KV.sum_sizes (KV.flush k1) (e :: rest))
            with (KV.sum_sizes k (e :: rest)).
          rewrite u64_small; lia. }
      rewrite IH.
      * cbn [KV.add_each].
        rewrite (add_flush k1 e He1 A1 P1).
        -- rewrite (add_put (KV.flush k1) e He1).
           ++ reflexivity.
           ++ cbn. lia.
           ++ exact Hp.
           ++ change (KV.alignsize (KV.flush k1)) with 0.
              change (KV.pagesize (KV.flush k1)) with (KV.pagesize k).
              change (KV.esize (KV.flush k1) e) with (KV.esize k e). lia.
           ++ cbn. unfold INTMAX. lia.
        -- change (KV.pagesize k1) with (KV.pagesize k).
           change (KV.alignsize k1)
             with (KV.alignsize k + KV.sum_sizes k chunk).
           change (KV.esize k1 e) with (KV.esize k e). lia.
        -- change (KV.alignsize k1)
             with (KV.alignsize k + KV.sum_sizes k chunk).
           intros Hz.
           assert (KV.alignsize k = 0 /\ KV.sum_sizes k chunk = 0) by lia. lia.
        -- exact Hefit.
      * change (KV.alignsize (KV.flush k1)) with 0.
        change (KV.pagesize (KV.flush k1)) with (KV.pagesize k). lia.
      * cbn. lia.
      * exact Hp.
      * exact Hr.
      * unfold INTMAX. lia.
      * cbn. unfold INTMAX. lia.
      * change (KV.alignsize (KV.flush k1)) with 0. change (0 =? 0) with true.
        cbv iota. revert Hfuel. destruct chunk as [|c chunk].
        -- cbn [KV.sum_sizes fold_right] in H2.
           destruct (Z.eqb_spec (KV.alignsize k) 0) as [Hz|Hz]; [lia|].
           cbn [length] in *. lia.
        -- cbn [length] in *. destruct (KV.alignsize k =? 0); lia.
    + replace (KV.esize k e >? KV.pagesize k) with true
        by (symmetry; rewrite Z.gtb_ltb; apply Z.ltb_lt; lia).
      rewrite (add_too_big k1 e He1 A1 Hebig).
      reflexivity.
Qed.

(** [add(int n, char *buf)] is [n] calls of [add] for one pair: the same
    container comes out, or the same refusal. *)
Theorem bulk_add_is_add_each (k : KV.t) (buf : list entry) :
  tidy k -> 0 <= KV.alignsize k -> KV.pagesize k < 2 ^ 63 ->
  Forall (sized k) buf ->
  KV.nkey k + Z.of_nat (length buf) <= INTMAX ->
  KV.add_buf k buf = KV.add_each k buf.
Proof.
  intros T A0 Hp Hs Hn.
  assert (N0 : 0 <= KV.nkey k) by (rewrite (tidy_nkey k T); lia).
  pose proof (sum_sizes_sized k buf Hs) as Hsum.
  pose proof (tidy_room k T) as Hr.
  unfold INTMAX in Hn.
  unfold KV.add_buf, KV.add_sized, INTMAX.
  rewrite u64_small, int_of_small by lia.
  apply add_chunks_each; try assumption; try (unfold INTMAX; lia).
  destruct (KV.alignsize k =? 0); lia.
Qed.

(** ** What [add] keeps *)

Lemma put_tidy k e :
  tidy k -> 0 <= KV.alignsize k -> KV.pagesize k < 2 ^ 63 -> sized k e ->
  KV.alignsize k + KV.esize k e <= KV.pagesize k -> KV.nkey k < INTMAX ->
  tidy (KV.put k e (KV.esize k e))
  /\ 0 <= KV.alignsize (KV.put k e (KV.esize k e))
  /\ KV.nkey (KV.put k e (KV.esize k e)) = KV.nkey k + 1.
Proof.
  intros [Ts Tn Tr] A0 Hp He Hfit Hn. unfold sized in He. unfold INTMAX in Hn.
  unfold KV.put.
  assert (N0 : 0 <= KV.nkey k) by lia.
  cbn [KV.set_page KV.alignsize KV.nkey KV.page KV.pagesize].
  rewrite int_of_small, u64_small by lia.
  split; [|split; [lia|reflexivity]].
  constructor; cbn [KV.set_page KV.alignsize KV.nkey KV.page KV.pagesize].
  - change (KV.sum_sizes (KV.set_page k _ _ _) (KV.page k ++ [e]))
      with (KV.sum_sizes k (KV.page k ++ [e])).
    rewrite sum_sizes_app, sum_sizes_cons, Ts. cbn [KV.sum_sizes fold_right]. lia.
  - rewrite length_app, Nat2Z.inj_add, Tn. reflexivity.
  - lia.
Qed.

Lemma flush_tidy k :
  0 <= KV.pagesize k ->
  tidy (KV.flush k) /\ KV.alignsize (KV.flush k) = 0 /\ KV.nkey (KV.flush k) = 0.
Proof.
  intros Hp. split; [|split; reflexivity].
  constructor; cbn; try reflexivity. exact Hp.
Qed.

(** The two ways [add] succeeds. *)
Lemma add_cases k e k' :
  tidy k -> 0 <= KV.alignsize k -> KV.pagesize k < 2 ^ 63 -> sized k e ->
  KV.nkey k < INTMAX -> KV.add k e = Ok k' ->
  (KV.alignsize k + KV.esize k e <= KV.pagesize k
   /\ k' = KV.put k e (KV.esize k e))
  \/ (KV.pagesize k < KV.alignsize k + KV.esize k e
      /\ KV.alignsize k <> 0 /\ KV.esize k e <= KV.pagesize k
      /\ k' = KV.put (KV.flush k) e (KV.esize k e)).
Proof.
  intros T A0 Hp He Hn H. pose proof (tidy_room k T) as Hr.
  assert (A : 0 <= KV.alignsize k <= KV.pagesize k) by lia.
  destruct (Z.le_gt_cases (KV.alignsize k + KV.esize k e) (KV.pagesize k))
    as [Hfit|Hbig].
  - left. split; [exact Hfit|].
    rewrite (add_put k e He A Hp Hfit) in H by lia. now injection H.
  - right. destruct (Z.le_gt_cases (KV.esize k e) (KV.pagesize k)) as [Hf|Hb].
    + assert (Hne : KV.alignsize k <> 0) by lia.
      rewrite (add_flush k e He A Hp Hbig Hne Hf) in H.
      repeat split; try assumption. now injection H.
    + rewrite (add_too_big k e He A Hb) in H. discriminate H.
Qed.

Lemma contents_put k e sz :
  contents (KV.put k e sz) = contents k ++ [e].
Proof. unfold contents, KV.put. cbn. now rewrite app_assoc. Qed.

Lemma contents_flush0 k : contents (KV.flush k) = contents k.
Proof.
  unfold contents, KV.flush. cbn. rewrite concat_app. cbn [concat].
  now rewrite !app_nil_r.
Qed.

Lemma add_tidy k e k' :
  tidy k -> 0 <= KV.alignsize k -> KV.pagesize k < 2 ^ 63 -> sized k e ->
  KV.nkey k < INTMAX -> KV.add k e = Ok k' ->
  tidy k' /\ 0 <= KV.alignsize k' /\ shape k' = shape k
  /\ contents k' = contents k ++ [e] /\ KV.nkey k' <= KV.nkey k + 1.
Proof.
  intros T A0 Hp He Hn H.
  assert (N0 : 0 <= KV.nkey k) by (rewrite (tidy_nkey k T); lia).
  destruct (add_cases k e k' T A0 Hp He Hn H)
    as [[Hfit ->]|[Hbig [Hne [Hf ->]]]].
  - destruct (put_tidy k e T A0 Hp He Hfit Hn) as [T' [A' N']].
    split; [exact T'|]. split; [exact A'|]. split; [reflexivity|].
    split; [apply contents_put|lia].
  - pose proof (tidy_room k T) as Hr.
    destruct (flush_tidy k ltac:(lia)) as [Tf [Af Nf]].
    destruct (put_tidy (KV.flush k) e Tf) as [T' [A' N']].
    + rewrite Af. lia.
    + exact Hp.
    + exact He.
    + rewrite Af. exact Hf.
    + rewrite Nf. unfold INTMAX. lia.
    + split; [exact T'|]. split; [exact A'|]. split; [reflexivity|].
      split; [rewrite contents_put, contents_flush0; reflexivity|].
      change (KV.esize (KV.flush k) e) with (KV.esize k e) in N'.
      rewrite N', Nf. lia.
Qed.

Lemma add_each_tidy (buf : list entry) :
  forall k k',
    tidy k -> 0 <= KV.alignsize k -> KV.pagesize k < 2 ^ 63 ->
    Forall (sized k) buf -> KV.nkey k + Z.of_nat (length buf) <= INTMAX ->
    KV.add_each k buf = Ok k' ->
    tidy k' /\ 0 <= KV.alignsize k' /\ shape k' = shape k
    /\ contents k' = contents k ++ buf
    /\ KV.nkey k' <= KV.nkey k + Z.of_nat (length buf).
Proof.
  induction buf as [|e buf IH]; intros k k' T A0 Hp Hs Hn H.
  - cbn [KV.add_each] in H. injection H as <-. rewrite app_nil_r.
    cbn [length]. split; [exact T|]. split; [exact A0|].
    split; [reflexivity|]. split; [reflexivity|lia].
  - inversion Hs as [|? ? He Hb]; subst. cbn [length] in Hn.
    rewrite Nat2Z.inj_succ in Hn.
    cbn [KV.add_each] in H. apply bind_ok in H. destruct H as [k1 [E1 H]].
    destruct (add_tidy k e k1 T A0 Hp He ltac:(lia) E1)
      as [T1 [A1 [S1 [C1 N1]]]].
    destruct (IH k1 k' T1 A1) as [T' [A' [S' [C' N']]]].
    + unfold shape in S1. injection S1 as _ _ _ ->. exact Hp.
    + eapply Forall_impl; [|exact Hb]. intros x. apply sized_shape. exact S1.
    + lia.
    + exact H.
    + split; [exact T'|]. split; [exact A'|]. split; [now rewrite S'|].
      split; [rewrite C', C1, <- app_assoc; reflexivity|].
      cbn [length]. rewrite Nat2Z.inj_succ. lia.
Qed.

(** ** [add(KeyValue *kv)], lines 321-344

    [formed]: [talign] is what the constructor derives from the two
    alignments. *)
Definition formed (k : KV.t) : Prop :=
  KV.talign k = MAX (MAX (KV.kalign k) (KV.valign k)) 4.

Lemma esize_same k other e :
  formed k -> formed other ->
  KV.kalign k = KV.kalign other -> KV.valign k = KV.valign other ->
  KV.esize other e = KV.esize k e.
Proof.
  intros Fk Fo Hk Hv. unfold KV.esize. unfold formed in Fk, Fo.
  now rewrite Fk, Fo, Hk, Hv.
Qed.

Lemma sum_sizes_same k other l :
  formed k -> formed other ->
  KV.kalign k = KV.kalign other -> KV.valign k = KV.valign other ->
  KV.sum_sizes other l = KV.sum_sizes k l.
Proof.
  intros Fk Fo Hk Hv. unfold KV.sum_sizes.
  induction l as [|e l IH]; [reflexivity|].
  cbn [fold_right]. now rewrite IH, (esize_same k other e Fk Fo Hk Hv).
Qed.

Lemma add_pages_each (other : KV.t) (ps : list (list entry)) :
  forall k,
    tidy k -> 0 <= KV.alignsize k -> KV.pagesize k < 2 ^ 63 ->
    formed k -> formed other ->
    Forall (sized k) (concat ps) ->
    KV.nkey k + Z.of_nat (length (concat ps)) <= INTMAX ->
    KV.add_pages k other ps = KV.add_each k (concat ps).
Proof.
  induction ps as [|p ps IH]; intros k T A0 Hp Fk Fo Hs Hn; [reflexivity|].
  cbn [concat] in Hs, Hn. apply Forall_app in Hs. destruct Hs as [Hsp Hsr].
  rewrite length_app, Nat2Z.inj_add in Hn.
  assert (N0 : 0 <= KV.nkey k) by (rewrite (tidy_nkey k T); lia).
  pose proof (tidy_room k T) as Hr.
  cbn [KV.add_pages concat]. rewrite add_each_app.
  assert (E : (if (KV.kalign k =? KV.kalign other) && (KV.valign k =? KV.valign other)
               then KV.add_sized k p (KV.sum_sizes other p)
               else KV.add_each k p)
              = KV.add_each k p).
  { destruct (Z.eqb_spec (KV.kalign k) (KV.kalign other)) as [Hk|Hk];
      [|reflexivity].
    destruct (Z.eqb_spec (KV.valign k) (KV.valign other)) as [Hv|Hv];
      [|reflexivity].
    cbn [andb]. rewrite (sum_sizes_same k other p Fk Fo Hk Hv).
    unfold KV.add_sized, INTMAX. unfold INTMAX in Hn.
    rewrite int_of_small by lia.
    apply add_chunks_each; try assumption; try (unfold INTMAX; lia).
    destruct (KV.alignsize k =? 0); lia. }
  rewrite E. destruct (KV.add_each k p) as [k1|msg] eqn:E1; [|reflexivity].
  cbn [bind].
  destruct (add_each_tidy p k k1 T A0 Hp Hsp ltac:(lia) E1)
    as [T1 [A1 [S1 [_ N1]]]].
  apply IH; try assumption.
  - unfold shape in S1. injection S1 as _ _ _ ->. exact Hp.
  - unfold formed. unfold shape in S1. injection S1 as -> -> -> _. exact Fk.
  - eapply Forall_impl; [|exact Hsr]. intros x. apply sized_shape. exact S1.
  - lia.
Qed.

(** Adding another container adds its records one by one in page order,
    whether the alignments agree (and its pages are added in chunks) or
    not. *)
Theorem add_kv_is_add_each (k other : KV.t) :
  tidy k -> 0 <= KV.alignsize k -> KV.pagesize k < 2 ^ 63 ->
  formed k -> formed other ->
  Forall (sized k) (concat (KV.pages other)) ->
  KV.nkey k + Z.of_nat (length (concat (KV.pages other))) <= INTMAX ->
  KV.add_kv k other = KV.add_each k (concat (KV.pages other)).
Proof. intros. unfold KV.add_kv. now apply add_pages_each. Qed.

(** ** [complete] and [append]

    [append] takes the last page back as the page in memory, with the
    counters its descriptor recorded: it undoes [complete], but for the
    count of all pairs that [complete] has set. *)
Theorem append_undoes_complete (k : KV.t) :
  tidy k -> Z.of_nat (length (KV.page k)) <= INTMAX ->
  KV.append (KV.complete k)
  = KV.set_nkv k (u64 (Z.of_nat (length (contents k)))).
Proof.
  intros [Ts Tn Tr] Hn. unfold INTMAX in Hn.
  unfold KV.append, KV.complete, KV.flush, KV.init_page.
  cbn [KV.set_nkv KV.set_page KV.set_pages KV.pages KV.page KV.nkv KV.kalign
       KV.valign KV.talign KV.nkey KV.alignsize KV.pagesize].
  rewrite rev_app_distr. cbn [rev app]. rewrite rev_involutive.
  rewrite int_of_small by lia.
  unfold KV.set_nkv, KV.set_page, KV.set_pages.
  cbn [KV.pages KV.page KV.nkv KV.kalign KV.valign KV.talign KV.nkey
       KV.alignsize KV.pagesize].
  rewrite concat_app. cbn [concat]. rewrite app_nil_r.
  change (KV.sum_sizes (KV.mk _ _ _ _ _ _ _ _ _) (KV.page k))
    with (KV.sum_sizes k (KV.page k)).
  rewrite <- Ts, <- Tn. unfold contents. reflexivity.
Qed.

(** ** Records that fit a page are never refused *)

Lemma fits_sized k e : KV.pagesize k <= INTMAX -> fits k e -> sized k e.
Proof. unfold fits, sized, INTMAX. lia. Qed.

Lemma add_total k e :
  tidy k -> 0 <= KV.alignsize k -> KV.pagesize k <= INTMAX -> fits k e ->
  KV.nkey k < INTMAX -> exists k', KV.add k e = Ok k'.
Proof.
  intros T A0 Hp Hf Hn. pose proof (tidy_room k T) as Hr.
  pose proof (fits_sized k e Hp Hf) as He. unfold fits in Hf.
  assert (Hp' : KV.pagesize k < 2 ^ 63) by (unfold INTMAX in Hp; lia).
  assert (A : 0 <= KV.alignsize k <= KV.pagesize k) by lia.
  destruct (Z.le_gt_cases (KV.alignsize k + KV.esize k e) (KV.pagesize k))
    as [Hfit|Hbig].
  - eexists. apply (add_put k e He A Hp' Hfit). lia.
  - eexists. apply (add_flush k e He A Hp' Hbig); lia.
Qed.

Lemma add_each_total (buf : list entry) :
  forall k,
    tidy k -> 0 <= KV.alignsize k -> KV.pagesize k <= INTMAX ->
    Forall (fits k) buf -> KV.nkey k + Z.of_nat (length buf) <= INTMAX ->
    exists k',
      KV.add_each k buf = Ok k' /\ tidy k' /\ 0 <= KV.alignsize k'
      /\ shape k' = shape k /\ contents k' = contents k ++ buf.
Proof.
  induction buf as [|e buf IH]; intros k T A0 Hp Hf Hn.
  - exists k. rewrite app_nil_r. cbn [KV.add_each]. auto.
  - inversion Hf as [|? ? He Hb]; subst. cbn [length] in Hn.
    rewrite Nat2Z.inj_succ in Hn.
    assert (Hp' : KV.pagesize k < 2 ^ 63) by (unfold INTMAX in Hp; lia).
    destruct (add_total k e T A0 Hp He ltac:(lia)) as [k1 E1].
    destruct (add_tidy k e k1 T A0 Hp' (fits_sized k e Hp He) ltac:(lia) E1)
      as [T1 [A1 [S1 [C1 N1]]]].
    destruct (IH k1 T1 A1) as [k' [E' [T' [A' [S' C']]]]].
    + unfold shape in S1. injection S1 as _ _ _ ->. exact Hp.
    + eapply Forall_impl; [|exact Hb]. intros x. apply fits_shape. exact S1.
    + lia.
    + exists k'. cbn [KV.add_each]. rewrite E1. cbn [bind].
      split; [exact E'|]. split; [exact T'|]. split; [exact A'|].
      split; [now rewrite S'|]. rewrite C', C1, <- app_assoc. reflexivity.
Qed.

(** ** The pages [add] finishes *)

(** No finished page is empty or over the page size, and once a page is
    finished the page in memory is not empty. *)
Record filling (k : KV.t) : Prop := {
  fl_pages : Forall (fun p => p <> [] /\ KV.sum_sizes k p <= KV.pagesize k)
                    (KV.pages k);
  fl_page : KV.pages k <> [] -> KV.page k <> []
}.

Lemma new_filling memsize ka va : filling (KV.new memsize ka va).
Proof. constructor; cbn; [constructor|congruence]. Qed.

Lemma add_filling k e k' :
  tidy k -> 0 <= KV.alignsize k -> KV.pagesize k < 2 ^ 63 -> sized k e ->
  KV.nkey k < INTMAX -> filling k -> KV.add k e = Ok k' -> filling k'.
Proof.
  intros T A0 Hp He Hn [Fp Fl] H.
  destruct (add_cases k e k' T A0 Hp He Hn H)
    as [[Hfit ->]|[Hbig [Hne [Hf ->]]]].
  - constructor.
    + exact Fp.
    + intros _. cbn. now destruct (KV.page k).
  - constructor.
    + cbn [KV.put KV.flush KV.init_page KV.set_page KV.set_pages KV.pages].
      apply Forall_app. split; [exact Fp|].
      constructor; [|constructor]. split.
      * intros Hnil. apply Hne. rewrite (tidy_size k T), Hnil. reflexivity.
      * change (KV.sum_sizes k (KV.page k) <= KV.pagesize k).
        rewrite <- (tidy_size k T). apply (tidy_room k T).
    + intros _. cbn. discriminate.
Qed.

Lemma add_each_filling (buf : list entry) :
  forall k k',
    tidy k -> 0 <= KV.alignsize k -> KV.pagesize k < 2 ^ 63 ->
    Forall (sized k) buf -> KV.nkey k + Z.of_nat (length buf) <= INTMAX ->
    filling k -> KV.add_each k buf = Ok k' -> filling k'.
Proof.
  induction buf as [|e buf IH]; intros k k' T A0 Hp Hs Hn F H.
  - cbn [KV.add_each] in H. now injection H as <-.
  - inversion Hs as [|? ? He Hb]; subst. cbn [length] in Hn.
    rewrite Nat2Z.inj_succ in Hn.
    cbn [KV.add_each] in H. apply bind_ok in H. destruct H as [k1 [E1 H]].
    destruct (add_tidy k e k1 T A0 Hp He ltac:(lia) E1)
      as [T1 [A1 [S1 [C1 N1]]]].
    apply (IH k1 k' T1 A1); try assumption.
    + unfold shape in S1. injection S1 as _ _ _ ->. exact Hp.
    + eapply Forall_impl; [|exact Hb]. intros x. apply sized_shape. exact S1.
    + lia.
    + apply (add_filling k e k1 T A0 Hp He ltac:(lia) F E1).
Qed.

(** ** Completed containers *)

(** What [complete] leaves: nothing on the page in memory, and pages
    within the page size. *)
Record completed (k : KV.t) : Prop := {
  cp_page : KV.page k = [];
  cp_pages : KV.pages k <> [];
  cp_room : Forall (fun p => 0 <= KV.sum_sizes k p <= KV.pagesize k)
                   (KV.pages k);
  cp_count : Forall (fun p => Z.of_nat (length p) <= INTMAX) (KV.pages k)
}.

Lemma removelast_app_one {A : Type} (l : list A) (x : A) :
  rev (l ++ [x]) = x :: rev l.
Proof. rewrite rev_app_distr. reflexivity. Qed.

Lemma append_spec (k : KV.t) :
  completed k -> 0 <= KV.pagesize k ->
  tidy (KV.append k) /\ shape (KV.append k) = shape k
  /\ contents (KV.append k) = concat (KV.pages k)
  /\ 0 <= KV.alignsize (KV.append k).
Proof.
  intros [Cp Cn Cr Cc] Hp. unfold KV.append.
  destruct (rev (KV.pages k)) as [|last before] eqn:Hrev.
  - exfalso. apply Cn. apply (f_equal (@rev _)) in Hrev.
    rewrite rev_involutive in Hrev. exact Hrev.
  - assert (Hps : KV.pages k = rev before ++ [last]).
    { apply (f_equal (@rev _)) in Hrev. rewrite rev_involutive in Hrev.
      exact Hrev. }
    rewrite Hps in Cr, Cc. apply Forall_app in Cr, Cc.
    destruct Cr as [_ Cr], Cc as [_ Cc].
    inversion Cr as [|? ? Hr _]; subst. inversion Cc as [|? ? Hc _]; subst.
    unfold INTMAX in Hc.
    split; [|split; [reflexivity|split]].
    + constructor; cbn [KV.set_page KV.alignsize KV.nkey KV.page KV.pagesize
                        KV.set_pages].
      * reflexivity.
      * rewrite int_of_small by lia. reflexivity.
      * apply Hr.
    + unfold contents. cbn [KV.set_page KV.set_pages KV.pages KV.page].
      rewrite Hps, concat_app. cbn [concat]. now rewrite app_nil_r.
    + cbn [KV.set_page KV.alignsize]. apply Hr.
Qed.

Lemma complete_pages_of (k : KV.t) :
  KV.pages (KV.complete k) = KV.pages k ++ [KV.page k].
Proof. reflexivity. Qed.

Lemma complete_gives_completed (k : KV.t) :
  tidy k -> 0 <= KV.alignsize k ->
  Forall (fun p => 0 <= KV.sum_sizes k p <= KV.pagesize k) (KV.pages k) ->
  Forall (fun p => Z.of_nat (length p) <= INTMAX) (KV.pages k) ->
  KV.nkey k <= INTMAX ->
  completed (KV.complete k).
Proof.
  intros T A0 Hr Hc Hn. constructor.
  - reflexivity.
  - rewrite complete_pages_of. now destruct (KV.pages k).
  - rewrite complete_pages_of. apply Forall_app. split; [exact Hr|].
    constructor; [|constructor].
    change (0 <= KV.sum_sizes k (KV.page k) <= KV.pagesize k).
    rewrite <- (tidy_size k T). split; [exact A0|apply (tidy_room k T)].
  - rewrite complete_pages_of. apply Forall_app. split; [exact Hc|].
    constructor; [|constructor]. rewrite <- (tidy_nkey k T). exact Hn.
Qed.

(** ** A container of 40 bytes

    With alignments of four bytes a record of a one-byte key and a two-byte
    value takes 16 bytes, and a page of 40 bytes holds two of them. *)
Definition pair_of (i : Z) : entry := mkEntry [i] [i; i].

Definition five_pairs : list entry := List.map pair_of [1; 2; 3; 4; 5].

Lemma new_tidy memsize ka va : 0 <= memsize -> tidy (KV.new memsize ka va).
Proof. intros H. constructor; cbn; try reflexivity. exact H. Qed.

Lemma pair_of_sized (i : Z) : sized (KV.new 40 4 4) (pair_of i).
Proof. unfold sized. vm_compute. split; reflexivity. Qed.

Lemma bulk_add_is_add_each_witness :
  KV.add_buf (KV.new 40 4 4) five_pairs = KV.add_each (KV.new 40 4 4) five_pairs
  /\ option_map KV.pages
       (match KV.add_buf (KV.new 40 4 4) five_pairs with
        | Ok k => Some k
        | Fatal _ => None
        end)
     = Some [[pair_of 1; pair_of 2]; [pair_of 3; pair_of 4]].
Proof.
  split; [|reflexivity].
  apply (bulk_add_is_add_each (KV.new 40 4 4) five_pairs).
  - apply new_tidy. lia.
  - cbn. lia.
  - cbn. lia.
  - repeat (apply Forall_cons; [apply pair_of_sized|]). apply Forall_nil.
  - vm_compute. discriminate.
Defined.

(** A completed container of two pages. *)
Definition two_pages : KV.t :=
  KV.mk 3 4 4 4 0 0 [] 40 [[pair_of 1; pair_of 2]; [pair_of 3]].

Lemma add_kv_is_add_each_witness :
  KV.add_kv (KV.new 40 4 4) two_pages
  = KV.add_each (KV.new 40 4 4) [pair_of 1; pair_of 2; pair_of 3].
Proof.
  apply (add_kv_is_add_each (KV.new 40 4 4) two_pages).
  - apply new_tidy. lia.
  - cbn. lia.
  - cbn. lia.
  - reflexivity.
  - reflexivity.
  - repeat (apply Forall_cons; [apply pair_of_sized|]). apply Forall_nil.
  - vm_compute. discriminate.
Defined.

(** A container with one page written and one pair in memory. *)
Definition one_and_a_half : KV.t :=
  KV.mk 0 4 4 4 1 16 [pair_of 3] 40 [[pair_of 1; pair_of 2]].

Lemma append_undoes_complete_witness :
  KV.append (KV.complete one_and_a_half) = KV.set_nkv one_and_a_half 3.
Proof.
  apply (append_undoes_complete one_and_a_half).
  - constructor; [reflexivity|reflexivity|vm_compute; discriminate].
  - vm_compute. discriminate.
Defined.
End ContainerFacts.

(** * More about the driver *)

Module DriverFacts.
Import CInt CIntFacts MapReduce MapReduceFacts ContainerFacts.

(** The records a rank holds, in page order. *)
Definition held (s : t) : list entry :=
  match kv s with
  | Some k => concat (KV.pages k)
  | None => []
  end.

(** ** [add(MapReduce *mr)], lines 311-330 *)

(** The rank-local part of [add]: the pairs of the other object come
    behind those the rank holds, in their order; the other settings of
    the rank stay. *)
Theorem add_appends (mr s : t) (k other : KV.t) :
  kv s = Some k -> kv mr = Some other -> allocated s = true ->
  completed k -> formed k -> formed other ->
  0 <= KV.pagesize k <= INTMAX ->
  Forall (fits k) (concat (KV.pages other)) ->
  Z.of_nat (length (held s)) + Z.of_nat (length (held mr)) <= INTMAX ->
  exists k',
    add_rank (Another mr) s = Ok (set_kv s (Some k'))
    /\ concat (KV.pages k') = held s ++ held mr.
Proof.
  intros Hk Ho Ha Cp Fk Fo Hp Hf Hn. unfold held in *. rewrite Hk, Ho in *.
  destruct (append_spec k Cp ltac:(lia)) as [Ta [Sa [Ca Aa]]].
  assert (Hpa : KV.pagesize (KV.append k) = KV.pagesize k).
  { unfold shape in Sa. now injection Sa. }
  assert (Hna : KV.nkey (KV.append k) <= Z.of_nat (length (concat (KV.pages k)))).
  { rewrite (tidy_nkey _ Ta), <- Ca. unfold contents. rewrite length_app. lia. }
  assert (Hfa : Forall (fits (KV.append k)) (concat (KV.pages other))).
  { eapply Forall_impl; [|exact Hf]. intros x. apply fits_shape. exact Sa. }
  destruct (add_each_total (concat (KV.pages other)) (KV.append k) Ta Aa)
    as [k' [E' [T' [A' [S' C']]]]].
  - rewrite Hpa. lia.
  - exact Hfa.
  - lia.
  - exists (KV.complete k'). split.
    + unfold add_rank. rewrite Hk, Ho, Ha. cbn [bind].
      unfold KV.add_kv. rewrite (add_pages_each other (KV.pages other)).
      * rewrite E'. reflexivity.
      * exact Ta.
      * exact Aa.
      * rewrite Hpa. unfold INTMAX in Hp. lia.
      * unfold formed. unfold shape in Sa. injection Sa as -> -> -> _. exact Fk.
      * exact Fo.
      * eapply Forall_impl; [|exact Hfa]. intros x. apply fits_sized.
        rewrite Hpa. lia.
      * lia.
    + rewrite complete_contents, C', Ca. reflexivity.
Qed.

(** ** Sorting what [add] has filled *)

Lemma size_in_page k (p : list entry) (e : entry) :
  Forall (fun x => 0 <= KV.esize k x) p -> In e p ->
  KV.esize k e <= KV.sum_sizes k p.
Proof.
  induction 1 as [|x p Hx Hp IH]; intros Hin; [contradiction|].
  rewrite sum_sizes_cons.
  assert (0 <= KV.sum_sizes k p).
  { clear - Hp. induction Hp as [|y p Hy _ IH]; [cbn; lia|].
    rewrite sum_sizes_cons. lia. }
  destruct Hin as [<-|Hin]; [lia|]. specialize (IH Hin). lia.
Qed.

Lemma twelve_each k (p : list entry) :
  Forall (fun x => 12 <= KV.esize k x) p ->
  12 * Z.of_nat (length p) <= KV.sum_sizes k p.
Proof.
  induction 1 as [|x p Hx _ IH]; [cbn; lia|].
  rewrite sum_sizes_cons. cbn [length]. rewrite Nat2Z.inj_succ. lia.
Qed.

Lemma length_pages {A : Type} (ll : list (list A)) :
  Forall (fun r => r <> []) ll -> (length ll <= length (concat ll))%nat.
Proof.
  induction 1 as [|r ll Hr _ IH]; [cbn; lia|].
  cbn [concat length]. rewrite length_app. destruct r; [congruence|].
  cbn [length]. lia.
Qed.

(** A container that [add] has filled with records of twelve bytes or
    more (some byte of key or value, at alignment four), each of which
    fits a page of the spools, is one [sort_kv] can sort, once
    completed. *)
Lemma filled_sortable (s : t) (k : KV.t) :
  tidy k -> filling k -> shape k = shape (new_kv s) ->
  Forall (fun e => 12 <= KV.esize k e) (contents k) ->
  Forall (fun e => KV.esize k e <= memspool s) (contents k) ->
  memquarter s <= INTMAX -> Z.of_nat (length (contents k)) < INTMAX ->
  sortable s (KV.complete k).
Proof.
  intros T [Fp Fl] Sh H12 Hz Hq Hn.
  assert (Hps : KV.pagesize k = memquarter s).
  { unfold shape in Sh. now injection Sh. }
  unfold contents in H12, Hn. apply Forall_app in H12.
  destruct H12 as [H12p H12c].
  assert (Hne : Forall (fun p => p <> []) (KV.pages k)).
  { eapply Forall_impl; [|exact Fp]. now intros p [Hp _]. }
  pose proof (length_pages _ Hne) as Hlen.
  rewrite length_app in Hn.
  assert (Hall : forall p, In p (KV.pages k ++ [KV.page k]) ->
                           KV.sum_sizes k p <= KV.pagesize k
                           /\ Forall (fun e => 12 <= KV.esize k e) p).
  { intros p Hin. apply in_app_or in Hin. destruct Hin as [Hin|[<-|[]]].
    - rewrite Forall_forall in Fp. split; [apply (Fp p Hin)|].
      apply Forall_forall. intros e He. rewrite Forall_forall in H12p.
      apply H12p. apply in_concat. now exists p.
    - split; [|exact H12c]. rewrite <- (tidy_size k T). apply (tidy_room k T). }
  constructor; rewrite ?complete_pages_of.
  - rewrite length_app. cbn [length]. lia.
  - apply forallb_forall. intros p Hin. destruct (Hall p Hin) as [Hr Hs].
    unfold index_arrays_fit. apply Z.leb_le.
    pose proof (twelve_each k p Hs). lia.
  - intros Hgt. apply Forall_app. split; [exact Hne|].
    constructor; [|constructor]. apply Fl.
    rewrite length_app in Hgt. cbn [length] in Hgt.
    destruct (KV.pages k); [cbn [length] in Hgt; lia|discriminate].
  - intros _. rewrite concat_app. cbn [concat]. rewrite app_nil_r.
    eapply Forall_impl; [|exact Hz]. cbn beta. intros e He.
    rewrite (esize_shape k (new_kv s) e) by (symmetry; exact Sh). exact He.
  - intros _. apply Forall_forall. intros e He. apply in_concat in He.
    destruct He as [p [Hin He]]. destruct (Hall p Hin) as [Hr Hs].
    unfold fits. rewrite (esize_shape k (new_kv s) e) by (symmetry; exact Sh).
    change (KV.pagesize (new_kv s)) with (memquarter s). rewrite <- Hps.
    assert (H0 : Forall (fun x => 0 <= KV.esize k x) p).
    { eapply Forall_impl; [|exact Hs]. cbn beta. intros x Hx. lia. }
    pose proof (size_in_page k p e H0 He).
    rewrite Forall_forall in Hs. specialize (Hs e He). cbn beta in Hs. lia.
  - intros _. exact Hq.
  - intros _. rewrite concat_app. cbn [concat]. rewrite app_nil_r, length_app.
    lia.
Qed.

(** [add] after [add] into a new container, [complete], and [sort_kv],
    with a comparison that is a total preorder, a [qsort] that sorts and
    spools that hand back the records that fit their page ([spooling]):
    when the records have an [int] size of twelve bytes or more, so that
    the index arrays of every page fit the memory quarter, when each of
    them fits a page of the spools ([memspool] bytes), they are fewer
    than [INTMAX] and the memory quarter is an [int], the sort returns
    with the added records in order of the chosen field. *)
Theorem sort_after_adds {E : Externals} (compare : comparison) (flag : Z)
    (s : t) (buf : list entry) (k : KV.t) :
  total_order compare -> sorts qsort -> spooling s ->
  0 <= memquarter s <= INTMAX ->
  Z.of_nat (length buf) < INTMAX ->
  Forall (fun e => 12 <= KV.esize (new_kv s) e < 2 ^ 31) buf ->
  Forall (fun e => KV.esize (new_kv s) e <= memspool s) buf ->
  KV.add_each (new_kv s) buf = Ok k ->
  exists s' k',
    sort_kv compare flag s (KV.complete k) = Ok s' /\ kv s' = Some k'
    /\ Permutation buf (concat (KV.pages k'))
    /\ StronglySorted (by_field compare flag) (concat (KV.pages k')).
Proof.
  intros order_ok qsort_ok spool_ok Hq Hn Hs Hz H.
  assert (T0 : tidy (new_kv s)) by (constructor; cbn; try reflexivity; lia).
  assert (Hsz : Forall (sized (new_kv s)) buf).
  { eapply Forall_impl; [|exact Hs]. cbn beta. unfold sized. intros x Hx. lia. }
  assert (Hp : KV.pagesize (new_kv s) < 2 ^ 63)
    by (change (KV.pagesize (new_kv s)) with (memquarter s);
        unfold INTMAX in Hq; lia).
  destruct (add_each_tidy buf (new_kv s) k T0 ltac:(cbn; lia) Hp Hsz
              ltac:(cbn; lia) H) as [T [A [Sh [C N]]]].
  pose proof (add_each_filling buf (new_kv s) k T0 ltac:(cbn; lia) Hp Hsz
                ltac:(cbn; lia) (new_filling _ _ _) H) as F.
  change (contents (new_kv s)) with (@nil entry) in C. cbn [app] in C.
  assert (S : sortable s (KV.complete k)).
  { apply (filled_sortable s k T F Sh).
    - rewrite C. eapply Forall_impl; [|exact Hs]. cbn beta. intros x Hx.
      rewrite (esize_shape (new_kv s) k x Sh). lia.
    - rewrite C. eapply Forall_impl; [|exact Hz]. cbn beta. intros x Hx.
      rewrite (esize_shape (new_kv s) k x Sh). exact Hx.
    - lia.
    - rewrite C. exact Hn. }
  destruct (sort_kv_spec compare flag order_ok qsort_ok s
              (KV.complete k) spool_ok S) as [s' [k' [H1 [H2 [H3 H4]]]]].
  exists s', k'. split; [exact H1|]. split; [exact H2|].
  split; [|exact H4]. rewrite complete_contents, C in H3. exact H3.
Qed.

(** ** [sort_values(appcompare)], lines 1511-1524 *)

(** What [sort_values] leaves on a rank: the records it held, with the
    values in order from page to page. *)
Definition sorted_by_value (compare : comparison) (s s' : t) : Prop :=
  exists k k',
    kv s = Some k /\ kv s' = Some k'
    /\ Permutation (concat (KV.pages k)) (concat (KV.pages k'))
    /\ StronglySorted (fun a b => compare (e_value a) (e_value b) <= 0)
         (concat (KV.pages k')).

(** [sort_values] with a comparison that is a total preorder, a [qsort]
    that sorts and spools that hand back the records that fit their page
    ([spooling]), on ranks whose containers are [ready]: a KeyValue of one
    page or more, their number an [int], on every page at most a twelfth
    of the memory quarter in records (the index arrays fit), and, with
    more than one page, no empty page, records of a size above zero that
    fit a page of the spools and a page of the new container, and a
    memory quarter and a number of records that are [int]s.  The call
    returns, and every rank keeps its records, now with the values in
    order across its pages. *)
Theorem sort_values_sorts {E : Externals} (compare : comparison) (g : group) :
  total_order compare -> sorts qsort -> Forall spooling g ->
  Forall ready g ->
  exists n g',
    sort_values compare g = Ok (n, g')
    /\ Forall2 (sorted_by_value compare) g g'.
Proof.
  intros order_ok qsort_ok spool_ok Hg. unfold sort_values, each. cbv beta.
  destruct (each_from_rel
              (fun _ : Z =>
                 sort_rank "Cannot sort_values without KeyValue" compare 1)
              (fun s => spooling s /\ ready s) (sorted_by_value compare))
    with (g := g) (me := 0)
    as [g1 [E1 R1]].
  - intros me s [Hsp [k [Hk Hst]]].
    destruct (sort_rank_spec compare 1 order_ok qsort_ok
                "Cannot sort_values without KeyValue" s k Hsp Hk Hst)
      as [s' [k' [H1 [H2 [H3 H4]]]]].
    exists s'. split; [exact H1|]. exists k, k'.
    split; [exact Hk|]. split; [exact H2|]. split; [exact H3|exact H4].
  - apply Forall_and; [exact spool_ok|exact Hg].
  - rewrite E1. cbn [bind].
    destruct (stats_total "Sort_values" 0 g1) as [g2 E2].
    + apply (Forall2_right _ _ _ _ R1). intros a b [k [k' [_ [Hb _]]]].
      change (has_kv b). unfold has_kv. rewrite Hb. discriminate.
    + rewrite E2. cbn [bind]. exists (nkeyall_kv g2), g2.
      split; [reflexivity|]. apply each_Forall2 in E2.
      eapply Forall2_compose; [|exact R1|exact E2].
      intros a b c [k [k' [Ha [Hb [Hp Hso]]]]] [me [n Hst]].
      apply stats_rank_keeps in Hst. destruct Hst as [Hkv _].
      exists k, k'. rewrite Hkv. auto.
Qed.

(** ** [gather(numprocs)], lines 665-733 *)

Lemma add_sized_spec (k : KV.t) (buf : list entry) :
  tidy k -> 0 <= KV.alignsize k ->
  Forall (fits k) buf -> KV.pagesize k <= INTMAX ->
  KV.nkey k + Z.of_nat (length buf) <= INTMAX ->
  exists k',
    KV.add_sized k buf (KV.sum_sizes k buf) = Ok k' /\ tidy k'
    /\ 0 <= KV.alignsize k' /\ shape k' = shape k
    /\ contents k' = contents k ++ buf.
Proof.
  intros T A0 Hf Hp Hn.
  destruct (add_buf_spec k buf T A0 Hf Hp Hn) as [k' [H R]].
  exists k'. split; [|exact R]. unfold KV.add_buf in H.
  pose proof (sum_sizes_nonneg k buf Hf) as H0.
  pose proof (sum_sizes_bound k buf Hf) as Hb.
  assert (Hm : Z.of_nat (length buf) * KV.pagesize k <= 2147483647 * 2147483647).
  { unfold INTMAX in *. destruct (Z.le_gt_cases (KV.pagesize k) 0); [nia|].
    assert (0 <= KV.nkey k) by (rewrite (tidy_nkey k T); lia).
    apply Z.mul_le_mono_nonneg; lia. }
  rewrite u64_small in H by lia. exact H.
Qed.

(** The pages of one sender. *)
Lemma receive_pages_spec (other : KV.t) (ps : list (list entry)) :
  forall k : KV.t,
    tidy k -> 0 <= KV.alignsize k -> shape other = shape k ->
    Forall (fits k) (concat ps) -> KV.pagesize k <= INTMAX ->
    Z.of_nat (length (contents k)) + Z.of_nat (length (concat ps)) <= INTMAX ->
    exists k',
      receive_pages k other ps = Ok k' /\ tidy k' /\ 0 <= KV.alignsize k'
      /\ shape k' = shape k /\ contents k' = contents k ++ concat ps.
Proof.
  induction ps as [|p ps IH]; intros k T A0 Sh Hf Hp Hn.
  - exists k. cbn [receive_pages concat]. rewrite app_nil_r. auto.
  - cbn [concat] in Hf, Hn. apply Forall_app in Hf. destruct Hf as [Hfp Hfr].
    rewrite length_app, Nat2Z.inj_add in Hn.
    destruct (add_sized_spec k p T A0 Hfp Hp) as [k1 [E1 [T1 [A1 [S1 C1]]]]].
    { rewrite (tidy_nkey k T). unfold contents in Hn.
      rewrite length_app, Nat2Z.inj_add in Hn. lia. }
    cbn [receive_pages]. rewrite (sum_sizes_shape k other p Sh), E1. cbn [bind].
    destruct (IH k1 T1 A1) as [k' [E' [T' [A' [S' C']]]]].
    + now rewrite S1.
    + eapply Forall_impl; [|exact Hfr]. intros x. apply fits_shape. exact S1.
    + unfold shape in S1. injection S1 as _ _ _ ->. exact Hp.
    + rewrite C1, length_app, Nat2Z.inj_add. lia.
    + exists k'. split; [exact E'|]. split; [exact T'|]. split; [exact A'|].
      split; [now rewrite S'|]. rewrite C', C1. cbn [concat].
      now rewrite app_assoc.
Qed.

(** A rank as [gather] finds it: a completed container of the common
    alignments and page size, of records that fit a page. *)
Definition shelved (sh : Z * Z * Z * Z) (s : t) : Prop :=
  exists k,
    kv s = Some k /\ completed k /\ shape k = sh
    /\ Forall (fits k) (concat (KV.pages k))
    /\ Z.of_nat (length (KV.pages k)) <= INTMAX.

Definition held_at (g : group) (i : Z) : list entry :=
  held (nth (Z.to_nat i) g new).

(** A low rank [me] hears from the high ranks that are [me] modulo
    [numprocs], in rising order. *)
Definition senders (numprocs nprocs me : Z) : list Z :=
  filter (same_rank numprocs me) (range (me + numprocs) nprocs).

Section Gather.
Variable g : group.
Variable numprocs : Z.
Variable sh : Z * Z * Z * Z.
Hypothesis count_ok : 1 <= numprocs < Z.of_nat (length g).
Hypothesis group_ok : Z.of_nat (length g) <= 2 ^ 30.
Hypothesis ranks_ok : Forall (shelved sh) g.

Lemma shelved_at (i : Z) :
  0 <= i < Z.of_nat (length g) -> shelved sh (nth (Z.to_nat i) g new).
Proof.
  intros Hi. rewrite Forall_forall in ranks_ok. apply ranks_ok.
  apply nth_In. lia.
Qed.

Lemma gather_from_spec (me : Z) (n : nat) :
  forall (iproc : Z) (k : KV.t),
    0 <= iproc -> iproc mod numprocs = me ->
    (Z.to_nat (Z.of_nat (length g) - iproc) <= n)%nat ->
    tidy k -> 0 <= KV.alignsize k -> shape k = sh ->
    KV.pagesize k <= INTMAX ->
    Z.of_nat (length (contents k))
    + Z.of_nat (length (concat (List.map (held_at g)
         (filter (same_rank numprocs me) (range iproc (Z.of_nat (length g)))))))
    <= INTMAX ->
    exists k',
      gather_from g numprocs iproc n k = Ok k'
      /\ contents k'
         = contents k
           ++ concat (List.map (held_at g)
                (filter (same_rank numprocs me)
                        (range iproc (Z.of_nat (length g))))).
Proof.
  induction n as [|n IH]; intros iproc k Hi Hm Hfuel T A0 Sh Hp Hn.
  - exists k. cbn [gather_from]. rewrite range_nil by lia.
    cbn [filter List.map concat]. now rewrite app_nil_r.
  - cbn [gather_from].
    destruct (Z.ltb_spec iproc (Z.of_nat (length g))) as [Hlt|Hge].
    2:{ exists k. rewrite range_nil by lia.
        cbn [filter List.map concat]. now rewrite app_nil_r. }
    destruct (shelved_at iproc ltac:(lia)) as [other [Hk [Cp [So [Hf Hl]]]]].
    rewrite (stride_next numprocs me iproc _ ltac:(lia) Hi Hm Hlt) in *.
    cbn [List.map concat] in *.
    assert (Hh : held_at g iproc = concat (KV.pages other))
      by (unfold held_at, held; now rewrite Hk).
    rewrite Hh in *. rewrite Hk.
    unfold KV.request_info, KV.npage.
    rewrite int_of_small by (unfold INTMAX in Hl; lia).
    rewrite Nat2Z.id, firstn_all.
    rewrite length_app, Nat2Z.inj_add in Hn.
    destruct (receive_pages_spec other (KV.pages other) k T A0)
      as [k1 [E1 [T1 [A1 [S1 C1]]]]].
    + now rewrite So, Sh.
    + eapply Forall_impl; [|exact Hf]. intros x. apply fits_shape.
      now rewrite So, Sh.
    + exact Hp.
    + lia.
    + rewrite E1. cbn [bind].
      rewrite int_of_small by lia.
      destruct (IH (iproc + numprocs) k1) as [k' [E' C']].
      * lia.
      * rewrite <- Hm. rewrite <- (Z.mul_1_l numprocs) at 1.
        apply Z.mod_add. lia.
      * lia.
      * exact T1.
      * exact A1.
      * now rewrite S1.
      * unfold shape in S1. injection S1 as _ _ _ ->. exact Hp.
      * rewrite C1, length_app, Nat2Z.inj_add. lia.
      * exists k'. split; [exact E'|]. rewrite C', C1, <- app_assoc.
        reflexivity.
Qed.

End Gather.

Lemma each_from_indexed (f : Z -> t -> result t) (R : Z -> t -> t -> Prop) :
  forall (l : group) (me0 : Z),
    (forall i s, nth_error l i = Some s ->
       exists s', f (me0 + Z.of_nat i) s = Ok s'
                  /\ R (me0 + Z.of_nat i) s s') ->
    exists l',
      each_from f me0 l = Ok l'
      /\ forall i s, nth_error l i = Some s ->
           exists s', nth_error l' i = Some s' /\ R (me0 + Z.of_nat i) s s'.
Proof.
  induction l as [|a l IH]; intros me0 H.
  - exists []. split; [reflexivity|]. intros [|i] s Hi; discriminate Hi.
  - destruct (H 0%nat a eq_refl) as [a' [Ea Ra]].
    change (Z.of_nat 0) with 0 in Ea, Ra. rewrite Z.add_0_r in Ea, Ra.
    destruct (IH (me0 + 1)) as [l' [El Rl]].
    + intros i s Hi. destruct (H (S i) s Hi) as [s' [Es Rs]].
      rewrite Nat2Z.inj_succ in Es, Rs.
      replace (me0 + Z.succ (Z.of_nat i)) with (me0 + 1 + Z.of_nat i)
        in Es, Rs by lia.
      now exists s'.
    + exists (a' :: l'). cbn [each_from]. rewrite Ea. cbn [bind].
      rewrite El. cbn [bind]. split; [reflexivity|].
      intros [|i] s Hi; cbn [nth_error] in Hi |- *.
      * injection Hi as <-. exists a'. change (Z.of_nat 0) with 0.
        rewrite Z.add_0_r. auto.
      * destruct (Rl i s Hi) as [s' [Hs Rs]]. exists s'. split; [exact Hs|].
        rewrite Nat2Z.inj_succ.
        replace (me0 + Z.succ (Z.of_nat i)) with (me0 + 1 + Z.of_nat i) by lia.
        exact Rs.
Qed.

Lemma Forall2_nth_error {A B : Type} (R : A -> B -> Prop) (l : list A)
    (l' : list B) :
  Forall2 R l l' ->
  forall i a, nth_error l i = Some a ->
    exists b, nth_error l' i = Some b /\ R a b.
Proof.
  induction 1 as [|x y l l' Hxy _ IH]; intros [|i] a Hi;
    cbn [nth_error] in Hi |- *; try discriminate Hi.
  - injection Hi as <-. now exists y.
  - now apply IH.
Qed.

(** [gather] onto fewer ranks than the group has: every low rank ends
    with its own records followed by those of its senders, sender after
    sender and page after page; every high rank ends with none. *)
Theorem gather_places (g : group) (numprocs : Z) (sh : Z * Z * Z * Z) :
  1 <= numprocs < Z.of_nat (length g) -> Z.of_nat (length g) <= 2 ^ 30 ->
  Forall (shelved sh) g -> 0 <= snd sh <= INTMAX ->
  (forall me, 0 <= me < numprocs ->
     Z.of_nat (length (held_at g me))
     + Z.of_nat (length (concat (List.map (held_at g)
                           (senders numprocs (Z.of_nat (length g)) me))))
     <= INTMAX) ->
  exists n g',
    gather numprocs g = Ok (n, g')
    /\ forall me, 0 <= me < Z.of_nat (length g) ->
         held_at g' me
         = if me <? numprocs
           then held_at g me
                ++ concat (List.map (held_at g)
                             (senders numprocs (Z.of_nat (length g)) me))
           else [].
Proof.
  intros Hc Hg Hr Hp Hn. unfold gather. cbv zeta.
  assert (E0 : each (fun _ _ s =>
                _ <- require_kv "Cannot gather without KeyValue" s ;;
                if (numprocs <? 1) || (numprocs >? Z.of_nat (length g))
                then Fatal "Invalid proc count for gather" else Ok s) g = Ok g).
  { unfold each. apply each_from_same. intros s m Hin.
    rewrite Forall_forall in Hr. destruct (Hr s Hin) as [k [Hk _]].
    unfold require_kv. rewrite Hk. cbn [bind].
    replace (numprocs <? 1) with false by (symmetry; apply Z.ltb_ge; lia).
    replace (numprocs >? Z.of_nat (length g)) with false
      by (symmetry; rewrite Z.gtb_ltb; apply Z.ltb_ge; lia).
    reflexivity. }
  rewrite E0. cbn [bind].
  replace (Z.of_nat (length g) =? 1) with false
    by (symmetry; apply Z.eqb_neq; lia).
  replace (numprocs =? Z.of_nat (length g)) with false
    by (symmetry; apply Z.eqb_neq; lia).
  cbn [orb].
  set (want := fun me : Z =>
                 if me <? numprocs
                 then held_at g me
                      ++ concat (List.map (held_at g)
                                   (senders numprocs (Z.of_nat (length g)) me))
                 else []).
  destruct (each_from_indexed
              (fun me => gather_rank g numprocs me (Z.of_nat (length g)))
              (fun me s s' => held s' = want me /\ has_kv s') g 0)
    as [g1 [E1 R1]].
  { intros i s Hi. rewrite Z.add_0_l.
    assert (Hlt : (i < length g)%nat) by (apply nth_error_Some; congruence).
    assert (Hs : s = nth i g new) by (symmetry; now apply nth_error_nth).
    pose proof (proj1 (Forall_forall _ _) Hr) as Hr'.
    destruct (Hr' s (nth_error_In _ _ Hi)) as [k [Hk [Cp [Sk [Hf Hl]]]]].
    assert (Hps : KV.pagesize k = snd sh) by (rewrite <- Sk; reflexivity).
    assert (Hh : held_at g (Z.of_nat i) = concat (KV.pages k)).
    { unfold held_at, held. rewrite Nat2Z.id, <- Hs, Hk. reflexivity. }
    unfold gather_rank. rewrite Hk. unfold want.
    destruct (Z.ltb_spec (Z.of_nat i) numprocs) as [Hlo|Hhi].
    - destruct (append_spec k Cp ltac:(lia)) as [Ta [Sa [Ca Aa]]].
      rewrite int_of_small by lia.
      destruct (gather_from_spec g numprocs sh Hc Hg Hr (Z.of_nat i) (length g)
                  (Z.of_nat i + numprocs) (KV.append k))
        as [k' [E' C']].
      + lia.
      + rewrite <- (Z.mul_1_l numprocs) at 1. rewrite Z.mod_add by lia.
        apply Z.mod_small. lia.
      + lia.
      + exact Ta.
      + exact Aa.
      + now rewrite Sa.
      + unfold shape in Sa. injection Sa as _ _ _ ->. lia.
      + rewrite Ca, <- Hh. apply Hn. lia.
      + rewrite E'. cbn [bind]. eexists. split; [reflexivity|].
        split; [|unfold has_kv; cbn; discriminate].
        unfold held. cbn [kv set_kv]. rewrite complete_contents, C', Ca, Hh.
        reflexivity.
    - eexists. split; [reflexivity|].
      split; [|unfold has_kv; cbn; discriminate]. reflexivity. }
  unfold each. rewrite E1. cbn [bind].
  assert (Hk1 : Forall has_kv g1).
  { apply Forall_forall. intros s' Hin. apply In_nth_error in Hin.
    destruct Hin as [i Hi].
    assert (Hlen : length g1 = length g).
    { apply (each_length (fun me n => gather_rank g numprocs me n) g g1).
      exact E1. }
    assert (Hlt : (i < length g)%nat)
      by (rewrite <- Hlen; apply nth_error_Some; congruence).
    destruct (nth_error g i) as [s|] eqn:Hs;
      [|apply nth_error_None in Hs; lia].
    destruct (R1 i s Hs) as [s1 [Hs1 [_ Hk]]].
    rewrite Hi in Hs1. now injection Hs1 as ->. }
  destruct (stats_total "Gather" 0 g1 Hk1) as [g2 E2].
  rewrite E2. cbn [bind]. exists (nkeyall_kv g2), g2. split; [reflexivity|].
  intros me Hme.
  destruct (nth_error g (Z.to_nat me)) as [s|] eqn:Hs;
    [|apply nth_error_None in Hs; lia].
  destruct (R1 (Z.to_nat me) s Hs) as [s1 [Hs1 [Hw _]]].
  apply each_Forall2 in E2.
  destruct (Forall2_nth_error _ _ _ E2 _ _ Hs1) as [s2 [Hs2 [m [n Hst]]]].
  apply stats_rank_keeps in Hst. destruct Hst as [Hkv _].
  unfold held_at at 1. rewrite (nth_error_nth _ _ new Hs2).
  unfold held. rewrite Hkv. fold (held s1). rewrite Hw.
  rewrite Z.add_0_l, Z2Nat.id by lia. reflexivity.
Qed.

(** ** [gather]: the processor count, lines 665-683 *)

(** On a group whose ranks all hold a KeyValue, [gather] refuses a count
    below one or above the number of ranks; with the number of ranks
    itself it moves nothing: every rank keeps its containers as they
    are. *)
Theorem gather_proc_count (numprocs : Z) (g : group) :
  g <> [] -> Forall has_kv g ->
  (numprocs < 1 \/ Z.of_nat (length g) < numprocs ->
   gather numprocs g = Fatal "Invalid proc count for gather")
  /\ (numprocs = Z.of_nat (length g) ->
      exists n g',
        gather numprocs g = Ok (n, g')
        /\ List.map kv g' = List.map kv g
        /\ List.map kmv g' = List.map kmv g).
Proof.
  intros Hne Hk. split.
  - intros Hbad. unfold gather. cbv zeta.
    destruct g as [|s rest]; [congruence|].
    inversion Hk as [|? ? Hs _]; subst.
    unfold each. cbn [each_from]. unfold require_kv at 1.
    unfold has_kv in Hs. destruct (kv s); [|congruence]. cbn [bind].
    replace ((numprocs <? 1) || (numprocs >? Z.of_nat (length (s :: rest))))
      with true; [reflexivity|].
    symmetry. apply orb_true_iff. rewrite Z.gtb_ltb.
    destruct Hbad as [H|H]; [left|right]; now apply Z.ltb_lt.
  - intros ->. unfold gather. cbv zeta.
    assert (L : 1 <= Z.of_nat (length g))
      by (destruct g; [congruence|cbn [length]; lia]).
    assert (E0 : each (fun _ _ s =>
                  _ <- require_kv "Cannot gather without KeyValue" s ;;
                  if (Z.of_nat (length g) <? 1)
                     || (Z.of_nat (length g) >? Z.of_nat (length g))
                  then Fatal "Invalid proc count for gather" else Ok s) g
                 = Ok g).
    { unfold each. apply each_from_same. intros s m Hin.
      rewrite Forall_forall in Hk. specialize (Hk s Hin).
      unfold require_kv, has_kv in *. destruct (kv s); [|contradiction].
      cbn [bind]. rewrite (proj2 (Z.ltb_ge _ _) L).
      replace (Z.of_nat (length g) >? Z.of_nat (length g)) with false
        by (symmetry; rewrite Z.gtb_ltb; apply Z.ltb_irrefl).
      reflexivity. }
    rewrite E0. cbn [bind]. rewrite Z.eqb_refl, orb_true_r.
    destruct (stats_total "Gather" 0 g Hk) as [g1 E1].
    rewrite E1. cbn [bind]. exists (nkeyall_kv g1), g1.
    split; [reflexivity|].
    pose proof (stats_mute _ _ _ _ E1) as M.
    split; [now apply map_mute_kv|now apply map_mute_kmv].
Qed.

(** ** [allocate()], lines 250-290 *)

(** [while (tmp < kalign) tmp *= 2;] from a power of two: it stops at the
    least power of two that is not below [a]. *)
Lemma doubling_spec (a : Z) (fuel : nat) :
  a <= 2 ^ 30 ->
  forall i, 0 <= i <= 30 -> (Z.to_nat (31 - i) < fuel)%nat ->
    exists j, i <= j <= 30 /\ doubling fuel (2 ^ i) a = Some (2 ^ j)
              /\ a <= 2 ^ j /\ (i < j -> 2 ^ (j - 1) < a).
Proof.
  intros Ha. induction fuel as [|fuel IH]; intros i Hi Hf; [lia|].
  cbn [doubling]. destruct (Z.ltb_spec (2 ^ i) a) as [Hlt|Hge].
  - assert (Hi30 : i < 30).
    { destruct (Z.eq_dec i 30) as [->|]; [lia|lia]. }
    assert (Hp : 2 ^ i * 2 = 2 ^ (i + 1)) by (rewrite Z.pow_add_r; lia).
    assert (Hle : 2 ^ (i + 1) <= 2 ^ 30) by (apply Z.pow_le_mono_r; lia).
    rewrite Hp, int_of_small by (pose proof (Z.pow_pos_nonneg 2 (i + 1)); lia).
    destruct (IH (i + 1) ltac:(lia) ltac:(lia)) as [j [Hj [E [H1 H2]]]].
    exists j. split; [lia|]. split; [exact E|]. split; [exact H1|].
    intros _. destruct (Z.eq_dec j (i + 1)) as [->|Hne].
    + replace (i + 1 - 1) with i by lia. exact Hlt.
    + apply H2. lia.
  - exists i. split; [lia|]. split; [reflexivity|]. split; [lia|lia].
Qed.

Lemma pow2b_iff (a : Z) :
  KeyValue.pow2b a = true <-> exists k, 0 <= k <= 30 /\ a = 2 ^ k.
Proof.
  split; [apply KeyValueFacts.pow2b_spec|].
  intros [k [Hk ->]]. unfold KeyValue.pow2b.
  pose proof (Z.pow_pos_nonneg 2 k ltac:(lia) ltac:(lia)).
  assert (2 ^ k <= 2 ^ 30) by (apply Z.pow_le_mono_r; lia).
  rewrite Z.log2_pow2 by lia.
  rewrite (proj2 (Z.ltb_lt _ _)), (proj2 (Z.leb_le _ _)), Z.eqb_refl by lia.
  reflexivity.
Qed.

(** The loop finds the alignment itself exactly when the alignment is a
    power of two. *)
Lemma doubling_test (a : Z) :
  a <= 2 ^ 30 ->
  exists tmp, doubling 64 1 a = Some tmp /\ (tmp =? a) = KeyValue.pow2b a.
Proof.
  intros Ha.
  destruct (doubling_spec a 64 Ha 0 ltac:(lia) ltac:(cbn; lia))
    as [j [Hj [E [H1 H2]]]].
  change (2 ^ 0) with 1 in E. exists (2 ^ j). split; [exact E|].
  destruct (KeyValue.pow2b a) eqn:Hp.
  - apply Z.eqb_eq. apply pow2b_iff in Hp. destruct Hp as [k [Hk ->]].
    destruct (Z.eq_dec j k) as [->|Hne]; [reflexivity|exfalso].
    destruct (Z.lt_ge_cases j k) as [Hlt|Hge].
    + assert (2 ^ j < 2 ^ k) by (apply Z.pow_lt_mono_r; lia). lia.
    + assert (0 < j) by lia. specialize (H2 ltac:(lia)).
      assert (2 ^ k <= 2 ^ (j - 1)) by (apply Z.pow_le_mono_r; lia). lia.
  - apply Z.eqb_neq. intros Heq.
    assert (Hp' : KeyValue.pow2b a = true)
      by (apply pow2b_iff; exists j; split; [lia|now symmetry]).
    congruence.
Qed.

(** What [allocate] sets for settings it accepts. *)
Lemma allocate_sets (s : t) :
  0 < memsize s < 2048 ->
  KeyValue.pow2b (keyalign s) && KeyValue.pow2b (valuealign s) = true ->
  allocate s
  = Ok (set_memory s true (keyalign s) (valuealign s)
          (Z.max (Z.max (keyalign s) (valuealign s)) 4)
          (memsize s * 262144) (memsize s * 524288) 0).
Proof.
  intros Hm Hp. apply andb_prop in Hp. destruct Hp as [Pk Pv].
  assert (Hk : keyalign s <= 2 ^ 30).
  { apply pow2b_iff in Pk. destruct Pk as [k [Hk ->]].
    apply Z.pow_le_mono_r; lia. }
  assert (Hv : valuealign s <= 2 ^ 30).
  { apply pow2b_iff in Pv. destruct Pv as [k [Hk' ->]].
    apply Z.pow_le_mono_r; lia. }
  unfold allocate.
  rewrite (proj2 (Z.leb_gt _ _) (proj1 Hm)).
  destruct (doubling_test (keyalign s) Hk) as [tk [-> Tk]].
  destruct (doubling_test (valuealign s) Hv) as [tv [-> Tv]].
  rewrite Tk, Tv, Pk, Pv. cbn [negb].
  rewrite (int_of_small (memsize s * 1024)) by lia.
  rewrite (int_of_small (memsize s * 1024 * 1024)) by lia.
  rewrite u64_small by lia.
  rewrite !KeyValueFacts.MAX_max.
  replace (memsize s * 1024 * 1024 / 4) with (memsize s * 262144)
    by (apply Z.div_unique_exact; lia).
  replace (memsize s * 1024 * 1024 / 2) with (memsize s * 524288)
    by (apply Z.div_unique_exact; lia).
  reflexivity.
Qed.

(** [allocate] refuses a memory size that is not positive and an
    alignment that is not a power of two; else it splits the block in
    quarters, a megabyte being [2^20] bytes while [memsize * 2^20] is an
    [int], and starts on the first quarter. *)
Theorem allocate_outcome (s : t) :
  (memsize s <= 0 -> allocate s = Fatal "Invalid memsize setting")
  /\ (0 < memsize s -> keyalign s <= 2 ^ 30 -> valuealign s <= 2 ^ 30 ->
      KeyValue.pow2b (keyalign s) && KeyValue.pow2b (valuealign s) = false ->
      allocate s = Fatal "Invalid alignment setting")
  /\ (0 < memsize s < 2048 ->
      KeyValue.pow2b (keyalign s) && KeyValue.pow2b (valuealign s) = true ->
      allocate s
      = Ok (set_memory s true (keyalign s) (valuealign s)
              (Z.max (Z.max (keyalign s) (valuealign s)) 4)
              (memsize s * 262144) (memsize s * 524288) 0)).
Proof.
  split; [|split].
  - intros H. unfold allocate.
    now rewrite (proj2 (Z.leb_le _ _) H).
  - intros Hm Hk Hv Hp. unfold allocate.
    rewrite (proj2 (Z.leb_gt _ _) Hm).
    destruct (doubling_test (keyalign s) Hk) as [tk [-> Tk]].
    destruct (doubling_test (valuealign s) Hv) as [tv [-> Tv]].
    rewrite Tk, Tv.
    destruct (KeyValue.pow2b (keyalign s)); [|reflexivity].
    cbn [andb] in Hp. now rewrite Hp.
  - apply allocate_sets.
Qed.

(** ** [sort_multivalues] and the statistics, lines 1533-1625

    [sort_multivalues] ends with [stats("Sort_multivalues",0,verbosity)],
    the statistics of the KeyValue.  After [convert] there is none. *)

Lemma stats_rank_settings heading which a b me (s s' : t) :
  stats_rank heading which a b me s = Ok s' ->
  verbosity s' = verbosity s /\ timer s' = timer s.
Proof.
  unfold stats_rank. intros H.
  set (s1 := if ((timer s =? 1) || (timer s =? 2)) && (me =? 0)
             then print s (TimeLine heading) else s) in H.
  assert (H1 : verbosity s1 = verbosity s /\ timer s1 = timer s).
  { subst s1. destruct (((timer s =? 1) || (timer s =? 2)) && (me =? 0));
      split; reflexivity. }
  destruct (verbosity s1 =? 0); [injection H as <-; exact H1|].
  destruct (negb _); [discriminate H|].
  injection H as <-.
  destruct ((verbosity s =? 2) && (me =? 0)), (me =? 0); exact H1.
Qed.

Lemma stats_without_kv heading (s : t) (rest : group) :
  kv s = None -> verbosity s <> 0 ->
  stats heading 0 (s :: rest) = Fatal "Cannot print stats without KeyValue".
Proof.
  intros Hk Hv. unfold stats, each. cbn [each_from].
  unfold stats_rank at 1.
  set (s1 := if ((timer s =? 1) || (timer s =? 2)) && (0 =? 0)
             then print s (TimeLine heading) else s).
  assert (H1 : verbosity s1 = verbosity s /\ kv s1 = None).
  { subst s1. destruct (((timer s =? 1) || (timer s =? 2)) && (0 =? 0));
      split; auto. }
  destruct H1 as [V1 K1]. rewrite V1.
  replace (verbosity s =? 0) with false by (symmetry; now apply Z.eqb_neq).
  change (0 =? 0) with true. cbv iota.
  change (kv (print s1 (StatsHead heading))) with (kv s1). rewrite K1.
  reflexivity.
Qed.

Section SortMultivaluesStats.
Context {E : Externals}.
Variable compare : comparison.

Lemma sort_multivalues_rank_keeps (s s' : t) :
  sort_multivalues_rank compare s = Ok s' ->
  kv s' = kv s /\ verbosity s' = verbosity s.
Proof.
  unfold sort_multivalues_rank. destruct (kmv s) as [m|]; [|discriminate].
  intros H. apply bind_ok in H. destruct H as [m' [_ H]].
  injection H as <-. split; reflexivity.
Qed.

(** With a verbosity other than zero on rank 0 and no KeyValue there,
    [sort_multivalues] does not return: when the sort itself gets through
    on every rank, the run ends in the statistics. *)
Theorem sort_multivalues_needs_kv (s : t) (rest : group) :
  kv s = None -> verbosity s <> 0 ->
  (forall r, sort_multivalues compare (s :: rest) <> Ok r)
  /\ (forall g1,
        each (fun _ _ => sort_multivalues_rank compare) (s :: rest) = Ok g1 ->
        sort_multivalues compare (s :: rest)
        = Fatal "Cannot print stats without KeyValue").
Proof.
  intros Hk Hv.
  assert (Hfail : forall g1,
             each (fun _ _ => sort_multivalues_rank compare) (s :: rest) = Ok g1 ->
             sort_multivalues compare (s :: rest)
             = Fatal "Cannot print stats without KeyValue").
  { intros g1 H1. unfold sort_multivalues. rewrite H1. cbn [bind].
    apply each_Forall2 in H1. inversion H1 as [|? s1 ? r1 [me [n Hs]] _]; subst.
    apply sort_multivalues_rank_keeps in Hs. destruct Hs as [K V].
    rewrite stats_without_kv; [reflexivity|congruence|congruence]. }
  split; [|exact Hfail].
  intros r H.
  destruct (each (fun _ _ => sort_multivalues_rank compare) (s :: rest))
    as [g1|msg] eqn:H1.
  - rewrite (Hfail g1 eq_refl) in H. discriminate H.
  - unfold sort_multivalues in H. rewrite H1 in H. discriminate H.
Qed.

End SortMultivaluesStats.

(** ** Operators that are two operators in a row *)

Lemma nkeyall_kv_mute g g' :
  List.map mute g = List.map mute g' -> nkeyall_kv g = nkeyall_kv g'.
Proof.
  intros H. unfold nkeyall_kv. f_equal.
  apply (f_equal (List.map nkv_of)) in H. rewrite !map_map in H. exact H.
Qed.

(** A rank-local step that succeeds as two steps in a row do: on every
    rank, or the first on every rank and then the second on every rank. *)
Lemma each_from_two_steps (c f h : t -> result t) :
  (forall s s', c s = Ok s' <-> exists s1, f s = Ok s1 /\ h s1 = Ok s') ->
  forall (g g1 : group) (me : Z),
    each_from (fun _ => c) me g = Ok g1
    <-> exists ga, each_from (fun _ => f) me g = Ok ga
                   /\ each_from (fun _ => h) me ga = Ok g1.
Proof.
  intros Hc. induction g as [|a g IH]; intros g1 me.
  - cbn [each_from]. split.
    + intros H. exists []. split; [reflexivity|exact H].
    + intros [ga [Ha H]]. injection Ha as <-. exact H.
  - cbn [each_from]. split.
    + intros H. apply bind_ok in H. destruct H as [a1 [Ea H]].
      apply Hc in Ea. destruct Ea as [a0 [Ef Eh]].
      apply bind_ok in H. destruct H as [r1 [Er H]]. injection H as <-.
      apply IH in Er. destruct Er as [ga [Ga Gh]].
      exists (a0 :: ga). rewrite Ef, Ga. cbn [bind each_from].
      rewrite Eh, Gh. split; reflexivity.
    + intros [ga [Ha H]].
      apply bind_ok in Ha. destruct Ha as [a0 [Ef Ha]].
      apply bind_ok in Ha. destruct Ha as [ga' [Ga Ha]]. injection Ha as <-.
      cbn [each_from] in H.
      apply bind_ok in H. destruct H as [a1 [Eh H]].
      apply bind_ok in H. destruct H as [r1 [Gh H]]. injection H as <-.
      rewrite (proj2 (Hc a a1)) by (exists a0; split; assumption).
      cbn [bind].
      rewrite (proj2 (IH r1 (me + 1))) by (exists ga'; split; assumption).
      reflexivity.
Qed.

Section Compositions.
Context {E : Externals}.

(** *** [compress], lines 557-631, against [convert] and [reduce] *)

Lemma compress_rank_two_steps (f : callback) (s s' : t) :
  compress_rank f s = Ok s'
  <-> exists s1, convert_rank s = Ok s1 /\ reduce_rank f s1 = Ok s'.
Proof.
  unfold compress_rank, convert_rank.
  destruct (kv s) as [k0|].
  2:{ split; [discriminate|]. intros [s1 [H _]]. discriminate H. }
  destruct (kmv_convert k0 (memquarter s) (memhalf s)) as [m|msg].
  2:{ split; [discriminate|]. intros [s1 [H _]]. discriminate H. }
  cbn [bind]. cbv zeta.
  assert (R : reduce_rank f (set_kv (set_kmv (memswap s) (Some m)) None)
              = (k <- scan_kmv (scan_fuel m) f m 0
                        (new_kv (memswap (set_kmv s (Some m)))) ;;
                 Ok (set_kmv
                       (set_kv (memswap (set_kv (memswap (set_kmv s (Some m)))
                                  (Some (new_kv (memswap (set_kmv s (Some m)))))))
                          (Some (KV.complete k))) None))).
  { reflexivity. }
  split.
  - intros H. eexists. split; [reflexivity|]. rewrite R. exact H.
  - intros [s1 [H1 H2]]. injection H1 as <-. rewrite R in H2. exact H2.
Qed.

Lemma reduce_rank_data_only (f : callback) :
  data_only (fun _ : Z => reduce_rank f).
Proof.
  intros me s. unfold reduce_rank.
  change (kmv (mute s)) with (kmv s). destruct (kmv s) as [m|]; [|reflexivity].
  cbv zeta. change (new_kv (mute s)) with (new_kv s).
  destruct (scan_kmv (scan_fuel m) f m 0 (new_kv s)); reflexivity.
Qed.

Lemma each_compress (f : callback) (g g1 : group) :
  each (fun _ _ => compress_rank f) g = Ok g1
  <-> exists ga, each (fun _ _ => convert_rank) g = Ok ga
                 /\ each (fun _ _ => reduce_rank f) ga = Ok g1.
Proof.
  unfold each.
  apply (each_from_two_steps (compress_rank f) convert_rank (reduce_rank f)).
  apply compress_rank_two_steps.
Qed.

(** [compress(f)] against [convert()] followed by [reduce(f)], from the
    same group: when one returns so does the other, with the same value,
    and every rank is left with the same KeyValue and no KeyMultiValue.
    What differs is what is printed. *)
Theorem compress_is_convert_reduce (f : callback) (g : group) :
  (forall r g3,
     compress f g = Ok (r, g3) ->
     exists rc gc gr,
       convert g = Ok (rc, gc) /\ reduce f gc = Ok (r, gr)
       /\ List.map kv g3 = List.map kv gr
       /\ List.map kmv g3 = List.map kmv gr)
  /\ (forall rc gc r gr,
        convert g = Ok (rc, gc) -> reduce f gc = Ok (r, gr) ->
        exists g3,
          compress f g = Ok (r, g3)
          /\ List.map kv g3 = List.map kv gr
          /\ List.map kmv g3 = List.map kmv gr).
Proof.
  split.
  - intros r g3 H. unfold compress in H.
    apply bind_ok in H. destruct H as [g1 [E1 H]].
    apply bind_ok in H. destruct H as [g3' [E3 H]]. injection H as <- <-.
    apply each_compress in E1. destruct E1 as [ga [Ea Er]].
    assert (Hm : Forall has_kmv ga).
    { apply (each_all _ _ _ _ Ea). intros me n s s'. apply convert_rank_has. }
    destruct (stats_total "Convert" 1 ga Hm) as [gc Ec].
    assert (Mc : List.map mute ga = List.map mute gc)
      by (symmetry; apply (stats_mute _ _ _ _ Ec)).
    destruct (each_same_data (fun _ _ => reduce_rank f) ga gc g1
                (fun _ => reduce_rank_data_only f) Mc Er) as [g1' [Er' M1]].
    assert (Hk : Forall has_kv g1').
    { apply (each_all _ _ _ _ Er'). intros me n s s'. apply reduce_rank_has. }
    destruct (stats_total "Reduce" 0 g1' Hk) as [gr Eg].
    assert (M3 : List.map mute g3' = List.map mute gr).
    { rewrite (stats_mute _ _ _ _ E3), (stats_mute _ _ _ _ Eg). now symmetry. }
    exists (nkeyall_kmv gc), gc, gr.
    split; [unfold convert; rewrite Ea; cbn [bind]; rewrite Ec; reflexivity|].
    split; [|split].
    + unfold reduce. rewrite Er'. cbn [bind]. rewrite Eg. cbn [bind].
      f_equal. f_equal. symmetry. apply nkeyall_kv_mute, M3.
    + apply map_mute_kv, M3.
    + apply map_mute_kmv, M3.
  - intros rc gc r gr Hc Hr. unfold convert in Hc.
    apply bind_ok in Hc. destruct Hc as [ga [Ea Hc]].
    apply bind_ok in Hc. destruct Hc as [gc' [Ec Hc]]. injection Hc as _ <-.
    unfold reduce in Hr.
    apply bind_ok in Hr. destruct Hr as [g1' [Er' Hr]].
    apply bind_ok in Hr. destruct Hr as [gr' [Eg Hr]]. injection Hr as <- <-.
    assert (Mc : List.map mute gc' = List.map mute ga)
      by (apply (stats_mute _ _ _ _ Ec)).
    destruct (each_same_data (fun _ _ => reduce_rank f) gc' ga g1'
                (fun _ => reduce_rank_data_only f) Mc Er') as [g1 [Er M1]].
    assert (E1 : each (fun _ _ => compress_rank f) g = Ok g1)
      by (apply each_compress; exists ga; split; assumption).
    assert (Hk : Forall has_kv g1).
    { apply (each_all _ _ _ _ E1). intros me n s s'. apply compress_rank_has. }
    destruct (stats_total "Compress" 0 g1 Hk) as [g3 E3].
    assert (M3 : List.map mute g3 = List.map mute gr').
    { rewrite (stats_mute _ _ _ _ E3), (stats_mute _ _ _ _ Eg). exact M1. }
    exists g3. split; [|split].
    + unfold compress. rewrite E1. cbn [bind]. rewrite E3. cbn [bind].
      f_equal. f_equal. apply nkeyall_kv_mute, M3.
    + apply map_mute_kv, M3.
    + apply map_mute_kmv, M3.
Qed.

(** *** [scrunch], lines 1426-1445, against [gather] and [collapse] *)

(** [gather] up to its call of [stats]. *)
Definition gather_data (numprocs : Z) (g : group) : result group :=
  let nprocs := Z.of_nat (length g) in
  g0 <- each (fun _ _ s =>
                _ <- require_kv "Cannot gather without KeyValue" s ;;
                if (numprocs <? 1) || (numprocs >? nprocs)
                then Fatal "Invalid proc count for gather" else Ok s) g ;;
  if (nprocs =? 1) || (numprocs =? nprocs) then Ok g0
  else each (gather_rank g0 numprocs) g0.

Lemma gather_stats (numprocs : Z) (g : group) :
  gather numprocs g
  = (g1 <- gather_data numprocs g ;;
     g2 <- stats "Gather" 0 g1 ;;
     Ok (nkeyall_kv g2, g2)).
Proof.
  unfold gather, gather_data. cbv zeta.
  destruct (each _ g) as [g0|]; [|reflexivity]. cbn [bind].
  destruct ((Z.of_nat (length g) =? 1) || (numprocs =? Z.of_nat (length g)));
    reflexivity.
Qed.

Lemma gather_from_mute (g : group) (numprocs : Z) :
  forall (n : nat) (iproc : Z) (k : KV.t),
    gather_from (List.map mute g) numprocs iproc n k
    = gather_from g numprocs iproc n k.
Proof.
  induction n as [|n IH]; intros iproc k; [reflexivity|].
  cbn [gather_from]. rewrite length_map.
  destruct (iproc <? Z.of_nat (length g)); [|reflexivity].
  change new with (mute new) at 1. rewrite map_nth.
  change (kv (mute (nth (Z.to_nat iproc) g new)))
    with (kv (nth (Z.to_nat iproc) g new)).
  destruct (kv (nth (Z.to_nat iproc) g new)) as [other|]; [|reflexivity].
  destruct (receive_pages k other _); [|reflexivity]. cbn [bind]. apply IH.
Qed.

Lemma gather_rank_data_only (g : group) (numprocs n : Z) :
  data_only (fun me => gather_rank (List.map mute g) numprocs me n).
Proof.
  intros me s. unfold gather_rank.
  change (kv (mute s)) with (kv s). destruct (kv s) as [k|]; [|reflexivity].
  destruct (me <? numprocs); [|reflexivity].
  rewrite length_map.
  destruct (gather_from (List.map mute g) numprocs _ _ _); reflexivity.
Qed.

Lemma gather_rank_mute (g : group) (numprocs me n : Z) (s : t) :
  gather_rank (List.map mute g) numprocs me n s = gather_rank g numprocs me n s.
Proof.
  unfold gather_rank. destruct (kv s) as [k|]; [|reflexivity].
  destruct (me <? numprocs); [|reflexivity].
  now rewrite length_map, gather_from_mute.
Qed.

Lemma each_from_ext (f h : Z -> t -> result t) :
  (forall me s, f me s = h me s) ->
  forall g me, each_from f me g = each_from h me g.
Proof.
  intros H. induction g as [|a g IH]; intros me; [reflexivity|].
  cbn [each_from]. now rewrite H, IH.
Qed.

Lemma gather_data_mute (numprocs : Z) (g : group) :
  gather_data numprocs (List.map mute g)
  = rmap (List.map mute) (gather_data numprocs g).
Proof.
  unfold gather_data. cbv zeta. rewrite length_map.
  rewrite (each_mute
             (fun _ _ s =>
                _ <- require_kv "Cannot gather without KeyValue" s ;;
                if (numprocs <? 1) || (numprocs >? Z.of_nat (length g))
                then Fatal "Invalid proc count for gather" else Ok s) g).
  2:{ intros n me s. unfold require_kv. change (kv (mute s)) with (kv s).
      destruct (kv s); [|reflexivity]. cbn [bind].
      destruct ((numprocs <? 1) || (numprocs >? Z.of_nat (length g)));
        reflexivity. }
  destruct (each _ g) as [g0|]; [|reflexivity]. cbn [rmap bind].
  destruct ((Z.of_nat (length g) =? 1) || (numprocs =? Z.of_nat (length g)));
    [reflexivity|].
  rewrite (each_mute (gather_rank (List.map mute g0) numprocs) g0)
    by (intros n; apply gather_rank_data_only).
  f_equal. unfold each. apply each_from_ext. intros me s.
  apply gather_rank_mute.
Qed.

Lemma gather_data_has_kv (numprocs : Z) (g g1 : group) :
  gather_data numprocs g = Ok g1 ->
  Forall has_kv g1 /\ length g1 = length g.
Proof.
  unfold gather_data. cbv zeta. intros H.
  apply bind_ok in H. destruct H as [g0 [E0 H]].
  assert (H0 : Forall has_kv g0).
  { apply (each_all _ _ _ _ E0). intros me n s s' Hs.
    apply bind_ok in Hs. destruct Hs as [s1 [Hr Hs]].
    revert Hs. destruct (_ || _); [discriminate|]. intros Hs.
    injection Hs as <-. unfold require_kv in Hr. unfold has_kv.
    destruct (kv s); [discriminate|discriminate Hr]. }
  pose proof (each_length _ _ _ E0) as L0.
  destruct ((Z.of_nat (length g) =? 1) || (numprocs =? Z.of_nat (length g))).
  - injection H as <-. split; [exact H0|exact L0].
  - split.
    + apply (each_all _ _ _ _ H). intros me n s s'. apply gather_rank_has.
    + rewrite (each_length _ _ _ H). exact L0.
Qed.

Lemma collapse_rank_data_only (key : list Z) :
  data_only (fun _ : Z => collapse_rank key).
Proof.
  intros me s. unfold collapse_rank.
  change (kv (mute s)) with (kv s). destruct (kv s) as [k|]; [|reflexivity].
  change (memquarter (mute s)) with (memquarter s).
  destruct (kmv_collapse key k (memquarter s)); reflexivity.
Qed.

(** [gather] then [collapse] on a group with the data of [g], when they
    succeed on [g]: they succeed, with the same data. *)
Lemma gather_collapse_same_data numprocs key g g' rg gg rc gc :
  List.map mute g = List.map mute g' ->
  gather numprocs g = Ok (rg, gg) -> collapse key gg = Ok (rc, gc) ->
  exists rg' gg' gc',
    gather numprocs g' = Ok (rg', gg') /\ collapse key gg' = Ok (rc, gc')
    /\ List.map mute gc' = List.map mute gc
    /\ (length gc' <= length g')%nat.
Proof.
  intros Hm Hg Hc. rewrite gather_stats in Hg.
  apply bind_ok in Hg. destruct Hg as [g1 [E1 Hg]].
  apply bind_ok in Hg. destruct Hg as [g2 [E2 Hg]]. injection Hg as _ <-.
  assert (E1' : exists g1', gather_data numprocs g' = Ok g1'
                            /\ List.map mute g1' = List.map mute g1).
  { pose proof (gather_data_mute numprocs g) as A.
    pose proof (gather_data_mute numprocs g') as B.
    rewrite Hm, B, E1 in A. cbn [rmap] in A. apply rmap_ok in A. exact A. }
  destruct E1' as [g1' [E1' M1]].
  destruct (gather_data_has_kv _ _ _ E1') as [Hk1 L1].
  destruct (stats_total "Gather" 0 g1' Hk1) as [g2' E2'].
  assert (M2 : List.map mute g2 = List.map mute g2').
  { rewrite (stats_mute _ _ _ _ E2), (stats_mute _ _ _ _ E2'). now symmetry. }
  unfold collapse in Hc.
  apply bind_ok in Hc. destruct Hc as [d1 [D1 Hc]].
  apply bind_ok in Hc. destruct Hc as [gc0 [D2 Hc]]. injection Hc as <- <-.
  destruct (each_same_data (fun _ _ => collapse_rank key) g2 g2' d1
              (fun _ => collapse_rank_data_only key) M2 D1) as [d1' [D1' M3]].
  assert (Hd : Forall has_kmv d1').
  { apply (each_all _ _ _ _ D1'). intros me n s s'. apply collapse_rank_has. }
  destruct (stats_total "Collapse" 1 d1' Hd) as [gc' D2'].
  assert (M4 : List.map mute gc' = List.map mute gc0).
  { rewrite (stats_mute _ _ _ _ D2), (stats_mute _ _ _ _ D2'). exact M3. }
  exists (nkeyall_kv g2'), g2', gc'.
  split; [rewrite gather_stats, E1'; cbn [bind]; rewrite E2'; reflexivity|].
  split; [|split; [exact M4|]].
  - unfold collapse. rewrite D1'. cbn [bind]. rewrite D2'. cbn [bind].
    f_equal. f_equal. apply nkeyall_kmv_mute. exact M4.
  - rewrite (stats_length _ _ _ _ D2'), (each_length _ _ _ D1'),
      (stats_length _ _ _ _ E2'), L1. lia.
Qed.

(** [scrunch(numprocs,key)] against [gather(numprocs)] followed by
    [collapse(key)], from the same group: when one returns so does the
    other, with the same value, and every rank is left with the same
    KeyMultiValue and no KeyValue.  What differs is what is printed. *)
Theorem scrunch_is_gather_collapse (numprocs : Z) (key : list Z) (g : group) :
  (forall r g3,
     scrunch numprocs key g = Ok (r, g3) ->
     exists rg gg gc,
       gather numprocs g = Ok (rg, gg) /\ collapse key gg = Ok (r, gc)
       /\ List.map kmv g3 = List.map kmv gc
       /\ List.map kv g3 = List.map kv gc)
  /\ (forall rg gg r gc,
        gather numprocs g = Ok (rg, gg) -> collapse key gg = Ok (r, gc) ->
        exists g3,
          scrunch numprocs key g = Ok (r, g3)
          /\ List.map kmv g3 = List.map kmv gc
          /\ List.map kv g3 = List.map kv gc).
Proof.
  split.
  - intros r g3 H. unfold scrunch in H.
    apply bind_ok in H. destruct H as [g0 [E0 H]].
    apply require_each_ok in E0. destruct E0 as [-> Hk]. cbv zeta in H.
    apply bind_ok in H. destruct H as [[r1 q2] [Ea H]].
    apply bind_ok in H. destruct H as [[r2 c2] [Ec H]]. cbn [snd] in Ec, H.
    apply bind_ok in H. destruct H as [g3' [E3 H]]. injection H as <- <-.
    destruct (gather_collapse_same_data numprocs key _ g r1 q2 r2 c2
                (quiet_mute g) Ea Ec)
      as [rg [gg [gc [Hg [Hc [M L]]]]]].
    assert (M3 : List.map mute g3' = List.map mute gc).
    { rewrite (stats_mute _ _ _ _ E3), restore_mute; [now symmetry|].
      rewrite <- (map_mute_length _ _ M). exact L. }
    exists rg, gg, gc. split; [exact Hg|]. split; [|split].
    + rewrite Hc. f_equal. f_equal.
      destruct (collapse_returns _ _ _ _ Ec) as [_ ->].
      apply nkeyall_kmv_mute. rewrite M3. symmetry. exact M.
    + apply map_mute_kmv, M3.
    + apply map_mute_kv, M3.
  - intros rg gg r gc Hg Hc.
    assert (Hk : Forall has_kv g).
    { pose proof Hg as Hg'. rewrite gather_stats in Hg'.
      apply bind_ok in Hg'. destruct Hg' as [g1 [E1 _]].
      unfold gather_data in E1. cbv zeta in E1.
      apply bind_ok in E1. destruct E1 as [g0 [E0 _]].
      apply each_Forall2 in E0. clear - E0.
      induction E0 as [|s s' l l' [me [n Hs]] _ IH]; constructor; [|exact IH].
      unfold require_kv in Hs. unfold has_kv.
      destruct (kv s); [discriminate|discriminate Hs]. }
    assert (Mq : List.map mute g
                 = List.map mute (List.map (fun s => set_verbose s 0 0) g))
      by (symmetry; apply quiet_mute).
    destruct (gather_collapse_same_data numprocs key g _ rg gg r gc Mq Hg Hc)
      as [r1 [q2 [c2 [Ea [Ec [M L]]]]]].
    rewrite length_map in L.
    assert (Hm : Forall has_kmv (restore g c2)).
    { apply restore_has_kmv. apply (collapse_returns _ _ _ _ Ec). }
    destruct (stats_total "Scrunch" 1 (restore g c2) Hm) as [g3 E3].
    assert (M3 : List.map mute g3 = List.map mute gc).
    { rewrite (stats_mute _ _ _ _ E3), restore_mute by exact L. exact M. }
    exists g3. split; [|split].
    + unfold scrunch. rewrite (require_each _ g Hk). cbn [bind]. cbv zeta.
      rewrite Ea. cbn [bind snd]. rewrite Ec. cbn [bind snd]. rewrite E3.
      cbn [bind]. f_equal. f_equal.
      destruct (collapse_returns _ _ _ _ Hc) as [_ ->].
      apply nkeyall_kmv_mute. exact M3.
    + apply map_mute_kmv, M3.
    + apply map_mute_kv, M3.
Qed.

End Compositions.

(** ** [reduce(appreduce)], lines 1347-1416 *)

(** The records a scan finds on the pages, in page order. *)
Definition page_records (p : KMV.kmvpage) : list KMV.record :=
  match p with
  | KMV.Records l => l
  | KMV.Block _ _ => []
  end.

Definition records_of (m : KMV.t) : list KMV.record :=
  concat (List.map page_records (KMV.pages m)).

(** One call per record, each on the container the call before left. *)
Fixpoint call_each (f : callback) (recs : list KMV.record) (k : KV.t)
    : result KV.t :=
  match recs with
  | [] => Ok k
  | r :: rest => k' <- f (Whole r) k ;; call_each f rest k'
  end.

Lemma call_each_app (f : callback) (l1 l2 : list KMV.record) :
  forall k, call_each f (l1 ++ l2) k
            = (k1 <- call_each f l1 k ;; call_each f l2 k1).
Proof.
  induction l1 as [|r l1 IH]; intros k; [reflexivity|].
  cbn [app call_each]. destruct (f (Whole r) k) as [k1|msg]; [|reflexivity].
  cbn [bind]. apply IH.
Qed.

Lemma scan_records_whole (f : callback) (m : KMV.t) (recs : list KMV.record) :
  Forall (fun r => 0 < KMV.nvalues r) recs ->
  forall ipage k,
    scan_records f m recs ipage k
    = (k' <- call_each f recs k ;; Ok (ipage, k')).
Proof.
  induction 1 as [|r recs Hr _ IH]; intros ipage k; [reflexivity|].
  cbn [scan_records call_each].
  replace (KMV.nvalues r >? 0) with true
    by (symmetry; rewrite Z.gtb_ltb; apply Z.ltb_lt; exact Hr).
  destruct (f (Whole r) k) as [k1|msg]; [|reflexivity].
  cbn [bind]. apply IH.
Qed.

Lemma request_page_of (m : KMV.t) (i : nat) :
  KMV.request_page m (Z.of_nat i)
  = page_records (nth i (KMV.pages m) (KMV.Records [])).
Proof. unfold KMV.request_page. rewrite Nat2Z.id. reflexivity. Qed.

Lemma skipn_step {A : Type} (l : list A) (i : nat) (d : A) :
  (i < length l)%nat -> skipn i l = nth i l d :: skipn (S i) l.
Proof.
  revert i. induction l as [|a l IH]; intros i H; [cbn in H; lia|].
  destruct i as [|i]; [reflexivity|].
  cbn [skipn nth]. apply IH. cbn [length] in H. lia.
Qed.

Lemma scan_kmv_whole (f : callback) (m : KMV.t) :
  Z.of_nat (length (KMV.pages m)) <= INTMAX ->
  Forall (fun r => 0 < KMV.nvalues r) (records_of m) ->
  forall (fuel i : nat) (k : KV.t),
    (length (KMV.pages m) - i < fuel)%nat ->
    scan_kmv fuel f m (Z.of_nat i) k
    = call_each f (concat (List.map page_records (skipn i (KMV.pages m)))) k.
Proof.
  intros Hn Hw. unfold INTMAX in Hn.
  induction fuel as [|fuel IH]; intros i k Hf; [lia|].
  cbn [scan_kmv]. unfold KMV.request_info. rewrite int_of_small by lia.
  destruct (Z.ltb_spec (Z.of_nat i) (Z.of_nat (length (KMV.pages m))))
    as [Hlt|Hge].
  - rewrite (skipn_step _ i (KMV.Records [])) by lia.
    cbn [List.map concat]. rewrite call_each_app, request_page_of.
    rewrite scan_records_whole.
    + destruct (call_each f _ k) as [k1|msg]; [|reflexivity].
      cbn [bind fst snd]. rewrite int_of_small by lia.
      replace (Z.of_nat i + 1) with (Z.of_nat (S i)) by lia.
      apply IH. lia.
    + unfold records_of in Hw. rewrite Forall_forall in Hw.
      apply Forall_forall. intros r Hr. apply Hw. apply in_concat.
      exists (page_records (nth i (KMV.pages m) (KMV.Records []))).
      split; [|exact Hr]. apply in_map. apply nth_In. lia.
  - rewrite skipn_all2 by lia. reflexivity.
Qed.

(** [reduce] on a rank whose KeyMultiValue holds no split multivalue:
    the callback is called once for every record of every page, in page
    order, each call on the KeyValue the call before left, starting from a
    new KeyValue; the KeyValue of the last call, completed, is the one the
    rank keeps, and the KeyMultiValue is gone.  An error of a call is the
    error of [reduce]. *)
Theorem reduce_calls_every_record (f : callback) (s : t) (m : KMV.t) :
  kmv s = Some m ->
  Z.of_nat (length (KMV.pages m)) <= INTMAX ->
  Forall (fun r => 0 < KMV.nvalues r) (records_of m) ->
  reduce_rank f s
  = (k <- call_each f (records_of m) (new_kv s) ;;
     Ok (set_kmv (set_kv (memswap s) (Some (KV.complete k))) None)).
Proof.
  intros Hm Hn Hw. unfold reduce_rank. rewrite Hm. cbv zeta.
  change 0 with (Z.of_nat 0).
  rewrite (scan_kmv_whole f m Hn Hw) by (unfold scan_fuel; lia).
  cbn [skipn]. fold (records_of m).
  destruct (call_each f (records_of m) (new_kv s)); reflexivity.
Qed.

(** ** The callbacks of the word-frequency example *)

Lemma byte_of (v : Z) (i : Z) :
  0 <= i -> 0 <= (v mod 2 ^ 32) / 2 ^ (8 * i) mod 256 < 256.
Proof. intros Hi. apply Z.mod_pos_bound. lia. Qed.

(** The [int] read back from the four bytes of an [int]. *)
Lemma int_at_bytes (v : Z) : WordFreq.int_at (WordFreq.int_bytes v) = int_of v.
Proof.
  unfold WordFreq.int_at, WordFreq.int_bytes. cbn [List.map nth].
  unfold int_of.
  set (w := v mod 2 ^ 32).
  assert (Hw : 0 <= w < 2 ^ 32) by (apply Z.mod_pos_bound; lia).
  assert (E : w / 2 ^ (8 * 0) mod 256 + 2 ^ 8 * (w / 2 ^ (8 * 1) mod 256)
              + 2 ^ 16 * (w / 2 ^ (8 * 2) mod 256)
              + 2 ^ 24 * (w / 2 ^ (8 * 3) mod 256) = w).
  { change (2 ^ (8 * 0)) with 1. change (2 ^ (8 * 1)) with 256.
    change (2 ^ (8 * 2)) with 65536. change (2 ^ (8 * 3)) with 16777216.
    change (2 ^ 8) with 256. change (2 ^ 16) with 65536.
    change (2 ^ 24) with 16777216. change (2 ^ 32) with 4294967296 in Hw.
    rewrite Z.div_1_r.
    pose proof (Z.div_mod w 256 ltac:(lia)) as H0.
    pose proof (Z.div_mod (w / 256) 256 ltac:(lia)) as H1.
    pose proof (Z.div_mod (w / 256 / 256) 256 ltac:(lia)) as H2.
    rewrite Z.div_div in H1, H2 by lia. rewrite Z.div_div in H2 by lia.
    change (256 * 256) with 65536 in *.
    change (65536 * 256) with 16777216 in *.
    assert (H3 : 0 <= w / 16777216 < 256).
    { split; [apply Z.div_pos; lia|apply Z.div_lt_upper_bound; lia]. }
    rewrite (Z.mod_small (w / 16777216) 256) by lia.
    lia. }
  rewrite E. unfold w. now rewrite Zplus_mod_idemp_l.
Qed.

(** [ncompare] orders the values by the [int] they start with, largest
    first. *)
Lemma ncompare_le (a b : list Z) :
  WordFreq.ncompare a b <= 0 <-> WordFreq.int_at b <= WordFreq.int_at a.
Proof.
  unfold WordFreq.ncompare. cbv zeta.
  destruct (Z.gtb_spec (WordFreq.int_at a) (WordFreq.int_at b));
    [split; lia|].
  destruct (Z.ltb_spec (WordFreq.int_at a) (WordFreq.int_at b)); split; lia.
Qed.

Lemma ncompare_order : total_order WordFreq.ncompare.
Proof.
  constructor.
  - intros a b H. apply ncompare_le.
    unfold WordFreq.ncompare in H. cbv zeta in H.
    destruct (Z.gtb_spec (WordFreq.int_at a) (WordFreq.int_at b)); [lia|].
    destruct (Z.ltb_spec (WordFreq.int_at a) (WordFreq.int_at b)); lia.
  - intros a b c H1 H2. apply ncompare_le. apply ncompare_le in H1, H2. lia.
Qed.

Lemma StronglySorted_impl {A : Type} (R R' : A -> A -> Prop) (l : list A) :
  (forall a b, R a b -> R' a b) -> StronglySorted R l -> StronglySorted R' l.
Proof.
  intros H. induction 1 as [|a l _ IH Ha]; constructor; [exact IH|].
  eapply Forall_impl; [|exact Ha]. intros b. apply H.
Qed.

(** The pair [sum] emits for a record, and the pairs for the records of a
    KeyMultiValue. *)
Definition count_of (r : KMV.record) : entry :=
  mkEntry (KMV.key r) (WordFreq.int_bytes (KMV.nvalues r)).

Lemma call_each_sum (recs : list KMV.record) :
  forall k, call_each WordFreq.sum recs k
            = KV.add_each k (List.map count_of recs).
Proof.
  induction recs as [|r recs IH]; intros k; [reflexivity|].
  cbn [call_each List.map KV.add_each WordFreq.sum]. fold (count_of r).
  destruct (KV.add k (count_of r)) as [k1|msg]; [|reflexivity].
  cbn [bind]. apply IH.
Qed.

(** What [sort_values(ncompare)] leaves on a rank: the records it held,
    the counts falling from page to page. *)
Definition by_falling_count (s s' : t) : Prop :=
  exists k k',
    kv s = Some k /\ kv s' = Some k'
    /\ Permutation (concat (KV.pages k)) (concat (KV.pages k'))
    /\ StronglySorted
         (fun a b => WordFreq.int_at (e_value b) <= WordFreq.int_at (e_value a))
         (concat (KV.pages k')).

Section WordFrequency.
Context {E : Externals}.

(** [reduce(sum)] of the example, on a rank whose KeyMultiValue holds no
    split multivalue: the rank is left with one pair per record, in the
    order of the records, its key the key of the record and its value the
    number of values of the record, as an [int] in four bytes. *)
Theorem reduce_sum_counts (s : t) (m : KMV.t) :
  kmv s = Some m ->
  Z.of_nat (length (KMV.pages m)) <= INTMAX ->
  Forall (fun r => 0 < KMV.nvalues r <= INTMAX) (records_of m) ->
  0 <= memquarter s <= INTMAX ->
  Forall (fits (new_kv s)) (List.map count_of (records_of m)) ->
  Z.of_nat (length (records_of m)) <= INTMAX ->
  exists k',
    reduce_rank WordFreq.sum s
    = Ok (set_kmv (set_kv (memswap s) (Some k')) None)
    /\ List.map e_key (concat (KV.pages k'))
       = List.map KMV.key (records_of m)
    /\ List.map (fun e => WordFreq.int_at (e_value e)) (concat (KV.pages k'))
       = List.map KMV.nvalues (records_of m).
Proof.
  intros Hm Hn Hw Hq Hf Hl.
  assert (Hw' : Forall (fun r => 0 < KMV.nvalues r) (records_of m)).
  { eapply Forall_impl; [|exact Hw]. cbn beta. intros r Hr. lia. }
  assert (R : reduce_rank WordFreq.sum s
              = (k <- call_each WordFreq.sum (records_of m) (new_kv s) ;;
                 Ok (set_kmv (set_kv (memswap s) (Some (KV.complete k))) None))).
  { unfold reduce_rank. rewrite Hm. cbv zeta.
    change 0 with (Z.of_nat 0).
    rewrite (scan_kmv_whole WordFreq.sum m Hn Hw') by (unfold scan_fuel; lia).
    cbn [skipn]. fold (records_of m).
    destruct (call_each WordFreq.sum (records_of m) (new_kv s)); reflexivity. }
  rewrite R, call_each_sum.
  destruct (add_each_total (List.map count_of (records_of m)) (new_kv s))
    as [k [Ek [_ [_ [_ Ck]]]]].
  - apply new_tidy. lia.
  - cbn. lia.
  - change (KV.pagesize (new_kv s)) with (memquarter s). lia.
  - exact Hf.
  - rewrite length_map. cbn. exact Hl.
  - rewrite Ek. cbn [bind]. exists (KV.complete k).
    split; [reflexivity|].
    rewrite complete_contents, Ck.
    change (contents (new_kv s)) with (@nil entry). cbn [app].
    rewrite !map_map. cbn [count_of e_key e_value]. split; [reflexivity|].
    apply map_ext_in. intros r Hr. rewrite int_at_bytes.
    rewrite Forall_forall in Hw. specialize (Hw r Hr). cbn beta in Hw.
    unfold INTMAX in Hw. apply int_of_small. lia.
Qed.

(** [sort_values(ncompare)] of the example, with a [qsort] that sorts and
    spools that hand back the records that fit their page ([spooling]), on
    ranks whose containers are [ready] (a KeyValue of one page or more,
    their number an [int]; on every page at most a twelfth of the memory
    quarter in records; with more than one page, no empty page, records of
    a size above zero that fit a page of the spools and a page of the new
    container, and a memory quarter and a number of records that are
    [int]s): the call returns, and every rank keeps its records, those
    with the larger count first.  [ncompare] is a total preorder. *)
Theorem sort_values_ncompare (g : group) :
  sorts qsort -> Forall spooling g ->
  Forall ready g ->
  exists n g',
    sort_values WordFreq.ncompare g = Ok (n, g')
    /\ Forall2 by_falling_count g g'.
Proof.
  intros qsort_ok spool_ok Hg. unfold sort_values, each. cbv beta.
  destruct (each_from_rel
              (fun _ : Z =>
                 sort_rank "Cannot sort_values without KeyValue"
                           WordFreq.ncompare 1)
              (fun s => spooling s /\ ready s) by_falling_count)
    with (g := g) (me := 0)
    as [g1 [E1 R1]].
  - intros me s [Hsp [k [Hk Hst]]].
    destruct (sort_rank_spec WordFreq.ncompare 1 ncompare_order qsort_ok
                "Cannot sort_values without KeyValue" s k Hsp Hk Hst)
      as [s' [k' [H1 [H2 [H3 H4]]]]].
    exists s'. split; [exact H1|]. exists k, k'.
    split; [exact Hk|]. split; [exact H2|]. split; [exact H3|].
    eapply StronglySorted_impl; [|exact H4].
    intros a b Hab. unfold by_field in Hab. cbn in Hab.
    apply ncompare_le. exact Hab.
  - apply Forall_and; [exact spool_ok|exact Hg].
  - rewrite E1. cbn [bind].
    destruct (stats_total "Sort_values" 0 g1) as [g2 E2].
    + apply (Forall2_right _ _ _ _ R1). intros a b [k [k' [_ [Hb _]]]].
      change (has_kv b). unfold has_kv. rewrite Hb. discriminate.
    + rewrite E2. cbn [bind]. exists (nkeyall_kv g2), g2.
      split; [reflexivity|]. apply each_Forall2 in E2.
      eapply Forall2_compose; [|exact R1|exact E2].
      intros a b c [k [k' [Ha [Hb [Hp Hso]]]]] [me [n Hst]].
      apply stats_rank_keeps in Hst. destruct Hst as [Hkv _].
      exists k, k'. rewrite Hkv. auto.
Qed.

End WordFrequency.

(** ** [map] with mapstyle 2: the master and its workers, lines 783-820 *)

Lemma without_shorter (busy : list Z) (iproc : Z) :
  In iproc busy -> (length (without busy iproc) < length busy)%nat.
Proof.
  unfold without. induction busy as [|p busy IH]; intros H; [contradiction|].
  cbn [filter length]. destruct (Z.eqb_spec p iproc) as [->|Hne].
  - cbn [negb]. pose proof (filter_length_le (fun q => negb (q =? iproc)) busy).
    lia.
  - cbn [negb length]. destruct H as [->|H]; [contradiction|].
    specialize (IH H). lia.
Qed.

Lemma without_incl (busy : list Z) (iproc p : Z) :
  In p (without busy iproc) -> In p busy.
Proof. unfold without. intros H. apply filter_In in H. apply H. Qed.

(** The first loop: tasks to the workers in rank order while there are
    some. *)
Lemma hand_out_spec (nmap : Z) (workers : list Z) :
  forall itask, itask <= nmap ->
    let '(sent, busy, itask') := hand_out workers itask nmap in
    List.map snd sent = range itask itask'
    /\ itask <= itask' <= nmap
    /\ Forall (fun x => In (fst x) workers) sent
    /\ incl busy workers
    /\ (length busy <= length workers)%nat
    /\ (itask' < nmap -> busy = workers).
Proof.
  induction workers as [|iproc rest IH]; intros itask Hi.
  - cbn [hand_out]. rewrite range_nil by lia.
    split; [reflexivity|]. split; [lia|]. split; [constructor|].
    split; [intros x Hx; exact Hx|]. split; [lia|reflexivity].
  - cbn [hand_out]. destruct (Z.ltb_spec itask nmap) as [Hlt|Hge].
    + specialize (IH (itask + 1) ltac:(lia)).
      destruct (hand_out rest (itask + 1) nmap) as [[sent busy] itask'].
      destruct IH as [Hs [Hr [Hf [Hb [Hl He]]]]].
      cbn [List.map snd]. rewrite Hs, (range_cons itask itask') by lia.
      split; [reflexivity|]. split; [lia|]. split; [|split; [|split]].
      * constructor; [now left|].
        eapply Forall_impl; [|exact Hf]. intros x Hx. now right.
      * intros x [<-|Hx]; [now left|right; now apply Hb].
      * cbn [length]. lia.
      * intros H. now rewrite (He H).
    + specialize (IH itask Hi).
      destruct (hand_out rest itask nmap) as [[sent busy] itask'].
      destruct IH as [Hs [Hr [Hf [Hb [Hl He]]]]].
      split; [exact Hs|]. split; [exact Hr|]. split; [|split; [|split]].
      * eapply Forall_impl; [|exact Hf]. intros x Hx. now right.
      * intros x Hx. right. now apply Hb.
      * cbn [length]. lia.
      * intros H. lia.
Qed.

(** The tasks of a schedule, worker by worker. *)
Lemma received_cons (x : Z * Z) (sched : list (Z * Z)) (me : Z) :
  received (x :: sched) me
  = if fst x =? me then snd x :: received sched me else received sched me.
Proof.
  unfold received. cbn [filter]. destruct (fst x =? me); reflexivity.
Qed.

Lemma received_partition (lo hi : Z) (sched : list (Z * Z)) :
  Forall (fun x => lo <= fst x < hi) sched ->
  Permutation (concat (List.map (received sched) (range lo hi)))
              (List.map snd sched).
Proof.
  induction 1 as [|x sched Hx _ IH].
  - assert (Hnil : forall l : list Z,
               concat (List.map (received []) l) = []).
    { induction l as [|a l IHl]; [reflexivity|exact IHl]. }
    rewrite Hnil. constructor.
  - cbn [List.map].
    rewrite (range_app lo (fst x) hi) by lia.
    rewrite (range_cons (fst x) hi) by lia.
    rewrite !map_app, !concat_app. cbn [List.map concat].
    rewrite received_cons, Z.eqb_refl.
    assert (Ho : forall l, ~ In (fst x) l ->
               List.map (received (x :: sched)) l = List.map (received sched) l).
    { intros l Hl. apply map_ext_in. intros me Hme. rewrite received_cons.
      destruct (Z.eqb_spec (fst x) me) as [Heq|]; [|reflexivity].
      subst me. contradiction. }
    rewrite (Ho (range lo (fst x))) by (rewrite In_range; lia).
    rewrite (Ho (range (fst x + 1) hi)) by (rewrite In_range; lia).
    cbn [app]. apply Permutation_sym.
    eapply Permutation_trans; [|apply Permutation_middle].
    constructor. apply Permutation_sym.
    rewrite (range_app lo (fst x) hi) in IH by lia.
    rewrite (range_cons (fst x) hi) in IH by lia.
    rewrite !map_app, !concat_app in IH. cbn [List.map concat] in IH.
    exact IH.
Qed.

Section Master.
Context {E : Externals}.

(** The second loop: every pass answers one of the workers that has a
    task, with the next task while there are some. *)
Lemma serve_spec (nmap : Z) (fuel : nat) :
  forall (nrecv : nat) (busy : list Z) (itask : Z),
    itask <= nmap -> (itask < nmap -> busy <> []) ->
    (Z.to_nat (nmap - itask) + length busy <= fuel)%nat ->
    List.map snd (serve fuel nrecv busy itask nmap) = range itask nmap
    /\ Forall (fun x => In (fst x) busy) (serve fuel nrecv busy itask nmap).
Proof.
  induction fuel as [|fuel IH]; intros nrecv busy itask Hi Hb Hf.
  - cbn [serve]. rewrite range_nil by lia. split; [reflexivity|constructor].
  - destruct busy as [|first rest].
    + cbn [serve]. destruct (Z.lt_ge_cases itask nmap) as [Hlt|Hge];
        [now destruct (Hb Hlt)|].
      rewrite range_nil by lia. split; [reflexivity|constructor].
    + cbn [serve]. cbv zeta.
      set (iproc := if existsb (Z.eqb (any_source nrecv (first :: rest)))
                                (first :: rest)
                    then any_source nrecv (first :: rest) else first).
      assert (Hin : In iproc (first :: rest)).
      { subst iproc.
        destruct (existsb (Z.eqb (any_source nrecv (first :: rest)))
                          (first :: rest))
          eqn:Hex; [|now left].
        apply existsb_exists in Hex. destruct Hex as [p [Hp Heq]].
        apply Z.eqb_eq in Heq. now rewrite Heq. }
      destruct (Z.ltb_spec itask nmap) as [Hlt|Hge].
      * destruct (IH (S nrecv) (first :: rest) (itask + 1)) as [Hs Hw];
          [lia|intros _; discriminate|cbn [length] in *; lia|].
        cbn [List.map snd]. rewrite Hs, (range_cons itask nmap) by lia.
        split; [reflexivity|]. constructor; [exact Hin|exact Hw].
      * pose proof (without_shorter (first :: rest) iproc Hin) as Hl.
        destruct (IH (S nrecv) (without (first :: rest) iproc) itask)
          as [Hs Hw]; [lia|lia|lia|].
        split; [exact Hs|].
        eapply Forall_impl; [|exact Hw]. intros x Hx.
        now apply (without_incl _ iproc).
Qed.

(** While tasks are left, the task of pass [nrecv] goes to the worker
    heard at that pass, whichever of the pending workers it is. *)
Lemma serve_hears (nmap : Z) (fuel nrecv : nat) (busy : list Z) (itask : Z) :
  itask < nmap -> In (any_source nrecv busy) busy ->
  serve (S fuel) nrecv busy itask nmap
  = (any_source nrecv busy, itask)
    :: serve fuel (S nrecv) busy (itask + 1) nmap.
Proof.
  intros Hlt Hin. destruct busy as [|first rest]; [contradiction|].
  cbn [serve]. cbv zeta.
  replace (existsb (Z.eqb (any_source nrecv (first :: rest))) (first :: rest))
    with true.
  - now rewrite (proj2 (Z.ltb_lt _ _) Hlt).
  - symmetry. apply existsb_exists.
    exists (any_source nrecv (first :: rest)). split; [exact Hin|].
    apply Z.eqb_refl.
Qed.

(** The schedule of the master: every task, once and in rising order,
    each sent to a worker. *)
Lemma master_spec (nprocs nmap : Z) :
  2 <= nprocs -> 0 <= nmap ->
  List.map snd (master nprocs nmap) = range 0 nmap
  /\ Forall (fun x => 1 <= fst x < nprocs) (master nprocs nmap).
Proof.
  intros Hp Hn. unfold master. cbv zeta.
  set (workers := List.map Z.of_nat (seq 1 (Z.to_nat (nprocs - 1)))).
  assert (Hw : forall p, In p workers -> 1 <= p < nprocs).
  { intros p Hin. subst workers. apply in_map_iff in Hin.
    destruct Hin as [k [<- Hk]]. apply in_seq in Hk. lia. }
  assert (Hne : workers <> []).
  { subst workers. replace (Z.to_nat (nprocs - 1)) with (S (Z.to_nat (nprocs - 2)))
      by lia. discriminate. }
  assert (Hlen : (length workers <= Z.to_nat nprocs)%nat).
  { subst workers. rewrite length_map, length_seq. lia. }
  pose proof (hand_out_spec nmap workers 0 Hn) as H.
  destruct (hand_out workers 0 nmap) as [[sent busy] itask].
  destruct H as [Hs [Hr [Hf [Hb [Hl He]]]]].
  destruct (serve_spec nmap (Z.to_nat nmap + Z.to_nat nprocs) 0 busy itask)
    as [Hv Hq].
  - lia.
  - intros Hlt. now rewrite (He Hlt).
  - lia.
  - rewrite map_app, Hs, Hv. split; [symmetry; apply range_app; lia|].
    apply Forall_app. split.
    + eapply Forall_impl; [|exact Hf]. intros x Hx. now apply Hw.
    + eapply Forall_impl; [|exact Hq]. intros x Hx. now apply Hw, Hb.
Qed.

(** Task assignment of [map] with mapstyle 2 on a group of two ranks or
    more: rank 0, the master, runs no task; a worker runs the tasks the
    master sends it, in the order sent; and whatever the order in which
    the master hears from its workers, the tasks of the workers together
    are the tasks [0 .. nmap-1], each exactly once. *)
Theorem master_worker_assignment (nprocs nmap : Z) :
  2 <= nprocs -> 0 <= nmap ->
  map_tasks 2 0 nprocs nmap = Ok []
  /\ (forall me, 1 <= me < nprocs ->
        map_tasks 2 me nprocs nmap = Ok (received (master nprocs nmap) me))
  /\ Permutation
       (concat (List.map (received (master nprocs nmap)) (range 1 nprocs)))
       (range 0 nmap).
Proof.
  intros Hp Hn.
  assert (H1 : (nprocs =? 1) = false) by (apply Z.eqb_neq; lia).
  split; [|split].
  - unfold map_tasks, run_tasks. rewrite H1. reflexivity.
  - intros me Hme. unfold map_tasks, run_tasks. rewrite H1.
    cbn [Z.eqb Pos.eqb].
    replace (me =? 0) with false by (symmetry; apply Z.eqb_neq; lia).
    change (run_list (received (master nprocs nmap) me) record_task []
            = Ok (received (master nprocs nmap) me)).
    now rewrite run_list_record.
  - destruct (master_spec nprocs nmap Hp Hn) as [Hs Hf].
    rewrite <- Hs. apply received_partition. exact Hf.
Qed.

End Master.

Lemma master_worker_assignment_witness :
  map_tasks (E := Reference.externals) 2 0 3 5 = Ok []
  /\ (forall me, 1 <= me < 3 ->
        map_tasks (E := Reference.externals) 2 me 3 5
        = Ok (received (master (E := Reference.externals) 3 5) me))
  /\ Permutation
       (concat (List.map (received (master (E := Reference.externals) 3 5))
                         (range 1 3)))
       (range 0 5).
Proof.
  apply (master_worker_assignment (E := Reference.externals) 3 5); lia.
Defined.

(** With the pending workers heard in turn: worker 1 runs the tasks 0, 2
    and 4, worker 2 the tasks 1 and 3. *)
Lemma master_worker_run :
  List.map (fun me => map_tasks (E := Reference.externals) 2 me 3 5) [0; 1; 2]
  = [Ok []; Ok [0; 2; 4]; Ok [1; 3]].
Proof. vm_compute. reflexivity. Qed.

(** ** [map(nmap,appmap,appptr,addflag)] with a callback that adds pairs *)

(** A callback that adds the pairs [recs itask], one by one. *)
Definition adds (recs : Z -> list entry) : Z -> KV.t -> result KV.t :=
  fun itask k => KV.add_each k (recs itask).

Lemma run_list_adds (recs : Z -> list entry) (l : list Z) :
  forall k, run_list l (adds recs) k
            = KV.add_each k (concat (List.map recs l)).
Proof.
  induction l as [|itask l IH]; intros k; [reflexivity|].
  cbn [run_list List.map concat]. rewrite add_each_app. unfold adds at 1.
  destruct (KV.add_each k (recs itask)) as [k1|msg]; [|reflexivity].
  cbn [bind]. apply IH.
Qed.

Section MapCollects.
Context {E : Externals}.

(** [map] on a rank that is allocated, with a callback that adds pairs
    which fit a page: the rank ends with the pairs of its tasks, task
    after task in the order it runs them, behind the pairs it held when
    [addflag] is not zero, and with no KeyMultiValue. *)
Theorem map_collects (nmap addflag me nprocs : Z) (recs : Z -> list entry)
    (s : t) (l : list Z) :
  allocated s = true ->
  map_tasks (mapstyle s) me nprocs nmap = Ok l ->
  (addflag <> 0 -> forall k0, kv s = Some k0 ->
     completed k0 /\ shape k0 = shape (new_kv s)) ->
  0 <= memquarter s <= INTMAX ->
  Forall (fits (new_kv s)) (concat (List.map recs l)) ->
  Z.of_nat (length (if addflag =? 0 then [] else held s))
  + Z.of_nat (length (concat (List.map recs l))) <= INTMAX ->
  exists s',
    map_rank nmap (adds recs) addflag me nprocs s = Ok s'
    /\ held s' = (if addflag =? 0 then [] else held s)
                 ++ concat (List.map recs l)
    /\ kmv s' = None.
Proof.
  intros Ha Hl Hk Hq Hf Hn. unfold map_rank. rewrite Ha. cbn [bind]. cbv zeta.
  assert (Fresh : forall s3 : t,
             mapstyle s3 = mapstyle s -> kmv s3 = None ->
             Z.of_nat (length (concat (List.map recs l))) <= INTMAX ->
             exists s',
               (k' <- run_tasks (mapstyle s3) me nprocs nmap (adds recs)
                        (new_kv s) ;;
                Ok (set_kv s3 (Some (KV.complete k')))) = Ok s'
               /\ held s' = concat (List.map recs l) /\ kmv s' = None).
  { intros s3 Hs3 Hm3 Hn'. rewrite Hs3.
    rewrite (run_tasks_trace _ _ _ _ l Hl), run_list_adds.
    destruct (add_each_total (concat (List.map recs l)) (new_kv s))
      as [k' [Ek [_ [_ [_ Ck]]]]].
    - apply new_tidy. lia.
    - cbn. lia.
    - change (KV.pagesize (new_kv s)) with (memquarter s). lia.
    - exact Hf.
    - cbn [new_kv KV.new KV.nkey]. lia.
    - rewrite Ek. cbn [bind]. eexists. split; [reflexivity|].
      split; [|exact Hm3].
      unfold held. cbn [kv set_kv]. rewrite complete_contents, Ck.
      reflexivity. }
  destruct (Z.eqb_spec addflag 0) as [H0|H0].
  - cbn [app] in *. change (new_kv (set_kmv s None)) with (new_kv s).
    apply Fresh; [reflexivity|reflexivity|]. cbn [length] in Hn. lia.
  - change (kv (set_kmv s None)) with (kv s).
    destruct (kv s) as [k0|] eqn:Ek0.
    + destruct (Hk H0 k0 eq_refl) as [Cp Sh].
      assert (Hh : held s = concat (KV.pages k0))
        by (unfold held; now rewrite Ek0).
      rewrite Hh in *.
      change (mapstyle (set_kmv s None)) with (mapstyle s).
      rewrite (run_tasks_trace _ _ _ _ l Hl), run_list_adds.
      assert (Hps : KV.pagesize k0 = memquarter s).
      { unfold shape in Sh. injection Sh as _ _ _ ->. reflexivity. }
      destruct (append_spec k0 Cp ltac:(lia)) as [Ta [Sa [Ca Aa]]].
      destruct (add_each_total (concat (List.map recs l)) (KV.append k0) Ta Aa)
        as [k' [Ek [_ [_ [_ Ck]]]]].
      * unfold shape in Sa. injection Sa as _ _ _ ->. lia.
      * eapply Forall_impl; [|exact Hf]. intros x. apply fits_shape.
        now rewrite Sa, Sh.
      * rewrite (tidy_nkey _ Ta).
        assert (Z.of_nat (length (KV.page (KV.append k0)))
                <= Z.of_nat (length (concat (KV.pages k0)))).
        { rewrite <- Ca. unfold contents. rewrite length_app. lia. }
        lia.
      * rewrite Ek. cbn [bind]. eexists. split; [reflexivity|].
        split; [|reflexivity].
        unfold held. cbn [kv set_kv]. rewrite complete_contents, Ck, Ca.
        reflexivity.
    + assert (Hh : held s = []) by (unfold held; now rewrite Ek0).
      rewrite Hh in *. cbn [app length] in *.
      change (new_kv (set_kmv s None)) with (new_kv s).
      apply Fresh; [reflexivity|reflexivity|lia].
Qed.

End MapCollects.

(** ** [aggregate(hash)], lines 341-468 *)

(** What is asked of [Irregular]: a rank receives the records addressed to
    it, in some order. *)
Definition delivers (irr : list (list (Z * entry)) -> list (list entry))
    : Prop :=
  forall (sent : list (list (Z * entry))) (me : nat),
    (me < length sent)%nat ->
    Permutation (nth me (irr sent) [])
                (List.map snd
                   (filter (fun x => fst x =? Z.of_nat me) (concat sent))).

Lemma filter_permuted {A : Type} (f : A -> bool) (l l' : list A) :
  Permutation l l' -> Permutation (filter f l) (filter f l').
Proof.
  induction 1 as [|x l l' _ IH|x y l|l l' l'' _ IH1 _ IH2]; cbn [filter].
  - constructor.
  - destruct (f x); [now constructor|exact IH].
  - destruct (f x), (f y); try apply Permutation_refl. apply perm_swap.
  - eapply Permutation_trans; eassumption.
Qed.

Lemma concat_map_app_perm {A B : Type} (f h : A -> list B) (l : list A) :
  Permutation (concat (List.map (fun a => f a ++ h a) l))
              (concat (List.map f l) ++ concat (List.map h l)).
Proof.
  induction l as [|a l IH]; cbn [List.map concat]; [constructor|].
  rewrite <- !app_assoc. apply Permutation_app_head.
  eapply Permutation_trans; [apply Permutation_app_head; exact IH|].
  rewrite !app_assoc. apply Permutation_app_tail. apply Permutation_app_comm.
Qed.

Lemma concat_firstn_S {A : Type} (ll : list (list A)) :
  forall n, concat (firstn (S n) ll) = concat (firstn n ll) ++ nth n ll [].
Proof.
  induction ll as [|p ll IH]; intros n.
  - destruct n; reflexivity.
  - destruct n as [|n].
    + cbn. now rewrite app_nil_r.
    + rewrite !firstn_cons. cbn [concat nth].
      rewrite (IH n), app_assoc. reflexivity.
Qed.

Lemma untag {A : Type} (d : A -> Z) (j : Z) (l : list A) :
  List.map snd (filter (fun x => fst x =? j) (List.map (fun e => (d e, e)) l))
  = filter (fun e => d e =? j) l.
Proof.
  induction l as [|a l IH]; [reflexivity|].
  cbn [List.map filter fst]. destruct (d a =? j); cbn [List.map snd];
    now rewrite IH.
Qed.

Lemma length_concat_map_le {A B : Type} (f h : A -> list B) (l : list A) :
  (forall a, In a l -> (length (f a) <= length (h a))%nat) ->
  (length (concat (List.map f l)) <= length (concat (List.map h l)))%nat.
Proof.
  induction l as [|a l IH]; intros H; [cbn; lia|].
  cbn [List.map concat]. rewrite !length_app.
  pose proof (H a (or_introl eq_refl)).
  assert (length (concat (List.map f l)) <= length (concat (List.map h l)))%nat
    by (apply IH; intros b Hb; apply H; now right).
  lia.
Qed.

Lemma allreduce_max_ge (xs : list Z) (x : Z) :
  In x xs -> int_of x <= allreduce_max xs.
Proof.
  unfold allreduce_max. induction xs as [|y xs IH]; intros H; [contradiction|].
  cbn [List.map fold_right]. destruct H as [->|H]; [lia|].
  specialize (IH H). lia.
Qed.

Lemma nth_map_in {A B : Type} (f : A -> B) (l : list A) (j : nat) (d : A)
    (d' : B) :
  (j < length l)%nat -> nth j (List.map f l) d' = f (nth j l d).
Proof.
  intros H. rewrite (nth_indep _ d' (f d)) by (now rewrite length_map).
  apply map_nth.
Qed.

Lemma nth_tail {A : Type} (l : list (list A)) (j : nat) :
  nth (S j) l [] = nth j (tl l) [].
Proof. destruct l as [|a l]; [destruct j; reflexivity|reflexivity]. Qed.

(** The pages of a rank, and the records of its first [n] pages. *)
Definition pages_of (s : t) : list (list entry) :=
  match kv s with
  | Some k => KV.pages k
  | None => []
  end.

Definition upto (n : nat) (s : t) : list entry := concat (firstn n (pages_of s)).

Lemma upto_S (n : nat) (s : t) :
  upto (S n) s = upto n s ++ nth n (pages_of s) [].
Proof. apply concat_firstn_S. Qed.

Lemma upto_held (n : nat) (s : t) :
  (length (pages_of s) <= n)%nat -> upto n s = held s.
Proof.
  intros H. unfold upto, held, pages_of in *.
  destruct (kv s); [|now rewrite firstn_nil].
  now rewrite firstn_all2.
Qed.

Lemma upto_shorter (n : nat) (s : t) :
  (length (upto n s) <= length (held s))%nat.
Proof.
  assert (Hh : held s = concat (pages_of s))
    by (unfold held, pages_of; destruct (kv s); reflexivity).
  rewrite Hh. unfold upto.
  rewrite <- (firstn_skipn n (pages_of s)) at 2.
  rewrite concat_app, length_app. lia.
Qed.

Lemma page_in_held (n : nat) (s : t) (e : entry) :
  In e (nth n (pages_of s) []) -> In e (held s).
Proof.
  intros H.
  assert (Hh : held s = concat (pages_of s))
    by (unfold held, pages_of; destruct (kv s); reflexivity).
  rewrite Hh. apply in_concat. exists (nth n (pages_of s) []).
  split; [|exact H].
  destruct (Nat.lt_ge_cases n (length (pages_of s))) as [Hlt|Hge].
  - now apply nth_In.
  - rewrite nth_overflow in H by exact Hge. contradiction.
Qed.

(** [kvnew->add(nkey_recv,page_recv)] on every rank. *)
Lemma receive_spec (sh : Z * Z * Z * Z) :
  forall (kvnew : list KV.t) (recv : list (list entry)),
    (forall j, (j < length kvnew)%nat ->
       tidy (nth j kvnew (KV.new 0 0 0))
       /\ 0 <= KV.alignsize (nth j kvnew (KV.new 0 0 0))
       /\ shape (nth j kvnew (KV.new 0 0 0)) = sh
       /\ Forall (fits (nth j kvnew (KV.new 0 0 0))) (nth j recv [])
       /\ KV.nkey (nth j kvnew (KV.new 0 0 0))
          + Z.of_nat (length (nth j recv [])) <= INTMAX) ->
    snd sh <= INTMAX ->
    exists kvnew',
      receive kvnew recv = Ok kvnew' /\ length kvnew' = length kvnew
      /\ forall j, (j < length kvnew)%nat ->
           tidy (nth j kvnew' (KV.new 0 0 0))
           /\ 0 <= KV.alignsize (nth j kvnew' (KV.new 0 0 0))
           /\ shape (nth j kvnew' (KV.new 0 0 0)) = sh
           /\ contents (nth j kvnew' (KV.new 0 0 0))
              = contents (nth j kvnew (KV.new 0 0 0)) ++ nth j recv [].
Proof.
  induction kvnew as [|k kvnew IH]; intros recv H Hp.
  - exists []. split; [reflexivity|]. split; [reflexivity|].
    intros j Hj. cbn [length] in Hj. lia.
  - destruct (H 0%nat ltac:(cbn [length]; lia)) as [T [A0 [Sh [Hf Hn]]]].
    cbn [nth] in T, A0, Sh.
    assert (Hhd : nth 0 recv [] = hd [] recv) by (destruct recv; reflexivity).
    rewrite Hhd in Hf, Hn. cbn [nth] in Hf, Hn.
    destruct (add_buf_spec k (hd [] recv) T A0 Hf) as [k' [Ek [T' [A' [S' C']]]]].
    + unfold shape in Sh. rewrite <- Sh in Hp. exact Hp.
    + exact Hn.
    + destruct (IH (tl recv)) as [rest' [Er [Lr Hr]]].
      * intros j Hj. specialize (H (S j) ltac:(cbn [length]; lia)).
        rewrite nth_tail in H. exact H.
      * exact Hp.
      * exists (k' :: rest'). cbn [receive]. rewrite Ek. cbn [bind].
        rewrite Er. cbn [bind]. split; [reflexivity|].
        split; [cbn [length]; now rewrite Lr|].
        intros [|j] Hj.
        -- cbn [nth]. rewrite Hhd. split; [exact T'|]. split; [exact A'|].
           split; [now rewrite S'|exact C'].
        -- cbn [nth]. rewrite nth_tail. apply Hr. cbn [length] in Hj. lia.
Qed.

Section Aggregate.
Context {E : Externals}.
Variable hash : option (list Z -> Z).
Variable g : group.
Variable sh : Z * Z * Z * Z.
Hypothesis deliver_ok : delivers irregular.
Hypothesis ranks_ok : Forall (shelved sh) g.
Hypothesis quarters_ok : Forall (fun s => shape (new_kv s) = sh) g.
Hypothesis page_ok : 0 <= snd sh <= INTMAX.
Hypothesis count_ok : Z.of_nat (length (concat (List.map held g))) <= INTMAX.

(** The records of [l] that [aggregate] addresses to rank [j]. *)
Definition bound_for (j : Z) (l : list entry) : list entry :=
  filter (fun e => proc_of hash (Z.of_nat (length g)) e =? j) l.

Lemma page_send_spec (s : t) (n : nat) :
  shelved sh s ->
  page_send hash (Z.of_nat (length g)) (Z.of_nat n) s
  = List.map (fun e => (proc_of hash (Z.of_nat (length g)) e, e))
             (nth n (pages_of s) []).
Proof.
  intros [k [Hk [_ [_ [_ Hl]]]]]. unfold page_send, pages_of. rewrite Hk.
  unfold KV.request_info, KV.npage, KV.request_page. unfold INTMAX in Hl.
  rewrite int_of_small by lia. rewrite Nat2Z.id.
  destruct (Z.ltb_spec (Z.of_nat n) (Z.of_nat (length (KV.pages k))))
    as [Hlt|Hge]; [reflexivity|].
  rewrite nth_overflow by lia. reflexivity.
Qed.

Lemma received_page (n j : nat) :
  (j < length g)%nat ->
  Permutation
    (nth j (irregular (List.map (page_send hash (Z.of_nat (length g))
                                           (Z.of_nat n)) g)) [])
    (bound_for (Z.of_nat j)
       (concat (List.map (fun s => nth n (pages_of s) []) g))).
Proof.
  intros Hj.
  eapply Permutation_trans;
    [apply deliver_ok; now rewrite length_map|].
  assert (Hs : List.map (page_send hash (Z.of_nat (length g)) (Z.of_nat n)) g
               = List.map
                   (fun s => List.map
                      (fun e => (proc_of hash (Z.of_nat (length g)) e, e))
                      (nth n (pages_of s) [])) g).
  { apply map_ext_in. intros s Hs. apply page_send_spec.
    rewrite Forall_forall in ranks_ok. now apply ranks_ok. }
  rewrite Hs.
  rewrite <- (map_map (fun s => nth n (pages_of s) [])
                      (List.map (fun e =>
                         (proc_of hash (Z.of_nat (length g)) e, e)))).
  rewrite <- concat_map. rewrite untag. apply Permutation_refl.
Qed.

Lemma record_fits (k : KV.t) (e : entry) :
  shape k = sh -> In e (concat (List.map held g)) -> fits k e.
Proof.
  intros Sk He. apply in_concat in He. destruct He as [l [Hl He]].
  apply in_map_iff in Hl. destruct Hl as [s [<- Hs]].
  rewrite Forall_forall in ranks_ok.
  destruct (ranks_ok s Hs) as [k0 [Hk0 [_ [S0 [Hf _]]]]].
  unfold held in He. rewrite Hk0 in He.
  rewrite Forall_forall in Hf. apply (fits_shape k0 k); [now rewrite Sk, S0|].
  now apply Hf.
Qed.

(** After [n] rounds every new container holds the records of the first
    [n] pages of all ranks that are addressed to its rank. *)
Definition filled_to (n : nat) (kvnew : list KV.t) : Prop :=
  length kvnew = length g
  /\ forall j, (j < length g)%nat ->
       tidy (nth j kvnew (KV.new 0 0 0))
       /\ 0 <= KV.alignsize (nth j kvnew (KV.new 0 0 0))
       /\ shape (nth j kvnew (KV.new 0 0 0)) = sh
       /\ Permutation (contents (nth j kvnew (KV.new 0 0 0)))
            (bound_for (Z.of_nat j) (concat (List.map (upto n) g))).

Lemma round_perm (n : nat) (j : Z) :
  Permutation
    (bound_for j (concat (List.map (upto n) g))
     ++ bound_for j (concat (List.map (fun s => nth n (pages_of s) []) g)))
    (bound_for j (concat (List.map (upto (S n)) g))).
Proof.
  unfold bound_for. rewrite <- filter_app. apply filter_permuted.
  apply Permutation_sym.
  rewrite (map_ext _ _ (upto_S n)).
  apply (concat_map_app_perm (upto n) (fun s => nth n (pages_of s) [])).
Qed.

Lemma bound_for_count (n : nat) (j : Z) :
  Z.of_nat (length (bound_for j (concat (List.map (upto n) g)))) <= INTMAX.
Proof.
  unfold bound_for.
  pose proof (filter_length_le
                (fun e => proc_of hash (Z.of_nat (length g)) e =? j)
                (concat (List.map (upto n) g))).
  pose proof (length_concat_map_le (upto n) held g
                (fun s _ => upto_shorter n s)).
  lia.
Qed.

Lemma exchange_pages_spec (m : nat) :
  forall (n : nat) (kvnew : list KV.t),
    filled_to n kvnew ->
    exists kvnew',
      exchange_pages hash g (Z.of_nat n) m kvnew = Ok kvnew'
      /\ filled_to (n + m) kvnew'.
Proof.
  induction m as [|m IH]; intros n kvnew [Hlen Hinv].
  - exists kvnew. rewrite Nat.add_0_r. split; [reflexivity|now split].
  - cbn [exchange_pages]. cbv zeta.
    set (recv := irregular (List.map (page_send hash (Z.of_nat (length g))
                                               (Z.of_nat n)) g)).
    destruct (receive_spec sh kvnew recv) as [kvnew' [Er [Lr Hr]]].
    + intros j Hj. rewrite Hlen in Hj.
      destruct (Hinv j Hj) as [T [A0 [Sk Pk]]].
      pose proof (received_page n j Hj) as Pr. fold recv in Pr.
      split; [exact T|]. split; [exact A0|]. split; [exact Sk|]. split.
      * apply Forall_forall. intros e He. apply (record_fits _ e Sk).
        apply (Permutation_in _ Pr) in He. unfold bound_for in He.
        apply filter_In in He. destruct He as [He _].
        apply in_concat in He. destruct He as [l [Hl He]].
        apply in_map_iff in Hl. destruct Hl as [s [<- Hs]].
        apply in_concat. exists (held s). split; [now apply in_map|].
        now apply (page_in_held n).
      * rewrite (tidy_nkey _ T).
        pose proof (Permutation_length Pk) as L1.
        pose proof (Permutation_length Pr) as L2.
        pose proof (Permutation_length (round_perm n (Z.of_nat j))) as L3.
        rewrite length_app in L3.
        pose proof (bound_for_count (S n) (Z.of_nat j)) as L4.
        unfold contents in L1. rewrite length_app in L1. lia.
    + lia.
    + rewrite Er. cbn [bind].
      replace (Z.of_nat n + 1) with (Z.of_nat (S n)) by lia.
      destruct (IH (S n) kvnew') as [kvnew'' [Ex Hx]].
      * split; [now rewrite Lr|]. intros j Hj.
        destruct (Hr j ltac:(now rewrite Hlen)) as [T' [A' [S' C']]].
        destruct (Hinv j Hj) as [_ [_ [_ Pk]]].
        split; [exact T'|]. split; [exact A'|]. split; [exact S'|].
        rewrite C'. eapply Permutation_trans; [|apply round_perm].
        apply Permutation_app; [exact Pk|].
        apply (received_page n j Hj).
      * exists kvnew''. split; [exact Ex|].
        replace (n + S m)%nat with (S n + m)%nat by lia. exact Hx.
Qed.

Lemma new_filled : filled_to 0 (List.map new_kv g).
Proof.
  split; [apply length_map|]. intros j Hj.
  change (KV.new 0 0 0) with (new_kv new). rewrite map_nth.
  assert (Hin : In (nth j g new) g) by (now apply nth_In).
  rewrite Forall_forall in quarters_ok. pose proof (quarters_ok _ Hin) as Sq.
  split; [|split; [cbn; lia|split; [exact Sq|]]].
  - apply new_tidy. unfold shape in Sq. rewrite <- Sq in page_ok.
    cbn [snd] in page_ok. apply page_ok.
  - change (contents (new_kv (nth j g new))) with (@nil entry).
    assert (Hn : concat (List.map (upto 0) g) = []).
    { clear. induction g as [|a l IH]; [reflexivity|exact IH]. }
    rewrite Hn. constructor.
Qed.

Lemma installed_at (kvnew : list KV.t) (j : nat) :
  length kvnew = length g -> (j < length g)%nat ->
  held (nth j (List.map (fun sk => install (fst sk) (snd sk)) (combine g kvnew))
            new)
  = contents (nth j kvnew (KV.new 0 0 0)).
Proof.
  intros Hl Hj.
  rewrite (nth_map_in (fun sk => install (fst sk) (snd sk)) _ j
             (new, KV.new 0 0 0))
    by (rewrite length_combine; lia).
  rewrite combine_nth by (now symmetry).
  cbn [fst snd]. unfold held, install. cbn [kv set_kv].
  apply complete_contents.
Qed.

Lemma maxpage_enough (s : t) :
  In s g ->
  (length (pages_of s)
   <= Z.to_nat (allreduce_max
                  (List.map (fun s => match kv s with
                                      | Some k => KV.request_info k
                                      | None => 0%Z
                                      end) g)))%nat.
Proof.
  intros Hs. rewrite Forall_forall in ranks_ok.
  destruct (ranks_ok s Hs) as [k [Hk [_ [_ [_ Hl]]]]].
  unfold pages_of. rewrite Hk. unfold INTMAX in Hl.
  pose proof (allreduce_max_ge
                (List.map (fun s => match kv s with
                                    | Some k => KV.request_info k
                                    | None => 0
                                    end) g)
                (Z.of_nat (length (KV.pages k)))) as H.
  rewrite int_of_small in H by lia.
  assert (Hin : In (Z.of_nat (length (KV.pages k)))
                   (List.map (fun s => match kv s with
                                       | Some k => KV.request_info k
                                       | None => 0
                                       end) g)).
  { apply in_map_iff. exists s. rewrite Hk. split; [|exact Hs].
    unfold KV.request_info, KV.npage. apply int_of_small. lia. }
  specialize (H Hin). lia.
Qed.

(** The exchange itself, on a group of more than one rank. *)
Lemma aggregate_core_spec :
  Z.of_nat (length g) <> 1 ->
  exists g1,
    aggregate_core hash g = Ok g1 /\ length g1 = length g
    /\ Forall has_kv g1
    /\ forall j, (j < length g)%nat ->
         Permutation (held (nth j g1 new))
                     (bound_for (Z.of_nat j) (concat (List.map held g))).
Proof.
  intros H1. unfold aggregate_core.
  replace (Z.of_nat (length g) =? 1) with false
    by (symmetry; now apply Z.eqb_neq).
  cbv zeta.
  set (maxpage := allreduce_max _).
  destruct (exchange_pages_spec (Z.to_nat maxpage) 0 (List.map new_kv g)
              new_filled) as [kvnew [Ex [Hlen Hinv]]].
  change (Z.of_nat 0) with 0 in Ex. rewrite Ex. cbn [bind].
  eexists. split; [reflexivity|]. split; [|split].
  - rewrite length_map, length_combine. lia.
  - apply Forall_forall. intros s Hs. apply in_map_iff in Hs.
    destruct Hs as [[s0 k] [<- _]]. unfold has_kv. discriminate.
  - intros j Hj. rewrite (installed_at kvnew j Hlen Hj).
    destruct (Hinv j Hj) as [_ [_ [_ P]]].
    assert (Hu : List.map (upto (0 + Z.to_nat maxpage)) g = List.map held g).
    { apply map_ext_in. intros s Hs. apply upto_held.
      pose proof (maxpage_enough s Hs). subst maxpage. lia. }
    rewrite Hu in P. exact P.
Qed.

End Aggregate.

Lemma filter_all {A : Type} (f : A -> bool) (l : list A) :
  (forall x, f x = true) -> filter f l = l.
Proof.
  intros H. induction l as [|a l IH]; [reflexivity|].
  cbn [filter]. now rewrite H, IH.
Qed.

(** Sorting a list into the classes of a function with values in
    [lo .. hi-1] loses nothing. *)
Lemma filter_partition {A : Type} (d : A -> Z) (lo hi : Z) (l : list A) :
  Forall (fun e => lo <= d e < hi) l ->
  Permutation
    (concat (List.map (fun j => filter (fun e => d e =? j) l) (range lo hi)))
    l.
Proof.
  induction 1 as [|x l Hx _ IH].
  - assert (Hnil : forall r : list Z,
               concat (List.map (fun j => filter (fun e : A => d e =? j) []) r)
               = []).
    { induction r as [|a r IHr]; [reflexivity|exact IHr]. }
    rewrite Hnil. constructor.
  - rewrite (range_app lo (d x) hi) in * by lia.
    rewrite (range_cons (d x) hi) in * by lia.
    rewrite !map_app, !concat_app in *. cbn [List.map concat] in *.
    assert (Hm : filter (fun e => d e =? d x) (x :: l)
                 = x :: filter (fun e => d e =? d x) l)
      by (cbn [filter]; now rewrite Z.eqb_refl).
    rewrite Hm.
    assert (Ho : forall r, ~ In (d x) r ->
               List.map (fun j => filter (fun e => d e =? j) (x :: l)) r
               = List.map (fun j => filter (fun e => d e =? j) l) r).
    { intros r Hr. apply map_ext_in. intros j Hj. cbn [filter].
      destruct (Z.eqb_spec (d x) j) as [Heq|]; [|reflexivity].
      subst j. contradiction. }
    rewrite (Ho (range lo (d x))) by (rewrite In_range; lia).
    rewrite (Ho (range (d x + 1) hi)) by (rewrite In_range; lia).
    cbn [app]. apply Permutation_sym.
    eapply Permutation_trans; [|apply Permutation_middle].
    constructor. apply Permutation_sym. exact IH.
Qed.

Lemma concat_map_permuted {A B : Type} (f h : A -> list B) (l : list A) :
  (forall a, In a l -> Permutation (f a) (h a)) ->
  Permutation (concat (List.map f l)) (concat (List.map h l)).
Proof.
  induction l as [|a l IH]; intros H; [constructor|].
  cbn [List.map concat]. apply Permutation_app.
  - apply H. now left.
  - apply IH. intros b Hb. apply H. now right.
Qed.

Lemma list_by_index {A : Type} (l : list A) (d : A) :
  l = List.map (fun j => nth (Z.to_nat j) l d) (range 0 (Z.of_nat (length l))).
Proof.
  unfold range. rewrite Z.sub_0_r, Nat2Z.id, map_map.
  apply (nth_ext _ _ d d).
  - now rewrite length_map, length_seq.
  - intros n Hn.
    rewrite (nth_map_in _ (seq 0 (length l)) n 0%nat)
      by (now rewrite length_seq).
    rewrite seq_nth by exact Hn. now rewrite Z.add_0_l, Nat2Z.id.
Qed.

Lemma stats_held heading which (g1 g2 : group) :
  stats heading which g1 = Ok g2 -> List.map held g2 = List.map held g1.
Proof.
  intros H. apply stats_mute in H. apply map_mute_kv in H.
  assert (Hh : forall l : group,
             List.map held l
             = List.map (fun o : option KV.t =>
                           match o with
                           | Some k => concat (KV.pages k)
                           | None => []
                           end) (List.map kv l)).
  { intros l. rewrite map_map. reflexivity. }
  now rewrite !Hh, H.
Qed.

(** [aggregate] on a group whose ranks hold completed containers of one
    page size, with an [Irregular] that delivers what is sent: it returns,
    and every rank ends with the records of the whole group that are
    addressed to it (its key's hash, or the user's hash, modulo the number
    of ranks), in some order.  When every record is addressed to a rank,
    the group holds the records it held: none is lost, none is doubled. *)
Theorem aggregate_places {E : Externals} (hash : option (list Z -> Z))
    (g : group) (sh : Z * Z * Z * Z) :
  g <> [] -> delivers irregular -> Forall (shelved sh) g ->
  Forall (fun s => shape (new_kv s) = sh) g -> 0 <= snd sh <= INTMAX ->
  Z.of_nat (length (concat (List.map held g))) <= INTMAX ->
  exists n g',
    aggregate hash g = Ok (n, g') /\ length g' = length g
    /\ (forall me, 0 <= me < Z.of_nat (length g) ->
          Permutation (held_at g' me)
                      (bound_for hash g me (concat (List.map held g))))
    /\ (Forall (fun e => 0 <= proc_of hash (Z.of_nat (length g)) e
                         < Z.of_nat (length g))
               (concat (List.map held g)) ->
        Permutation (concat (List.map held g')) (concat (List.map held g))).
Proof.
  intros Hne Hd Hr Hq Hp Hc.
  assert (Hk : Forall has_kv g).
  { eapply Forall_impl; [|exact Hr]. intros s [k [Hk _]].
    unfold has_kv. rewrite Hk. discriminate. }
  assert (Core : exists g1,
             aggregate_core hash g = Ok g1 /\ length g1 = length g
             /\ Forall has_kv g1
             /\ forall j, (j < length g)%nat ->
                  Permutation (held (nth j g1 new))
                    (bound_for hash g (Z.of_nat j) (concat (List.map held g)))).
  { destruct (Z.eq_dec (Z.of_nat (length g)) 1) as [H1|H1].
    - exists g. unfold aggregate_core. rewrite H1. cbn [Z.eqb Pos.eqb].
      split; [reflexivity|]. split; [reflexivity|]. split; [exact Hk|].
      intros j Hj. assert (j = 0%nat) by lia. subst j.
      destruct g as [|s [|s' rest]]; cbn [length] in H1; try lia.
      cbn [nth List.map concat]. rewrite app_nil_r.
      unfold bound_for. rewrite filter_all; [apply Permutation_refl|].
      intros e. apply Z.eqb_eq. cbn [length]. change (Z.of_nat 1) with 1.
      unfold proc_of. destruct hash; apply Z.rem_1_r.
    - apply (aggregate_core_spec hash g sh Hd Hr Hq Hp Hc H1). }
  destruct Core as [g1 [E1 [L1 [K1 P1]]]].
  destruct (stats_total "Aggregate" 0 g1 K1) as [g2 E2].
  destruct (aggregate_join hash g g g1 g2 (require_each _ g Hk) E1 E2)
    as [n Ha].
  pose proof (stats_held _ _ _ _ E2) as Hh.
  pose proof (stats_length _ _ _ _ E2) as L2.
  assert (Pm : forall me, 0 <= me < Z.of_nat (length g) ->
             Permutation (held_at g2 me)
               (bound_for hash g me (concat (List.map held g)))).
  { intros me Hme. unfold held_at.
    change (@nil entry) with (held new) in *.
    rewrite <- (map_nth held g2 new), Hh, (map_nth held g1 new).
    specialize (P1 (Z.to_nat me) ltac:(lia)).
    rewrite Z2Nat.id in P1 by lia. exact P1. }
  exists n, g2. split; [exact Ha|]. split; [lia|]. split; [exact Pm|].
  intros Hv.
  rewrite (list_by_index g2 new) at 1. rewrite map_map.
  fold (held_at g2). rewrite L2, L1.
  eapply Permutation_trans;
    [apply (concat_map_permuted (held_at g2)
              (fun me => bound_for hash g me (concat (List.map held g))))|].
  - intros me Hme. apply Pm. now apply In_range in Hme.
  - unfold bound_for.
    apply (filter_partition (proc_of hash (Z.of_nat (length g)))). exact Hv.
Qed.

(** ** [KeyValue::copy], [MapReduce::copy] and [map(MapReduce *mr)] *)

Lemma nth_seq_firstn {A : Type} (l : list A) (d : A) :
  forall n, (n <= length l)%nat ->
    List.map (fun i => nth i l d) (seq 0 n) = firstn n l.
Proof.
  induction l as [|a l IH]; intros n Hn.
  - cbn [length] in Hn. replace n with 0%nat by lia. reflexivity.
  - destruct n as [|n]; [reflexivity|].
    cbn [seq List.map nth firstn]. f_equal.
    rewrite <- seq_shift, map_map. cbn [nth]. apply IH.
    cbn [length] in Hn. lia.
Qed.

Lemma firstn_and_last {A : Type} (l : list A) (d : A) :
  l <> [] -> firstn (length l - 1) l ++ [nth (length l - 1) l d] = l.
Proof.
  induction l as [|a l IH]; intros H; [congruence|].
  destruct l as [|b l]; [reflexivity|].
  cbn [length] in *. replace (S (S (length l)) - 1)%nat with (S (length l)) by lia.
  rewrite firstn_cons. cbn [nth app]. f_equal.
  replace (S (length l) - 1)%nat with (length l) in IH by lia.
  apply IH. discriminate.
Qed.

(** Page after page, [request_page] hands out the pages. *)
Lemma request_pages_all (other : KV.t) :
  Z.of_nat (length (KV.pages other)) <= INTMAX ->
  List.map (fun ipage => KV.request_page other (Z.of_nat ipage))
           (seq 0 (Z.to_nat (KV.request_info other)))
  = KV.pages other.
Proof.
  intros Hl. unfold INTMAX in Hl. unfold KV.request_info, KV.npage.
  rewrite int_of_small, Nat2Z.id by lia.
  unfold KV.request_page.
  rewrite (map_ext _ (fun i => nth i (KV.pages other) []))
    by (intros i; now rewrite Nat2Z.id).
  rewrite nth_seq_firstn by lia. apply firstn_all.
Qed.

(** [copy] into a container: the pages of the other container come behind
    its pages, none is left in memory, and the count of all pairs is
    set. *)
Lemma copy_spec (k other : KV.t) :
  KV.pages other <> [] -> Z.of_nat (length (KV.pages other)) <= INTMAX ->
  exists k',
    KeyValueCopy.copy k other = Ok k'
    /\ KV.pages k' = KV.pages k ++ KV.pages other
    /\ KV.page k' = [] /\ shape k' = shape k
    /\ KV.nkv k'
       = u64 (Z.of_nat (length (concat (KV.pages k ++ KV.pages other)))).
Proof.
  intros Hne Hl. unfold INTMAX in Hl. unfold KeyValueCopy.copy. cbv zeta.
  unfold KV.request_info, KV.npage. rewrite int_of_small by lia.
  assert (Hpos : (0 < length (KV.pages other))%nat)
    by (destruct (KV.pages other); [congruence|cbn [length]; lia]).
  replace (Z.of_nat (length (KV.pages other)) <=? 0) with false
    by (symmetry; apply Z.leb_gt; lia).
  assert (Hb : List.map (fun ipage => KV.request_page other (Z.of_nat ipage))
                 (seq 0 (Z.to_nat (Z.of_nat (length (KV.pages other)) - 1)))
               = firstn (length (KV.pages other) - 1) (KV.pages other)).
  { unfold KV.request_page.
    rewrite (map_ext _ (fun i => nth i (KV.pages other) []))
      by (intros i; now rewrite Nat2Z.id).
    replace (Z.to_nat (Z.of_nat (length (KV.pages other)) - 1))
      with (length (KV.pages other) - 1)%nat by lia.
    apply nth_seq_firstn. lia. }
  rewrite Hb.
  assert (Hlast : KV.request_page other (Z.of_nat (length (KV.pages other)) - 1)
                  = nth (length (KV.pages other) - 1) (KV.pages other) []).
  { unfold KV.request_page. f_equal. lia. }
  rewrite Hlast.
  eexists. split; [reflexivity|].
  assert (Hp : KV.pages
                 (KV.complete
                    (KV.set_page
                       (KV.set_pages k
                          (KV.pages k
                           ++ firstn (length (KV.pages other) - 1)
                                     (KV.pages other)))
                       (int_of (Z.of_nat (length
                          (nth (length (KV.pages other) - 1)
                               (KV.pages other) []))))
                       (KV.sum_sizes other
                          (nth (length (KV.pages other) - 1)
                               (KV.pages other) []))
                       (nth (length (KV.pages other) - 1) (KV.pages other) [])))
               = KV.pages k ++ KV.pages other).
  { rewrite complete_pages_of. cbn [KV.set_page KV.set_pages KV.pages KV.page].
    rewrite <- app_assoc. f_equal. now apply firstn_and_last. }
  split; [exact Hp|]. split; [reflexivity|]. split; [reflexivity|].
  unfold KV.complete at 1. cbv zeta. cbn [KV.set_nkv KV.nkv].
  change (KV.pages (KV.flush ?x)) with (KV.pages (KV.complete x)).
  now rewrite Hp.
Qed.

(** *** [MapReduce::copy], lines 196-217 *)

(** The copy of an allocated engine that holds a completed KeyValue and
    no KeyMultiValue: a new engine with the settings of the first, the
    alignments the first is using, and a KeyValue of its own with the same
    pages, page for page and pair for pair. *)
Theorem copy_duplicates (kmv_copy : KMV.t -> Z -> result KMV.t) (s : t)
    (k : KV.t) :
  allocated s = true -> kv s = Some k -> kmv s = None ->
  0 < memsize s < 2048 ->
  KeyValue.pow2b (kalign s) && KeyValue.pow2b (valign s) = true ->
  KV.pages k <> [] -> Z.of_nat (length (KV.pages k)) <= INTMAX ->
  exists s' k',
    MapReduceCopy.copy kmv_copy s = Ok s'
    /\ kv s' = Some k' /\ kmv s' = None
    /\ KV.pages k' = KV.pages k /\ KV.page k' = []
    /\ KV.nkv k' = u64 (Z.of_nat (length (held s)))
    /\ (mapstyle s', verbosity s', timer s', memsize s')
       = (mapstyle s, verbosity s, timer s, memsize s)
    /\ (allocated s', kalign s', valign s') = (true, kalign s, valign s)
    /\ shape k' = shape (new_kv s').
Proof.
  intros Ha Hk Hm Hs Hp Hne Hl.
  unfold MapReduceCopy.copy. cbv zeta. rewrite Ha, Hk, Hm.
  set (mrnew := set_settings new (mapstyle s) (verbosity s) (timer s)
                  (memsize s) (kalign s) (valign s)).
  unfold MapReduceCopy.copy_kv.
  change (allocated mrnew) with false. cbv iota.
  rewrite (allocate_sets mrnew Hs Hp). cbn [bind].
  set (s1 := set_memory mrnew true (keyalign mrnew) (valuealign mrnew)
               (Z.max (Z.max (keyalign mrnew) (valuealign mrnew)) 4)
               (memsize mrnew * 262144) (memsize mrnew * 524288) 0).
  destruct (copy_spec (new_kv s1) k Hne Hl) as [k' [Ec [Pp [Pg [Sh Nk]]]]].
  rewrite Ec. cbn [bind].
  exists (set_kv (memswap s1) (Some k')), k'.
  split; [reflexivity|]. split; [reflexivity|]. split; [reflexivity|].
  split; [exact Pp|]. split; [exact Pg|]. split; [|split; [reflexivity|]].
  - rewrite Nk. unfold held. rewrite Hk. reflexivity.
  - split; [reflexivity|]. rewrite Sh. reflexivity.
Qed.

(** *** [map(MapReduce *mr, appmap, appptr, addflag)], lines 1255-1339 *)

(** A callback that adds the pairs [out i e] for the pair [e], the
    [i]-th of its page. *)
Definition adds_for (out : Z -> entry -> list entry)
    : MapReduceCopy.pair_callback :=
  fun i e k => KV.add_each k (out i e).

(** What such a callback adds for the pairs of a page, from index [i]
    on, and for the pages of a container. *)
Fixpoint emitted_from (out : Z -> entry -> list entry) (i : Z)
    (p : list entry) : list entry :=
  match p with
  | [] => []
  | e :: rest => out i e ++ emitted_from out (i + 1) rest
  end.

Definition emitted (out : Z -> entry -> list entry) (src : KV.t)
    : list entry :=
  concat (List.map (emitted_from out 0) (KV.pages src)).

Lemma scan_pairs_adds (out : Z -> entry -> list entry) (p : list entry) :
  forall i k,
    MapReduceCopy.scan_pairs (adds_for out) i p k
    = KV.add_each k (emitted_from out i p).
Proof.
  induction p as [|e p IH]; intros i k; [reflexivity|].
  cbn [MapReduceCopy.scan_pairs emitted_from]. rewrite add_each_app.
  unfold adds_for at 1.
  destruct (KV.add_each k (out i e)) as [k1|msg]; [|reflexivity].
  cbn [bind]. apply IH.
Qed.

Lemma scan_pages_adds (out : Z -> entry -> list entry)
    (ps : list (list entry)) :
  forall k,
    MapReduceCopy.scan_pages (adds_for out) ps k
    = KV.add_each k (concat (List.map (emitted_from out 0) ps)).
Proof.
  induction ps as [|p ps IH]; intros k; [reflexivity|].
  cbn [MapReduceCopy.scan_pages List.map concat].
  rewrite add_each_app, scan_pairs_adds.
  destruct (KV.add_each k (emitted_from out 0 p)) as [k1|msg]; [|reflexivity].
  cbn [bind]. apply IH.
Qed.

(** [map] over the pairs of an engine, this one or another, on an
    allocated rank and with a callback that adds pairs which fit a page:
    the callback is called for every pair of the source, page after page,
    with the index of the pair in its page; the rank ends with what the
    calls add, in that order, behind the pairs it held when [addflag] is
    not zero (for the engine itself these are copied first), and with no
    KeyMultiValue. *)
Theorem map_mr_collects (mr : engine) (out : Z -> entry -> list entry)
    (addflag : Z) (s : t) (src : KV.t) :
  allocated s = true ->
  match mr with This => kv s | Another m => kv m end = Some src ->
  Z.of_nat (length (KV.pages src)) <= INTMAX ->
  (addflag <> 0 -> forall k0, kv s = Some k0 ->
     completed k0 /\ shape k0 = shape (new_kv s)) ->
  0 <= memquarter s <= INTMAX ->
  Forall (fits (new_kv s)) (emitted out src) ->
  Z.of_nat (length (if addflag =? 0 then [] else held s))
  + Z.of_nat (length (emitted out src)) <= INTMAX ->
  exists s',
    MapReduceCopy.map_rank mr (adds_for out) addflag s = Ok s'
    /\ held s' = (if addflag =? 0 then [] else held s) ++ emitted out src
    /\ kmv s' = None.
Proof.
  intros Ha Hsrc Hl Hk Hq Hf Hn. unfold MapReduceCopy.map_rank.
  rewrite Hsrc, Ha. cbn [bind]. cbv zeta.
  rewrite (request_pages_all src Hl).
  (* from a container [k] that holds [kept] *)
  assert (Fill : forall (s3 : t) (k : KV.t) (kept : list entry),
             kmv s3 = None -> tidy k -> 0 <= KV.alignsize k ->
             shape k = shape (new_kv s) -> contents k = kept ->
             Z.of_nat (length kept) + Z.of_nat (length (emitted out src))
             <= INTMAX ->
             exists s',
               (k' <- MapReduceCopy.scan_pages (adds_for out) (KV.pages src) k ;;
                Ok (set_kv s3 (Some (KV.complete k')))) = Ok s'
               /\ held s' = kept ++ emitted out src /\ kmv s' = None).
  { intros s3 k kept Hm3 T A0 Sh Ck Hn'. rewrite scan_pages_adds.
    fold (emitted out src).
    destruct (add_each_total (emitted out src) k T A0) as [k' [Ek [_ [_ [_ C']]]]].
    - unfold shape in Sh. injection Sh as _ _ _ ->.
      change (KV.pagesize (new_kv s)) with (memquarter s). lia.
    - eapply Forall_impl; [|exact Hf]. intros x. now apply fits_shape.
    - rewrite (tidy_nkey k T).
      assert (Z.of_nat (length (KV.page k)) <= Z.of_nat (length kept)).
      { rewrite <- Ck. unfold contents. rewrite length_app. lia. }
      lia.
    - rewrite Ek. cbn [bind]. eexists. split; [reflexivity|].
      split; [|exact Hm3].
      unfold held. cbn [kv set_kv]. now rewrite complete_contents, C', Ck. }
  assert (Fresh : forall s3 : t,
             kmv s3 = None ->
             Z.of_nat (length (emitted out src)) <= INTMAX ->
             exists s',
               (k' <- MapReduceCopy.scan_pages (adds_for out) (KV.pages src)
                        (new_kv s) ;;
                Ok (set_kv s3 (Some (KV.complete k')))) = Ok s'
               /\ held s' = emitted out src /\ kmv s' = None).
  { intros s3 Hm3 Hn'.
    apply (Fill s3 (new_kv s) []);
      [exact Hm3|apply new_tidy; lia|cbn; lia|reflexivity|reflexivity
      |cbn [length]; lia]. }
  assert (Kept : forall k0 : KV.t,
             kv s = Some k0 -> held s = concat (KV.pages k0))
    by (intros k0 H0; unfold held; now rewrite H0).
  destruct (Z.eqb_spec addflag 0) as [H0|H0].
  - cbn [app length] in *.
    assert (X : exists s', (k' <- MapReduceCopy.scan_pages (adds_for out)
                                    (KV.pages src) (new_kv s) ;;
                            Ok (set_kv (memswap (set_kmv s None))
                                       (Some (KV.complete k')))) = Ok s'
                           /\ held s' = emitted out src /\ kmv s' = None)
      by (apply Fresh; [reflexivity|lia]).
    destruct mr; exact X.
  - destruct mr as [|m].
    + (* the engine itself: copy, then append *)
      destruct (Hk H0 src Hsrc) as [Cp Sh].
      assert (Hne : KV.pages src <> []) by (apply (cp_pages src Cp)).
      change (new_kv (set_kmv s None)) with (new_kv s).
      destruct (copy_spec (new_kv s) src Hne Hl) as [c [Ec [Pp [Pg [Sc Nc]]]]].
      rewrite Ec. cbn [bind fst snd].
      change (KV.pages (new_kv s)) with (@nil (list entry)) in Pp.
      cbn [app] in Pp.
      assert (Cc : completed c).
      { constructor.
        - exact Pg.
        - now rewrite Pp.
        - rewrite Pp. eapply Forall_impl; [|exact (cp_room src Cp)].
          cbn beta. intros p Hp0.
          rewrite (sum_sizes_shape src c p) by (now rewrite Sc, Sh).
          unfold shape in Sc, Sh.
          assert (KV.pagesize c = KV.pagesize src).
          { injection Sc as _ _ _ ->. injection Sh as _ _ _ ->. reflexivity. }
          lia.
        - rewrite Pp. exact (cp_count src Cp). }
      assert (Hpc : 0 <= KV.pagesize c).
      { unfold shape in Sc. injection Sc as _ _ _ ->.
        change (KV.pagesize (new_kv s)) with (memquarter s). lia. }
      destruct (append_spec c Cc Hpc) as [Ta [Sa [Ca Aa]]].
      rewrite (Kept src Hsrc) in *.
      apply (Fill (memswap (set_kmv s None)) (KV.append c)
                  (concat (KV.pages src))).
      * reflexivity.
      * exact Ta.
      * exact Aa.
      * now rewrite Sa.
      * now rewrite Ca, Pp.
      * exact Hn.
    + change (kv (set_kmv s None)) with (kv s).
      change (new_kv (set_kmv s None)) with (new_kv s).
      destruct (kv s) as [k0|] eqn:Ek0.
      * destruct (Hk H0 k0 eq_refl) as [Cp Sh].
        assert (Hh : held s = concat (KV.pages k0))
          by (unfold held; now rewrite Ek0).
        rewrite Hh in *. cbn [bind fst snd].
        assert (Hpc : 0 <= KV.pagesize k0).
        { unfold shape in Sh. injection Sh as _ _ _ ->.
          change (KV.pagesize (new_kv s)) with (memquarter s). lia. }
        destruct (append_spec k0 Cp Hpc) as [Ta [Sa [Ca Aa]]].
        apply (Fill (set_kmv s None) (KV.append k0) (concat (KV.pages k0))).
        -- reflexivity.
        -- exact Ta.
        -- exact Aa.
        -- now rewrite Sa.
        -- exact Ca.
        -- exact Hn.
      * assert (Hh : held s = []) by (unfold held; now rewrite Ek0).
        rewrite Hh in *. cbn [app length bind fst snd] in *.
        apply Fresh; [reflexivity|lia].
Qed.

(** ** [sort_multivalues] and the array [order], lines 1560-1609

    [order] is allocated and handed to [qsort] as it is: no loop fills it
    with the indices of the values.  What the sort leaves therefore
    depends on the memory [smalloc] returns.  When that memory holds
    zeros, every index [qsort] hands back is 0. *)

Lemma roundup_int_bounds (n a : Z) :
  0 <= n -> 0 < a -> n + a <= 2 ^ 31 ->
  n <= MapReduce.roundup n a < n + a /\ (MapReduce.roundup n a) mod a = 0.
Proof.
  intros Hn Ha Hs. unfold MapReduce.roundup.
  rewrite Z.rem_mod_nonneg, Z.quot_div_nonneg by lia.
  pose proof (Z.div_mod n a ltac:(lia)) as Hd.
  pose proof (Z.mod_pos_bound n a Ha) as Hm.
  destruct (Z.eqb_spec (n mod a) 0) as [H0|H0].
  - split; [lia|exact H0].
  - assert (Hq : 0 <= n / a) by (apply Z.div_pos; lia).
    rewrite int_of_small by nia.
    split; [nia|]. apply Z.mod_mul. lia.
Qed.

(** What is asked of [qsort] here: it rearranges the array. *)
Definition rearranges (q : (Z -> Z -> Z) -> list Z -> list Z) : Prop :=
  forall (c : Z -> Z -> Z) (l : list Z), Permutation l (q c l).

(** Fresh memory that holds zeros. *)
Definition zero_filled (sm : Z -> list Z) : Prop :=
  forall n, sm n = repeat 0 (Z.to_nat n).

(** A record whose values all have one size. *)
Definition uniform (r : KMV.record) : Prop :=
  0 <= KMV.nvalues r <= INTMAX - VALUECHUNK
  /\ exists sz,
       0 <= sz
       /\ KMV.valuesizes r = repeat sz (Z.to_nat (KMV.nvalues r))
       /\ Z.of_nat (length (KMV.multivalue r)) = KMV.nvalues r * sz.

(** The record with every value replaced by the first. *)
Definition first_value_only (r : KMV.record) : KMV.record :=
  KMV.mkRecord (KMV.keybytes r) (KMV.mvaluebytes r) (KMV.nvalues r)
    (KMV.valuesizes r) (KMV.key r)
    (concat (repeat (value_at r 0) (Z.to_nat (KMV.nvalues r)))).

Definition page_first_value_only (p : KMV.kmvpage) : KMV.kmvpage :=
  match p with
  | KMV.Records l => KMV.Records (List.map first_value_only l)
  | KMV.Block sizes values => KMV.Block sizes values
  end.

Definition zeroed (sc : scratch) : Prop :=
  0 <= maxn sc /\ order sc = repeat 0 (Z.to_nat (maxn sc)).

Lemma firstn_repeat_le {A : Type} (x : A) (n m : nat) :
  (n <= m)%nat -> firstn n (repeat x m) = repeat x n.
Proof.
  intros H. replace m with (n + (m - n))%nat by lia.
  rewrite repeat_app, firstn_app, repeat_length, Nat.sub_diag.
  cbn [firstn]. rewrite app_nil_r.
  rewrite <- (repeat_length x n) at 1. apply firstn_all.
Qed.

Lemma skipn_repeat_le {A : Type} (x : A) (n m : nat) :
  (n <= m)%nat -> repeat x n ++ skipn n (repeat x m) = repeat x m.
Proof.
  intros H. rewrite <- (firstn_repeat_le x n m H). apply firstn_skipn.
Qed.

Lemma length_concat_repeat_one {A : Type} (v : list A) (n : nat) :
  length (concat (repeat v n)) = (n * length v)%nat.
Proof.
  induction n as [|n IH]; [reflexivity|].
  cbn [repeat concat]. rewrite length_app, IH. lia.
Qed.

Lemma first_value_length (r : KMV.record) (sz : Z) :
  0 <= sz -> 1 <= KMV.nvalues r ->
  KMV.valuesizes r = repeat sz (Z.to_nat (KMV.nvalues r)) ->
  Z.of_nat (length (KMV.multivalue r)) = KMV.nvalues r * sz ->
  length (value_at r 0) = Z.to_nat sz.
Proof.
  intros Hs Hn Hv Hl. unfold value_at. cbv zeta. rewrite Hv.
  replace (Z.to_nat (KMV.nvalues r)) with (S (Z.to_nat (KMV.nvalues r - 1)))
    by lia.
  cbn [repeat offsets nth Z.to_nat skipn].
  rewrite length_firstn. nia.
Qed.

Section SortMultivaluesOrder.
Context {E : Externals}.
Variable compare : comparison.
Hypothesis memory_zero : zero_filled smalloc_ints.
Hypothesis qsort_ok : rearranges qsort.

Lemma sort_record_zero (sc : scratch) (r : KMV.record) :
  zeroed sc -> uniform r ->
  exists sc',
    sort_record compare sc r = Ok (sc', first_value_only r) /\ zeroed sc'.
Proof.
  intros [Hm Ho] [[Hn0 Hn1] [sz [Hs [Hv Hl]]]].
  unfold INTMAX, VALUECHUNK in Hn1. unfold sort_record.
  replace (KMV.nvalues r <? 0) with false by (symmetry; apply Z.ltb_ge; lia).
  cbv zeta.
  set (sc1 := if KMV.nvalues r >? maxn sc
              then mkScratch (MapReduce.roundup (KMV.nvalues r) VALUECHUNK)
                     (smalloc_ints (MapReduce.roundup (KMV.nvalues r) VALUECHUNK))
              else sc).
  assert (H1 : zeroed sc1 /\ KMV.nvalues r <= maxn sc1).
  { subst sc1. destruct (Z.gtb_spec (KMV.nvalues r) (maxn sc)) as [Hgt|Hle].
    - destruct (roundup_int_bounds (KMV.nvalues r) VALUECHUNK)
        as [[Hr1 Hr2] _]; [lia|reflexivity|unfold VALUECHUNK; lia|].
      split; [|exact Hr1]. split; [cbn [maxn]; lia|].
      cbn [order maxn]. apply memory_zero.
    - split; [now split|exact Hle]. }
  destruct H1 as [[Hm1 Ho1] Hle1].
  rewrite Ho1.
  rewrite firstn_repeat_le by lia.
  assert (Hq : qsort (fun i j => compare (value_at r i) (value_at r j))
                     (repeat 0 (Z.to_nat (KMV.nvalues r)))
               = repeat 0 (Z.to_nat (KMV.nvalues r))).
  { apply Permutation_repeat. apply Permutation_sym. apply qsort_ok. }
  rewrite Hq, map_repeat.
  rewrite skipn_repeat_le by lia.
  assert (Htail : skipn (length (concat (repeat (value_at r 0)
                                           (Z.to_nat (KMV.nvalues r)))))
                        (KMV.multivalue r) = []).
  { apply skipn_all2. rewrite length_concat_repeat_one.
    destruct (Z.eq_dec (KMV.nvalues r) 0) as [H0|H0].
    - rewrite H0 in Hl. lia.
    - rewrite (first_value_length r sz Hs ltac:(lia) Hv Hl). nia. }
  rewrite Htail, app_nil_r.
  eexists. split; [reflexivity|]. split; [exact Hm1|reflexivity].
Qed.

Lemma sort_records_zero (recs : list KMV.record) :
  forall sc,
    zeroed sc -> Forall uniform recs ->
    exists sc',
      sort_records compare sc recs
      = Ok (sc', List.map first_value_only recs)
      /\ zeroed sc'.
Proof.
  induction recs as [|r recs IH]; intros sc Hz Hu.
  - exists sc. split; [reflexivity|exact Hz].
  - inversion Hu as [|? ? Hr Hrest]; subst.
    destruct (sort_record_zero sc r Hz Hr) as [sc1 [E1 Hz1]].
    destruct (IH sc1 Hz1 Hrest) as [sc2 [E2 Hz2]].
    exists sc2. cbn [sort_records]. rewrite E1. cbn [bind fst snd].
    rewrite E2. cbn [bind fst snd List.map]. split; [reflexivity|exact Hz2].
Qed.

Lemma replace_nth_split {A : Type} (l : list A) (x : A) :
  forall i, (i < length l)%nat ->
    KMV.replace_nth l i x = firstn i l ++ x :: skipn (S i) l.
Proof.
  induction l as [|a l IH]; intros i Hi; [cbn [length] in Hi; lia|].
  destruct i as [|i]; [reflexivity|].
  cbn [KMV.replace_nth firstn skipn app]. f_equal. apply IH.
  cbn [length] in Hi. lia.
Qed.

Lemma overwrite_pages (m : KMV.t) (i : nat) :
  (i < length (KMV.pages m))%nat ->
  KMV.pages (KMV.overwrite_page m (Z.of_nat i)
               (List.map first_value_only
                  (page_records (nth i (KMV.pages m) (KMV.Records [])))))
  = firstn i (KMV.pages m)
    ++ page_first_value_only (nth i (KMV.pages m) (KMV.Records []))
    :: skipn (S i) (KMV.pages m).
Proof.
  intros Hi. unfold KMV.overwrite_page. rewrite Nat2Z.id.
  destruct (nth i (KMV.pages m) (KMV.Records [])) as [l|sizes values] eqn:Hp.
  - cbn [KMV.pages page_records page_first_value_only].
    now apply replace_nth_split.
  - cbn [page_first_value_only]. rewrite <- Hp.
    rewrite <- (skipn_step (KMV.pages m) i (KMV.Records [])) by exact Hi.
    symmetry. apply firstn_skipn.
Qed.

Lemma sort_kmv_pages_zero (n : nat) :
  forall (m : KMV.t) (i : nat) (sc : scratch),
    zeroed sc -> (i + n = length (KMV.pages m))%nat ->
    Forall uniform
      (concat (List.map page_records (skipn i (KMV.pages m)))) ->
    sort_kmv_pages n compare m (Z.of_nat i) sc
    = Ok (KMV.mk (KMV.nkmv m)
            (firstn i (KMV.pages m)
             ++ List.map page_first_value_only (skipn i (KMV.pages m)))).
Proof.
  induction n as [|n IH]; intros m i sc Hz Hlen Hu.
  - cbn [sort_kmv_pages]. rewrite skipn_all2, firstn_all2 by lia.
    cbn [List.map]. rewrite app_nil_r. now destruct m.
  - cbn [sort_kmv_pages]. rewrite request_page_of.
    rewrite (skipn_step _ i (KMV.Records [])) in Hu by lia.
    cbn [List.map concat] in Hu. apply Forall_app in Hu.
    destruct Hu as [Hu1 Hu2].
    destruct (sort_records_zero _ sc Hz Hu1) as [sc1 [E1 Hz1]].
    rewrite E1. cbn [bind fst snd].
    replace (Z.of_nat i + 1) with (Z.of_nat (S i)) by lia.
    pose proof (overwrite_pages m i ltac:(lia)) as Hp.
    set (m1 := KMV.overwrite_page m (Z.of_nat i)
                 (List.map first_value_only
                    (page_records (nth i (KMV.pages m) (KMV.Records []))))) in *.
    assert (Hl1 : length (KMV.pages m1) = length (KMV.pages m)).
    { rewrite Hp, length_app, length_firstn. cbn [length].
      rewrite length_skipn. lia. }
    assert (Hs1 : skipn (S i) (KMV.pages m1) = skipn (S i) (KMV.pages m)).
    { rewrite Hp.
      replace (S i) with (length (firstn i (KMV.pages m)) + 1)%nat at 1
        by (rewrite length_firstn; lia).
      rewrite skipn_app, skipn_all2 by lia.
      replace (length (firstn i (KMV.pages m)) + 1
               - length (firstn i (KMV.pages m)))%nat with 1%nat by lia.
      reflexivity. }
    assert (Hf1 : firstn (S i) (KMV.pages m1)
                  = firstn i (KMV.pages m)
                    ++ [page_first_value_only
                          (nth i (KMV.pages m) (KMV.Records []))]).
    { rewrite Hp.
      replace (S i) with (length (firstn i (KMV.pages m)) + 1)%nat at 1
        by (rewrite length_firstn; lia).
      rewrite firstn_app_2. reflexivity. }
    rewrite (IH m1 (S i) sc1 Hz1) by (rewrite ?Hs1; try lia; exact Hu2).
    rewrite Hs1, Hf1.
    assert (Hk : KMV.nkmv m1 = KMV.nkmv m).
    { subst m1. unfold KMV.overwrite_page.
      destruct (nth (Z.to_nat (Z.of_nat i)) (KMV.pages m) (KMV.Records []));
        reflexivity. }
    rewrite Hk, (skipn_step (KMV.pages m) i (KMV.Records [])) by lia.
    cbn [List.map]. rewrite <- app_assoc. reflexivity.
Qed.

(** [sort_multivalues] on a rank, with fresh memory that holds zeros and
    a [qsort] that rearranges: for a KeyMultiValue without split
    multivalues whose values have one size per record, the rank is left
    with every value of every multivalue replaced by the first value of
    that multivalue; keys, counts and sizes stay. *)
Theorem sort_multivalues_copies_first_value (s : t) (m : KMV.t) :
  kmv s = Some m ->
  Z.of_nat (length (KMV.pages m)) <= INTMAX ->
  Forall uniform (records_of m) ->
  sort_multivalues_rank compare s
  = Ok (set_kmv s
          (Some (KMV.mk (KMV.nkmv m)
                   (List.map page_first_value_only (KMV.pages m))))).
Proof.
  intros Hm Hl Hu. unfold INTMAX in Hl. unfold sort_multivalues_rank.
  rewrite Hm. unfold KMV.request_info. rewrite int_of_small, Nat2Z.id by lia.
  assert (Hz : zeroed (mkScratch 0 [])) by (split; [cbn; lia|reflexivity]).
  pose proof (sort_kmv_pages_zero (length (KMV.pages m)) m 0 (mkScratch 0 [])
                Hz ltac:(lia) Hu) as H.
  change (Z.of_nat 0) with 0 in H. rewrite H. reflexivity.
Qed.

End SortMultivaluesOrder.

(** ** Three ranks with pages of 40 bytes *)

Definition rank_with (k : KV.t) : t :=
  mk 0 0 0 1 4 4 true 4 4 4 40 80 0 (Some k) None [].

Definition first_kv : KV.t :=
  KV.mk 2 4 4 4 0 0 [] 40 [[pair_of 1; pair_of 2]].

Definition second_kv : KV.t := KV.mk 1 4 4 4 0 0 [] 40 [[pair_of 3]].

Lemma pair_of_fits (k : KV.t) (i : Z) :
  shape k = (4, 4, 4, 40) -> fits k (pair_of i).
Proof.
  intros H. apply (fits_shape (KV.new 40 4 4) k); [now rewrite H|].
  unfold fits. vm_compute. split; [reflexivity|discriminate].
Qed.

Lemma first_kv_completed : completed first_kv.
Proof.
  constructor.
  - reflexivity.
  - discriminate.
  - repeat constructor; vm_compute; discriminate.
  - repeat constructor; vm_compute; discriminate.
Qed.

Lemma second_kv_completed : completed second_kv.
Proof.
  constructor.
  - reflexivity.
  - discriminate.
  - repeat constructor; vm_compute; discriminate.
  - repeat constructor; vm_compute; discriminate.
Qed.

Lemma two_pages_completed : completed two_pages.
Proof.
  constructor.
  - reflexivity.
  - discriminate.
  - repeat constructor; vm_compute; discriminate.
  - repeat constructor; vm_compute; discriminate.
Qed.

Lemma add_appends_witness :
  exists k',
    add_rank (Another (rank_with second_kv)) (rank_with first_kv)
    = Ok (set_kv (rank_with first_kv) (Some k'))
    /\ concat (KV.pages k') = [pair_of 1; pair_of 2; pair_of 3].
Proof.
  apply (add_appends (rank_with second_kv) (rank_with first_kv)
           first_kv second_kv).
  - reflexivity.
  - reflexivity.
  - reflexivity.
  - exact first_kv_completed.
  - reflexivity.
  - reflexivity.
  - vm_compute. split; discriminate.
  - repeat (apply Forall_cons; [now apply pair_of_fits|]). apply Forall_nil.
  - vm_compute. discriminate.
Defined.

(** Twelve records of 50012 bytes added to a new container of a rank with
    a megabyte, with first bytes of the key from 20 down to 9: two pages of
    five records are written and two records are on the page in memory;
    the sort goes through the spools, whose pages have 174592 bytes. *)
Definition falling : list entry :=
  List.map long_record [0; 1; 2; 3; 4; 5; 6; 7; 8; 9; 10; 11].

Definition filled : KV.t :=
  KV.mk 0 4 4 4 2 100024 (List.map long_record [10; 11]) 262144
    [List.map long_record [0; 1; 2; 3; 4];
     List.map long_record [5; 6; 7; 8; 9]].

Lemma sort_after_adds_witness :
  exists s' k',
    sort_kv (E := Reference.externals) compare_first 0 shelf
            (KV.complete filled) = Ok s'
    /\ kv s' = Some k'
    /\ Permutation falling (concat (KV.pages k'))
    /\ StronglySorted (by_field compare_first 0) (concat (KV.pages k')).
Proof.
  apply (sort_after_adds (E := Reference.externals) compare_first 0 shelf
           falling filled
           compare_first_order insertion_sort_sorts
           (one_per_page_paged (KV.esize (new_kv shelf)))).
  - vm_compute. split; discriminate.
  - vm_compute. reflexivity.
  - repeat (apply Forall_cons;
            [vm_compute; split; [discriminate|reflexivity]|]).
    apply Forall_nil.
  - repeat (apply Forall_cons; [apply long_record_spools|]).
    apply Forall_nil.
  - reflexivity.
Defined.

Lemma sort_values_sorts_witness :
  exists n g',
    sort_values (E := Reference.externals) compare_first [shelf] = Ok (n, g')
    /\ Forall2 (sorted_by_value compare_first) [shelf] g'.
Proof.
  apply (sort_values_sorts (E := Reference.externals) compare_first [shelf]
           compare_first_order insertion_sort_sorts (reference_spooling [shelf])
           shelf_ready).
Defined.

Definition three_ranks : group :=
  [rank_with first_kv; rank_with second_kv; rank_with two_pages].

Lemma three_ranks_shelved : Forall (shelved (4, 4, 4, 40)) three_ranks.
Proof.
  repeat apply Forall_cons; try apply Forall_nil.
  - exists first_kv. split; [reflexivity|]. split; [exact first_kv_completed|].
    split; [reflexivity|]. split; [|vm_compute; discriminate].
    repeat (apply Forall_cons; [now apply pair_of_fits|]). apply Forall_nil.
  - exists second_kv. split; [reflexivity|].
    split; [exact second_kv_completed|].
    split; [reflexivity|]. split; [|vm_compute; discriminate].
    repeat (apply Forall_cons; [now apply pair_of_fits|]). apply Forall_nil.
  - exists two_pages. split; [reflexivity|].
    split; [exact two_pages_completed|].
    split; [reflexivity|]. split; [|vm_compute; discriminate].
    repeat (apply Forall_cons; [now apply pair_of_fits|]). apply Forall_nil.
Qed.

Lemma gather_places_witness :
  exists n g',
    gather 2 three_ranks = Ok (n, g')
    /\ forall me, 0 <= me < 3 ->
         held_at g' me
         = if me <? 2
           then held_at three_ranks me
                ++ concat (List.map (held_at three_ranks) (senders 2 3 me))
           else [].
Proof.
  apply (gather_places three_ranks 2 (4, 4, 4, 40)).
  - cbn. lia.
  - cbn. lia.
  - exact three_ranks_shelved.
  - vm_compute. split; discriminate.
  - intros me Hme. assert (Hc : me = 0 \/ me = 1) by lia.
    destruct Hc as [->| ->]; vm_compute; discriminate.
Defined.

(** A rank after [convert], with a verbosity of one. *)
Definition converted : t :=
  mk 0 1 0 1 4 4 true 4 4 4 40 80 0 None
     (Some (KMV.mk 1 [KMV.Records [KMV.mkRecord 1 2 2 [1; 1] [7] [2; 1]]])) [].

Lemma sort_multivalues_needs_kv_witness :
  (forall r,
     sort_multivalues (E := Reference.externals) compare_first [converted]
     <> Ok r)
  /\ (forall g1,
        each (fun _ _ =>
                sort_multivalues_rank (E := Reference.externals) compare_first)
             [converted] = Ok g1 ->
        sort_multivalues (E := Reference.externals) compare_first [converted]
        = Fatal "Cannot print stats without KeyValue").
Proof.
  apply (sort_multivalues_needs_kv (E := Reference.externals) compare_first
           converted []).
  - reflexivity.
  - discriminate.
Defined.

(** A rank after [collate]: key 0 with three values on one page, key 1
    with two values on the next. *)
Definition counted_kmv : KMV.t :=
  KMV.mk 2 [KMV.Records [KMV.mkRecord 1 3 3 [1; 1; 1] [0] [0; 2; 4]];
            KMV.Records [KMV.mkRecord 1 2 2 [1; 1] [1] [1; 3]]].

Definition collated : t :=
  mk 0 0 0 1 4 4 true 4 4 4 40 80 0 None (Some counted_kmv) [].

Lemma reduce_calls_every_record_witness :
  reduce_rank WordFreq.sum collated
  = (k <- call_each WordFreq.sum (records_of counted_kmv) (new_kv collated) ;;
     Ok (set_kmv (set_kv (memswap collated) (Some (KV.complete k))) None)).
Proof.
  apply (reduce_calls_every_record WordFreq.sum collated counted_kmv).
  - reflexivity.
  - vm_compute. discriminate.
  - repeat (apply Forall_cons; [reflexivity|]). apply Forall_nil.
Defined.

Lemma reduce_sum_counts_witness :
  exists k',
    reduce_rank WordFreq.sum collated
    = Ok (set_kmv (set_kv (memswap collated) (Some k')) None)
    /\ List.map e_key (concat (KV.pages k')) = [[0]; [1]]
    /\ List.map (fun e => WordFreq.int_at (e_value e)) (concat (KV.pages k'))
       = [3; 2].
Proof.
  apply (reduce_sum_counts collated counted_kmv).
  - reflexivity.
  - vm_compute. discriminate.
  - repeat (apply Forall_cons;
            [vm_compute; split; [reflexivity|discriminate]|]).
    apply Forall_nil.
  - vm_compute. split; discriminate.
  - repeat (apply Forall_cons;
            [vm_compute; split; [reflexivity|discriminate]|]).
    apply Forall_nil.
  - vm_compute. discriminate.
Defined.

(** A rank after [reduce(sum)]: three words with their counts. *)
Definition counts_kv : KV.t :=
  KV.mk 3 4 4 4 0 0 [] 40
    [[mkEntry [97] (WordFreq.int_bytes 2); mkEntry [98] (WordFreq.int_bytes 7);
      mkEntry [99] (WordFreq.int_bytes 5)]].

(** A rank with a megabyte and twelve words of 50000 bytes with their
    counts, on three pages: its sort goes through the spools. *)
Definition tally (n : Z) : entry := mkEntry (long_key n) (WordFreq.int_bytes n).

Definition tally_kv : KV.t :=
  KV.mk 12 4 4 4 0 0 [] 262144
    [List.map tally [3; 1; 4; 12; 5];
     List.map tally [9; 2; 6; 10; 8];
     List.map tally [7; 11]].

Definition tally_rank : t :=
  mk 0 0 0 1 4 4 true 4 4 4 262144 524288 1 (Some tally_kv) None [].

Lemma tally_fits (n : Z) : fits (new_kv tally_rank) (tally n).
Proof. unfold fits. vm_compute. split; [reflexivity|discriminate]. Qed.

Lemma tally_spools (n : Z) :
  KV.esize (new_kv tally_rank) (tally n) <= memspool tally_rank.
Proof. vm_compute. discriminate. Qed.

Definition counted : group := [tally_rank; rank_with counts_kv].

Lemma counted_ready : Forall ready counted.
Proof.
  constructor; [|constructor; [|constructor]].
  - exists tally_kv. split; [reflexivity|]. constructor.
    + unfold tally_kv, INTMAX. cbn [KV.pages length]. lia.
    + vm_compute. reflexivity.
    + intros _. unfold tally_kv. cbn [KV.pages].
      repeat (apply Forall_cons; [cbn [List.map]; discriminate|]).
      apply Forall_nil.
    + intros _. unfold tally_kv. cbn [KV.pages concat List.map app].
      repeat (apply Forall_cons; [apply tally_spools|]). apply Forall_nil.
    + intros _. unfold tally_kv. cbn [KV.pages concat List.map app].
      repeat (apply Forall_cons; [apply tally_fits|]). apply Forall_nil.
    + intros _. unfold tally_rank, INTMAX. cbn [memquarter]. lia.
    + intros _. unfold tally_kv, INTMAX.
      cbn [KV.pages concat List.map app length]. lia.
  - exists counts_kv. split; [reflexivity|]. constructor.
    + vm_compute. split; discriminate.
    + vm_compute. reflexivity.
    + intros H. vm_compute in H. discriminate H.
    + intros H. vm_compute in H. discriminate H.
    + intros H. vm_compute in H. discriminate H.
    + intros H. vm_compute in H. discriminate H.
    + intros H. vm_compute in H. discriminate H.
Qed.

Lemma sort_values_ncompare_witness :
  exists n g',
    sort_values (E := Reference.externals) WordFreq.ncompare counted
    = Ok (n, g')
    /\ Forall2 by_falling_count counted g'.
Proof.
  apply (sort_values_ncompare (E := Reference.externals) counted
           insertion_sort_sorts (reference_spooling counted) counted_ready).
Defined.

(** The run itself: on the first rank the counts come back from 12 to 1,
    on three pages; on the second as 7, 5, 2. *)
Lemma sort_values_ncompare_run :
  match sort_values (E := Reference.externals) WordFreq.ncompare counted with
  | Ok (n, g') =>
    Some (List.map
            (fun s =>
               option_map
                 (fun k => List.map (List.map (fun e => WordFreq.int_at (e_value e)))
                                    (KV.pages k))
                 (kv s)) g')
  | Fatal _ => None
  end
  = Some [Some [[12; 11; 10; 9; 8]; [7; 6; 5; 4; 3]; [2; 1]];
          Some [[7; 5; 2]]].
Proof. vm_compute. reflexivity. Qed.

(** Rank 1 of two, five tasks that add one pair each, behind the two pairs
    the rank holds. *)
Lemma map_collects_witness :
  exists s',
    map_rank (E := Reference.externals) 5 (adds (fun itask => [pair_of itask]))
             1 1 2 (rank_with first_kv) = Ok s'
    /\ held s' = [pair_of 1; pair_of 2] ++ [pair_of 2; pair_of 3; pair_of 4]
    /\ kmv s' = None.
Proof.
  apply (map_collects (E := Reference.externals) 5 1 1 2
           (fun itask => [pair_of itask]) (rank_with first_kv) [2; 3; 4]).
  - reflexivity.
  - reflexivity.
  - intros _ k0 Hk0. injection Hk0 as <-.
    split; [exact first_kv_completed|reflexivity].
  - vm_compute. split; discriminate.
  - repeat (apply Forall_cons; [now apply pair_of_fits|]). apply Forall_nil.
  - vm_compute. discriminate.
Defined.

Lemma deliver_delivers : delivers Reference.deliver.
Proof.
  intros sent me Hme. unfold Reference.deliver.
  rewrite (nth_map_in _ (seq 0 (length sent)) me 0%nat)
    by (now rewrite length_seq).
  rewrite seq_nth by exact Hme. apply Permutation_refl.
Qed.

Lemma three_ranks_quarters :
  Forall (fun s => shape (new_kv s) = (4, 4, 4, 40)) three_ranks.
Proof. repeat (apply Forall_cons; [reflexivity|]). apply Forall_nil. Qed.

Lemma aggregate_places_witness :
  exists n g',
    aggregate (E := Reference.externals) None three_ranks = Ok (n, g')
    /\ length g' = length three_ranks
    /\ (forall me, 0 <= me < Z.of_nat (length three_ranks) ->
          Permutation (held_at g' me)
            (bound_for (E := Reference.externals) None three_ranks me
               (concat (List.map held three_ranks))))
    /\ (Forall (fun e =>
                  0 <= proc_of (E := Reference.externals) None
                         (Z.of_nat (length three_ranks)) e
                  < Z.of_nat (length three_ranks))
               (concat (List.map held three_ranks)) ->
        Permutation (concat (List.map held g'))
                    (concat (List.map held three_ranks))).
Proof.
  apply (aggregate_places (E := Reference.externals) None three_ranks
           (4, 4, 4, 40)).
  - discriminate.
  - exact deliver_delivers.
  - exact three_ranks_shelved.
  - exact three_ranks_quarters.
  - vm_compute. split; discriminate.
  - vm_compute. discriminate.
Defined.

(** The run itself: the keys 1, 2 and 3 go to the ranks 1, 2 and 0. *)
Lemma aggregate_run :
  match aggregate (E := Reference.externals) None three_ranks with
  | Ok (n, g') => Some (n, List.map (fun s => List.map e_key (held s)) g')
  | Fatal _ => None
  end
  = Some (6, [[[3]; [3]]; [[1]; [1]]; [[2]; [2]]]).
Proof. vm_compute. reflexivity. Qed.

(** The copy of the rank that holds twelve long records on three pages. *)
Lemma copy_duplicates_witness :
  exists s' k',
    MapReduceCopy.copy (fun m _ => Ok m) shelf = Ok s'
    /\ kv s' = Some k' /\ kmv s' = None
    /\ KV.pages k' = KV.pages shelf_kv /\ KV.page k' = []
    /\ KV.nkv k' = u64 (Z.of_nat (length (held shelf)))
    /\ (mapstyle s', verbosity s', timer s', memsize s')
       = (mapstyle shelf, verbosity shelf, timer shelf, memsize shelf)
    /\ (allocated s', kalign s', valign s')
       = (true, kalign shelf, valign shelf)
    /\ shape k' = shape (new_kv s').
Proof.
  apply (copy_duplicates (fun m _ => Ok m) shelf shelf_kv).
  - reflexivity.
  - reflexivity.
  - reflexivity.
  - cbn. lia.
  - reflexivity.
  - unfold shelf_kv. cbn [KV.pages]. discriminate.
  - unfold shelf_kv, INTMAX. cbn [KV.pages length]. lia.
Defined.

(** [map] over the two pairs of the rank itself, with [addflag] set and a
    callback that emits the key with the index of the pair. *)
Definition key_and_index (i : Z) (e : entry) : list entry :=
  [mkEntry (e_key e) [i]].

Lemma map_mr_collects_witness :
  exists s',
    MapReduceCopy.map_rank This (adds_for key_and_index) 1 (rank_with first_kv)
    = Ok s'
    /\ held s' = [pair_of 1; pair_of 2] ++ [mkEntry [1] [0]; mkEntry [2] [1]]
    /\ kmv s' = None.
Proof.
  apply (map_mr_collects This key_and_index 1 (rank_with first_kv) first_kv).
  - reflexivity.
  - reflexivity.
  - vm_compute. discriminate.
  - intros _ k0 Hk0. injection Hk0 as <-.
    split; [exact first_kv_completed|reflexivity].
  - vm_compute. split; discriminate.
  - repeat (apply Forall_cons;
            [vm_compute; split; [reflexivity|discriminate]|]).
    apply Forall_nil.
  - vm_compute. discriminate.
Defined.

Lemma three_ranks_have_kv : Forall has_kv three_ranks.
Proof.
  repeat (apply Forall_cons; [unfold has_kv; discriminate|]). apply Forall_nil.
Qed.

Lemma gather_proc_count_witness :
  gather 4 three_ranks = Fatal "Invalid proc count for gather"
  /\ exists n g',
       gather 3 three_ranks = Ok (n, g')
       /\ List.map kv g' = List.map kv three_ranks
       /\ List.map kmv g' = List.map kmv three_ranks.
Proof.
  split.
  - apply (proj1 (gather_proc_count 4 three_ranks ltac:(discriminate)
                    three_ranks_have_kv)).
    right. cbn. lia.
  - apply (proj2 (gather_proc_count 3 three_ranks ltac:(discriminate)
                    three_ranks_have_kv)).
    reflexivity.
Defined.

Lemma insertion_sort_rearranges : rearranges Reference.insertion_sort.
Proof.
  intros c l. unfold Reference.insertion_sort.
  induction l as [|a l IH]; cbn [fold_right]; [constructor|].
  eapply perm_trans; [apply perm_skip; exact IH|apply insert_perm].
Qed.

(** A rank whose KeyMultiValue holds the key 7 with the values 2 and 1:
    the sort leaves the values 2 and 2. *)
Definition unsorted : t :=
  mk 0 0 0 1 4 4 true 4 4 4 40 80 0 None
     (Some (KMV.mk 1 [KMV.Records [KMV.mkRecord 1 2 2 [1; 1] [7] [2; 1]]])) [].

Lemma sort_multivalues_copies_first_value_witness :
  sort_multivalues_rank (E := Reference.externals) compare_first unsorted
  = Ok (set_kmv unsorted
          (Some (KMV.mk 1
                   [KMV.Records [KMV.mkRecord 1 2 2 [1; 1] [7] [2; 2]]]))).
Proof.
  apply (sort_multivalues_copies_first_value (E := Reference.externals)
           compare_first (fun n => eq_refl) insertion_sort_rearranges
           unsorted
           (KMV.mk 1 [KMV.Records [KMV.mkRecord 1 2 2 [1; 1] [7] [2; 1]]])).
  - reflexivity.
  - vm_compute. discriminate.
  - apply Forall_cons; [|apply Forall_nil].
    split; [vm_compute; split; discriminate|].
    exists 1. split; [lia|]. split; reflexivity.
Defined.
End DriverFacts.

(** * Facts about [map] over files *)

Module FileMapFacts.
Import CInt CIntFacts MapReduce MapReduceFacts DriverFacts FileMap.

(** ** The number of tasks of each file *)

Definition sum_of (l : list Z) : Z := fold_right Z.add 0 l.

Lemma sum_of_nonneg (l : list Z) : Forall (fun x => 0 <= x) l -> 0 <= sum_of l.
Proof.
  induction 1 as [|x l Hx _ IH]; cbn [sum_of fold_right]; [lia|].
  fold (sum_of l). lia.
Qed.

Lemma sum_of_ge (l : list Z) (x : Z) :
  Forall (fun x => 0 <= x) l -> In x l -> x <= sum_of l.
Proof.
  induction 1 as [|y l Hy Hl IH]; intros Hin; [contradiction|].
  cbn [sum_of fold_right]. fold (sum_of l).
  pose proof (sum_of_nonneg l Hl).
  destruct Hin as [->|Hin]; [lia|]. specialize (IH Hin). lia.
Qed.

Lemma sum_of_ones (l : list Z) :
  Forall (fun n => 1 <= n) l -> Z.of_nat (length l) <= sum_of l.
Proof.
  induction 1 as [|y l Hy Hl IH]; cbn [sum_of fold_right length]; [lia|].
  fold (sum_of l). lia.
Qed.

Lemma some_above_one (l : list Z) :
  Forall (fun n => 1 <= n) l -> Z.of_nat (length l) < sum_of l ->
  Exists (fun n => 1 < n) l.
Proof.
  induction 1 as [|y l Hy Hl IH]; cbn [sum_of fold_right length]; [lia|].
  fold (sum_of l). intros H.
  destruct (Z_lt_dec 1 y) as [Hlt|Hge]; [now apply Exists_cons_hd|].
  apply Exists_cons_tl. apply IH. lia.
Qed.

Lemma ntotal_from (l : list Z) : forall a,
  Forall (fun x => 0 <= x) l -> 0 <= a -> a + sum_of l < 2 ^ 64 ->
  fold_left (fun total size => u64 (total + size)) l a = a + sum_of l.
Proof.
  induction l as [|x l IH]; intros a Hl Ha Hs; cbn [fold_left sum_of fold_right] in *.
  - lia.
  - fold (sum_of l) in *. inversion Hl as [|? ? Hx Hl']; subst.
    pose proof (sum_of_nonneg l Hl').
    unfold u64 at 2. rewrite Z.mod_small by lia.
    rewrite IH by (auto; lia). lia.
Qed.

Lemma ntotal_sum (l : list Z) :
  Forall (fun x => 0 <= x) l -> sum_of l < 2 ^ 64 -> ntotal l = sum_of l.
Proof.
  intros Hl Hs. unfold ntotal. rewrite ntotal_from by (auto; lia). lia.
Qed.

Lemma int_of_within (z : Z) : - 2 ^ 31 <= z <= INTMAX -> int_of z = z.
Proof.
  intros H. unfold int_of, INTMAX in *. rewrite Z.mod_small by lia. lia.
Qed.

Lemma count_from (l : list Z) : forall a,
  Forall (fun x => 0 <= x) l -> 0 <= a -> a + sum_of l <= INTMAX ->
  fold_left (fun ntasks n => int_of (ntasks + n)) l a = a + sum_of l.
Proof.
  induction l as [|x l IH]; intros a Hl Ha Hs; cbn [fold_left sum_of fold_right] in *.
  - lia.
  - fold (sum_of l) in *. inversion Hl as [|? ? Hx Hl']; subst.
    pose proof (sum_of_nonneg l Hl').
    rewrite int_of_within by (unfold INTMAX in *; lia).
    rewrite IH by (auto; lia). lia.
Qed.

Lemma count_sum (l : list Z) :
  Forall (fun x => 0 <= x) l -> sum_of l <= INTMAX -> count l = sum_of l.
Proof.
  intros Hl Hs. unfold count. rewrite count_from by (auto; lia). lia.
Qed.

Lemma nideal_positive (filesize : list Z) (nmap : Z) : 1 <= nideal filesize nmap.
Proof.
  unfold nideal, MAX.
  destruct (1 >? ntotal filesize / u64 nmap) eqn:H; [lia|].
  rewrite Z.gtb_ltb in H. apply Z.ltb_ge in H. lia.
Qed.

(** The ideal size is at least half of what the files hold per task. *)
Lemma total_over_nideal (filesize : list Z) (nmap : Z) :
  Forall (fun x => 0 <= x) filesize -> sum_of filesize < 2 ^ 64 ->
  1 <= nmap < 2 ^ 64 ->
  sum_of filesize / nideal filesize nmap <= 2 * nmap.
Proof.
  intros Hl Hs Hn. unfold nideal. rewrite ntotal_sum by assumption.
  unfold u64. rewrite (Z.mod_small nmap) by lia.
  pose proof (sum_of_nonneg _ Hl) as H0.
  set (T := sum_of filesize) in *.
  pose proof (Z.div_pos T nmap H0 ltac:(lia)) as Hq.
  pose proof (Z.mul_succ_div_gt T nmap ltac:(lia)) as Hgt.
  pose proof (Z.mul_div_le T nmap ltac:(lia)) as Hle.
  unfold MAX. destruct (1 >? T / nmap) eqn:H.
  - rewrite Z.gtb_ltb in H. apply Z.ltb_lt in H.
    assert (T / nmap = 0) as Hz by lia. rewrite Hz in Hgt.
    rewrite Z.div_1_r. lia.
  - rewrite Z.gtb_ltb in H. apply Z.ltb_ge in H.
    set (q := T / nmap) in *.
    assert (T / q < 2 * nmap); [|lia].
    apply Z.div_lt_upper_bound; [lia|]. nia.
Qed.

Lemma initial_each (filesize : list Z) (d : Z) :
  1 <= d -> Forall (fun x => 0 <= x) filesize ->
  sum_of filesize / d <= INTMAX ->
  initial filesize d = List.map (fun size => Z.max 1 (size / d)) filesize.
Proof.
  intros Hd Hl Hs. unfold initial. apply map_ext_in. intros size Hin.
  pose proof (sum_of_ge _ _ Hl Hin) as Hle.
  rewrite Forall_forall in Hl. specialize (Hl _ Hin).
  pose proof (Z.div_le_mono size (sum_of filesize) d ltac:(lia) Hle).
  pose proof (Z.div_pos size d Hl ltac:(lia)).
  unfold MAX. destruct (1 >? size / d) eqn:Hc.
  - rewrite Z.gtb_ltb in Hc. apply Z.ltb_lt in Hc.
    rewrite int_of_within by (unfold INTMAX; lia). lia.
  - rewrite Z.gtb_ltb in Hc. apply Z.ltb_ge in Hc.
    rewrite int_of_within by (unfold INTMAX in *; lia). lia.
Qed.

Lemma initial_sum (filesize : list Z) (d : Z) :
  1 <= d -> Forall (fun x => 0 <= x) filesize ->
  sum_of (List.map (fun size => Z.max 1 (size / d)) filesize)
  <= Z.of_nat (length filesize) + sum_of filesize / d.
Proof.
  intros Hd. induction 1 as [|x l Hx Hl IH];
    cbn [List.map sum_of fold_right length].
  - rewrite Z.div_0_l by lia. lia.
  - fold (sum_of l).
    fold (sum_of (List.map (fun size => Z.max 1 (size / d)) l)).
    pose proof (sum_of_nonneg l Hl) as H0.
    assert (x / d + sum_of l / d <= (x + sum_of l) / d).
    { apply Z.div_le_lower_bound; [lia|].
      pose proof (Z.mul_div_le x d ltac:(lia)).
      pose proof (Z.mul_div_le (sum_of l) d ltac:(lia)). lia. }
    pose proof (Z.div_pos x d Hx ltac:(lia)). lia.
Qed.

Lemma initial_ones (filesize : list Z) (d : Z) :
  Forall (fun n => 1 <= n) (List.map (fun size => Z.max 1 (size / d)) filesize).
Proof.
  apply Forall_forall. intros n Hin. apply in_map_iff in Hin.
  destruct Hin as [size [<- _]]. lia.
Qed.

(** One pass of the first loop. *)
Lemma grow_pass_spec (ideal nmap : Z) :
  forall filesize tasksperfile ntasks,
    length filesize = length tasksperfile ->
    - 2 ^ 31 <= ntasks < nmap -> nmap <= INTMAX ->
    Forall (fun n => 1 <= n < INTMAX) tasksperfile ->
    exists more ntasks',
      grow_pass ideal nmap filesize tasksperfile ntasks = (more, ntasks')
      /\ length more = length tasksperfile
      /\ Forall (fun n => 1 <= n) more
      /\ sum_of more - sum_of tasksperfile = ntasks' - ntasks
      /\ ntasks <= ntasks' <= nmap
      /\ (Exists (fun size => ideal < size) filesize -> ntasks < ntasks').
Proof.
  intros filesize.
  induction filesize as [|size sizes IH]; intros tpf ntasks Hlen Hn Hmax Ht.
  - destruct tpf; [|discriminate]. exists [], ntasks. cbn.
    repeat split; try lia; [constructor|].
    intros H. inversion H.
  - destruct tpf as [|n rest]; [discriminate|].
    inversion Ht as [|? ? Hn1 Hrest]; subst.
    injection Hlen as Hlen. cbn [grow_pass].
    destruct (size >? ideal) eqn:Hbig.
    + rewrite (int_of_within (ntasks + 1)) by (unfold INTMAX in *; lia).
      rewrite (int_of_within (n + 1)) by (unfold INTMAX in *; lia).
      destruct (ntasks + 1 =? nmap) eqn:Heq.
      * apply Z.eqb_eq in Heq. exists (n + 1 :: rest), (ntasks + 1).
        split; [reflexivity|]. cbn [length sum_of fold_right].
        repeat split; try lia.
        apply Forall_cons; [lia|].
        eapply Forall_impl; [|exact Hrest]. cbn. lia.
      * apply Z.eqb_neq in Heq.
        destruct (IH rest (ntasks + 1) Hlen ltac:(lia) Hmax Hrest)
          as [more [n' [E [L [F [S [B _]]]]]]].
        rewrite E. exists (n + 1 :: more), n'.
        split; [reflexivity|]. cbn [length sum_of fold_right].
        fold (sum_of more). fold (sum_of rest).
        repeat split; try lia.
        apply Forall_cons; [lia|exact F].
    + rewrite Z.gtb_ltb in Hbig. apply Z.ltb_ge in Hbig.
      destruct (IH rest ntasks Hlen Hn Hmax Hrest)
        as [more [n' [E [L [F [S [B P]]]]]]].
      rewrite E. exists (n :: more), n'.
      split; [reflexivity|]. cbn [length sum_of fold_right].
      fold (sum_of more). fold (sum_of rest).
      repeat split; try lia.
      * apply Forall_cons; [lia|exact F].
      * intros H. inversion H as [? ? Hh|? ? Ht']; subst; [lia|].
        now apply P.
Qed.

(** A pass over files none of which is larger than [nideal] changes
    nothing. *)
Lemma grow_pass_idle (ideal nmap : Z) :
  forall filesize tasksperfile ntasks,
    Forall (fun size => size <= ideal) filesize ->
    grow_pass ideal nmap filesize tasksperfile ntasks = (tasksperfile, ntasks).
Proof.
  intros filesize.
  induction filesize as [|size sizes IH]; intros tpf ntasks H.
  - destruct tpf; reflexivity.
  - destruct tpf as [|n rest]; [reflexivity|].
    inversion H as [|? ? Hs Hr]; subst. cbn [grow_pass].
    replace (size >? ideal) with false
      by (symmetry; rewrite Z.gtb_ltb; apply Z.ltb_ge; lia).
    now rewrite IH.
Qed.

Lemma bounded_by_sum (l : list Z) (b : Z) :
  Forall (fun n => 1 <= n) l -> sum_of l < b ->
  Forall (fun n => 1 <= n < b) l.
Proof.
  intros Hl Hs. apply Forall_forall. intros n Hin.
  assert (H0 : Forall (fun x => 0 <= x) l)
    by (eapply Forall_impl; [|exact Hl]; cbn; lia).
  pose proof (sum_of_ge _ _ H0 Hin).
  rewrite Forall_forall in Hl. specialize (Hl _ Hin). lia.
Qed.

Lemma grow_spec (ideal nmap : Z) (filesize : list Z) :
  nmap <= INTMAX ->
  forall fuel tasksperfile ntasks,
    length filesize = length tasksperfile ->
    Forall (fun n => 1 <= n) tasksperfile ->
    sum_of tasksperfile = ntasks ->
    (Exists (fun size => ideal < size) filesize \/ nmap <= ntasks) ->
    (Z.to_nat (nmap - ntasks) <= fuel)%nat ->
    exists more,
      grow fuel ideal nmap filesize tasksperfile ntasks
      = Some (more, Z.max ntasks nmap)
      /\ length more = length tasksperfile
      /\ Forall (fun n => 1 <= n) more
      /\ sum_of more = Z.max ntasks nmap.
Proof.
  intros Hmax.
  assert (Done : forall fuel tpf ntasks,
             nmap <= ntasks ->
             grow fuel ideal nmap filesize tpf ntasks = Some (tpf, ntasks)).
  { intros fuel tpf ntasks H.
    destruct fuel; cbn [grow];
      now rewrite (proj2 (Z.ltb_ge _ _) H). }
  induction fuel as [|fuel IH]; intros tpf ntasks Hlen Ht Hs Hp Hf.
  - assert (nmap <= ntasks) by lia.
    rewrite Done by assumption. rewrite Z.max_l by lia.
    exists tpf. repeat split; auto.
  - destruct (Z_le_dec nmap ntasks) as [Hge|Hlt].
    + rewrite Done by assumption. rewrite Z.max_l by lia.
      exists tpf. repeat split; auto.
    + cbn [grow]. rewrite (proj2 (Z.ltb_lt _ _)) by lia.
      assert (Hb : Forall (fun n => 1 <= n < INTMAX) tpf)
        by (apply bounded_by_sum; [exact Ht|lia]).
      assert (H0 : 0 <= sum_of tpf).
      { apply sum_of_nonneg. eapply Forall_impl; [|exact Ht]. cbn. lia. }
      destruct (grow_pass_spec ideal nmap filesize tpf ntasks Hlen
                  ltac:(lia) Hmax Hb)
        as [more [n' [E [L [F [S [B P]]]]]]].
      rewrite E.
      destruct Hp as [Hp|Hp]; [|lia].
      specialize (P Hp).
      destruct (IH more n' ltac:(congruence) F ltac:(lia)
                  (or_introl Hp) ltac:(lia))
        as [more' [E' [L' [F' S']]]].
      rewrite E'. rewrite (Z.max_r n' nmap) in * by lia.
      rewrite (Z.max_r ntasks nmap) by lia.
      exists more'. repeat split; auto. congruence.
Qed.

(** One pass of the second loop. *)
Lemma shrink_pass_spec (nmap : Z) :
  forall tasksperfile ntasks,
    nmap < ntasks <= INTMAX -> - 2 ^ 31 <= nmap ->
    Forall (fun n => 1 <= n <= INTMAX) tasksperfile ->
    exists fewer ntasks',
      shrink_pass nmap tasksperfile ntasks = (fewer, ntasks')
      /\ length fewer = length tasksperfile
      /\ Forall (fun n => 1 <= n <= INTMAX) fewer
      /\ sum_of tasksperfile - sum_of fewer = ntasks - ntasks'
      /\ nmap <= ntasks' <= ntasks
      /\ (Exists (fun n => 1 < n) tasksperfile -> ntasks' < ntasks).
Proof.
  intros tasksperfile.
  induction tasksperfile as [|n rest IH]; intros ntasks Hn Hlo Ht.
  - exists [], ntasks. cbn. repeat split; try lia; [constructor|].
    intros H. inversion H.
  - inversion Ht as [|? ? Hn1 Hrest]; subst. cbn [shrink_pass].
    destruct (n >? 1) eqn:Hbig.
    + rewrite Z.gtb_ltb in Hbig. apply Z.ltb_lt in Hbig.
      rewrite (int_of_within (ntasks - 1)) by (unfold INTMAX in *; lia).
      rewrite (int_of_within (n - 1)) by (unfold INTMAX in *; lia).
      destruct (ntasks - 1 =? nmap) eqn:Heq.
      * apply Z.eqb_eq in Heq. exists (n - 1 :: rest), (ntasks - 1).
        split; [reflexivity|]. cbn [length sum_of fold_right].
        repeat split; try lia.
        apply Forall_cons; [lia|exact Hrest].
      * apply Z.eqb_neq in Heq.
        destruct (IH (ntasks - 1) ltac:(lia) Hlo Hrest)
          as [fewer [n' [E [L [F [S [B _]]]]]]].
        rewrite E. exists (n - 1 :: fewer), n'.
        split; [reflexivity|]. cbn [length sum_of fold_right].
        fold (sum_of fewer). fold (sum_of rest).
        repeat split; try lia.
        apply Forall_cons; [lia|exact F].
    + rewrite Z.gtb_ltb in Hbig. apply Z.ltb_ge in Hbig.
      destruct (IH ntasks Hn Hlo Hrest)
        as [fewer [n' [E [L [F [S [B P]]]]]]].
      rewrite E. exists (n :: fewer), n'.
      split; [reflexivity|]. cbn [length sum_of fold_right].
      fold (sum_of fewer). fold (sum_of rest).
      repeat split; try lia.
      * apply Forall_cons; [lia|exact F].
      * intros H. inversion H as [? ? Hh|? ? Ht']; subst; [lia|].
        now apply P.
Qed.

Lemma shrink_spec (nmap : Z) :
  0 <= nmap ->
  forall fuel tasksperfile ntasks,
    Z.of_nat (length tasksperfile) <= nmap ->
    Forall (fun n => 1 <= n) tasksperfile ->
    sum_of tasksperfile = ntasks -> ntasks <= INTMAX ->
    (Z.to_nat (ntasks - nmap) <= fuel)%nat ->
    exists fewer,
      shrink fuel nmap tasksperfile ntasks
      = Some (fewer, Z.min ntasks nmap)
      /\ length fewer = length tasksperfile
      /\ Forall (fun n => 1 <= n) fewer
      /\ sum_of fewer = Z.min ntasks nmap.
Proof.
  intros Hlo.
  assert (Done : forall fuel tpf ntasks,
             ntasks <= nmap ->
             shrink fuel nmap tpf ntasks = Some (tpf, ntasks)).
  { intros fuel tpf ntasks H.
    destruct fuel; cbn [shrink]; rewrite Z.gtb_ltb;
      now rewrite (proj2 (Z.ltb_ge _ _) H). }
  induction fuel as [|fuel IH]; intros tpf ntasks Hlen Ht Hs Hmax Hf.
  - assert (ntasks <= nmap) by lia.
    rewrite Done by assumption. rewrite Z.min_l by lia.
    exists tpf. repeat split; auto.
  - destruct (Z_le_dec ntasks nmap) as [Hge|Hlt].
    + rewrite Done by assumption. rewrite Z.min_l by lia.
      exists tpf. repeat split; auto.
    + cbn [shrink]. rewrite Z.gtb_ltb.
      rewrite (proj2 (Z.ltb_lt _ _)) by lia.
      assert (Hb : Forall (fun n => 1 <= n <= INTMAX) tpf).
      { pose proof (bounded_by_sum tpf (INTMAX + 1) Ht ltac:(lia)) as Hb.
        eapply Forall_impl; [|exact Hb].
        intros a Ha. unfold INTMAX in *. lia. }
      destruct (shrink_pass_spec nmap tpf ntasks ltac:(lia) ltac:(lia) Hb)
        as [fewer [n' [E [L [F [S [B P]]]]]]].
      rewrite E.
      specialize (P (some_above_one tpf Ht ltac:(lia))).
      assert (F1 : Forall (fun n => 1 <= n) fewer)
        by (eapply Forall_impl; [|exact F]; cbn; lia).
      destruct (IH fewer n' ltac:(rewrite L; exact Hlen) F1 ltac:(lia)
                  ltac:(lia) ltac:(lia))
        as [fewer' [E' [L' [F' S']]]].
      rewrite E'. rewrite (Z.min_r n' nmap) in * by lia.
      rewrite (Z.min_r ntasks nmap) by lia.
      exists fewer'. repeat split; auto. congruence.
Qed.

(** The loop of the check against [delta], for one file. *)
Lemma lower_spec (size delta : Z) :
  0 <= delta < 2 ^ 64 ->
  forall fuel n nmap,
    1 <= n <= INTMAX -> (Z.to_nat n <= S fuel)%nat ->
    - 2 ^ 31 <= nmap - n -> nmap <= INTMAX ->
    exists n' nmap',
      lower fuel size delta n nmap = (n', nmap')
      /\ 1 <= n' <= n /\ nmap - nmap' = n - n'
      /\ (n' = 1 \/ delta < size / n').
Proof.
  intros Hd.
  induction fuel as [|fuel IH]; intros n nmap Hn Hf Hlo Hhi.
  - exists n, nmap. cbn. repeat split; try lia.
  - cbn [lower]. destruct (n >? 1) eqn:Hbig.
    + rewrite Z.gtb_ltb in Hbig. apply Z.ltb_lt in Hbig.
      rewrite (int_of_within (n - 1)) by (unfold INTMAX in *; lia).
      rewrite (int_of_within (nmap - 1)) by (unfold INTMAX in *; lia).
      unfold u64. rewrite (Z.mod_small (n - 1)) by (unfold INTMAX in *; lia).
      rewrite (Z.mod_small delta) by lia.
      destruct (size / (n - 1) >? delta) eqn:Hbreak.
      * rewrite Z.gtb_ltb in Hbreak. apply Z.ltb_lt in Hbreak.
        exists (n - 1), (nmap - 1). repeat split; try lia.
      * destruct (IH (n - 1) (nmap - 1) ltac:(lia) ltac:(lia) ltac:(lia)
                    ltac:(lia))
          as [n' [nmap' [E [B [S C]]]]].
        exists n', nmap'. rewrite E. repeat split; try lia; try exact C.
    + rewrite Z.gtb_ltb in Hbig. apply Z.ltb_ge in Hbig.
      exists n, nmap. repeat split; try lia.
Qed.

Lemma adjust_spec (delta : Z) :
  0 <= delta < 2 ^ 64 ->
  forall filesize tasksperfile nmap flag,
    length filesize = length tasksperfile ->
    Forall (fun n => 1 <= n <= INTMAX) tasksperfile ->
    sum_of tasksperfile <= nmap <= INTMAX ->
    exists fewer nmap' flag',
      adjust delta filesize tasksperfile nmap flag = (fewer, nmap', flag')
      /\ length fewer = length tasksperfile
      /\ Forall (fun n => 1 <= n) fewer
      /\ nmap - nmap' = sum_of tasksperfile - sum_of fewer
      /\ sum_of fewer <= sum_of tasksperfile
      /\ Forall2 (fun size n => n = 1 \/ delta < size / n) filesize fewer
      /\ (flag' = 0 -> flag = 0 /\ fewer = tasksperfile).
Proof.
  intros Hd.
  intros filesize.
  induction filesize as [|size sizes IH]; intros tpf nmap flag Hlen Ht Hs.
  - destruct tpf; [|discriminate]. exists [], nmap, flag. cbn.
    repeat split; try lia; constructor.
  - destruct tpf as [|n rest]; [discriminate|].
    inversion Ht as [|? ? Hn1 Hrest]; subst.
    injection Hlen as Hlen. cbn [adjust].
    cbn [sum_of fold_right] in Hs. fold (sum_of rest) in Hs.
    assert (H0 : 0 <= sum_of rest).
    { apply sum_of_nonneg. eapply Forall_impl; [|exact Hrest]. cbn. lia. }
    unfold u64 at 1 2. rewrite (Z.mod_small n) by (unfold INTMAX in *; lia).
    rewrite (Z.mod_small delta) by lia.
    destruct (size / n >? delta) eqn:Hbig.
    + rewrite Z.gtb_ltb in Hbig. apply Z.ltb_lt in Hbig.
      destruct (IH rest nmap flag Hlen Hrest ltac:(lia))
        as [fewer [nmap' [flag' [E [L [F [S [M [C Z0]]]]]]]]].
      rewrite E. exists (n :: fewer), nmap', flag'.
      split; [reflexivity|]. cbn [length sum_of fold_right].
      fold (sum_of fewer). fold (sum_of rest).
      split; [lia|]. split; [apply Forall_cons; [lia|exact F]|].
      split; [lia|]. split; [lia|].
      split; [apply Forall2_cons; [now right|exact C]|].
      intros Hz. destruct (Z0 Hz) as [-> ->]. now split.
    + destruct (lower_spec size delta Hd (Z.to_nat n) n nmap Hn1 ltac:(lia)
                  ltac:(lia) ltac:(lia))
        as [n' [nmap1 [E1 [B1 [S1 C1]]]]].
      rewrite E1.
      destruct (IH rest nmap1 1 Hlen Hrest ltac:(lia))
        as [fewer [nmap' [flag' [E [L [F [S [M [C Z0]]]]]]]]].
      rewrite E. exists (n' :: fewer), nmap', flag'.
      split; [reflexivity|]. cbn [length sum_of fold_right].
      fold (sum_of fewer). fold (sum_of rest).
      split; [lia|]. split; [apply Forall_cons; [lia|exact F]|].
      split; [lia|]. split; [lia|].
      split; [apply Forall2_cons; [exact C1|exact C]|].
      intros Hz. destruct (Z0 Hz) as [Hone _]. discriminate.
Qed.

(** The task list has one entry for every task counted. *)
Lemma tasks_length_from (l : list Z) : forall first,
  Forall (fun n => 0 <= n) l ->
  Z.of_nat
    (length
       (concat
          (List.map
             (fun f =>
                List.map (fun j => (Z.of_nat (fst f), Z.of_nat j))
                         (seq 0 (Z.to_nat (snd f))))
             (combine (seq first (length l)) l))))
  = sum_of l.
Proof.
  induction l as [|n l IH]; intros first Hl; [reflexivity|].
  inversion Hl as [|? ? Hn Hl']; subst.
  cbn [length seq combine List.map concat sum_of fold_right].
  rewrite length_app, length_map, length_seq, Nat2Z.inj_add, IH by assumption.
  fold (sum_of l). cbn [snd]. lia.
Qed.

Lemma tasks_length (tasksperfile : list Z) :
  Forall (fun n => 1 <= n) tasksperfile ->
  Z.of_nat (length (tasks tasksperfile)) = sum_of tasksperfile.
Proof.
  intros H. unfold tasks. apply tasks_length_from.
  eapply Forall_impl; [|exact H]. cbn. lia.
Qed.

(** When the files are as many as the tasks, or one of them is larger
    than the ideal size of a task, [map_file] finds a number of tasks for
    every file: at least one each, together the [nmap] it passes on,
    which is the [nmap] it was given unless the warning is raised; a file
    with more than one task has more than [delta] bytes for each; and
    [whichfile] and [whichtask] have [nmap] entries. *)
Theorem split_counts (nmap : Z) (filesize : list Z) (delta : Z) :
  Forall (fun size => 0 <= size) filesize -> sum_of filesize < 2 ^ 64 ->
  1 <= nmap -> 3 * nmap <= INTMAX ->
  Z.of_nat (length filesize) <= nmap ->
  0 <= delta <= INTMAX ->
  Z.of_nat (length filesize) = nmap
  \/ Exists (fun size => nideal filesize nmap < size) filesize ->
  exists tasksperfile nmap' flag,
    split nmap filesize delta = Ok (tasksperfile, nmap', flag)
    /\ length tasksperfile = length filesize
    /\ Forall (fun n => 1 <= n) tasksperfile
    /\ sum_of tasksperfile = nmap'
    /\ Z.of_nat (length (tasks tasksperfile)) = nmap'
    /\ nmap' <= nmap
    /\ (flag = 0 -> nmap' = nmap)
    /\ Forall2 (fun size n => n = 1 \/ delta < size / n) filesize tasksperfile.
Proof.
  intros Hl Hs Hn Hmax Hlen Hd Hp.
  pose proof (nideal_positive filesize nmap) as Hi.
  pose proof (total_over_nideal filesize nmap Hl Hs
                ltac:(unfold INTMAX in *; lia)) as Hq.
  unfold split. cbv zeta.
  set (ideal := nideal filesize nmap) in *.
  rewrite (initial_each filesize ideal Hi Hl) by lia.
  set (first := List.map (fun size => Z.max 1 (size / ideal)) filesize).
  pose proof (initial_ones filesize ideal) as F0. fold first in F0.
  pose proof (initial_sum filesize ideal Hi Hl) as S0. fold first in S0.
  assert (L0 : length first = length filesize) by apply length_map.
  assert (P0 : Forall (fun x => 0 <= x) first)
    by (eapply Forall_impl; [|exact F0]; cbn; lia).
  rewrite count_sum by (auto; lia).
  pose proof (sum_of_ones first F0) as O0. rewrite L0 in O0.
  destruct (grow_spec ideal nmap filesize ltac:(lia) (Z.to_nat nmap) first
              (sum_of first) ltac:(congruence) F0 eq_refl
              ltac:(destruct Hp; [right; lia|now left]) ltac:(lia))
    as [more [E1 [L1 [F1 S1]]]].
  rewrite E1.
  destruct (shrink_spec nmap ltac:(lia)
              (Z.to_nat (Z.max (sum_of first) nmap)) more
              (Z.max (sum_of first) nmap) ltac:(rewrite L1, L0; exact Hlen)
              F1 S1 ltac:(lia) ltac:(lia))
    as [fewer [E2 [L2 [F2 S2]]]].
  rewrite E2.
  replace (Z.min (Z.max (sum_of first) nmap) nmap) with nmap in S2 by lia.
  assert (B2 : Forall (fun n => 1 <= n <= INTMAX) fewer).
  { pose proof (bounded_by_sum fewer (INTMAX + 1) F2 ltac:(lia)) as Hb.
    eapply Forall_impl; [|exact Hb].
    intros a Ha. unfold INTMAX in *. lia. }
  destruct (adjust_spec delta ltac:(unfold INTMAX in *; lia) filesize fewer
              nmap 0 ltac:(congruence) B2 ltac:(lia))
    as [last [nmap' [flag [E3 [L3 [F3 [S3 [M3 [C3 Z3]]]]]]]]].
  rewrite E3. exists last, nmap', flag.
  split; [reflexivity|].
  split; [congruence|]. split; [exact F3|].
  split; [lia|]. split; [rewrite tasks_length by exact F3; lia|].
  split; [lia|]. split; [|exact C3].
  intros Hz. destruct (Z3 Hz) as [_ ->]. lia.
Qed.

Lemma split_counts_witness :
  exists tasksperfile nmap' flag,
    split 4 [10; 2] 1 = Ok (tasksperfile, nmap', flag)
    /\ length tasksperfile = length [10; 2]
    /\ Forall (fun n => 1 <= n) tasksperfile
    /\ sum_of tasksperfile = nmap'
    /\ Z.of_nat (length (tasks tasksperfile)) = nmap'
    /\ nmap' <= 4
    /\ (flag = 0 -> nmap' = 4)
    /\ Forall2 (fun size n => n = 1 \/ 1 < size / n) [10; 2] tasksperfile.
Proof.
  apply (split_counts 4 [10; 2] 1).
  - repeat constructor; lia.
  - reflexivity.
  - lia.
  - unfold INTMAX. lia.
  - cbn. lia.
  - unfold INTMAX. lia.
  - right. apply Exists_cons_hd. vm_compute. reflexivity.
Defined.

(** Files fewer than the tasks and none larger than the ideal size of a
    task: every file starts with one task, and a pass of
    [while (ntasks < nmap)] changes nothing. *)
Lemma split_never_ends (nmap : Z) (filesize : list Z) (delta : Z) :
  Z.of_nat (length filesize) < nmap -> nmap <= INTMAX ->
  Forall (fun size => 0 <= size <= nideal filesize nmap) filesize ->
  initial filesize (nideal filesize nmap) = List.map (fun _ => 1) filesize
  /\ (forall fuel,
        grow fuel (nideal filesize nmap) nmap filesize
             (initial filesize (nideal filesize nmap))
             (count (initial filesize (nideal filesize nmap)))
        = None)
  /\ split nmap filesize delta
     = Fatal "map_file: while (ntasks < nmap) does not end".
Proof.
  intros Hlen Hmax Hl.
  pose proof (nideal_positive filesize nmap) as Hi.
  set (ideal := nideal filesize nmap) in *.
  assert (E0 : initial filesize ideal = List.map (fun _ => 1) filesize).
  { unfold initial. apply map_ext_in. intros size Hin.
    rewrite Forall_forall in Hl. specialize (Hl _ Hin).
    assert (size / ideal <= 1).
    { apply Z.lt_succ_r. apply Z.div_lt_upper_bound; lia. }
    pose proof (Z.div_pos size ideal ltac:(lia) ltac:(lia)).
    unfold MAX. destruct (1 >? size / ideal) eqn:Hc; [reflexivity|].
    rewrite Z.gtb_ltb in Hc. apply Z.ltb_ge in Hc.
    replace (size / ideal) with 1 by lia. reflexivity. }
  assert (C0 : count (List.map (fun _ => 1) filesize)
               = Z.of_nat (length filesize)).
  { assert (S1 : sum_of (List.map (fun _ => 1) filesize)
                 = Z.of_nat (length filesize)).
    { clear. induction filesize as [|x l IH];
        cbn [List.map sum_of fold_right length]; [reflexivity|].
      fold (sum_of (List.map (fun _ => 1) l)). lia. }
    rewrite count_sum; [exact S1| |lia].
    apply Forall_forall. intros n Hin. apply in_map_iff in Hin.
    destruct Hin as [_ [<- _]]. lia. }
  assert (G : forall fuel,
             grow fuel ideal nmap filesize (initial filesize ideal)
                  (count (initial filesize ideal)) = None).
  { rewrite E0, C0.
    induction fuel as [|fuel IH]; cbn [grow];
      rewrite (proj2 (Z.ltb_lt _ _) Hlen); [reflexivity|].
    rewrite grow_pass_idle; [exact IH|].
    eapply Forall_impl; [|exact Hl]. cbn. lia. }
  split; [exact E0|]. split; [exact G|].
  unfold split. cbv zeta. fold ideal. now rewrite G.
Qed.


(** ** The string of a task *)

Lemma strchr_terminated (l r : list Z) (c : Z) :
  Forall (fun x => x <> 0) l -> c <> 0 -> strchr (l ++ 0 :: r) c = strchr l c.
Proof.
  intros Hl Hc. induction Hl as [|x l Hx _ IH]; cbn [app strchr].
  - replace (0 =? c) with false by (symmetry; apply Z.eqb_neq; lia).
    reflexivity.
  - now rewrite IH.
Qed.

Lemma strchr_bounds (l : list Z) (c : Z) : forall p,
  strchr l c = Some p -> 0 <= p < Z.of_nat (length l).
Proof.
  induction l as [|x l IH]; intros p H; cbn [strchr] in H; [discriminate|].
  cbn [length]. destruct (x =? c).
  - injection H as <-. lia.
  - destruct (x =? 0); [discriminate|].
    destruct (strchr l c) as [p'|]; [|discriminate].
    injection H as <-. specialize (IH p' eq_refl). lia.
Qed.

Lemma strchr_prefix (l l' : list Z) (c : Z) : forall p,
  strchr l c = Some p -> strchr (l ++ l') c = Some p.
Proof.
  induction l as [|x l IH]; intros p H; cbn [strchr app] in *; [discriminate|].
  destruct (x =? c); [exact H|].
  destruct (x =? 0); [discriminate|].
  destruct (strchr l c) as [p'|]; [|discriminate].
  now rewrite (IH p' eq_refl).
Qed.

Lemma strchr_absent (l : list Z) (c : Z) : ~ In c l -> strchr l c = None.
Proof.
  induction l as [|x l IH]; intros H; cbn [strchr]; [reflexivity|].
  replace (x =? c) with false
    by (symmetry; apply Z.eqb_neq; intros ->; apply H; now left).
  destruct (x =? 0); [reflexivity|].
  rewrite IH; [reflexivity|]. intros Hin. apply H. now right.
Qed.

(** The first separator of a string is not behind the first one of a
    later part of it. *)
Lemma strchr_first (l : list Z) (c : Z) : forall k p q,
  strchr l c = Some p -> strchr (skipn k l) c = Some q ->
  p <= Z.of_nat k + q.
Proof.
  induction l as [|x l IH]; intros k p q Hp Hq.
  - discriminate.
  - destruct k as [|k].
    + cbn [skipn] in Hq. rewrite Hp in Hq. injection Hq as <-. lia.
    + cbn [skipn] in Hq. pose proof (strchr_bounds _ _ _ Hq) as Bq.
      cbn [strchr] in Hp. destruct (x =? c).
      * injection Hp as <-. lia.
      * destruct (x =? 0); [discriminate|].
        destruct (strchr l c) as [p'|] eqn:Ep; [|discriminate].
        injection Hp as <-. specialize (IH k p' q eq_refl Hq). lia.
Qed.

Lemma firstn_array_set {A : Type} (l : list A) (x : A) : forall i,
  (i < length l)%nat -> firstn i (array_set l i x) = firstn i l.
Proof.
  induction l as [|a l IH]; intros i Hi; cbn [length] in Hi; [lia|].
  destruct i as [|i]; [reflexivity|].
  cbn [array_set firstn]. f_equal. apply IH. lia.
Qed.

Lemma parts_keep {A : Type} (P : A -> Prop) (l : list A) (k : nat) :
  Forall P l -> Forall P (firstn k l) /\ Forall P (skipn k l).
Proof.
  intros H. apply Forall_app. now rewrite firstn_skipn.
Qed.

(** Where the tasks of a file start reading: [readstart] of task [j]. *)
Definition bound (n ntask j : Z) : Z := j * n / ntask.

(** The bytes [lo .. hi-1] of a file. *)
Definition piece (text : list Z) (lo hi : Z) : list Z :=
  firstn (Z.to_nat (hi - lo)) (skipn (Z.to_nat lo) text).

(** Where the string of task [j] starts: the start of the file for the
    first task, behind the first separator at or after [readstart] for
    the others; the end of the file stands for the task behind the
    last. *)
Definition cut (text : list Z) (c ntask j : Z) : Z :=
  if j <=? 0 then 0
  else if ntask <=? j then Z.of_nat (length text)
  else
    match strchr (skipn (Z.to_nat (bound (Z.of_nat (length text)) ntask j))
                        text) c with
    | Some p => bound (Z.of_nat (length text)) ntask j + p + 1
    | None => Z.of_nat (length text)
    end.

(** The string [appmapfile] is given: the [strsize - 1] characters before
    the terminator. *)
Definition given (s : list Z * Z) : list Z :=
  firstn (Z.to_nat (snd s - 1)) (fst s).

Lemma piece_join (text : list Z) (lo hi : Z) :
  0 <= lo <= hi ->
  firstn (Z.to_nat lo) text ++ piece text lo hi = firstn (Z.to_nat hi) text.
Proof.
  intros H. unfold piece.
  rewrite <- (firstn_skipn (Z.to_nat lo) (firstn (Z.to_nat hi) text)).
  rewrite firstn_firstn, skipn_firstn_comm.
  replace (Nat.min (Z.to_nat lo) (Z.to_nat hi)) with (Z.to_nat lo) by lia.
  replace (Z.to_nat hi - Z.to_nat lo)%nat with (Z.to_nat (hi - lo)) by lia.
  reflexivity.
Qed.

Section TaskString.
Variables (text : list Z) (n c delta ntask : Z).
Hypothesis size_of_text : n = Z.of_nat (length text).
Hypothesis no_terminator : Forall (fun x => x <> 0) text.
Hypothesis separator_char : c <> 0.
Hypothesis delta_range : 0 <= delta.
Hypothesis size_range : n + delta < INTMAX.
Hypothesis ntask_range : 1 <= ntask <= INTMAX.

Lemma bound_range (j : Z) : 0 <= j <= ntask -> 0 <= bound n ntask j <= n.
Proof.
  intros H. unfold bound. split.
  - apply Z.div_pos; nia.
  - apply Z.div_le_upper_bound; nia.
Qed.

Lemma bound_step (j : Z) : bound n ntask j <= bound n ntask (j + 1).
Proof.
  unfold bound. apply Z.div_le_mono; nia.
Qed.

Lemma bound_last : bound n ntask ntask = n.
Proof.
  unfold bound. rewrite Z.mul_comm. apply Z.div_mul. lia.
Qed.

Lemma bound_first : bound n ntask 0 = 0.
Proof. reflexivity. Qed.

(** What [read_task] computes for task [j], with [readstart],
    [readnext] and [readsize] worked out. *)
Lemma read_task_steps (j : Z) :
  0 <= j < ntask ->
  let b := bound n ntask j in
  let b' := bound n ntask (j + 1) in
  let r := Z.min (b' - b + delta) (n - b) in
  let W := firstn (Z.to_nat r) (skipn (Z.to_nat b) text) in
  read_task (Char c) delta text n j ntask
  = (strstart <-
       (if j >? 0 then
          match strchr W c with
          | None => Fatal "Could not find separator within delta"
          | Some p =>
            if p >? delta
            then Fatal "Could not find separator within delta"
            else Ok (int_of (p + 1))
          end
        else Ok 0) ;;
     stopped <-
       (if j <? ntask - 1 then
          match strchr (skipn (Z.to_nat (b' - b)) W) c with
          | None => Fatal "Could not find separator within delta"
          | Some q =>
            Ok (array_set (W ++ [0]) (Z.to_nat (b' - b + q + 1)) 0,
                int_of (b' - b + q + 1))
          end
        else Ok (W ++ [0], r)) ;;
     Ok (skipn (Z.to_nat strstart) (fst stopped),
         int_of (snd stopped - strstart + 1))).
Proof.
  intros Hj b b' r W.
  pose proof (bound_range j ltac:(lia)) as Hb.
  pose proof (bound_range (j + 1) ltac:(lia)) as Hb'.
  pose proof (bound_step j) as Hs.
  fold b in Hb, Hs. fold b' in Hb', Hs.
  assert (Hn : 0 <= n) by lia.
  unfold read_task. cbv zeta.
  assert (E1 : u64 (u64 j * n) / u64 ntask = b).
  { unfold u64. rewrite (Z.mod_small j), (Z.mod_small ntask)
      by (unfold INTMAX in *; lia).
    rewrite Z.mod_small by (unfold INTMAX in *; nia). reflexivity. }
  assert (E2 : u64 (u64 (int_of (j + 1)) * n) / u64 ntask = b').
  { rewrite int_of_within by (unfold INTMAX in *; lia).
    unfold u64. rewrite (Z.mod_small (j + 1)), (Z.mod_small ntask)
      by (unfold INTMAX in *; lia).
    rewrite Z.mod_small by (unfold INTMAX in *; nia). reflexivity. }
  rewrite E1, E2.
  assert (E3 : int_of (u64 (b' - b + u64 delta)) = b' - b + delta).
  { unfold u64. rewrite (Z.mod_small delta) by (unfold INTMAX in *; lia).
    rewrite Z.mod_small by (unfold INTMAX in *; lia).
    apply int_of_within. unfold INTMAX in *. lia. }
  rewrite E3.
  assert (E4 : int_of (MIN (u64 (b' - b + delta)) (u64 (n - b))) = r).
  { unfold u64. rewrite !Z.mod_small by (unfold INTMAX in *; lia).
    unfold MIN, r. destruct (b' - b + delta <? n - b) eqn:Hc.
    - apply Z.ltb_lt in Hc. rewrite Z.min_l by lia.
      apply int_of_within. unfold INTMAX in *. lia.
    - apply Z.ltb_ge in Hc. rewrite Z.min_r by lia.
      apply int_of_within. unfold INTMAX in *. lia. }
  rewrite E4.
  assert (E5 : u64 (b' - b) = b' - b)
    by (unfold u64; apply Z.mod_small; unfold INTMAX in *; lia).
  rewrite E5.
  rewrite (int_of_within (ntask - 1)) by (unfold INTMAX in *; lia).
  fold W. cbn [search sepwhich].
  destruct (parts_keep _ text (Z.to_nat b) no_terminator) as [_ HX].
  destruct (parts_keep _ _ (Z.to_nat r) HX) as [HW _]. fold W in HW.
  destruct (parts_keep _ _ (Z.to_nat (b' - b)) HW) as [_ HK].
  assert (LW : length W = Z.to_nat r).
  { unfold W. apply firstn_length_le. rewrite length_skipn. unfold r. lia. }
  rewrite (strchr_terminated W [] c HW separator_char).
  assert (EK : skipn (Z.to_nat (b' - b)) (W ++ [0])
               = skipn (Z.to_nat (b' - b)) W ++ [0]).
  { rewrite skipn_app.
    replace (Z.to_nat (b' - b) - length W)%nat with 0%nat
      by (rewrite LW; unfold r; lia).
    reflexivity. }
  rewrite EK.
  rewrite (strchr_terminated _ [] c HK separator_char).
  reflexivity.
Qed.

(** The string of a task that finds its separators is the file from its
    cut to the cut of the next task. *)
Lemma read_task_piece (j : Z) (s : list Z * Z) :
  0 <= j < ntask ->
  read_task (Char c) delta text n j ntask = Ok s ->
  given s = piece text (cut text c ntask j) (cut text c ntask (j + 1))
  /\ 0 <= cut text c ntask j <= cut text c ntask (j + 1)
  /\ cut text c ntask (j + 1) <= n.
Proof.
  intros Hj H. rewrite (read_task_steps j Hj) in H. cbv zeta in H.
  pose proof (bound_range j ltac:(lia)) as Hb.
  pose proof (bound_range (j + 1) ltac:(lia)) as Hb'.
  pose proof (bound_step j) as Hs.
  set (b := bound n ntask j) in *.
  set (b' := bound n ntask (j + 1)) in *.
  set (r := Z.min (b' - b + delta) (n - b)) in *.
  set (X := skipn (Z.to_nat b) text) in *.
  set (W := firstn (Z.to_nat r) X) in *.
  assert (LX : length X = Z.to_nat (n - b))
    by (unfold X; rewrite length_skipn; lia).
  assert (LW : length W = Z.to_nat r).
  { unfold W. apply firstn_length_le. rewrite LX. unfold r. lia. }
  assert (Hr : 0 <= r <= n - b) by (unfold r; lia).
  assert (EX : X = W ++ skipn (Z.to_nat r) X)
    by (unfold W; now rewrite firstn_skipn).
  (* the start of the string *)
  match type of H with
  | bind ?A _ = _ => destruct A as [strstart|msg] eqn:Es; [|discriminate]
  end.
  cbn [bind] in H.
  assert (Hstart : b + strstart = cut text c ntask j
                   /\ (strstart = 0
                       \/ exists p, strchr W c = Some p /\ strstart = p + 1)).
  { unfold cut. destruct (j >? 0) eqn:Hj0.
    - rewrite Z.gtb_ltb in Hj0. apply Z.ltb_lt in Hj0.
      rewrite (proj2 (Z.leb_gt _ _)) by lia.
      rewrite (proj2 (Z.leb_gt _ _)) by lia.
      destruct (strchr W c) as [p|] eqn:Ep; [|discriminate].
      destruct (p >? delta); [discriminate|].
      pose proof (strchr_bounds _ _ _ Ep) as Bp.
      rewrite int_of_within in Es by (unfold INTMAX in *; lia).
      injection Es as <-.
      rewrite <- size_of_text. fold b. fold X.
      rewrite EX, (strchr_prefix _ _ _ _ Ep).
      split; [lia|]. right. now exists p.
    - rewrite Z.gtb_ltb in Hj0. apply Z.ltb_ge in Hj0.
      injection Es as <-.
      rewrite (proj2 (Z.leb_le _ _)) by lia.
      assert (j = 0) as -> by lia.
      split; [|now left]. unfold b. rewrite bound_first. lia. }
  (* its end *)
  match type of H with
  | bind ?A _ = _ => destruct A as [[str strstop]|msg] eqn:Ee; [|discriminate]
  end.
  cbn [bind fst snd] in H.
  assert (Hstop : b + strstop = cut text c ntask (j + 1)
                  /\ firstn (Z.to_nat strstop) str
                     = firstn (Z.to_nat strstop) W
                  /\ 0 <= strstop <= r
                  /\ (strstop = r
                      \/ exists q,
                           strchr (skipn (Z.to_nat (b' - b)) W) c = Some q
                           /\ strstop = b' - b + q + 1)).
  { unfold cut. rewrite (proj2 (Z.leb_gt _ _)) by lia.
    destruct (j <? ntask - 1) eqn:Hjl.
    - apply Z.ltb_lt in Hjl.
      rewrite (proj2 (Z.leb_gt _ _)) by lia.
      destruct (strchr (skipn (Z.to_nat (b' - b)) W) c) as [q|] eqn:Eq;
        [|discriminate].
      pose proof (strchr_bounds _ _ _ Eq) as Bq.
      rewrite length_skipn, LW in Bq.
      rewrite int_of_within in Ee by (unfold INTMAX in *; lia).
      injection Ee as <- <-.
      rewrite <- size_of_text. fold b'.
      assert (EK : skipn (Z.to_nat (b' - b)) W
                   = firstn (Z.to_nat r - Z.to_nat (b' - b))
                            (skipn (Z.to_nat b') text)).
      { unfold W, X. rewrite skipn_firstn_comm, skipn_skipn.
        repeat f_equal. lia. }
      rewrite EK in Eq.
      rewrite <- (firstn_skipn (Z.to_nat r - Z.to_nat (b' - b))
                               (skipn (Z.to_nat b') text)).
      rewrite (strchr_prefix _ _ _ _ Eq).
      split; [lia|]. split.
      + rewrite firstn_array_set by (rewrite length_app, LW; cbn; lia).
        rewrite firstn_app.
        replace (Z.to_nat (b' - b + q + 1) - length W)%nat with 0%nat
          by (rewrite LW; lia).
        cbn [firstn]. now rewrite app_nil_r.
      + split; [lia|]. right. exists q. now split.
    - apply Z.ltb_ge in Hjl. injection Ee as <- <-.
      assert (j + 1 = ntask) as Hlast by lia.
      rewrite (proj2 (Z.leb_le _ _)) by lia.
      assert (b' = n) as Hn by (unfold b'; rewrite Hlast; apply bound_last).
      split; [unfold r; lia|]. split.
      + rewrite firstn_app.
        replace (Z.to_nat r - length W)%nat with 0%nat by (rewrite LW; lia).
        cbn [firstn]. now rewrite app_nil_r.
      + split; [lia|]. now left. }
  destruct Hstart as [Cs Hs'], Hstop as [Ce [Ef [Be He]]].
  assert (Bs : 0 <= strstart <= strstop).
  { destruct Hs' as [->|[p [Ep ->]]]; [lia|].
    pose proof (strchr_bounds _ _ _ Ep) as Bp. rewrite LW in Bp.
    destruct He as [->|[q [Eq ->]]]; [lia|].
    pose proof (strchr_first _ _ _ _ _ Ep Eq). lia. }
  rewrite int_of_within in H by (unfold INTMAX in *; lia).
  injection H as <-.
  rewrite <- Cs, <- Ce. split; [|lia].
  unfold given, piece. cbn [fst snd].
  rewrite firstn_skipn_comm.
  replace (Z.to_nat strstart + Z.to_nat (strstop - strstart + 1 - 1))%nat
    with (Z.to_nat strstop) by lia.
  rewrite Ef. unfold W. rewrite firstn_firstn.
  replace (Nat.min (Z.to_nat strstop) (Z.to_nat r)) with (Z.to_nat strstop)
    by lia.
  rewrite skipn_firstn_comm. unfold X. rewrite skipn_skipn.
  f_equal; [lia|]. f_equal. lia.
Qed.

(** The strings of the first [k] tasks, one after the other, are the
    file up to the cut of task [k]. *)
Lemma strings_join : forall (k : nat) (strings : list (list Z * Z)),
  Z.of_nat k <= ntask ->
  Forall2 (fun j s => read_task (Char c) delta text n j ntask = Ok s)
          (range 0 (Z.of_nat k)) strings ->
  concat (List.map given strings)
  = firstn (Z.to_nat (cut text c ntask (Z.of_nat k))) text
  /\ 0 <= cut text c ntask (Z.of_nat k).
Proof.
  induction k as [|k IH]; intros strings Hk H.
  - rewrite range_nil in H by lia. destruct strings; [|inversion H].
    split; [reflexivity|]. cbn. lia.
  - rewrite (range_app 0 (Z.of_nat k) (Z.of_nat (S k))) in H by lia.
    apply Forall2_app_inv_l in H.
    destruct H as [before [last [Hb [Hl ->]]]].
    rewrite (range_cons (Z.of_nat k)), range_nil in Hl by lia.
    destruct last as [|s last]; [inversion Hl|].
    apply Forall2_cons_iff in Hl. destruct Hl as [Hs Hnil].
    destruct last; [|inversion Hnil].
    destruct (IH before ltac:(lia) Hb) as [Eb Cb].
    destruct (read_task_piece (Z.of_nat k) s ltac:(lia) Hs) as [Eg [Cg _]].
    replace (Z.of_nat (S k)) with (Z.of_nat k + 1) by lia.
    rewrite map_app, concat_app, Eb. cbn [List.map concat].
    rewrite app_nil_r, Eg. split; [apply piece_join; lia|lia].
Qed.

End TaskString.

(** The strings of all the tasks of a file, in the order of the tasks,
    are the file. *)
Lemma file_strings_join (text : list Z) (c delta ntask : Z)
    (strings : list (list Z * Z)) :
  Forall (fun x => x <> 0) text -> c <> 0 -> 0 <= delta ->
  Z.of_nat (length text) + delta < INTMAX -> 1 <= ntask <= INTMAX ->
  Forall2 (fun j s =>
             read_task (Char c) delta text (Z.of_nat (length text)) j ntask
             = Ok s)
          (range 0 ntask) strings ->
  concat (List.map given strings) = text.
Proof.
  intros Hz Hc Hd Hs Hn H.
  destruct (strings_join text (Z.of_nat (length text)) c delta ntask eq_refl
              Hz Hc Hd Hs Hn (Z.to_nat ntask) strings ltac:(lia)
              ltac:(rewrite Z2Nat.id by lia; exact H)) as [E _].
  rewrite E, Z2Nat.id by lia. unfold cut.
  rewrite (proj2 (Z.leb_gt _ _)) by lia. rewrite Z.leb_refl.
  rewrite Nat2Z.id. apply firstn_all.
Qed.

(** ** The strings of all tasks *)

(** The [FileMap] of [map_file] for a separator character, the [files]
    and a number of tasks for each. *)
Definition file_map (c delta : Z) (files : list (list Z))
    (tasksperfile : list Z) : FileMap.t :=
  FileMap.mk (Char c) delta
             (List.map (fun f => Z.of_nat (length f)) files) tasksperfile
             (List.map fst (tasks tasksperfile))
             (List.map snd (tasks tasksperfile)).

Lemma Forall2_through_map {A B C : Type} (f : A -> B) (R : B -> C -> Prop)
    (l : list A) (l' : list C) :
  Forall2 (fun x y => R (f x) y) l l' <-> Forall2 R (List.map f l) l'.
Proof.
  split.
  - induction 1; cbn [List.map]; constructor; auto.
  - revert l'. induction l as [|a l IH]; intros l' H; cbn [List.map] in H.
    + inversion H. constructor.
    + inversion H as [|? y ? r Ha Hr]. constructor; auto.
Qed.

Lemma in_part {A : Type} (l : list A) (k : nat) (x : A) :
  In x (firstn k l) \/ In x (skipn k l) -> In x l.
Proof.
  intros H. rewrite <- (firstn_skipn k l). apply in_or_app. exact H.
Qed.

(** What [task_string] looks up for a task. *)
Definition task_of (c delta : Z) (files : list (list Z))
    (tasksperfile : list Z) (ij : Z * Z) : result (list Z * Z) :=
  read_task (Char c) delta (nth (Z.to_nat (fst ij)) files [])
            (Z.of_nat (length (nth (Z.to_nat (fst ij)) files [])))
            (snd ij) (nth (Z.to_nat (fst ij)) tasksperfile 0).

Lemma task_string_lookup (c delta : Z) (files : list (list Z))
    (tasksperfile : list Z) (imap : Z) :
  task_string (file_map c delta files tasksperfile) files imap
  = task_of c delta files tasksperfile
            (nth (Z.to_nat imap) (tasks tasksperfile) (0, 0)).
Proof.
  unfold task_string, task_of, file_map.
  cbn [FileMap.sep FileMap.delta FileMap.whichfile FileMap.whichtask
       FileMap.filesize FileMap.tasksperfile].
  assert (F : forall k, nth k (List.map fst (tasks tasksperfile)) 0
                        = fst (nth k (tasks tasksperfile) (0, 0)))
    by (intros k; exact (map_nth fst (tasks tasksperfile) (0, 0) k)).
  assert (S : forall k, nth k (List.map snd (tasks tasksperfile)) 0
                        = snd (nth k (tasks tasksperfile) (0, 0)))
    by (intros k; exact (map_nth snd (tasks tasksperfile) (0, 0) k)).
  assert (L : forall i, nth i (List.map (fun f => Z.of_nat (length f)) files) 0
                        = Z.of_nat (length (nth i files [])))
    by (intros i;
        exact (map_nth (fun f => Z.of_nat (length f)) files [] i)).
  now rewrite F, S, L.
Qed.

Section AllTasks.
Variables (files : list (list Z)) (tasksperfile : list Z) (c delta : Z).
Hypothesis one_count_each : length tasksperfile = length files.
Hypothesis counts : Forall (fun n => 1 <= n <= INTMAX) tasksperfile.
Hypothesis texts :
  Forall (fun text =>
            Forall (fun x => x <> 0) text
            /\ Z.of_nat (length text) + delta < INTMAX) files.
Hypothesis separator_char : c <> 0.
Hypothesis delta_range : 0 <= delta.

Lemma strings_from : forall (k first : nat) (strings : list (list Z * Z)),
  (first + k = length tasksperfile)%nat ->
  Forall2 (fun ij s => task_of c delta files tasksperfile ij = Ok s)
          (concat
             (List.map
                (fun f =>
                   List.map (fun j => (Z.of_nat (fst f), Z.of_nat j))
                            (seq 0 (Z.to_nat (snd f))))
                (combine (seq first k) (skipn first tasksperfile))))
          strings ->
  concat (List.map given strings) = concat (skipn first files).
Proof.
  induction k as [|k IH]; intros first strings Hk H.
  - cbn [seq combine List.map concat] in H.
    destruct strings; [|inversion H].
    rewrite skipn_all2 by lia. reflexivity.
  - rewrite (KeyValueFacts.skipn_nth_cons 0 tasksperfile first) in H by lia.
    rewrite (KeyValueFacts.skipn_nth_cons [] files first) by lia.
    cbn [seq combine List.map concat fst snd] in H.
    apply Forall2_app_inv_l in H.
    destruct H as [here [later [Hh [Hl ->]]]].
    rewrite map_app, concat_app. cbn [concat]. f_equal.
    + set (text := nth first files []) in *.
      set (ntask := nth first tasksperfile 0) in *.
      assert (Ht : Forall (fun x => x <> 0) text
                   /\ Z.of_nat (length text) + delta < INTMAX).
      { pose proof texts as T. rewrite Forall_forall in T.
        apply T. apply nth_In. lia. }
      assert (Hn : 1 <= ntask <= INTMAX).
      { pose proof counts as T. rewrite Forall_forall in T.
        apply (T ntask). apply nth_In. lia. }
      apply (file_strings_join text c delta ntask here (proj1 Ht)
               separator_char delta_range (proj2 Ht) Hn).
      unfold range. rewrite Z.sub_0_r.
      apply Forall2_through_map.
      apply Forall2_through_map in Hh.
      eapply Forall2_impl; [|exact Hh].
      intros j s E. unfold task_of in E. cbn [fst snd] in E.
      rewrite Nat2Z.id in E. exact E.
    + apply (IH (S first) later ltac:(lia)). exact Hl.
Qed.

Lemma all_strings_join (strings : list (list Z * Z)) :
  Forall2 (fun imap s =>
             task_string (file_map c delta files tasksperfile) files imap
             = Ok s)
          (range 0 (Z.of_nat (length (tasks tasksperfile)))) strings ->
  concat (List.map given strings) = concat files.
Proof.
  intros H.
  apply (strings_from (length tasksperfile) 0 strings eq_refl).
  cbn [skipn]. fold (tasks tasksperfile).
  rewrite (list_by_index (tasks tasksperfile) (0, 0)) at 1.
  apply Forall2_through_map.
  eapply Forall2_impl; [|exact H].
  intros imap s E. cbn beta. now rewrite <- task_string_lookup.
Qed.

End AllTasks.

(** With a separator character other than 0, files without a 0 byte and
    at least one task for each file: when every task finds its
    separators, the strings handed to [appmapfile], in the order of the
    tasks, are the contents of the files in the order of the files;
    nothing is left out and nothing is handed out twice. *)
Theorem map_file_strings_tile (files : list (list Z))
    (tasksperfile : list Z) (c delta : Z) (strings : list (list Z * Z)) :
  length tasksperfile = length files ->
  Forall (fun n => 1 <= n <= INTMAX) tasksperfile ->
  Forall (fun text =>
            Forall (fun x => x <> 0) text
            /\ Z.of_nat (length text) + delta < INTMAX) files ->
  c <> 0 -> 0 <= delta ->
  Forall2 (fun imap s =>
             task_string (file_map c delta files tasksperfile) files imap
             = Ok s)
          (range 0 (Z.of_nat (length (tasks tasksperfile)))) strings ->
  concat (List.map given strings) = concat files.
Proof.
  intros. now apply (all_strings_join files tasksperfile c delta).
Qed.

(** A file of five bytes with the separator 10 at two places, read by
    two tasks. *)
Lemma map_file_strings_tile_witness :
  concat (List.map given [([97; 10; 98; 10; 0], 5); ([99; 0], 2)])
  = concat [[97; 10; 98; 10; 99]].
Proof.
  apply (map_file_strings_tile [[97; 10; 98; 10; 99]] [2] 10 2).
  - reflexivity.
  - apply Forall_cons; [unfold INTMAX; lia|apply Forall_nil].
  - apply Forall_cons; [|apply Forall_nil]. split.
    + repeat (apply Forall_cons; [discriminate|]). apply Forall_nil.
    + vm_compute. reflexivity.
  - discriminate.
  - lia.
  - apply Forall2_cons; [reflexivity|].
    apply Forall2_cons; [reflexivity|]. apply Forall2_nil.
Defined.

(** The string of a task that finds its separators starts at the start of
    the file for the first task of the file, and behind the first
    separator at or after its [readstart] for the others; it ends where
    the string of the next task starts, and at the end of the file for
    the last task. *)
Theorem task_string_between_cuts (text : list Z) (c delta ntask j : Z)
    (s : list Z * Z) :
  Forall (fun x => x <> 0) text -> c <> 0 -> 0 <= delta ->
  Z.of_nat (length text) + delta < INTMAX -> 1 <= ntask <= INTMAX ->
  0 <= j < ntask ->
  read_task (Char c) delta text (Z.of_nat (length text)) j ntask = Ok s ->
  given s = piece text (cut text c ntask j) (cut text c ntask (j + 1))
  /\ 0 <= cut text c ntask j <= cut text c ntask (j + 1)
  /\ cut text c ntask (j + 1) <= Z.of_nat (length text).
Proof.
  intros Hz Hc Hd Hs Hn Hj H.
  exact (read_task_piece text (Z.of_nat (length text)) c delta ntask eq_refl
           Hz Hc Hd Hs Hn j s Hj H).
Qed.

Lemma task_string_between_cuts_witness :
  given ([99; 0], 2)
  = piece [97; 10; 98; 10; 99] (cut [97; 10; 98; 10; 99] 10 2 1)
          (cut [97; 10; 98; 10; 99] 10 2 (1 + 1))
  /\ 0 <= cut [97; 10; 98; 10; 99] 10 2 1
          <= cut [97; 10; 98; 10; 99] 10 2 (1 + 1)
  /\ cut [97; 10; 98; 10; 99] 10 2 (1 + 1)
     <= Z.of_nat (length [97; 10; 98; 10; 99]).
Proof.
  apply (task_string_between_cuts [97; 10; 98; 10; 99] 10 2 2 1 ([99; 0], 2)).
  - repeat (apply Forall_cons; [discriminate|]). apply Forall_nil.
  - discriminate.
  - lia.
  - vm_compute. reflexivity.
  - unfold INTMAX. lia.
  - lia.
  - reflexivity.
Defined.

(** A file that does not hold the separator character cannot be cut: with
    two tasks or more for it, every task stops with the error. *)
Theorem no_separator_no_string (text : list Z) (c delta ntask j : Z) :
  Forall (fun x => x <> 0) text -> c <> 0 -> 0 <= delta ->
  Z.of_nat (length text) + delta < INTMAX -> 2 <= ntask <= INTMAX ->
  ~ In c text -> 0 <= j < ntask ->
  read_task (Char c) delta text (Z.of_nat (length text)) j ntask
  = Fatal "Could not find separator within delta".
Proof.
  intros Hz Hc Hd Hs Hn Hin Hj.
  rewrite (read_task_steps text (Z.of_nat (length text)) c delta ntask
             eq_refl Hz Hc Hd Hs ltac:(lia) j Hj).
  cbv zeta.
  set (W := firstn _ (skipn _ text)).
  assert (HW : ~ In c W).
  { intros H. apply Hin. apply (in_part text (Z.to_nat
      (bound (Z.of_nat (length text)) ntask j))). right.
    apply (in_part _ (Z.to_nat
      (Z.min (bound (Z.of_nat (length text)) ntask (j + 1)
              - bound (Z.of_nat (length text)) ntask j + delta)
             (Z.of_nat (length text)
              - bound (Z.of_nat (length text)) ntask j)))).
    left. exact H. }
  destruct (j >? 0) eqn:Hj0.
  - rewrite (strchr_absent W c HW). reflexivity.
  - rewrite Z.gtb_ltb in Hj0. apply Z.ltb_ge in Hj0. cbn [bind].
    rewrite (proj2 (Z.ltb_lt _ _)) by lia.
    rewrite strchr_absent; [reflexivity|].
    intros H. apply HW. apply (in_part W (Z.to_nat
      (bound (Z.of_nat (length text)) ntask (j + 1)
       - bound (Z.of_nat (length text)) ntask j))).
    right. exact H.
Qed.

Lemma no_separator_no_string_witness :
  read_task (Char 10) 2 [97; 98; 99; 100] (Z.of_nat (length [97; 98; 99; 100]))
            1 2
  = Fatal "Could not find separator within delta".
Proof.
  apply (no_separator_no_string [97; 98; 99; 100] 10 2 2 1).
  - repeat (apply Forall_cons; [discriminate|]). apply Forall_nil.
  - discriminate.
  - lia.
  - vm_compute. reflexivity.
  - unfold INTMAX. lia.
  - intros [H|[H|[H|[H|[]]]]]; discriminate.
  - lia.
Defined.

(** ** [map_file] on files too small for the tasks *)

Definition sizes (files : list (list Z)) : list Z :=
  List.map (fun f => Z.of_nat (length f)) files.

Section NoEnd.
Context {E : Externals}.

(** With fewer files than tasks and no file larger than the ideal size
    of a task (the bytes of all files divided by [nmap], and at least
    one), as with a single file of one byte for two tasks,
    [while (ntasks < nmap)] of [map_file] has nothing to raise: no number
    of passes ends it, and [map_file] does not return. *)
Theorem map_file_does_not_end (nmap : Z) (files : list (list Z))
    (sep : separator) (delta : Z) (appmapfile : file_callback)
    (addflag : Z) (g : group) :
  Z.of_nat (length files) < nmap -> nmap <= INTMAX ->
  Forall (fun size => size <= nideal (sizes files) nmap) (sizes files) ->
  Forall (fun s => allocated s = true) g ->
  (forall fuel,
     grow fuel (nideal (sizes files) nmap) nmap (sizes files)
          (initial (sizes files) (nideal (sizes files) nmap))
          (count (initial (sizes files) (nideal (sizes files) nmap)))
     = None)
  /\ map_file nmap files sep delta appmapfile addflag g
     = Fatal "map_file: while (ntasks < nmap) does not end".
Proof.
  intros Hlen Hmax Hs Ha.
  assert (Hl : Z.of_nat (length (sizes files)) < nmap)
    by (unfold sizes; now rewrite length_map).
  assert (Hs' : Forall (fun size => 0 <= size <= nideal (sizes files) nmap)
                       (sizes files)).
  { apply Forall_forall. intros size Hin.
    rewrite Forall_forall in Hs. specialize (Hs _ Hin).
    unfold sizes in Hin. apply in_map_iff in Hin.
    destruct Hin as [f [<- _]]. lia. }
  destruct (split_never_ends nmap (sizes files) delta Hl Hmax Hs')
    as [_ [G S]].
  split; [exact G|].
  unfold map_file.
  replace (Z.of_nat (length files) >? nmap) with false
    by (symmetry; rewrite Z.gtb_ltb; apply Z.ltb_ge; lia).
  destruct (each_from_rel
              (fun _ s =>
                 s1 <- (if allocated s then Ok s else allocate s) ;;
                 Ok (set_kmv s1 None))
              (fun s => allocated s = true) (fun _ _ => True)
              ltac:(intros me s Hs0; cbn beta; rewrite Hs0; cbn [bind];
                    eauto)
              g 0 Ha) as [g0 [E0 _]].
  unfold each. rewrite E0. cbn [bind].
  unfold plan. fold (sizes files). rewrite S. reflexivity.
Qed.

End NoEnd.

(** One file of one byte, two tasks, one rank. *)
Lemma map_file_does_not_end_witness :
  (forall fuel,
     grow fuel (nideal (sizes [[97]]) 2) 2 (sizes [[97]])
          (initial (sizes [[97]]) (nideal (sizes [[97]]) 2))
          (count (initial (sizes [[97]]) (nideal (sizes [[97]]) 2)))
     = None)
  /\ map_file (E := Reference.externals) 2 [[97]] (Char 10) 0
              (fun _ _ _ k => Ok k) 0 [rank_with first_kv]
     = Fatal "map_file: while (ntasks < nmap) does not end".
Proof.
  apply (map_file_does_not_end (E := Reference.externals) 2 [[97]] (Char 10) 0
           (fun _ _ _ k => Ok k) 0 [rank_with first_kv]).
  - cbn. lia.
  - unfold INTMAX. lia.
  - apply Forall_cons; [|apply Forall_nil]. vm_compute. discriminate.
  - apply Forall_cons; [reflexivity|apply Forall_nil].
Defined.

End FileMapFacts.

(** * Facts about [map] over a file of file names *)

Module MapNamesFacts.
Import CInt MapReduce MapReduceFacts DriverFacts MapNames.

(** The file whose lines are [lines], each closed by a newline. *)
Definition text_of (lines : list (list Z)) : list Z :=
  concat (List.map (fun line => line ++ [10]) lines).

Definition spaces (s : list Z) : Prop := Forall (fun c => isspace c = true) s.

(** A line [fgets] reads at once and that holds a name: no newline and
    no 0 inside, fewer than [MAXLINE-1] characters, one of them not a
    space. *)
Definition names_a_file (line : list Z) : Prop :=
  ~ In 10 line /\ ~ In 0 line /\ Z.of_nat (length line) < MAXLINE - 1
  /\ Exists (fun c => isspace c = false) line.

(** [name] is [line] without the spaces at its two ends. *)
Definition trimmed (line name : list Z) : Prop :=
  exists before behind,
    line = before ++ name ++ behind /\ spaces before /\ spaces behind
    /\ name <> [] /\ isspace (hd 0 name) = false
    /\ isspace (last name 0) = false.

Lemma fgets_from_line (line rest : list Z) : forall room,
  ~ In 10 line -> (length line < room)%nat ->
  fgets_from room (line ++ 10 :: rest) = (line ++ [10], rest).
Proof.
  induction line as [|c line IH]; intros room Hn Hr.
  - destruct room; [cbn in Hr; lia|]. reflexivity.
  - destruct room; [cbn in Hr; lia|]. cbn [app fgets_from].
    replace (c =? 10) with false
      by (symmetry; apply Z.eqb_neq; intros ->; apply Hn; now left).
    rewrite IH; [reflexivity| |cbn [length] in Hr; lia].
    intros H. apply Hn. now right.
Qed.

Lemma fgets_line (line rest : list Z) :
  ~ In 10 line -> Z.of_nat (length line) < MAXLINE - 1 ->
  fgets (line ++ 10 :: rest) = Some (line ++ [10], rest).
Proof.
  intros Hn Hl. unfold fgets.
  destruct (line ++ 10 :: rest) as [|c r] eqn:Et;
    [destruct line; discriminate|].
  rewrite <- Et. rewrite fgets_from_line by (auto; lia). reflexivity.
Qed.

Lemma cstring_clean (s : list Z) : ~ In 0 s -> cstring s = s.
Proof.
  induction s as [|c s IH]; intros H; [reflexivity|]. cbn [cstring].
  replace (c =? 0) with false
    by (symmetry; apply Z.eqb_neq; intros ->; apply H; now left).
  rewrite IH; [reflexivity|]. intros Hin. apply H. now right.
Qed.

Lemma skip_spaces_split (s : list Z) :
  exists before, s = before ++ skip_spaces s /\ spaces before.
Proof.
  induction s as [|c s [before [E S]]].
  - exists []. split; [reflexivity|constructor].
  - cbn [skip_spaces]. destruct (isspace c) eqn:Hc.
    + exists (c :: before). split; [cbn [app]; now f_equal|].
      now constructor.
    + exists []. split; [reflexivity|constructor].
Qed.

Lemma skip_spaces_head (s : list Z) (c : Z) (r : list Z) :
  skip_spaces s = c :: r -> isspace c = false.
Proof.
  induction s as [|x s IH]; cbn [skip_spaces]; [discriminate|].
  destruct (isspace x) eqn:Hx; [exact IH|].
  intros H. injection H as <- _. exact Hx.
Qed.

Lemma skip_spaces_nil (s : list Z) : skip_spaces s = [] -> spaces s.
Proof.
  induction s as [|x s IH]; cbn [skip_spaces]; [constructor|].
  destruct (isspace x) eqn:Hx; [|discriminate].
  intros H. constructor; [exact Hx|now apply IH].
Qed.

Lemma skip_spaces_all (s : list Z) : spaces s -> skip_spaces s = [].
Proof.
  induction 1 as [|x s Hx _ IH]; [reflexivity|].
  cbn [skip_spaces]. now rewrite Hx.
Qed.

Lemma spaces_no_other (s : list Z) :
  spaces s -> Exists (fun c => isspace c = false) s -> False.
Proof.
  intros Hs He. apply Exists_exists in He. destruct He as [c [Hin Hc]].
  unfold spaces in Hs. rewrite Forall_forall in Hs.
  rewrite (Hs c Hin) in Hc. discriminate.
Qed.

Lemma nil_or_last {A : Type} (l : list A) :
  l = [] \/ exists front x, l = front ++ [x].
Proof.
  induction l as [|x l _] using rev_ind; [now left|].
  right. now exists l, x.
Qed.

(** The name of a line that holds one. *)
Lemma name_of_line (line : list Z) :
  names_a_file line ->
  exists name, name_of (line ++ [10]) = Ok name /\ trimmed line name.
Proof.
  intros [Hn [Hz [_ Hx]]]. unfold name_of.
  rewrite cstring_clean
    by (intros H; apply in_app_or in H;
        destruct H as [H|[H|[]]]; [now apply Hz|discriminate]).
  cbv zeta.
  destruct (skip_spaces_split (line ++ [10])) as [before [Eb Sb]].
  destruct (skip_spaces (line ++ [10])) as [|c r] eqn:Ep.
  { exfalso. apply skip_spaces_nil in Ep. unfold spaces in Ep.
    apply Forall_app in Ep. now apply (spaces_no_other line). }
  pose proof (skip_spaces_head _ _ _ Ep) as Hc.
  replace (Z.of_nat (length (c :: r)) =? 0) with false
    by (symmetry; apply Z.eqb_neq; cbn [length]; lia).
  exists (cut_spaces (c :: r)). split; [reflexivity|].
  unfold cut_spaces.
  destruct (skip_spaces_split (rev (c :: r))) as [back [Er Sr]].
  destruct (skip_spaces (rev (c :: r))) as [|d t] eqn:Et.
  { exfalso. apply skip_spaces_nil in Et. unfold spaces in Et.
    apply Forall_rev in Et. rewrite rev_involutive in Et.
    inversion Et as [|? ? Hc' _]. rewrite Hc' in Hc. discriminate. }
  pose proof (skip_spaces_head _ _ _ Et) as Hd.
  assert (Ecr : c :: r = rev (d :: t) ++ rev back).
  { rewrite <- rev_app_distr, <- Er. now rewrite rev_involutive. }
  assert (Sk : spaces (rev back)) by (now apply Forall_rev).
  (* the newline is among the spaces behind the name *)
  destruct (nil_or_last (rev back)) as [Eback|[behind [x Eback]]];
    rewrite Eback in *.
  { exfalso. rewrite app_nil_r in Ecr. rewrite Ecr in Eb.
    cbn [rev] in Eb. rewrite !app_assoc in Eb.
    apply app_inj_tail in Eb. destruct Eb as [_ Eb].
    rewrite <- Eb in Hd. discriminate. }
  rewrite Ecr, !app_assoc in Eb. apply app_inj_tail in Eb.
  destruct Eb as [Eb _].
  exists before, behind. rewrite <- app_assoc in Eb.
  split; [exact Eb|]. split; [exact Sb|].
  split; [unfold spaces in Sk; apply Forall_app in Sk; apply Sk|].
  cbn [rev]. split; [destruct (rev t); discriminate|].
  split.
  - destruct (rev t) as [|y u] eqn:Eu.
    + cbn [rev app] in Ecr. rewrite Eu in Ecr. cbn [app] in Ecr.
      injection Ecr as <- _. exact Hc.
    + cbn [rev app] in Ecr. rewrite Eu in Ecr. cbn [app] in Ecr.
      injection Ecr as <- _. exact Hc.
  - rewrite last_last. exact Hd.
Qed.

Lemma text_of_cons (line : list Z) (lines : list (list Z)) :
  text_of (line :: lines) = line ++ 10 :: text_of lines.
Proof.
  unfold text_of. cbn [List.map concat]. now rewrite <- app_assoc.
Qed.

(** The loop over lines that hold names, in front of whatever the file
    goes on with. *)
Lemma read_lines_names (rest : list Z) : forall lines fuel files,
  Forall names_a_file lines ->
  exists names,
    Forall2 trimmed lines names
    /\ read_lines (length lines + fuel) (text_of lines ++ rest) files
       = read_lines fuel rest (files ++ names).
Proof.
  induction lines as [|line lines IH]; intros fuel files H.
  - exists []. split; [constructor|]. cbn. now rewrite app_nil_r.
  - inversion H as [|? ? Hl Hr]; subst.
    destruct (name_of_line line Hl) as [name [En Tn]].
    destruct (IH fuel (files ++ [name]) Hr) as [names [Tr Er]].
    exists (name :: names). split; [now constructor|].
    cbn [length Nat.add read_lines].
    rewrite text_of_cons, <- app_assoc. cbn [app].
    destruct Hl as [Hn [_ [Hs _]]].
    rewrite (fgets_line line _ Hn Hs), En. cbn [bind].
    rewrite Er, <- app_assoc. reflexivity.
Qed.

Lemma lines_in_text (lines : list (list Z)) :
  (length lines <= length (text_of lines))%nat.
Proof.
  induction lines as [|line lines IH]; [cbn; lia|].
  rewrite text_of_cons, length_app. cbn [length]. lia.
Qed.

(** From a file whose lines all hold a name, [map] collects one name for
    every line, in the order of the lines: the line without the spaces
    in front of its first and behind its last character that is not a
    space. *)
Theorem names_are_trimmed_lines (lines : list (list Z)) :
  Forall names_a_file lines ->
  exists names,
    read_names (Some (text_of lines)) = Ok names
    /\ Forall2 trimmed lines names.
Proof.
  intros H. unfold read_names.
  destruct (read_lines_names [] lines
              (S (length (text_of lines)) - length lines) [] H)
    as [names [T E]].
  rewrite app_nil_r in E.
  pose proof (lines_in_text lines) as L.
  replace (length lines + (S (length (text_of lines)) - length lines))%nat
    with (S (length (text_of lines))) in E by lia.
  exists names. split; [|exact T].
  rewrite E.
  destruct (S (length (text_of lines)) - length lines)%nat eqn:Ef; [lia|].
  reflexivity.
Qed.

(** The names [ a ] and [b c] of a file of two lines. *)
Lemma names_are_trimmed_lines_witness :
  exists names,
    read_names (Some (text_of [[32; 97; 32]; [98; 32; 99]])) = Ok names
    /\ Forall2 trimmed [[32; 97; 32]; [98; 32; 99]] names.
Proof.
  apply (names_are_trimmed_lines [[32; 97; 32]; [98; 32; 99]]).
  apply Forall_cons; [|apply Forall_cons; [|apply Forall_nil]].
  - split; [intros [H|[H|[H|[]]]]; discriminate|].
    split; [intros [H|[H|[H|[]]]]; discriminate|].
    split; [vm_compute; reflexivity|].
    apply Exists_cons_tl, Exists_cons_hd. reflexivity.
  - split; [intros [H|[H|[H|[]]]]; discriminate|].
    split; [intros [H|[H|[H|[]]]]; discriminate|].
    split; [vm_compute; reflexivity|].
    apply Exists_cons_hd. reflexivity.
Defined.

(** A line of spaces only, or an empty line, behind lines that hold
    names stops [map] with the error, whatever follows in the file: so
    does an empty line at the end of the file. *)
Theorem blank_line_is_refused (lines : list (list Z)) (blank rest : list Z) :
  Forall names_a_file lines ->
  spaces blank -> ~ In 10 blank -> Z.of_nat (length blank) < MAXLINE - 1 ->
  read_names (Some (text_of lines ++ blank ++ 10 :: rest))
  = Fatal "Blank line in file of file names".
Proof.
  intros H Sb Nb Lb. unfold read_names.
  set (text := text_of lines ++ blank ++ 10 :: rest).
  destruct (read_lines_names (blank ++ 10 :: rest) lines
              (S (length text) - length lines) [] H)
    as [names [T E]].
  assert (L : (length lines < S (length text))%nat).
  { unfold text. rewrite length_app. pose proof (lines_in_text lines). lia. }
  replace (length lines + (S (length text) - length lines))%nat
    with (S (length text)) in E by lia.
  fold text in E. rewrite E.
  destruct (S (length text) - length lines)%nat eqn:Ef; [lia|].
  cbn [read_lines]. rewrite (fgets_line blank rest Nb Lb).
  unfold name_of.
  assert (Sn : spaces (blank ++ [10])).
  { unfold spaces. apply Forall_app. split; [exact Sb|].
    constructor; [reflexivity|constructor]. }
  rewrite cstring_clean.
  - rewrite (skip_spaces_all _ Sn). reflexivity.
  - intros Hin. unfold spaces in Sn. rewrite Forall_forall in Sn.
    specialize (Sn 0 Hin). discriminate.
Qed.

(** A file of one name and an empty line. *)
Lemma blank_line_is_refused_witness :
  read_names (Some (text_of [[97]] ++ [] ++ 10 :: []))
  = Fatal "Blank line in file of file names".
Proof.
  apply (blank_line_is_refused [[97]] [] []).
  - apply Forall_cons; [|apply Forall_nil].
    split; [intros [H|[]]; discriminate|].
    split; [intros [H|[]]; discriminate|].
    split; [vm_compute; reflexivity|].
    apply Exists_cons_hd. reflexivity.
  - constructor.
  - intros [].
  - vm_compute. reflexivity.
Defined.

Section SameAsMap.
Context {E : Externals}.

(** [map] over a file of names that can be read is [map] over as many
    tasks as the file has names, with a callback that hands task [itask]
    the name [itask]: the ranks run the same tasks in the same order and
    end in the same state. *)
Theorem map_names_is_map (file : option (list Z)) (names : list (list Z))
    (appmap : name_callback) (addflag : Z) (g : group) :
  read_names file = Ok names ->
  MapNames.map file appmap addflag g
  = MapReduce.map (int_of (Z.of_nat (length names)))
                  (fun itask => appmap itask (nth (Z.to_nat itask) names []))
                  addflag g.
Proof.
  intros H. unfold MapNames.map, MapReduce.map, each.
  rewrite (each_from_ext
             (fun me => MapNames.map_rank file appmap addflag me
                          (Z.of_nat (length g)))
             (fun me => MapReduce.map_rank
                          (int_of (Z.of_nat (length names)))
                          (fun itask =>
                             appmap itask (nth (Z.to_nat itask) names []))
                          addflag me (Z.of_nat (length g)))); [reflexivity|].
  intros me s. unfold MapNames.map_rank, MapReduce.map_rank.
  destruct (if allocated s then Ok s else allocate s) as [s1|msg];
    [|reflexivity].
  cbn [bind]. cbv zeta.
  destruct (if addflag =? 0
            then (memswap (set_kmv s1 None), new_kv (set_kmv s1 None))
            else match kv (set_kmv s1 None) with
                 | Some k0 => (set_kmv s1 None, KV.append k0)
                 | None => (memswap (set_kmv s1 None),
                            new_kv (set_kmv s1 None))
                 end) as [s3 k].
  rewrite H. reflexivity.
Qed.

End SameAsMap.

Lemma map_names_is_map_witness :
  MapNames.map (E := Reference.externals)
               (Some (text_of [[32; 97; 32]; [98; 32; 99]]))
               (fun _ name k => KV.add k (mkEntry name [])) 0
               [rank_with first_kv]
  = MapReduce.map (E := Reference.externals)
      (int_of (Z.of_nat (length [[97]; [98; 32; 99]])))
      (fun itask =>
         (fun _ name k => KV.add k (mkEntry name [])) itask
           (nth (Z.to_nat itask) [[97]; [98; 32; 99]] []))
      0 [rank_with first_kv].
Proof.
  apply (map_names_is_map (E := Reference.externals)
           (Some (text_of [[32; 97; 32]; [98; 32; 99]]))
           [[97]; [98; 32; 99]]).
  reflexivity.
Defined.

End MapNamesFacts.

(** * The index arrays of the sort past the memory quarter

    [sort_kv] lays twelve bytes per record over [memavail] and a page may
    hold a record every eight bytes.  This part follows the sort of one
    page whose index arrays end eight bytes past the quarter. *)

Module OverrunFacts.
Import CInt CIntFacts MapReduce MapReduceFacts ContainerFacts DriverFacts.

(** ** Bytes and spans *)

Lemma read_int_image (v : Z) : read_int (int_image v) = Some (int_of v).
Proof. rewrite <- int_at_bytes. reflexivity. Qed.

Lemma span_front (a b : list (option Z)) (from len : Z) :
  0 <= from -> 0 <= len -> from + len <= Z.of_nat (length a) ->
  span from len (a ++ b) = span from len a.
Proof.
  intros Hf Hl Hb. unfold span. rewrite skipn_app, firstn_app.
  rewrite length_skipn.
  replace (Z.to_nat len - (length a - Z.to_nat from))%nat with 0%nat by lia.
  cbn [firstn]. now rewrite app_nil_r.
Qed.

Lemma span_behind (a b : list (option Z)) (from len : Z) :
  Z.of_nat (length a) <= from ->
  span from len (a ++ b) = span (from - Z.of_nat (length a)) len b.
Proof.
  intros Hf. unfold span. rewrite skipn_app.
  rewrite (skipn_all2 a) by lia. cbn [app].
  replace (Z.to_nat from - length a)%nat
    with (Z.to_nat (from - Z.of_nat (length a))) by lia.
  reflexivity.
Qed.

Lemma span_firstn (a : list (option Z)) (n : nat) (from len : Z) :
  0 <= from -> 0 <= len -> from + len <= Z.of_nat n ->
  span from len (firstn n a) = span from len a.
Proof.
  intros Hf Hl Hb. unfold span. rewrite skipn_firstn_comm, firstn_firstn.
  f_equal. lia.
Qed.

(** A cell of [slength] that lies before [mem2] holds what the second loop
    stored. *)
Lemma cell_before (ahead : Z) (lengths out : list (option Z)) (j : Z) :
  0 <= j -> 4 * j + 4 <= ahead -> ahead <= Z.of_nat (length lengths) ->
  span (4 * j) 4 (slength_bytes ahead lengths out) = span (4 * j) 4 lengths.
Proof.
  intros Hj Ha Hl. unfold slength_bytes.
  rewrite span_front by (rewrite ?length_firstn; lia).
  apply span_firstn; lia.
Qed.

(** A cell that lies in [mem2], under bytes the copy loop has written,
    holds these bytes. *)
Lemma cell_behind (ahead : Z) (lengths out : list (option Z)) (j : Z) :
  0 <= ahead <= 4 * j -> ahead <= Z.of_nat (length lengths) ->
  4 * j - ahead + 4 <= Z.of_nat (length out) ->
  span (4 * j) 4 (slength_bytes ahead lengths out) = span (4 * j - ahead) 4 out.
Proof.
  intros Ha Hl Ho. unfold slength_bytes.
  rewrite span_behind by (rewrite length_firstn; lia).
  rewrite length_firstn.
  replace (Z.of_nat (Nat.min (Z.to_nat ahead) (length lengths))) with ahead
    by lia.
  apply span_front; lia.
Qed.

(** The cells of an array of [int]s. *)
Lemma span_cells (vs : list Z) :
  forall j : nat, (j < length vs)%nat ->
    span (4 * Z.of_nat j) 4 (concat (List.map int_image vs))
    = int_image (nth j vs 0).
Proof.
  induction vs as [|v vs IH]; intros j Hj; [cbn [length] in Hj; lia|].
  cbn [List.map concat]. destruct j as [|j].
  - rewrite span_front by (cbn; lia). reflexivity.
  - rewrite span_behind by (cbn; lia).
    replace (4 * Z.of_nat (S j) - Z.of_nat (length (int_image v)))
      with (4 * Z.of_nat j) by (cbn [int_image List.map length]; lia).
    cbn [nth]. apply IH. cbn [length] in Hj. lia.
Qed.

(** [soffset] for records of one size. *)
Lemma starts_even (size : Z) (c : nat) :
  forall (ptr : Z) (i : nat), (i < c)%nat ->
    nth i (record_starts (repeat size c) ptr) 0
    = int_of (ptr + size * Z.of_nat i).
Proof.
  induction c as [|c IH]; intros ptr i Hi; [lia|].
  cbn [repeat record_starts]. destruct i as [|i].
  - cbn [nth]. f_equal. lia.
  - cbn [nth]. rewrite IH by lia. f_equal. lia.
Qed.

(** Chunks of one size. *)
Lemma span_even (chunk rest : list (option Z)) (c : nat) :
  forall i : nat, (i < c)%nat ->
    span (Z.of_nat (length chunk) * Z.of_nat i) (Z.of_nat (length chunk))
         (concat (repeat chunk c) ++ rest)
    = chunk.
Proof.
  induction c as [|c IH]; intros i Hi; [lia|].
  cbn [repeat concat]. rewrite <- app_assoc. destruct i as [|i].
  - rewrite span_front by lia. unfold span. cbn [Z.to_nat Z.mul skipn].
    rewrite Z.mul_0_r. cbn [Z.to_nat skipn]. rewrite Nat2Z.id. apply firstn_all.
  - rewrite span_behind by lia.
    replace (Z.of_nat (length chunk) * Z.of_nat (S i) - Z.of_nat (length chunk))
      with (Z.of_nat (length chunk) * Z.of_nat i) by lia.
    apply IH. lia.
Qed.

(** One pass of the copy loop. *)
Lemma copy_out_step (nkey ahead room : Z) (lengths img : list (option Z))
    (starts : list Z) (j : Z) (rest : list Z) (out : list (option Z))
    (len from : Z) :
  read_int (span (4 * j) 4 (slength_bytes ahead lengths out)) = Some len ->
  nth (Z.to_nat j) starts 0 = from ->
  0 <= j < nkey -> 0 <= len -> 0 <= from ->
  from + len <= Z.of_nat (length img) ->
  Z.of_nat (length out) + len <= room ->
  copy_out nkey ahead room lengths img starts (j :: rest) out
  = copy_out nkey ahead room lengths img starts rest (out ++ span from len img).
Proof.
  intros Hr Hf Hj Hl H0 Hi Ho. cbn [copy_out]. rewrite Hr, Hf.
  replace (0 <=? j) with true by (symmetry; apply Z.leb_le; lia).
  replace (j <? nkey) with true by (symmetry; apply Z.ltb_lt; lia).
  replace (0 <=? len) with true by (symmetry; apply Z.leb_le; lia).
  replace (0 <=? from) with true by (symmetry; apply Z.leb_le; lia).
  replace (from + len <=? Z.of_nat (length img)) with true
    by (symmetry; apply Z.leb_le; lia).
  replace (Z.of_nat (length out) + len <=? room) with true
    by (symmetry; apply Z.leb_le; lia).
  reflexivity.
Qed.

(** ** The reference [qsort] when one element alone is larger *)

Lemma insert_front (c : Z -> Z -> Z) (x : Z) (l : list Z) :
  (forall y, In y l -> c x y <= 0) -> Reference.insert c x l = x :: l.
Proof.
  destruct l as [|y l]; intros H; [reflexivity|].
  cbn [Reference.insert].
  destruct (Z.leb_spec (c x y) 0) as [_|Hgt]; [reflexivity|].
  specialize (H y (or_introl eq_refl)). lia.
Qed.

Lemma insert_back (c : Z -> Z -> Z) (x : Z) (l : list Z) :
  (forall y, In y l -> 0 < c x y) -> Reference.insert c x l = l ++ [x].
Proof.
  induction l as [|y l IH]; intros H; [reflexivity|].
  cbn [Reference.insert app].
  destruct (Z.leb_spec (c x y) 0) as [Hle|_].
  - specialize (H y (or_introl eq_refl)). lia.
  - f_equal. apply IH. intros z Hz. apply H. now right.
Qed.

Lemma insertion_sort_same (c : Z -> Z -> Z) (l : list Z) :
  (forall x y, In x l -> In y l -> c x y <= 0) ->
  Reference.insertion_sort c l = l.
Proof.
  unfold Reference.insertion_sort.
  induction l as [|x l IH]; intros H; [reflexivity|].
  cbn [fold_right]. rewrite IH.
  - apply insert_front. intros y Hy. apply H; [now left|now right].
  - intros a b Ha Hb. apply H; now right.
Qed.

(** ** A page of one record with a key before records without

    [lone] has the key "a" and takes 12 bytes at alignment four, [blank]
    has neither key nor value and takes 8.  [crowd m]: [lone] and [m + 2]
    times [blank]. *)
Definition lone : entry := mkEntry [97] [].
Definition blank : entry := mkEntry [] [].

Definition crowd (m : nat) : list entry := lone :: repeat blank (m + 2).

Definition crowd_sorted (m : nat) : list entry :=
  repeat blank m ++ lone :: repeat blank 2.

Definition limg : list (option Z) := image 4 4 4 lone.
Definition bimg : list (option Z) := image 4 4 4 blank.

Definition crowd_sizes (m : nat) : list Z := 12 :: repeat 8 (m + 2).

Definition crowd_lengths (m : nat) : list (option Z) :=
  concat (List.map int_image (crowd_sizes m)).

Definition crowd_img (m : nat) : list (option Z) :=
  limg ++ concat (repeat bimg (m + 2)).

Lemma length_crowd (m : nat) : length (crowd m) = (m + 3)%nat.
Proof. unfold crowd. cbn [length]. rewrite repeat_length. lia. Qed.

(** [qsort] leaves the first record last, behind the others in their
    order. *)
Lemma crowd_order (m : nat) :
  Reference.insertion_sort (compare_wrapper compare_first 0 (crowd m))
    (List.map Z.of_nat (seq 0 (length (crowd m))))
  = List.map Z.of_nat (seq 1 (m + 2)) ++ [0].
Proof.
  unfold crowd. cbn [length]. rewrite repeat_length. cbn [seq List.map].
  change (Z.of_nat 0) with 0.
  unfold Reference.insertion_sort. cbn [fold_right].
  fold (Reference.insertion_sort
          (compare_wrapper compare_first 0 (lone :: repeat blank (m + 2)))
          (List.map Z.of_nat (seq 1 (m + 2)))).
  assert (Hb : forall x, In x (List.map Z.of_nat (seq 1 (m + 2))) ->
                 nth (Z.to_nat x) (lone :: repeat blank (m + 2)) stale = blank).
  { intros x Hx. apply in_map_iff in Hx. destruct Hx as [i [<- Hi]].
    apply in_seq in Hi. rewrite Nat2Z.id. destruct i as [|i]; [lia|].
    cbn [nth]. apply nth_repeat. }
  rewrite insertion_sort_same.
  - apply insert_back. intros y Hy. unfold compare_wrapper.
    rewrite (Hb y Hy). cbn. lia.
  - intros x y Hx Hy. unfold compare_wrapper. rewrite (Hb x Hx), (Hb y Hy).
    cbn. lia.
Qed.

Lemma length_crowd_lengths (m : nat) :
  Z.of_nat (length (crowd_lengths m)) = 4 * Z.of_nat m + 12.
Proof.
  unfold crowd_lengths, crowd_sizes. cbn [List.map concat].
  rewrite map_repeat, length_app, length_concat_repeat.
  cbn [int_image List.map length]. lia.
Qed.

Lemma length_crowd_img (m : nat) :
  Z.of_nat (length (crowd_img m)) = 8 * Z.of_nat m + 28.
Proof.
  unfold crowd_img. rewrite length_app, length_concat_repeat.
  change (length limg) with 12%nat. change (length bimg) with 8%nat. lia.
Qed.

(** [slength], [soffset] and the bytes of every record but the first. *)
Lemma crowd_cell (m j : nat) :
  (1 <= j < m + 3)%nat ->
  span (4 * Z.of_nat j) 4 (crowd_lengths m) = int_image 8.
Proof.
  intros Hj. unfold crowd_lengths.
  rewrite span_cells
    by (unfold crowd_sizes; cbn [length]; rewrite repeat_length; lia).
  f_equal. unfold crowd_sizes. destruct j as [|j]; [lia|]. cbn [nth].
  rewrite (nth_indep _ 0 8) by (rewrite repeat_length; lia).
  apply nth_repeat.
Qed.

Lemma crowd_start (m j : nat) :
  (1 <= j < m + 3)%nat -> 12 * Z.of_nat m + 28 <= INTMAX ->
  nth j (record_starts (crowd_sizes m) 0) 0 = 8 * Z.of_nat j + 4.
Proof.
  intros Hj Hm. unfold crowd_sizes. cbn [record_starts].
  destruct j as [|j]; [lia|]. cbn [nth].
  rewrite starts_even by lia. unfold INTMAX in Hm.
  rewrite int_of_small by lia. lia.
Qed.

Lemma crowd_record (m j : nat) :
  (1 <= j < m + 3)%nat ->
  span (8 * Z.of_nat j + 4) 8 (crowd_img m) = bimg.
Proof.
  intros Hj. unfold crowd_img.
  rewrite span_behind by (change (length limg) with 12%nat; lia).
  change (length limg) with 12%nat.
  destruct j as [|j]; [lia|].
  replace (8 * Z.of_nat (S j) + 4 - Z.of_nat 12)
    with (Z.of_nat (length bimg) * Z.of_nat j)
    by (change (length bimg) with 8%nat; lia).
  rewrite <- (app_nil_r (concat (repeat bimg (m + 2)))).
  apply (span_even bimg [] (m + 2) j). lia.
Qed.

Lemma blanks_front (c : nat) (from len : Z) :
  (1 <= c)%nat -> 0 <= from -> 0 <= len -> from + len <= 8 ->
  span from len (concat (repeat bimg c)) = span from len bimg.
Proof.
  intros Hc Hf Hl Hb. destruct c as [|c]; [lia|].
  cbn [repeat concat]. apply span_front; [lia|lia|].
  change (length bimg) with 8%nat. lia.
Qed.

(** ** The copy loop when the arrays end eight bytes past the quarter

    The quarter has [12 m + 28] bytes: [order] and [soffset] take
    [8 m + 24] of them, [4 m + 4] are left for the first [m + 1] cells of
    [slength], and the cells of the records [m + 1] and [m + 2] lie in
    [mem2]. *)
Section Crowded.
Variable m : nat.
Hypothesis some : (1 <= m)%nat.
Hypothesis small : 12 * Z.of_nat m + 28 <= INTMAX.

Abbreviation copy_crowd :=
  (copy_out (Z.of_nat (m + 3)) (4 * Z.of_nat m + 4) (2 * (12 * Z.of_nat m + 28))
            (crowd_lengths m) (crowd_img m) (record_starts (crowd_sizes m) 0)).

(** The records whose length is read from the quarter are copied as they
    are. *)
Lemma copy_blanks (rest : list Z) :
  forall c i : nat, (i + c <= m)%nat ->
    copy_crowd (List.map Z.of_nat (seq (S i) c) ++ rest)
               (concat (repeat bimg i))
    = copy_crowd rest (concat (repeat bimg (i + c))).
Proof.
  induction c as [|c IH]; intros i Hi.
  - cbn [seq List.map app]. now rewrite Nat.add_0_r.
  - cbn [seq List.map app].
    rewrite (copy_out_step _ _ _ _ _ _ _ _ _ 8 (8 * Z.of_nat (S i) + 4)).
    + rewrite crowd_record by lia.
      replace (concat (repeat bimg i) ++ bimg) with (concat (repeat bimg (S i))).
      * rewrite IH by lia. f_equal. f_equal. f_equal. lia.
      * replace (S i) with (i + 1)%nat by lia.
        rewrite repeat_app, concat_app. cbn [repeat concat].
        now rewrite app_nil_r.
    + rewrite cell_before by (rewrite ?length_crowd_lengths; lia).
      rewrite crowd_cell by lia. apply read_int_image.
    + rewrite Nat2Z.id. apply crowd_start; [lia|exact small].
    + lia.
    + lia.
    + lia.
    + rewrite length_crowd_img. lia.
    + rewrite length_concat_repeat. change (length bimg) with 8%nat. lia.
Qed.

(** The two records whose length is read from [mem2] find there the first
    record that was copied, whose two lengths are zero, and are not
    copied; the first record of the page comes last. *)
Lemma copy_crowd_all :
  copy_crowd (List.map Z.of_nat (seq 1 (m + 2)) ++ [0]) []
  = Some (concat (repeat bimg m) ++ limg).
Proof.
  rewrite seq_app, map_app, <- app_assoc.
  change (@nil (option Z)) with (concat (repeat bimg 0)).
  rewrite (copy_blanks _ m 0) by lia.
  cbn [Nat.add seq List.map app].
  assert (Hlen : Z.of_nat (length (concat (repeat bimg m))) = 8 * Z.of_nat m).
  { rewrite length_concat_repeat. change (length bimg) with 8%nat. lia. }
  rewrite (copy_out_step _ _ _ _ _ _ _ _ _ 0 (8 * Z.of_nat (S m) + 4)).
  2:{ rewrite cell_behind by (rewrite ?length_crowd_lengths; lia).
      replace (4 * Z.of_nat (S m) - (4 * Z.of_nat m + 4)) with 0 by lia.
      rewrite blanks_front by lia. reflexivity. }
  2:{ rewrite Nat2Z.id. apply crowd_start; [lia|exact small]. }
  2-4: lia.
  2:{ rewrite length_crowd_img. lia. }
  2:{ lia. }
  replace (span (8 * Z.of_nat (S m) + 4) 0 (crowd_img m)) with (@nil (option Z))
    by reflexivity.
  rewrite app_nil_r.
  rewrite (copy_out_step _ _ _ _ _ _ _ _ _ 0 (8 * Z.of_nat (S (S m)) + 4)).
  2:{ rewrite cell_behind by (rewrite ?length_crowd_lengths; lia).
      replace (4 * Z.of_nat (S (S m)) - (4 * Z.of_nat m + 4)) with 4 by lia.
      rewrite blanks_front by lia. reflexivity. }
  2:{ rewrite Nat2Z.id. apply crowd_start; [lia|exact small]. }
  2-4: lia.
  2:{ rewrite length_crowd_img. lia. }
  2:{ lia. }
  replace (span (8 * Z.of_nat (S (S m)) + 4) 0 (crowd_img m))
    with (@nil (option Z)) by reflexivity.
  rewrite app_nil_r.
  rewrite (copy_out_step _ _ _ _ _ _ _ _ _ 12 0).
  2:{ rewrite cell_before by (rewrite ?length_crowd_lengths; lia).
      reflexivity. }
  2:{ reflexivity. }
  2-4: lia.
  2:{ rewrite length_crowd_img. lia. }
  2:{ lia. }
  reflexivity.
Qed.

End Crowded.

(** What the page holds is read back as records. *)
Lemma parse_blanks (rest : list (option Z)) (n : nat) :
  forall c : nat,
    parse (c + n) 4 4 4 (concat (repeat bimg c) ++ rest)
    = option_map (app (repeat blank c)) (parse n 4 4 4 rest).
Proof.
  induction c as [|c IH].
  - cbn [Nat.add repeat concat app]. destruct (parse n 4 4 4 rest); reflexivity.
  - cbn [Nat.add repeat concat parse]. rewrite <- app_assoc.
    change (parse_record 4 4 4 (bimg ++ concat (repeat bimg c) ++ rest))
      with (Some (blank, 8)).
    cbv iota beta.
    change (skipn (Z.to_nat 8) (bimg ++ concat (repeat bimg c) ++ rest))
      with (concat (repeat bimg c) ++ rest).
    rewrite IH. destruct (parse n 4 4 4 rest); reflexivity.
Qed.

(** ** The sort of such a page

    A rank whose quarter has [12 m + 28] bytes, with [memavail] the second
    quarter, and a container of one page, [crowd m]: the [m + 3] records
    take [8 m + 28] bytes, the index arrays [12 m + 36]. *)
Section CrowdedRank.
Variable m : nat.
Variable s : t.
Variable k : KV.t.
Hypothesis some : (1 <= m)%nat.
Hypothesis quarter : memquarter s = 12 * Z.of_nat m + 28.
Hypothesis small : memquarter s <= INTMAX.
Hypothesis half : memhalf s = 2 * memquarter s.
Hypothesis second : memtoggle s = 1.
Hypothesis key_four : KV.kalign k = 4.
Hypothesis value_four : KV.valign k = 4.
Hypothesis record_four : KV.talign k = 4.
Hypothesis one_page : KV.pages k = [crowd m].

Lemma sort_page_past_crowd :
  sort_page_past (E := Reference.externals) compare_first 0 s k (crowd m)
  = Some (crowd_sorted m).
Proof.
  unfold sort_page_past. cbn [qsort Reference.externals].
  rewrite crowd_order, length_crowd.
  assert (Hs : List.map (KV.esize k) (crowd m) = crowd_sizes m).
  { unfold KV.esize, crowd, crowd_sizes.
    rewrite key_four, value_four, record_four.
    cbn [List.map]. rewrite map_repeat. reflexivity. }
  assert (Hl : concat (List.map (fun n => int_image (int_of n)) (crowd_sizes m))
               = crowd_lengths m).
  { unfold crowd_lengths, crowd_sizes. cbn [List.map]. rewrite !map_repeat.
    reflexivity. }
  assert (Hi : concat (List.map (image (KV.kalign k) (KV.valign k) (KV.talign k))
                                (crowd m))
               = crowd_img m).
  { rewrite key_four, value_four, record_four. unfold crowd, crowd_img.
    cbn [List.map concat]. rewrite map_repeat. reflexivity. }
  rewrite Hs, Hl, Hi, half, quarter, length_crowd_img.
  replace (2 * (12 * Z.of_nat m + 28) - (12 * Z.of_nat m + 28)
           - 2 * Z.of_nat (m + 3) * 4)
    with (4 * Z.of_nat m + 4) by lia.
  replace (0 <=? 4 * Z.of_nat m + 4) with true by (symmetry; apply Z.leb_le; lia).
  replace (8 * Z.of_nat m + 28 <=? 12 * Z.of_nat m + 28) with true
    by (symmetry; apply Z.leb_le; lia).
  cbn [andb].
  rewrite (copy_crowd_all m some) by (rewrite <- quarter; exact small).
  rewrite length_app, length_concat_repeat.
  change (length bimg) with 8%nat. change (length limg) with 12%nat.
  replace (Z.of_nat (m * 8 + 12) <=? 12 * Z.of_nat m + 28) with true
    by (symmetry; apply Z.leb_le; lia).
  assert (Hk : skipn (m * 8 + 12) (crowd_img m) = concat (repeat bimg 2)).
  { unfold crowd_img. rewrite repeat_app, concat_app, app_assoc.
    replace (m * 8 + 12)%nat with (length (limg ++ concat (repeat bimg m)))
      by (rewrite length_app, length_concat_repeat;
          change (length bimg) with 8%nat; change (length limg) with 12%nat;
          lia).
    rewrite skipn_app, skipn_all, Nat.sub_diag. reflexivity. }
  rewrite Hk, <- app_assoc, key_four, value_four, record_four, parse_blanks.
  reflexivity.
Qed.

(** [sort_kv] returns, with the first record behind all but two of the
    others. *)
Lemma sort_kv_crowd :
  sort_kv (E := Reference.externals) compare_first 0 s k
  = Ok (set_kv s (Some (KV.set_pages k [crowd_sorted m]))).
Proof.
  unfold sort_kv, KV.request_info, KV.npage. rewrite one_page.
  cbn [length]. change (int_of (Z.of_nat 1)) with 1.
  change (Z.to_nat 1) with 1%nat. cbn [firstn forallb nth].
  unfold index_arrays_fit. rewrite length_crowd, quarter, second.
  replace (3 * 4 * Z.of_nat (m + 3) <=? 12 * Z.of_nat m + 28) with false
    by (symmetry; apply Z.leb_gt; lia).
  cbn [andb negb Z.eqb Pos.eqb]. rewrite sort_page_past_crowd. reflexivity.
Qed.

End CrowdedRank.

(** ** A rank with a megabyte

    The memory is the one [map] leaves on a rank with [memsize = 1]
    (compare [shelf]): quarters of 262144 bytes, [memavail] the second.
    The container holds one record with the key "a" and 21845 records with
    no key and no value, on one page of 174772 bytes; the index arrays take
    262152 bytes. *)
Definition packed_page : list entry := lone :: repeat blank (Z.to_nat 21845).

Definition packed_kv : KV.t := KV.mk 21846 4 4 4 0 0 [] 262144 [packed_page].

Definition packed : t :=
  mk 0 0 0 1 4 4 true 4 4 4 262144 524288 1 (Some packed_kv) None [].

Definition packed_after : list entry :=
  repeat blank (Z.to_nat 21843) ++ lone :: repeat blank 2.

Lemma sum_sizes_blanks (k : KV.t) (c : nat) :
  KV.esize k blank = 8 -> KV.sum_sizes k (repeat blank c) = 8 * Z.of_nat c.
Proof.
  intros H. induction c as [|c IH]; [reflexivity|].
  cbn [repeat]. rewrite sum_sizes_cons, IH, H. lia.
Qed.

(** The container is the one that [add] after [add] and [complete]
    build. *)
Lemma packed_built :
  exists k,
    KV.add_each (new_kv packed) packed_page = Ok k
    /\ KV.complete k = packed_kv.
Proof.
  assert (Hsum : KV.sum_sizes (new_kv packed) packed_page = 174772).
  { unfold packed_page. rewrite sum_sizes_cons, sum_sizes_blanks by reflexivity.
    change (KV.esize (new_kv packed) lone) with 12. lia. }
  assert (Hlen : Z.of_nat (length packed_page) = 21846).
  { unfold packed_page. cbn [length]. rewrite repeat_length. lia. }
  eexists. split.
  - apply add_each_fits.
    + cbn. lia.
    + cbn. lia.
    + cbn. lia.
    + unfold packed_page. constructor.
      * unfold sized. change (KV.esize (new_kv packed) lone) with 12. lia.
      * apply Forall_forall. intros e He. apply repeat_spec in He. subst e.
        unfold sized. change (KV.esize (new_kv packed) blank) with 8. lia.
    + rewrite Hlen. cbn. unfold INTMAX. lia.
    + rewrite Hsum. cbn. lia.
  - rewrite Hsum, Hlen. unfold KV.complete, KV.flush, KV.init_page.
    unfold KV.set_nkv, KV.set_page, KV.set_pages, packed_kv.
    cbn [KV.nkv KV.kalign KV.valign KV.talign KV.nkey KV.alignsize KV.page
         KV.pagesize KV.pages new_kv KV.new app concat].
    rewrite app_nil_r, Hlen. reflexivity.
Qed.

Lemma sort_kv_packed :
  sort_kv (E := Reference.externals) compare_first 0 packed packed_kv
  = Ok (set_kv packed (Some (KV.set_pages packed_kv [packed_after]))).
Proof.
  apply (sort_kv_crowd (Z.to_nat 21843) packed packed_kv).
  - lia.
  - cbn [memquarter packed]. lia.
  - cbn [memquarter packed]. unfold INTMAX. lia.
  - reflexivity.
  - reflexivity.
  - reflexivity.
  - reflexivity.
  - reflexivity.
  - cbn [KV.pages packed_kv]. unfold packed_page, crowd.
    replace (Z.to_nat 21843 + 2)%nat with (Z.to_nat 21845) by lia.
    reflexivity.
Qed.

Lemma sort_keys_packed :
  sort_keys (E := Reference.externals) compare_first [packed]
  = Ok (21846, [set_kv packed (Some (KV.set_pages packed_kv [packed_after]))]).
Proof.
  unfold sort_keys, each. cbn [each_from length].
  unfold sort_rank at 1. cbn [kv packed]. rewrite sort_kv_packed.
  cbn [bind]. reflexivity.
Qed.

Lemma sorted_neighbours {A : Type} (R : A -> A -> Prop) (l1 l2 : list A)
    (x y : A) :
  StronglySorted R (l1 ++ x :: y :: l2) -> R x y.
Proof.
  induction l1 as [|a l1 IH]; cbn [app]; intros H.
  - inversion H as [|? ? _ F]; subst. now inversion F.
  - inversion H; subst. now apply IH.
Qed.


End OverrunFacts.
